(** * Bank-statement parser and analytics: a shallow embedding of [app.js]

    The development follows the source file top-down:

    - [JsString]: JavaScript strings as sequences of UTF-16 code units and the
      [String.prototype] methods the parser calls;
    - [Regex]: the backtracking matcher of ECMAScript regular expressions,
      for the constructs that occur in the source patterns;
    - [JsNumber]: JavaScript numbers as IEEE-754 binary64 values;
    - [parseDateStr], [parseTransactions], [computeAnalytics], [round2]:
      the functions of the source, in the order of the source;
    - [Heap]: [computeAnalytics] again, over an explicit object store, for the
      frame property. *)

From Stdlib Require Import Floats String Ascii.
From Stdlib Require Import List Bool Arith NArith ZArith Lia QArith Qround Lqa.
From Stdlib Require Import Sorting.Permutation Sorting.Sorted.
Close Scope Q_scope.
Import ListNotations.

Set Implicit Arguments.

(* Decimal literals of the source denote the nearest binary64 value. *)
Set Warnings "-inexact-float".

(* ------------------------------------------------------------------------- *)
(** ** Strings *)

Module JsString.

(** A JavaScript string is a finite sequence of 16-bit code units. *)
Definition char := N.
Definition jsstring := list char.

(** A literal of the source, written in ASCII. *)
Definition str (s : string) : jsstring := map N_of_ascii (list_ascii_of_string s).

Definition char_eqb (a b : char) : bool := N.eqb a b.

Fixpoint str_eqb (a b : jsstring) : bool :=
  match a, b with
  | [], [] => true
  | x :: a', y :: b' => char_eqb x y && str_eqb a' b'
  | _, _ => false
  end.

Definition isDigit (c : char) : bool := (N.leb 48 c && N.leb c 57)%bool.
Definition isUpper (c : char) : bool := (N.leb 65 c && N.leb c 90)%bool.
Definition isLower (c : char) : bool := (N.leb 97 c && N.leb c 122)%bool.
Definition isAlpha (c : char) : bool := (isUpper c || isLower c)%bool.

(** [\w]: the class used by [\b]. *)
Definition isWordChar (c : char) : bool :=
  (isAlpha c || isDigit c || N.eqb c 95)%bool.

(** [\s], and what [trim] strips: WhiteSpace and LineTerminator code points. *)
Definition isSpace (c : char) : bool :=
  ((N.leb 9 c && N.leb c 13) || N.eqb c 32 || N.eqb c 160 || N.eqb c 0x1680
   || (N.leb 0x2000 c && N.leb c 0x200a) || N.eqb c 0x2028 || N.eqb c 0x2029
   || N.eqb c 0x202f || N.eqb c 0x205f || N.eqb c 0x3000 || N.eqb c 0xfeff)%bool.

(** The rupee sign of [amtPattern] and [toNumber], one code unit. *)
Definition rupee : char := 0x20b9%N.

Fixpoint dropSpaces (s : jsstring) : jsstring :=
  match s with
  | c :: s' => if isSpace c then dropSpaces s' else s
  | [] => []
  end.

(** [s.trim()] *)
Definition trim (s : jsstring) : jsstring :=
  rev (dropSpaces (rev (dropSpaces s))).

(** [s.toLowerCase()].  The parser only searches the result for ASCII
    keywords, so beyond ASCII the table keeps the two code points whose lower
    case contains an ASCII letter (KELVIN SIGN, and LATIN CAPITAL I WITH DOT
    ABOVE, which lowers to [i] followed by a combining dot); every other code
    unit above 127 lowers to code units above 127 and is kept as it is. *)
Definition lowerChar (c : char) : jsstring :=
  if isUpper c then [(c + 32)%N]
  else if N.eqb c 0x212a then [107%N]
  else if N.eqb c 0x130 then [105%N; 0x307%N]
  else [c].

Definition toLowerCase (s : jsstring) : jsstring := flat_map lowerChar s.

Fixpoint startsWith (p s : jsstring) : bool :=
  match p, s with
  | [], _ => true
  | x :: p', y :: s' => char_eqb x y && startsWith p' s'
  | _ :: _, [] => false
  end.

(** [s.indexOf(p)], [None] for -1. *)
Fixpoint indexOfFrom (p s : jsstring) (i : nat) : option nat :=
  if startsWith p s then Some i
  else match s with
       | [] => None
       | _ :: s' => indexOfFrom p s' (S i)
       end.

Definition indexOf (s p : jsstring) : option nat := indexOfFrom p s 0.

(** [s.lastIndexOf(p)], [None] for -1. *)
Fixpoint lastIndexOfFrom (p s : jsstring) (i : nat) : option nat :=
  match s with
  | [] => if startsWith p s then Some i else None
  | _ :: s' =>
      match lastIndexOfFrom p s' (S i) with
      | Some j => Some j
      | None => if startsWith p s then Some i else None
      end
  end.

Definition lastIndexOf (s p : jsstring) : option nat := lastIndexOfFrom p s 0.

(** [s.includes(p)] *)
Definition includes (s p : jsstring) : bool :=
  match indexOf s p with Some _ => true | None => false end.

(** [s.slice(a, b)] for [0 <= a <= b]. *)
Definition slice (s : jsstring) (a b : nat) : jsstring :=
  firstn (b - a) (skipn a s).

(** [s.substring(a, b)]: both indices are clamped to the length and swapped
    when [a > b]. *)
Definition substring (s : jsstring) (a b : nat) : jsstring :=
  let a' := Nat.min a (length s) in
  let b' := Nat.min b (length s) in
  slice s (Nat.min a' b') (Nat.max a' b').

(** [s.replace(p, '')] with a string pattern: the first occurrence only. *)
Definition removeFirst (s p : jsstring) : jsstring :=
  match indexOf s p with
  | Some i => firstn i s ++ skipn (i + length p) s
  | None => s
  end.

(** [s.split('\n')] *)
Fixpoint splitLines (s : jsstring) : list jsstring :=
  match s with
  | [] => [[]]
  | c :: s' =>
      if N.eqb c 10 then [] :: splitLines s'
      else match splitLines s' with
           | l :: ls => (c :: l) :: ls
           | [] => [[c]]
           end
  end.

(** Truthiness of a string: [Boolean(s)], [!s], [s || t]. *)
Definition truthy (s : jsstring) : bool :=
  match s with [] => false | _ :: _ => true end.

End JsString.
Import JsString.

(* ------------------------------------------------------------------------- *)
(** ** Regular expressions *)

Module Regex.

(** The constructs of the source patterns.  A character class, a literal and
    an escape such as [\d] are all [Char] with the predicate they denote;
    bounded repetitions are built from [Seq], [Alt] and [Star] below. *)
Inductive regex : Type :=
| Empty
| Char (p : char -> bool)
| Seq (r1 r2 : regex)
| Alt (r1 r2 : regex)
| Star (r : regex)
| Group (n : nat) (r : regex)
| AssertStart
| AssertEnd
| WordBoundary.

(** Captures: group number, start and end index. *)
Definition captures := list (nat * (nat * nat)).

Section Matcher.

Variable s : jsstring.
Variable R : Type.

Definition wordAt (i : nat) : bool :=
  match nth_error s i with Some c => isWordChar c | None => false end.

Definition wordBefore (i : nat) : bool :=
  match i with O => false | S j => wordAt j end.

(** The iteration of [r*] at index [i]: one more match of the body, which
    must consume something, then the rest of the iteration; when that fails,
    the continuation of the star.  The string bounds the number of iterations,
    which is what [fuel] counts. *)
Fixpoint iterStar
         (body : nat -> captures -> (nat -> captures -> option R) -> option R)
         (k : nat -> captures -> option R)
         (fuel i : nat) (c : captures) {struct fuel} : option R :=
  match fuel with
  | O => k i c
  | S fuel' =>
      match body i c (fun j c' => if j <=? i then None else iterStar body k fuel' j c') with
      | Some x => Some x
      | None => k i c
      end
  end.

(** The backtracking matcher in continuation-passing style, as in the
    language definition: [run r i c k] matches [r] at index [i] and hands the
    end index to [k]; when [k] fails the next choice of [r] is tried.
    [Alt] tries its left branch first and [Star] is greedy. *)
Fixpoint run (r : regex) (i : nat) (c : captures)
         (k : nat -> captures -> option R) {struct r} : option R :=
  match r with
  | Empty => k i c
  | Char p =>
      match nth_error s i with
      | Some x => if p x then k (S i) c else None
      | None => None
      end
  | Seq r1 r2 => run r1 i c (fun j c' => run r2 j c' k)
  | Alt r1 r2 =>
      match run r1 i c k with
      | Some x => Some x
      | None => run r2 i c k
      end
  | Star r1 => iterStar (run r1) k (length s) i c
  | Group n r1 => run r1 i c (fun j c' => k j ((n, (i, j)) :: c'))
  | AssertStart => if i =? 0 then k i c else None
  | AssertEnd => if i =? length s then k i c else None
  | WordBoundary => if xorb (wordBefore i) (wordAt i) then k i c else None
  end.

End Matcher.

(** One match attempt at index [i]: the end index and the captures. *)
Definition matchAt (r : regex) (s : jsstring) (i : nat) : option (nat * captures) :=
  run s r i [] (fun j c => Some (j, c)).

(** The leftmost match at or after [i], trying [fuel] further start indices. *)
Fixpoint searchFrom (r : regex) (s : jsstring) (fuel i : nat)
  : option (nat * nat * captures) :=
  match matchAt r s i with
  | Some (j, c) => Some (i, j, c)
  | None =>
      match fuel with
      | O => None
      | S fuel' => searchFrom r s fuel' (S i)
      end
  end.

(** [RegExpBuiltinExec] with [lastIndex = from]: start, end and captures. *)
Definition search (r : regex) (s : jsstring) (from : nat)
  : option (nat * nat * captures) :=
  if length s <? from then None else searchFrom r s (length s - from) from.

(** [r.test(s)] for a pattern without the [g] flag. *)
Definition test (r : regex) (s : jsstring) : bool :=
  match search r s 0 with Some _ => true | None => false end.

(** [s.match(r)] for a pattern without the [g] flag: the matched text and
    the captures. *)
Definition matchFirst (r : regex) (s : jsstring) : option (jsstring * captures) :=
  match search r s 0 with
  | Some (a, b, c) => Some (slice s a b, c)
  | None => None
  end.

(** [m[n]] for a group that took part in the match. *)
Fixpoint capture (s : jsstring) (c : captures) (n : nat) : jsstring :=
  match c with
  | [] => []
  | (n', (a, b)) :: c' => if n =? n' then slice s a b else capture s c' n
  end.

(** [s.replace(r, rep)] for a pattern with the [g] flag and a replacement
    without [$]: after an empty match the scan moves one code unit on. *)
Fixpoint replaceFrom (r : regex) (rep s : jsstring) (fuel i : nat) : jsstring :=
  match fuel with
  | O => skipn i s
  | S fuel' =>
      match search r s i with
      | None => skipn i s
      | Some (a, b, _) =>
          slice s i a ++ rep ++
          (if b <=? a
           then slice s a (S a) ++ replaceFrom r rep s fuel' (S a)
           else replaceFrom r rep s fuel' b)
      end
  end.

Definition replaceAll (r : regex) (s rep : jsstring) : jsstring :=
  replaceFrom r rep s (S (length s)) 0.

(** [(s.match(r) || []).length] for a one-character pattern with the [g]
    flag. *)
Definition countChars (p : char -> bool) (s : jsstring) : nat :=
  length (filter p s).

(** *** Pattern syntax *)

Definition lit (c : char) : regex := Char (fun x => N.eqb x c).

(** Canonicalisation under the [i] flag (no [u] flag): a code unit above 127
    is never identified with an ASCII one, so for the ASCII letters of the
    source patterns it is upper-casing on ASCII. *)
Definition canon (c : char) : char := if isLower c then (c - 32)%N else c.
Definition liti (c : char) : regex := Char (fun x => N.eqb (canon x) (canon c)).

Fixpoint seqs (rs : list regex) : regex :=
  match rs with
  | [] => Empty
  | [r] => r
  | r :: rs' => Seq r (seqs rs')
  end.

Fixpoint alts (rs : list regex) : regex :=
  match rs with
  | [] => Empty
  | [r] => r
  | r :: rs' => Alt r (alts rs')
  end.

(** A word of the pattern, with and without the [i] flag. *)
Definition word (w : string) : regex := seqs (map lit (str w)).
Definition wordi (w : string) : regex := seqs (map liti (str w)).

(** [r?], [r+], [r{n}], [r{n,}] and [r{n,m}], all greedy. *)
Definition opt (r : regex) : regex := Alt r Empty.
Definition plus (r : regex) : regex := Seq r (Star r).

Fixpoint times (n : nat) (r : regex) : regex :=
  match n with
  | O => Empty
  | S n' => Seq r (times n' r)
  end.

Fixpoint upto (n : nat) (r : regex) : regex :=
  match n with
  | O => Empty
  | S n' => opt (Seq r (upto n' r))
  end.

Definition atLeast (n : nat) (r : regex) : regex := Seq (times n r) (Star r).
Definition between (n m : nat) (r : regex) : regex := Seq (times n r) (upto (m - n) r).

Definition digit : regex := Char isDigit.
Definition space : regex := Char isSpace.
Definition letter : regex := Char isAlpha.

(** [[\/\.\-]] *)
Definition dateSep : regex :=
  Char (fun x => (N.eqb x 47 || N.eqb x 46 || N.eqb x 45)%bool).

End Regex.
Import Regex.

(* ------------------------------------------------------------------------- *)
(** ** Dates *)

(** [+m[k]] for a capture made of decimal digits. *)
Definition digitsToN (s : jsstring) : N :=
  fold_left (fun acc c => (acc * 10 + (c - 48))%N) s 0%N.

Fixpoint decDigits (fuel : nat) (n : N) (acc : jsstring) : jsstring :=
  match fuel with
  | O => acc
  | S fuel' =>
      let acc' := (48 + n mod 10)%N :: acc in
      if N.eqb (n / 10) 0 then acc' else decDigits fuel' (n / 10)%N acc'
  end.

(** [`${n}`] for a non-negative integer. *)
Definition numToString (n : N) : jsstring := decDigits (S (N.to_nat (N.log2 n))) n [].

(** What [monthMap[key]] evaluates to.  [monthMap] is an object literal, so a
    key it does not define is looked up in [Object.prototype]; the keys that
    reach the lookup are lower-case letters only, and [constructor] is the one
    such name defined there. *)
Inductive monthEntry : Type :=
| MonthNum (n : N)
| MonthUndefined
| MonthObjectConstructor.

Definition monthTable : list (string * N) :=
  [("jan", 1); ("feb", 2); ("mar", 3); ("apr", 4); ("may", 5); ("jun", 6);
   ("jul", 7); ("aug", 8); ("sep", 9); ("sept", 9); ("oct", 10); ("nov", 11);
   ("dec", 12)]%string%N.

Fixpoint lookupMonth (t : list (string * N)) (key : jsstring) : option N :=
  match t with
  | [] => None
  | (k, v) :: t' => if str_eqb key (str k) then Some v else lookupMonth t' key
  end.

Definition monthMap (key : jsstring) : monthEntry :=
  match lookupMonth monthTable key with
  | Some n => MonthNum n
  | None =>
      if str_eqb key (str "constructor") then MonthObjectConstructor
      else MonthUndefined
  end.

(** [pad2(n)] on a number. *)
Definition pad2 (n : N) : jsstring :=
  if N.ltb n 10 then str "0" ++ numToString n else numToString n.

(** [pad2(mo)] on a looked-up month: a function compares false with [10] and
    is printed as its source text. *)
Definition pad2Month (mo : monthEntry) : jsstring :=
  match mo with
  | MonthNum n => pad2 n
  | MonthUndefined => str "undefined"
  | MonthObjectConstructor => str "function Object() { [native code] }"
  end.

(** Truthiness of a looked-up month. *)
Definition monthTruthy (mo : monthEntry) : bool :=
  match mo with
  | MonthNum n => negb (N.eqb n 0)
  | MonthUndefined => false
  | MonthObjectConstructor => true
  end.

Definition isoDate (y : N) (mo d : jsstring) : jsstring :=
  numToString y ++ str "-" ++ mo ++ str "-" ++ d.

(** [/^(\d{4})[\/\.\-](\d{1,2})[\/\.\-](\d{1,2})$/] *)
Definition reYearFirst : regex :=
  seqs [AssertStart; Group 1 (times 4 digit); dateSep; Group 2 (between 1 2 digit);
        dateSep; Group 3 (between 1 2 digit); AssertEnd].

(** [/^(\d{1,2})[\/\.\-](\d{1,2})[\/\.\-](\d{2,4})$/] *)
Definition reDayFirst : regex :=
  seqs [AssertStart; Group 1 (between 1 2 digit); dateSep; Group 2 (between 1 2 digit);
        dateSep; Group 3 (between 2 4 digit); AssertEnd].

(** [/^(\d{1,2})\s+([A-Za-z]{3,})\.?,?\s+(\d{2,4})$/] *)
Definition reDayMonthName : regex :=
  seqs [AssertStart; Group 1 (between 1 2 digit); plus space;
        Group 2 (atLeast 3 letter); opt (lit 46%N); opt (lit 44%N); plus space;
        Group 3 (between 2 4 digit); AssertEnd].

(** [/\.$/] *)
Definition reTrailingDot : regex := Seq (lit 46%N) AssertEnd.

Definition inRange (lo hi n : N) : bool := (N.leb lo n && N.leb n hi)%bool.

(** Two-digit years are read as 20xx. *)
Definition fullYear (y : N) : N := if N.ltb y 100 then (2000 + y)%N else y.

Definition dateYearFirst (s : jsstring) : option jsstring :=
  match matchFirst reYearFirst s with
  | Some (_, m) =>
      let y := digitsToN (capture s m 1) in
      let mo := digitsToN (capture s m 2) in
      let d := digitsToN (capture s m 3) in
      if (inRange 1 12 mo && inRange 1 31 d)%bool
      then Some (isoDate y (pad2 mo) (pad2 d)) else None
  | None => None
  end.

Definition dateDayFirst (s : jsstring) : option jsstring :=
  match matchFirst reDayFirst s with
  | Some (_, m) =>
      let d := digitsToN (capture s m 1) in
      let mo := digitsToN (capture s m 2) in
      let y := fullYear (digitsToN (capture s m 3)) in
      if (inRange 1 12 mo && inRange 1 31 d)%bool
      then Some (isoDate y (pad2 mo) (pad2 d)) else None
  | None => None
  end.

Definition dateDayMonthName (s : jsstring) : option jsstring :=
  match matchFirst reDayMonthName s with
  | Some (_, m) =>
      let d := digitsToN (capture s m 1) in
      let mo := monthMap (replaceAll reTrailingDot (toLowerCase (capture s m 2)) []) in
      let y := fullYear (digitsToN (capture s m 3)) in
      if (monthTruthy mo && inRange 1 31 d)%bool
      then Some (isoDate y (pad2Month mo) (pad2 d)) else None
  | None => None
  end.

Definition orElse {A : Type} (a b : option A) : option A :=
  match a with Some _ => a | None => b end.

(** [parseDateStr(s)]: [None] is [null]. *)
Definition parseDateStr (s : jsstring) : option jsstring :=
  if negb (truthy s) then None
  else
    let s := trim s in
    orElse (dateYearFirst s) (orElse (dateDayFirst s) (dateDayMonthName s)).

(* ------------------------------------------------------------------------- *)
(** ** Numbers *)

Module JsNumber.

(** A JavaScript number is an IEEE-754 binary64 value; the arithmetic
    operators are the kernel's binary64 operations. *)
Definition number := float.

(** [Number.EPSILON], 2^-52. *)
Definition EPSILON : number := 0x1p-52%float.

Definition isNaN (x : number) : bool := PrimFloat.is_nan x.

(** [isFinite(x)] on a number. *)
Definition isFinite (x : number) : bool := PrimFloat.is_finite x.

(** [Math.abs(x)] *)
Definition mathAbs (x : number) : number := PrimFloat.abs x.

(** The number that an integer denotes, rounded to nearest-even. *)
Definition ofZ (z : Z) : number := SF2Prim (binary_normalize prec emax z 0 false).

(** [Math.min(a, b)]: [NaN] when either is, and [-0] below [+0]. *)
Definition mathMin (a b : number) : number :=
  if (isNaN a || isNaN b)%bool then PrimFloat.nan
  else if PrimFloat.ltb a b then a
  else if PrimFloat.ltb b a then b
  else if PrimFloat.get_sign a then a else b.

(** [Math.round(x)]: the integer nearest to [x], the one towards +infinity
    when two are equally near; [-0] for [-0.5 <= x < 0]; [x] itself when [x] is
    an integer, infinite or [NaN].  A finite [x] is [(-1)^s * m * 2^e], so for
    [e < 0] the result is [floor ((+-m + 2^(-e-1)) / 2^(-e))], computed on
    integers. *)
Definition mathRound (x : number) : number :=
  match Prim2SF x with
  | S754_finite s m e =>
      if (0 <=? e)%Z then x
      else
        let n := Z.shiftr (cond_Zopp s (Zpos m) + 2 ^ (- e - 1)) (- e) in
        if (n =? 0)%Z then (if s then PrimFloat.neg_zero else PrimFloat.zero)
        else ofZ n
  | _ => x
  end.

Fixpoint spanDigits (s : jsstring) : jsstring * jsstring :=
  match s with
  | c :: s' =>
      if isDigit c then let '(d, r) := spanDigits s' in (c :: d, r) else ([], s)
  | [] => ([], [])
  end.

(** The binary64 value nearest to [m / 10^k] (ties to even), infinite when
    the quotient is out of range. *)
Definition decimalToNumber (m : N) (k : nat) : number :=
  match m with
  | N0 => PrimFloat.zero
  | Npos p =>
      SF2Prim (SFdiv prec emax (S754_finite false p 0)
                 (S754_finite false (Z.to_pos (10 ^ Z.of_nat k)) 0))
  end.

(** [parseFloat(s)] for the decimal literals without exponent: leading
    white space, a sign, digits, and a fraction; the longest such prefix is
    read and [NaN] is returned when it holds no digit.  (The parser calls it on
    a string of digits, dots and minus signs only, so neither an exponent nor
    [Infinity] can follow.) *)
Definition parseFloat (s : jsstring) : number :=
  let s0 := dropSpaces s in
  let '(neg, s1) :=
    match s0 with
    | c :: r => if N.eqb c 45 then (true, r)
                else if N.eqb c 43 then (false, r) else (false, s0)
    | [] => (false, s0)
    end in
  let '(ip, s2) := spanDigits s1 in
  let fp :=
    match s2 with
    | c :: r => if N.eqb c 46 then fst (spanDigits r) else []
    | [] => []
    end in
  match ip ++ fp with
  | [] => PrimFloat.nan
  | ds =>
      let v := decimalToNumber (digitsToN ds) (length fp) in
      if neg then PrimFloat.opp v else v
  end.

End JsNumber.
Import JsNumber.

(** The arithmetic [round2] is written in: [+], [*], [/], [Math.round],
    [Number.EPSILON] and the literal [100]. *)
Class Arithmetic (T : Type) : Type := {
  numAdd : T -> T -> T;
  numMul : T -> T -> T;
  numDiv : T -> T -> T;
  numRound : T -> T;
  numEpsilon : T;
  numHundred : T
}.

(** [round2(n)], in any arithmetic. *)
Definition round2In (T : Type) (A : Arithmetic T) (n : T) : T :=
  numDiv (numRound (numMul (numAdd n numEpsilon) numHundred)) numHundred.

(** The arithmetic of the program: binary64. *)
#[export] Instance binary64 : Arithmetic number := {
  numAdd := PrimFloat.add;
  numMul := PrimFloat.mul;
  numDiv := PrimFloat.div;
  numRound := mathRound;
  numEpsilon := EPSILON;
  numHundred := 100%float
}.

(** The same operations on exact rationals, without rounding error: the
    reading under which a property of [round2] over the reals is stated.
    [Math.round(x)] is [floor (x + 1/2)]. *)
#[export] Instance exact : Arithmetic Q := {
  numAdd := Qplus;
  numMul := Qmult;
  numDiv := Qdiv;
  numRound := fun x => inject_Z (Qfloor (x + (1 # 2))%Q);
  numEpsilon := (1 # (2 ^ 52))%Q;
  numHundred := (100 # 1)%Q
}.

(** [round2(n)] *)
Definition round2 (n : number) : number := round2In binary64 n.

(** [round2] over the rationals. *)
Definition round2Exact (v : Q) : Q := round2In exact v.

(** The rounding the specification names: to the nearest multiple of 0.01,
    a tie going away from zero. *)
Definition roundHalfAwayFromZero2 (v : Q) : Q :=
  if Qle_bool 0 v
  then (inject_Z (Qfloor (v * (100 # 1) + (1 # 2))) / (100 # 1))%Q
  else (- (inject_Z (Qfloor (- v * (100 # 1) + (1 # 2))) / (100 # 1)))%Q.

(* ------------------------------------------------------------------------- *)
(** ** The statement parser *)

Record Transaction : Type := {
  statementId : jsstring;
  date : option jsstring;       (* [None]: the field is absent *)
  description : jsstring;
  amount : number;
  type : jsstring;
  category : option jsstring;   (* [None]: the field is absent *)
  confidence : number;
  rawLine : jsstring;
  createdAt : jsstring
}.

Record ParsingSummary : Type := {
  linesScanned : nat;
  transactionsExtracted : nat;
  skippedLines : nat;
  examplesOfSkipped : list jsstring
}.

(** [datePattern] *)
Definition datePattern : regex :=
  alts [seqs [between 1 2 digit; dateSep; between 1 2 digit; dateSep; between 2 4 digit];
        seqs [times 4 digit; dateSep; between 1 2 digit; dateSep; between 1 2 digit];
        seqs [between 1 2 digit; plus space; atLeast 3 letter; plus space;
              between 2 4 digit]].

(** [(?:rs\.?|inr|usd|\$|₹)] *)
Definition currencyMarker : regex :=
  alts [Seq (wordi "rs") (opt (lit 46%N)); wordi "inr"; wordi "usd"; lit 36%N; lit rupee].

(** [amtPattern], flags [ig], as the source has it: after the optional sign
    come the sixteen code units [KATEX_INLINE_OPE] and an optional [N], and
    every match ends with the seventeen code units [KATEX_INLINE_CLOS] and an
    optional [E], in either case of the letters. *)
Definition amtPattern : regex :=
  seqs [opt currencyMarker;
        Star space;
        Group 1 (Alt (seqs [opt (Char (fun x => (N.eqb x 43 || N.eqb x 45)%bool));
                            wordi "KATEX_INLINE_OPE";
                            opt (liti 78%N);
                            between 1 3 digit;
                            Star (Seq (lit 44%N) (times 3 digit))])
                     (plus digit));
        opt (Seq (lit 46%N) (between 1 2 digit));
        wordi "KATEX_INLINE_CLOS";
        opt (liti 69%N)].

Definition creditKeywords : list string :=
  ["cr"; "credit"; "refund"; "reversal"; "interest"; "salary"; "deposit"; "received"]%string.

Definition debitKeywords : list string :=
  ["dr"; "debit"; "payment"; "upi"; "imps"; "neft"; "atm"; "withdrawal"; "pos";
   "charge"; "fee"; "rent"; "emi"]%string.

(** A pattern [w1|w2|...] of plain words under the [i] flag. *)
Definition anyWordi (ws : list string) : regex := alts (map wordi ws).

Definition categoryMap : list (regex * string) :=
  [(anyWordi ["salary"; "payroll"; "wages"], "salary");
   (wordi "rent", "rent");
   (Alt (wordi "atm") (seqs [wordi "cash"; Star space; wordi "withdrawal"]),
    "atm-withdrawal");
   (anyWordi ["upi"; "bill"; "electricity"; "gas"; "water"; "mobile"; "dth"; "recharge"],
    "utilities");
   (alts [wordi "grocery"; wordi "groceries"; wordi "supermarket";
          seqs [wordi "big"; Star space; wordi "bazaar"];
          seqs [wordi "more"; Star space; wordi "supermarket"];
          wordi "dmart"],
    "groceries");
   (anyWordi ["fuel"; "petrol"; "diesel"; "shell"; "hpcl"; "bpcl"; "iocl"], "fuel");
   (anyWordi ["emi"; "loan"], "loan");
   (wordi "insurance", "insurance");
   (anyWordi ["amazon"; "flipkart"; "myntra"; "ajio"; "nykaa"; "shopping"; "pos"],
    "shopping");
   (anyWordi ["zomato"; "swiggy"; "uber"; "ola"; "foodpanda"; "eat"; "restaurant";
              "coffee"],
    "food");
   (wordi "interest", "interest");
   (anyWordi ["refund"; "reversal"], "refund");
   (alts [wordi "neft"; wordi "imps"; wordi "rtgs"; wordi "transfer";
          seqs [wordi "to"; plus space; wordi "acct"];
          seqs [wordi "from"; plus space; wordi "acct"]],
    "transfer")]%string.

Fixpoint firstRule (rules : list (regex * string)) (desc : jsstring) : option string :=
  match rules with
  | [] => None
  | (key, cat) :: rules' => if test key desc then Some cat else firstRule rules' desc
  end.

(** [categorize(desc)] *)
Definition categorize (desc : jsstring) : jsstring :=
  match firstRule categoryMap desc with
  | Some cat => str cat
  | None => if test (wordi "upi") desc then str "utilities" else str "other"
  end.

(** [/[₹$,]|rs\.?|inr/gi] *)
Definition reCurrencyOrComma : regex :=
  alts [Char (fun x => (N.eqb x rupee || N.eqb x 36 || N.eqb x 44)%bool);
        Seq (wordi "rs") (opt (lit 46%N));
        wordi "inr"].

(** [/KATEX_INLINE_OPEN|KATEX_INLINE_CLOSE/g]: the two words, in capitals. *)
Definition reOpenOrClose : regex :=
  Alt (word "KATEX_INLINE_OPEN") (word "KATEX_INLINE_CLOSE").

(** [/[^0-9.\-]/g] *)
Definition reNotNumeric : regex :=
  Char (fun x => negb (isDigit x || N.eqb x 46 || N.eqb x 45)).

(** [/^\s*KATEX_INLINE_OPEN/] and [/^\s*-\s*/] *)
Definition reLeadingOpen : regex :=
  seqs [AssertStart; Star space; word "KATEX_INLINE_OPEN"].
Definition reLeadingMinus : regex := seqs [AssertStart; Star space; lit 45%N; Star space].

(** [toNumber(s)]: [None] is [null]. *)
Definition toNumber (s : jsstring) : option number :=
  if negb (truthy s) then None
  else
    let neg := (test reLeadingOpen s || test reLeadingMinus s)%bool in
    let t := replaceAll reNotNumeric
               (replaceAll (plus space)
                  (replaceAll reOpenOrClose (replaceAll reCurrencyOrComma s []) []) []) [] in
    let val := parseFloat t in
    if isNaN val then None
    else Some (if neg then PrimFloat.opp (mathAbs val) else val).

(** [confidenceScore({hasDate, hasAmount, hasType, hasCategory, descLen})] *)
Definition confidenceScore (hasDate hasAmount hasType hasCategory : bool) (descLen : nat)
  : number :=
  let score := 0%float in
  let score := if hasDate then (score + 0.35)%float else score in
  let score := if hasAmount then (score + 0.35)%float else score in
  let score := if hasType then (score + 0.15)%float else score in
  let score := if hasCategory then (score + 0.1)%float else score in
  let score := if 3 <? descLen then (score + 0.05)%float else score in
  mathMin 1%float score.

(** [/\.\d{1,2}KATEX_INLINE_CLOSE?$/]: the decimals, the seventeen code
    units [KATEX_INLINE_CLOS] in capitals and an optional [E], at the end. *)
Definition reDecimalTail : regex :=
  seqs [lit 46%N; between 1 2 digit; word "KATEX_INLINE_CLOS"; opt (lit 69%N);
        AssertEnd].

(** The filter on a match of [amtPattern]. *)
Definition amountLike (matchText : jsstring) : bool :=
  let digits := countChars isDigit matchText in
  let hasDecimal := test reDecimalTail matchText in
  let hasComma := test (lit 44%N) matchText in
  ((2 <=? digits) && (hasDecimal || hasComma || (digits <=? 8)))%bool.

(** The loop [while ((m = amtPattern.exec(line)) !== null)]: [lastIndex] is
    the state of the pattern, and the loop leaves it at 0.  [None]: the fuel
    ran out before [exec] returned [null]. *)
Fixpoint amountMatches (fuel : nat) (line : jsstring) (lastIndex : nat)
         (amtMatches : list jsstring) : option (list jsstring) :=
  match fuel with
  | O => None
  | S fuel' =>
      match search amtPattern line lastIndex with
      | None => Some amtMatches
      | Some (a, b, _) =>
          let matchText := slice line a b in
          amountMatches fuel' line b
            (if amountLike matchText then amtMatches ++ [matchText] else amtMatches)
      end
  end.

(** [/\s{2,}/g] and [/\s+(Cr|DR|Dr|CR)\b/g] *)
Definition reSpaces2 : regex := atLeast 2 space.
Definition reTrailingMarker : regex :=
  seqs [plus space; Group 1 (alts [word "Cr"; word "DR"; word "Dr"; word "CR"]);
        WordBoundary].

(** [/[()]/], [/-\s*\d/] and [/[+]/] *)
Definition reAnyParen : regex := Char (fun x => (N.eqb x 40 || N.eqb x 41)%bool).
Definition reMinusDigit : regex := seqs [lit 45%N; Star space; digit].
Definition rePlusSign : regex := lit 43%N.

(** [/refund|reversal|interest|salary|credited/i] *)
Definition reCreditWords : regex :=
  anyWordi ["refund"; "reversal"; "interest"; "salary"; "credited"]%string.

Definition hasKeyword (lower : jsstring) (ks : list string) : bool :=
  existsb (fun k => includes lower (str k)) ks.

(** The type inference of the loop body. *)
Definition inferType (line amtRaw : jsstring) (amt : number) : jsstring :=
  let lower := toLowerCase line in
  let type0 :=
    if (test reAnyParen amtRaw || test reMinusDigit amtRaw
        || hasKeyword lower debitKeywords)%bool
    then Some (str "debit") else None in
  let type1 :=
    if (test rePlusSign amtRaw || hasKeyword lower creditKeywords)%bool
    then match type0 with
         | Some _ => if PrimFloat.ltb amt 0 then Some (str "debit") else Some (str "credit")
         | None => Some (str "credit")
         end
    else type0 in
  match type1 with
  | Some t => t
  | None => if test reCreditWords line then str "credit" else str "debit"
  end.

(** [a || b] on strings. *)
Definition orStr (a b : jsstring) : jsstring := if truthy a then a else b.

(** The description of the loop body. *)
Definition describe (line dateStrRaw amtRaw : jsstring) : jsstring :=
  let dateIdx := indexOf line dateStrRaw in
  let amtIdx := lastIndexOf line amtRaw in
  let description :=
    match dateIdx, amtIdx with
    | Some di, Some ai =>
        if di <? ai then trim (substring line (di + length dateStrRaw) ai)
        else trim (removeFirst (removeFirst line dateStrRaw) amtRaw)
    | _, _ => trim (removeFirst (removeFirst line dateStrRaw) amtRaw)
    end in
  replaceAll reTrailingMarker (replaceAll reSpaces2 description (str " ")) [].

(** The outcome of one iteration of [for (const line of lines)]. *)
Inductive lineResult : Type :=
| Extracted (tx : Transaction)
| Skipped.

(** The body of the loop, for one line.  [now] is what
    [new Date().toISOString()] returns when the line is processed.  No
    operation of the body throws on a string, so the [catch] clause, which
    also counts a skip, is never entered.  [None]: out of fuel in the [exec]
    loop. *)
Definition parseLine (fuel : nat) (sid now line : jsstring) : option lineResult :=
  match matchFirst datePattern line with
  | None => Some Skipped
  | Some (dateStrRaw, _) =>
      match parseDateStr dateStrRaw with
      | None => Some Skipped
      | Some dateISO =>
          match amountMatches fuel line 0 [] with
          | None => None
          | Some amtMatches =>
              match rev amtMatches with
              | [] => Some Skipped
              | amtRaw :: _ =>
                  match toNumber amtRaw with
                  | None => Some Skipped
                  | Some amt =>
                      if negb (isFinite amt) then Some Skipped
                      else
                        let desc := describe line dateStrRaw amtRaw in
                        let ty := inferType line amtRaw amt in
                        let cat := categorize (orStr desc line) in
                        let conf :=
                          confidenceScore true true (truthy ty)
                            (truthy cat && negb (str_eqb cat (str "other")))
                            (length (orStr desc [])) in
                        Some (Extracted
                                {| statementId := sid;
                                   date := Some dateISO;
                                   description := orStr desc (str "(no description)");
                                   amount := mathAbs amt;
                                   type := ty;
                                   category := Some cat;
                                   confidence := conf;
                                   rawLine := line;
                                   createdAt := now |})
                  end
              end
          end
      end
  end.

(** The state the loop updates. *)
Record parseState : Type := {
  transactions : list Transaction;
  skipped : nat;
  skippedExamples : list jsstring
}.

Definition skipLine (st : parseState) (line : jsstring) : parseState :=
  {| transactions := transactions st;
     skipped := S (skipped st);
     skippedExamples :=
       if length (skippedExamples st) <? 5 then skippedExamples st ++ [line]
       else skippedExamples st |}.

Definition pushTransaction (st : parseState) (tx : Transaction) : parseState :=
  {| transactions := transactions st ++ [tx];
     skipped := skipped st;
     skippedExamples := skippedExamples st |}.

Section ParseTransactions.

(** The clock: the time stamp read while the [i]-th line is processed. *)
Variable clock : nat -> jsstring.

Fixpoint parseLines (sid : jsstring) (i : nat) (lines : list jsstring) (st : parseState)
  : option parseState :=
  match lines with
  | [] => Some st
  | line :: lines' =>
      match parseLine (S (length line)) sid (clock i) line with
      | None => None
      | Some (Extracted tx) => parseLines sid (S i) lines' (pushTransaction st tx)
      | Some Skipped => parseLines sid (S i) lines' (skipLine st line)
      end
  end.

(** [rawText.split('\n').map(l => l.trim()).filter(Boolean)] *)
Definition statementLines (rawText : jsstring) : list jsstring :=
  filter truthy (map trim (splitLines rawText)).

(** [parseTransactions(rawText, statementId)]: the transactions and the
    parsing summary.  [None]: out of fuel. *)
Definition parseTransactions (rawText sid : jsstring)
  : option (list Transaction * ParsingSummary) :=
  let lines := statementLines rawText in
  match parseLines sid 0 lines
          {| transactions := []; skipped := 0; skippedExamples := [] |} with
  | None => None
  | Some st =>
      Some (transactions st,
            {| linesScanned := length lines;
               transactionsExtracted := length (transactions st);
               skippedLines := skipped st;
               examplesOfSkipped := skippedExamples st |})
  end.

End ParseTransactions.

(* ------------------------------------------------------------------------- *)
(** ** Analytics *)

(** An entry of [expenses] and of [top5Expenses]. *)
Module Expense.
Record t : Type := {
  amount : number;
  description : jsstring;
  date : option jsstring
}.
End Expense.

(** [{ income, expense }]: the object [sums] and the values of [byMonth]. *)
Record Totals : Type := {
  income : number;
  expense : number
}.

(** An entry of [monthlyTrends]. *)
Module Trend.
Record t : Type := {
  month : jsstring;
  income : number;
  expense : number
}.
End Trend.

(** What a property of the object [byCategory] holds: a number, or the text
    that [+] builds once its left operand is not a number (such a text is never
    a numeral). *)
Inductive catValue : Type :=
| CatNum (n : number)
| CatText.

(** The report, with the summary passed through as it was received. *)
Module Report.
Record t (Summary : Type) : Type := {
  statementId : jsstring;
  totalIncome : number;
  totalExpense : number;
  net : number;
  byCategory : list (jsstring * number);
  top5Expenses : list Expense.t;
  monthlyTrends : list Trend.t;
  transactionCount : nat;
  avgTransactionAmount : number;
  parsingSummary : Summary
}.
End Report.

(** [Array.prototype.sort(cmp)] is stable, and for a consistent comparator its
    result is determined; the model computes it by insertion.  [after a b]
    reads [cmp(a, b) > 0]: [a] is to come after [b]. *)
Section Sort.

Variable A : Type.
Variable after : A -> A -> bool.

Fixpoint insertSorted (x : A) (l : list A) : list A :=
  match l with
  | [] => [x]
  | y :: l' => if after x y then y :: insertSorted x l' else x :: l
  end.

Fixpoint sort (l : list A) : list A :=
  match l with
  | [] => []
  | x :: l' => insertSorted x (sort l')
  end.

End Sort.

(** The own properties of an object used as a map, in insertion order. *)
Fixpoint ownProperty (V : Type) (o : list (jsstring * V)) (k : jsstring) : option V :=
  match o with
  | [] => None
  | (k', v) :: o' => if str_eqb k k' then Some v else ownProperty o' k
  end.

Fixpoint setProperty (V : Type) (o : list (jsstring * V)) (k : jsstring) (v : V)
  : list (jsstring * V) :=
  match o with
  | [] => [(k, v)]
  | (k', v') :: o' =>
      if str_eqb k k' then (k, v) :: o' else (k', v') :: setProperty o' k v
  end.

(** The methods [byCategory], an object literal, inherits from
    [Object.prototype]. *)
Definition objectPrototypeMethods : list string :=
  ["constructor"; "__defineGetter__"; "__defineSetter__"; "hasOwnProperty";
   "__lookupGetter__"; "__lookupSetter__"; "isPrototypeOf"; "propertyIsEnumerable";
   "toString"; "valueOf"; "toLocaleString"]%string.

Definition inheritedMethod (k : jsstring) : bool :=
  existsb (fun m => str_eqb k (str m)) objectPrototypeMethods.

Definition isProtoKey (k : jsstring) : bool := str_eqb k (str "__proto__").

(** Truthiness of a number. *)
Definition truthyNum (n : number) : bool :=
  negb (PrimFloat.is_zero n || PrimFloat.is_nan n).

(** [(byCategory[cat] || 0) + amt].  A key that is not an own property is
    looked up in [Object.prototype]: a method or, for [__proto__], the
    prototype itself, both truthy and both turned into text by [+]. *)
Definition bumpCategory (o : list (jsstring * catValue)) (cat : jsstring) (amt : number)
  : catValue :=
  match ownProperty o cat with
  | Some (CatNum n) => CatNum ((if truthyNum n then n else 0) + amt)%float
  | Some CatText => CatText
  | None =>
      if (inheritedMethod cat || isProtoKey cat)%bool then CatText
      else CatNum (0 + amt)%float
  end.

(** [byCategory[cat] = v]: assigning a text to [__proto__] does nothing. *)
Definition assignCategory (o : list (jsstring * catValue)) (cat : jsstring) (v : catValue)
  : list (jsstring * catValue) :=
  if isProtoKey cat then o else setProperty o cat v.

(** [{ income: 0, expense: 0 }] *)
Definition zeroTotals : Totals := {| income := 0%float; expense := 0%float |}.

(** [if (t.type === 'credit') a.income += amt; else a.expense += amt;] *)
Definition addAmount (a : Totals) (ty : jsstring) (amt : number) : Totals :=
  if str_eqb ty (str "credit")
  then {| income := (income a + amt)%float; expense := expense a |}
  else {| income := income a; expense := (expense a + amt)%float |}.

(** The [Map] [byMonth], in insertion order: [has], [set] and the update of
    the value that [get] returns. *)
Fixpoint addToMonth (byMonth : list (jsstring * Totals)) (m ty : jsstring) (amt : number)
  : list (jsstring * Totals) :=
  match byMonth with
  | [] => [(m, addAmount zeroTotals ty amt)]
  | (m', agg) :: rest =>
      if str_eqb m m' then (m', addAmount agg ty amt) :: rest
      else (m', agg) :: addToMonth rest m ty amt
  end.

(** The variables the loop of [computeAnalytics] updates. *)
Record loopState : Type := {
  sums : Totals;
  byCategory : list (jsstring * catValue);
  expenses : list Expense.t;
  byMonth : list (jsstring * Totals)
}.

Definition initialState : loopState :=
  {| sums := zeroTotals;
     byCategory := [];
     expenses := [];
     byMonth := [] |}.

(** [t.category || 'other'] *)
Definition categoryKey (t : Transaction) : jsstring :=
  match category t with
  | Some c => orStr c (str "other")
  | None => str "other"
  end.

(** [(t.date || '').slice(0, 7)] *)
Definition monthKey (t : Transaction) : jsstring :=
  firstn 7 (match date t with Some d => d | None => [] end).

Definition expenseOf (t : Transaction) : Expense.t :=
  {| Expense.amount := amount t;
     Expense.description := description t;
     Expense.date := date t |}.

(** The body of [for (const t of transactions)]. *)
Definition step (st : loopState) (t : Transaction) : loopState :=
  let amt := amount t in
  let cat := categoryKey t in
  let m := monthKey t in
  {| sums := addAmount (sums st) (type t) amt;
     byCategory := assignCategory (byCategory st) cat (bumpCategory (byCategory st) cat amt);
     expenses :=
       if str_eqb (type t) (str "debit") then expenses st ++ [expenseOf t]
       else expenses st;
     byMonth := if truthy m then addToMonth (byMonth st) m (type t) amt else byMonth st |}.

(** [(a, b) => b.amount - a.amount] is positive. *)
Definition expenseAfter (a b : Expense.t) : bool :=
  PrimFloat.ltb 0 (Expense.amount b - Expense.amount a)%float.

(** [round2] of a property of [byCategory]: a text times 100 is [NaN]. *)
Definition round2Cat (v : catValue) : number :=
  match v with
  | CatNum n => round2 n
  | CatText => PrimFloat.nan
  end.

(** An array index: the decimal writing, without a leading zero, of an
    integer from 0 to 2^32 - 2. *)
Definition isArrayIndex (k : jsstring) : bool :=
  match k with
  | [] => false
  | c :: rest =>
      (forallb isDigit k
       && (negb (N.eqb c 48) || match rest with [] => true | _ => false end)
       && N.leb (digitsToN k) 4294967294)%bool
  end.

(** The order of two array indices: [a] comes after [b]. *)
Definition indexAfter (V : Type) (a b : jsstring * V) : bool :=
  N.ltb (digitsToN (fst b)) (digitsToN (fst a)).

(** [Object.keys(obj)], each key with its value: the keys that are array
    indices first, in ascending order, then the other keys in the order in
    which the properties were created. *)
Definition ownEntries (V : Type) (obj : list (jsstring * V)) : list (jsstring * V) :=
  sort (@indexAfter V) (filter (fun kv => isArrayIndex (fst kv)) obj)
  ++ filter (fun kv => negb (isArrayIndex (fst kv))) obj.

(** [objectMapRound2(obj)]: the properties of [out] are created in the order
    of [Object.keys(obj)], which is also the order of the keys of [out]. *)
Definition objectMapRound2 (obj : list (jsstring * catValue)) : list (jsstring * number) :=
  map (fun kv => (fst kv, round2Cat (snd kv))) (ownEntries obj).

Definition roundExpense (e : Expense.t) : Expense.t :=
  {| Expense.amount := round2 (Expense.amount e);
     Expense.description := Expense.description e;
     Expense.date := Expense.date e |}.

(** [transactions.reduce((s, t) => s + t.amount, 0)] *)
Definition sumAmounts (txs : list Transaction) : number :=
  fold_left (fun s t => (s + amount t)%float) txs 0%float.

Section ComputeAnalytics.

(** [String.prototype.localeCompare], which the host defines. *)
Variable localeCompare : jsstring -> jsstring -> comparison.

(** The type of the summary, which is only passed on. *)
Variable Summary : Type.

Definition monthAfter (a b : jsstring * Totals) : bool :=
  match localeCompare (fst a) (fst b) with Gt => true | _ => false end.

Definition trendOf (e : jsstring * Totals) : Trend.t :=
  {| Trend.month := fst e;
     Trend.income := round2 (income (snd e));
     Trend.expense := round2 (expense (snd e)) |}.

(** [computeAnalytics(statementId, transactions, parsingSummary)] *)
Definition computeAnalytics (sid : jsstring) (txs : list Transaction) (summary : Summary)
  : Report.t Summary :=
  let st := fold_left step txs initialState in
  let top5Expenses := firstn 5 (sort expenseAfter (expenses st)) in
  let monthlyTrends := map trendOf (sort monthAfter (byMonth st)) in
  let transactionCount := length txs in
  let avgTransactionAmount :=
    match transactionCount with
    | O => 0%float
    | _ => round2 (sumAmounts txs / ofZ (Z.of_nat transactionCount))%float
    end in
  {| Report.statementId := sid;
     Report.totalIncome := round2 (income (sums st));
     Report.totalExpense := round2 (expense (sums st));
     Report.net := round2 (income (sums st) - expense (sums st))%float;
     Report.byCategory := objectMapRound2 (byCategory st);
     Report.top5Expenses := map roundExpense top5Expenses;
     Report.monthlyTrends := monthlyTrends;
     Report.transactionCount := transactionCount;
     Report.avgTransactionAmount := avgTransactionAmount;
     Report.parsingSummary := summary |}.

End ComputeAnalytics.

(* ------------------------------------------------------------------------- *)
(** ** The loop of [computeAnalytics], variable by variable *)

(** What one transaction does to [sums], to [byCategory] and to [byMonth]. *)
Definition addTransaction (a : Totals) (t : Transaction) : Totals :=
  addAmount a (type t) (amount t).

Definition addCategory (o : list (jsstring * catValue)) (t : Transaction)
  : list (jsstring * catValue) :=
  assignCategory o (categoryKey t) (bumpCategory o (categoryKey t) (amount t)).

Definition addMonth (m : list (jsstring * Totals)) (t : Transaction)
  : list (jsstring * Totals) :=
  if truthy (monthKey t) then addToMonth m (monthKey t) (type t) (amount t) else m.

Definition isDebit (t : Transaction) : bool := str_eqb (type t) (str "debit").

(** A transaction whose [date] is absent or empty. *)
Definition undated (t : Transaction) : Prop := date t = None \/ date t = Some [].

(* ------------------------------------------------------------------------- *)
(** ** [computeAnalytics] over a store of objects *)

(** The objects of the call live in a store, so that what it writes, and
    where, is explicit.  The inputs are in the store when the call starts: the
    array of transactions, the transaction objects it refers to and the
    summary.  The call allocates [sums], [byCategory], [expenses] with its
    entries and [byMonth], updates them in place, sorts [expenses] in place, and
    allocates the arrays and objects it returns.  (The aggregate of a month is
    reachable only through [byMonth] and is kept inside its cell.) *)
Module Heap.

Definition loc := nat.

Section Store.

Variable localeCompare : jsstring -> jsstring -> comparison.
Variable Summary : Type.

Inductive object : Type :=
| ObjTransaction (t : Transaction)
| ObjSummary (s : Summary)
| ObjArray (items : list loc)
| ObjTotals (a : Totals)
| ObjCategories (o : list (jsstring * catValue))
| ObjMonths (m : list (jsstring * Totals))
| ObjExpense (e : Expense.t)
| ObjNumbers (o : list (jsstring * number))
| ObjTrend (t : Trend.t).

(** The store: the object at location [l] is the [l]-th. *)
Definition heap := list object.

(** A computation on the store; [None] is a [TypeError]. *)
Definition M (A : Type) : Type := heap -> option (A * heap).

Definition ret (A : Type) (a : A) : M A := fun h => Some (a, h).

Definition bind (A B : Type) (c : M A) (k : A -> M B) : M B :=
  fun h => match c h with
           | Some (a, h') => k a h'
           | None => None
           end.

Definition fail (A : Type) : M A := fun _ => None.

Local Notation "x <- c ;; k" := (bind c (fun x => k))
  (at level 61, c at next level, right associativity).
Local Notation "c ;;; k" := (bind c (fun _ => k))
  (at level 61, right associativity).

Definition alloc (o : object) : M loc := fun h => Some (length h, h ++ [o]).

Definition read (l : loc) : M object :=
  fun h => match nth_error h l with
           | Some o => Some (o, h)
           | None => None
           end.

Fixpoint update (h : heap) (l : loc) (o : object) : heap :=
  match h, l with
  | [], _ => []
  | _ :: h', O => o :: h'
  | x :: h', S l' => x :: update h' l' o
  end.

Definition write (l : loc) (o : object) : M unit :=
  fun h => if l <? length h then Some (tt, update h l o) else None.

Definition readTransaction (l : loc) : M Transaction :=
  o <- read l ;; match o with ObjTransaction t => ret t | _ => fail _ end.
Definition readArray (l : loc) : M (list loc) :=
  o <- read l ;; match o with ObjArray items => ret items | _ => fail _ end.
Definition readTotals (l : loc) : M Totals :=
  o <- read l ;; match o with ObjTotals a => ret a | _ => fail _ end.
Definition readCategories (l : loc) : M (list (jsstring * catValue)) :=
  o <- read l ;; match o with ObjCategories c => ret c | _ => fail _ end.
Definition readMonths (l : loc) : M (list (jsstring * Totals)) :=
  o <- read l ;; match o with ObjMonths m => ret m | _ => fail _ end.
Definition readExpense (l : loc) : M Expense.t :=
  o <- read l ;; match o with ObjExpense e => ret e | _ => fail _ end.

Fixpoint forEach (A : Type) (f : A -> M unit) (items : list A) : M unit :=
  match items with
  | [] => ret tt
  | x :: rest => f x ;;; forEach f rest
  end.

Fixpoint mapM (A B : Type) (f : A -> M B) (items : list A) : M (list B) :=
  match items with
  | [] => ret []
  | x :: rest => y <- f x ;; ys <- mapM f rest ;; ret (y :: ys)
  end.

(** The local variables of the call that hold objects. *)
Record locals : Type := {
  sumsRef : loc;
  byCategoryRef : loc;
  expensesRef : loc;
  byMonthRef : loc
}.

(** The body of [for (const t of transactions)]. *)
Definition visit (v : locals) (tRef : loc) : M unit :=
  t <- readTransaction tRef ;;
  a <- readTotals (sumsRef v) ;;
  write (sumsRef v) (ObjTotals (addTransaction a t)) ;;;
  o <- readCategories (byCategoryRef v) ;;
  write (byCategoryRef v) (ObjCategories (addCategory o t)) ;;;
  (if isDebit t
   then e <- alloc (ObjExpense (expenseOf t)) ;;
        items <- readArray (expensesRef v) ;;
        write (expensesRef v) (ObjArray (items ++ [e]))
   else ret tt) ;;;
  (if truthy (monthKey t)
   then m <- readMonths (byMonthRef v) ;;
        write (byMonthRef v) (ObjMonths (addMonth m t))
   else ret tt).

(** [expenses.sort((a, b) => b.amount - a.amount)]: the array is rewritten in
    place, the comparator reads the entries. *)
Definition sortExpenses (expenses : loc) : M (list loc) :=
  items <- readArray expenses ;;
  entries <- mapM (fun l => e <- readExpense l ;; ret (l, e)) items ;;
  let sorted := map fst (sort (fun a b => expenseAfter (snd a) (snd b)) entries) in
  write expenses (ObjArray sorted) ;;;
  ret sorted.

(** What the call returns: numbers, and references to the objects it built
    or was given. *)
Record report : Type := {
  statementId : jsstring;
  totalIncome : number;
  totalExpense : number;
  net : number;
  byCategory : loc;
  top5Expenses : loc;
  monthlyTrends : loc;
  transactionCount : nat;
  avgTransactionAmount : number;
  parsingSummary : loc
}.

(** [computeAnalytics(statementId, transactions, parsingSummary)] on
    references. *)
Definition computeAnalytics (sid : jsstring) (transactions summary : loc) : M report :=
  sums <- alloc (ObjTotals zeroTotals) ;;
  cats <- alloc (ObjCategories []) ;;
  expenses <- alloc (ObjArray []) ;;
  months <- alloc (ObjMonths []) ;;
  let v := {| sumsRef := sums; byCategoryRef := cats;
              expensesRef := expenses; byMonthRef := months |} in
  items <- readArray transactions ;;
  forEach (visit v) items ;;;
  sorted <- sortExpenses expenses ;;
  top5 <- alloc (ObjArray (firstn 5 sorted)) ;;
  m <- readMonths months ;;
  trends <- mapM (fun e => alloc (ObjTrend (trendOf e))) (sort (monthAfter localeCompare) m) ;;
  monthly <- alloc (ObjArray trends) ;;
  txs <- mapM readTransaction items ;;
  let count := length items in
  let avg := match count with
             | O => 0%float
             | _ => round2 (sumAmounts txs / ofZ (Z.of_nat count))%float
             end in
  a <- readTotals sums ;;
  o <- readCategories cats ;;
  byCat <- alloc (ObjNumbers (objectMapRound2 o)) ;;
  rounded <- mapM (fun l => e <- readExpense l ;; alloc (ObjExpense (roundExpense e)))
                  (firstn 5 sorted) ;;
  top5Rounded <- alloc (ObjArray rounded) ;;
  ret {| statementId := sid;
         totalIncome := round2 (income a);
         totalExpense := round2 (expense a);
         net := round2 (income a - expense a)%float;
         byCategory := byCat;
         top5Expenses := top5Rounded;
         monthlyTrends := monthly;
         transactionCount := count;
         avgTransactionAmount := avg;
         parsingSummary := summary |}.

(** The store keeps what it held: every location of [h] holds in [h'] what
    it holds in [h]. *)
Definition preserves (h h' : heap) : Prop :=
  forall l, l < length h -> nth_error h' l = nth_error h l.

(** [items] refers to the transactions [txs]. *)
Definition refersTo (h : heap) (items : list loc) (txs : list Transaction) : Prop :=
  Forall2 (fun l t => nth_error h l = Some (ObjTransaction t)) items txs.

(** [byCategory], the variable of the loop (not the field of the report). *)
Definition byCategoryOf (st : loopState) : list (jsstring * catValue) :=
  match st with Build_loopState _ c _ _ => c end.

(** The locations of [expenses st] in the store. *)
Definition holds (h : heap) (items : list loc) (es : list Expense.t) : Prop :=
  Forall2 (fun l e => nth_error h l = Some (ObjExpense e)) items es.

(** The state of the loop as the store holds it, [n] being the first
    location the call allocated: the four local objects follow one another
    from [n] on, the entries of [expenses] come later, and below [n] the store
    is the one the call was given. *)
Record represents (h0 h : heap) (st : loopState) : Prop := {
  rep_preserves : preserves h0 h;
  rep_length : length h0 + 4 <= length h;
  rep_sums : nth_error h (length h0) = Some (ObjTotals (sums st));
  rep_categories :
    nth_error h (length h0 + 1) = Some (ObjCategories (byCategoryOf st));
  rep_expenses :
    exists items,
      nth_error h (length h0 + 2) = Some (ObjArray items)
      /\ holds h items (expenses st)
      /\ Forall (fun l => length h0 + 4 <= l) items;
  rep_months : nth_error h (length h0 + 3) = Some (ObjMonths (byMonth st))
}.

Definition localsAt (n : nat) : locals :=
  {| sumsRef := n; byCategoryRef := n + 1; expensesRef := n + 2; byMonthRef := n + 3 |}.

End Store.

End Heap.

(* ------------------------------------------------------------------------- *)
(** ** Sample data *)

Definition sampleTransaction (ty : string) (amt : number) (d : option jsstring)
           (desc : string) : Transaction :=
  {| statementId := str "s1";
     date := d;
     description := str desc;
     amount := amt;
     type := str ty;
     category := Some (str "other");
     confidence := 1%float;
     rawLine := str desc;
     createdAt := str "2024-01-01T00:00:00.000Z" |}.

(** Comparison of strings by code units, one possible [localeCompare]. *)
Fixpoint codeUnitCompare (a b : jsstring) : comparison :=
  match a, b with
  | [], [] => Eq
  | [], _ :: _ => Lt
  | _ :: _, [] => Gt
  | x :: a', y :: b' =>
      match N.compare x y with
      | Eq => codeUnitCompare a' b'
      | c => c
      end
  end.

(** [v] lies half-way between two multiples of 0.01. *)
Definition isTie (v : Q) : Prop := exists j : Z, (v * (100 # 1) + (1 # 2) == inject_Z j)%Q.

(* ------------------------------------------------------------------------- *)
(** ** Measures used in the proofs *)

(** The least number of code units a match of [r] consumes. *)
Fixpoint minLen (r : regex) : nat :=
  match r with
  | Char _ => 1
  | Seq r1 r2 => minLen r1 + minLen r2
  | Alt r1 r2 => Nat.min (minLen r1) (minLen r2)
  | Group _ r1 => minLen r1
  | Empty | Star _ | AssertStart | AssertEnd | WordBoundary => 0
  end.

(** What a successful run tells: the continuation was called, and succeeded,
    at an end index inside the string and at least [minLen r] further on. *)
Definition reaches (R : Type) (s : jsstring) (n i : nat)
           (k : nat -> captures -> option R) (x : R) : Prop :=
  exists j c', i + n <= j /\ j <= length s /\ k j c' = Some x.

(** The two decimal digits of a number below 100. *)
Definition twoDigits (n : N) : jsstring := [(48 + n / 10)%N; (48 + n mod 10)%N].

(** The dates [parseDateStr] writes: a year, a month and a day joined by
    hyphens, the day on two digits between 01 and 31, the month on two digits
    between 01 and 12 or the text of [Object.prototype.constructor], and the
    year as the number it denotes. *)
Definition writtenDate (iso : jsstring) : Prop :=
  exists (y d : N) (month : jsstring),
    iso = numToString y ++ str "-" ++ month ++ str "-" ++ twoDigits d
    /\ (1 <= d <= 31)%N
    /\ ((exists mo : N, month = twoDigits mo /\ (1 <= mo <= 12)%N)
        \/ month = str "function Object() { [native code] }").

(** The value of a binary64 number in units of 2^-1074, the spacing of the
    smallest numbers: an integer for every finite number.  The infinities are
    given the first power of two beyond the finite range. *)
Definition infValue : Z := (2 ^ 2098)%Z.
Definition valSF (x : spec_float) : Z :=
  match x with
  | S754_zero _ => 0%Z
  | S754_infinity s => cond_Zopp s infValue
  | S754_nan => 0%Z
  | S754_finite s m e => cond_Zopp s (Zpos m * 2 ^ (e + 1074))%Z
  end.

Definition value (x : number) : Z := valSF (Prim2SF x).

(** The integer nearest to the fraction [A / D], the even one of the two when
    the fraction lies half-way. *)
Definition halfEven (A D : Z) : Z :=
  (let q := A / D in
   match 2 * (A mod D) ?= D with
   | Lt => q
   | Gt => q + 1
   | Eq => if Z.even q then q else q + 1
   end)%Z.

(** The spacing of the binary64 numbers around [A / B], as a power of two of
    the unit: 53 digits are kept, and no spacing is below the unit. *)
Definition classExp (A B : Z) : Z := (Z.max (Zdigits2 (A / B) - 53) 0)%Z.

(** The value of the binary64 number nearest to [A / B] units, for
    [0 <= A / B]: infinite from [infValue] on. *)
Definition nearest (A B : Z) : Z :=
  (let E := classExp A B in Z.min (halfEven A (B * 2 ^ E) * 2 ^ E) infValue)%Z.

Definition nearestSigned (A B : Z) : Z :=
  (if A <? 0 then - nearest (- A) B else nearest A B)%Z.

(** Where a number lies between two consecutive multiples of [D], [r] being
    its distance to the lower one. *)
Definition locationOf (r D : Z) : location :=
  (if r =? 0 then loc_Exact else loc_Inexact (2 * r ?= D))%Z.

(** A record of the rounding procedure holds the fraction [A / D]: its
    integer part, and where the rest lies. *)
Definition truncationOf (r : shr_record) (A D : Z) : Prop :=
  shr_m r = (A / D)%Z /\ loc_of_shr_record r = locationOf (A mod D) D.

(** A function of the value of a finite number, extended to the infinities,
    which every operation of [round2] maps to themselves. *)
Definition saturating (f : Z -> Z) (v : Z) : Z :=
  (if infValue <=? v then infValue
   else if v <=? - infValue then - infValue
   else f v)%Z.

(** The values of [v + c], [c * v] and [v / c] as binary64 numbers, and of
    [Math.round(v)]. *)
Definition afterAdd (c v : Z) : Z := nearestSigned (v + c) 1.
Definition afterMul (c v : Z) : Z := nearestSigned (c * v) 1.
Definition afterDiv (c v : Z) : Z := nearestSigned v c.
Definition nearestInteger (v : Z) : Z := ((v + 2 ^ 1073) / 2 ^ 1074 * 2 ^ 1074)%Z.

(** The value of [round2 x], as a function of the value of [x]. *)
Definition round2Value (v : Z) : Z :=
  saturating (afterDiv 100)
    (saturating nearestInteger
       (saturating (afterMul 100)
          (saturating (afterAdd (value EPSILON)) v))).

(** The order in which [top5Expenses] is required: the earlier entry is not
    below the later one. *)
Definition notBelow (a b : Expense.t) : Prop :=
  PrimFloat.leb (Expense.amount b) (Expense.amount a) = true.

(** The entries of a list whose amount equals [a]. *)
Definition withAmount (a : number) (l : list Expense.t) : list Expense.t :=
  filter (fun e => PrimFloat.eqb (Expense.amount e) a) l.

(** [p] is an initial segment of [l]. *)
Definition prefixOf (A : Type) (p l : list A) : Prop := exists rest, l = p ++ rest.

(** Two debits whose amounts differ only beyond the second decimal. *)
Definition debitA : Transaction :=
  sampleTransaction "debit" 10.001%float (Some (str "2024-01-05")) "A".
Definition debitB : Transaction :=
  sampleTransaction "debit" 10.004%float (Some (str "2024-01-06")) "B".

(** A debit of one eighth, and [Number.EPSILON] as a rational. *)
Definition debitEighth : Transaction :=
  sampleTransaction "debit" 0.125%float (Some (str "2024-01-05")) "fee".
Definition epsilonQ : Q := (1 # 2 ^ 52)%Q.

(** A credit with a date and a debit without one. *)
Definition datedCredit : Transaction :=
  sampleTransaction "credit" 100%float (Some (str "2024-01-12")) "salary".
Definition undatedDebit : Transaction :=
  sampleTransaction "debit" 40%float None "cash".

(** A store that holds two transactions, the array that lists them and a
    summary. *)
Definition sampleHeap : Heap.heap unit :=
  [Heap.ObjTransaction unit debitA; Heap.ObjTransaction unit debitB;
   Heap.ObjArray unit [0; 1]; Heap.ObjSummary tt].

(* ------------------------------------------------------------------------- *)
(** ** Measures used in the further properties *)

(** [t.type === 'credit'] *)
Definition isCredit (t : Transaction) : bool := str_eqb (type t) (str "credit").

(** The sum of a list of numbers, taken from left to right and from 0, as
    the loops of the source take it. *)
Definition sumOf (l : list number) : number := fold_left PrimFloat.add l 0%float.

(** The amounts of the credits of a list, and of its other transactions. *)
Definition creditAmounts (txs : list Transaction) : list number :=
  map amount (filter isCredit txs).
Definition otherAmounts (txs : list Transaction) : list number :=
  map amount (filter (fun t => negb (isCredit t)) txs).

(** The transactions of the month [m]. *)
Definition inMonth (m : jsstring) (t : Transaction) : bool := str_eqb (monthKey t) m.

(** The transactions filed under the key [k] of [byCategory]. *)
Definition inCategory (k : jsstring) (t : Transaction) : bool :=
  str_eqb (categoryKey t) k.

(** A number that is not negative: what the parser stores as an amount. *)
Definition notNegative (x : number) : Prop :=
  isNaN x = false /\ PrimFloat.leb 0 x = true.

(** What [byCategory] holds under an ordinary key: nothing before the first
    transaction of the category, then the sum of the amounts seen. *)
Definition categoryCell (l : list Transaction) : option catValue :=
  match l with
  | [] => None
  | _ => Some (CatNum (sumOf (map amount l)))
  end.

(** The categories of [categoryMap], and ['other']. *)
Definition categoryNames : list string :=
  ["salary"; "rent"; "atm-withdrawal"; "utilities"; "groceries"; "fuel"; "loan";
   "insurance"; "shopping"; "food"; "interest"; "refund"; "transfer"; "other"]%string.

(** Whether the loop body of [parseTransactions] extracts a transaction from
    a line: it does not depend on the statement id nor on the clock. *)
Definition extracts (line : jsstring) : bool :=
  match parseLine (S (length line)) [] [] line with
  | Some (Extracted _) => true
  | _ => false
  end.

(** The transactions of a list of lines, the first of which is the [i]-th
    line processed. *)
Fixpoint extractedFrom (clock : nat -> jsstring) (sid : jsstring) (i : nat)
         (lines : list jsstring) : list Transaction :=
  match lines with
  | [] => []
  | line :: lines' =>
      match parseLine (S (length line)) sid (clock i) line with
      | Some (Extracted tx) => tx :: extractedFrom clock sid (S i) lines'
      | _ => extractedFrom clock sid (S i) lines'
      end
  end.

(** The tests a pattern makes on single code units. *)
Fixpoint charTests (r : regex) : list (char -> bool) :=
  match r with
  | Char p => [p]
  | Seq r1 r2 | Alt r1 r2 => charTests r1 ++ charTests r2
  | Star r1 | Group _ r1 => charTests r1
  | WordBoundary => [isWordChar]
  | Empty | AssertStart | AssertEnd => []
  end.

(** Two strings that a pattern cannot tell apart: they have the same length
    and every test of the pattern answers alike at every index. *)
Definition alike (r : regex) (s s' : jsstring) : Prop :=
  length s = length s' /\ forall p, In p (charTests r) -> map p s = map p s'.

(** A date in the form the parser writes, [YYYY-MM-DD]. *)
Definition canonicalDate (y mo d : N) : jsstring := isoDate y (pad2 mo) (pad2 d).

(** The decimal digits. *)
Definition decimalDigits : list char := [48; 49; 50; 51; 52; 53; 54; 55; 56; 57]%N.

(** A year written on four digits, and a number below 100 written on two,
    read back as the numbers they denote. *)
Definition fourDigitYear (y : N) : bool :=
  match numToString y with
  | [a; b; c; d] =>
      (forallb isDigit [a; b; c; d] && N.eqb (digitsToN [a; b; c; d]) y)%bool
  | _ => false
  end.

Definition twoDigitNumber (n : N) : bool :=
  (forallb isDigit (twoDigits n) && N.eqb (digitsToN (twoDigits n)) n)%bool.

(* ------------------------------------------------------------------------- *)
(** ** The text of a statement: [normalizeText] *)

(** [s.replace(r, f)] for a pattern with the [g] flag and a function [f] of
    the matched text: the scan of [replaceFrom], with [f] called on every
    match. *)
Fixpoint replaceFromWith (r : regex) (f : jsstring -> jsstring) (s : jsstring)
         (fuel i : nat) : jsstring :=
  match fuel with
  | O => skipn i s
  | S fuel' =>
      match search r s i with
      | None => skipn i s
      | Some (a, b, _) =>
          slice s i a ++ f (slice s a b) ++
          (if b <=? a
           then slice s a (S a) ++ replaceFromWith r f s fuel' (S a)
           else replaceFromWith r f s fuel' b)
      end
  end.

Definition replaceAllWith (r : regex) (f : jsstring -> jsstring) (s : jsstring) : jsstring :=
  replaceFromWith r f s (S (length s)) 0.

(** [lines.join('\n')] *)
Fixpoint joinLines (ls : list jsstring) : jsstring :=
  match ls with
  | [] => []
  | [l] => l
  | l :: ls' => l ++ 10%N :: joinLines ls'
  end.

(** [/\r\n/g], [/\s+$/g] and [/ {3,}/g] *)
Definition reCrLf : regex := Seq (lit 13%N) (lit 10%N).
Definition reTrailingSpaces : regex := Seq (plus space) AssertEnd.
Definition reSpaces3 : regex := atLeast 3 (lit 32%N).

(** [normalizeText(txt)] *)
Definition normalizeText (txt : jsstring) : jsstring :=
  if negb (truthy txt) then []
  else
    let t := replaceAll (lit 9%N)
               (replaceAll (lit 13%N) (replaceAll reCrLf txt [10%N]) [10%N]) [32%N] in
    let t := joinLines
               (map (fun line => replaceAll reTrailingSpaces line []) (splitLines t)) in
    replaceAll reSpaces3 t [32%N; 32%N].

(** *** What the three patterns do, on lists *)

(** Whether a text begins with a code unit that satisfies [p]. *)
Definition headIs (p : char -> bool) (s : jsstring) : bool :=
  match s with c :: _ => p c | [] => false end.

(** Every code unit [c] replaced by [rep]. *)
Definition replaceChar (c : char) (rep s : jsstring) : jsstring :=
  flat_map (fun x => if N.eqb x c then rep else [x]) s.

(** Whether a text begins with a carriage return and a line feed; the text
    without the carriage returns that a line feed follows. *)
Definition startsCrLf (s : jsstring) : bool :=
  match s with
  | a :: b :: _ => (N.eqb a 13 && N.eqb b 10)%bool
  | _ => false
  end.

Fixpoint dropCr (s : jsstring) : jsstring :=
  match s with
  | [] => []
  | c :: s' => if startsCrLf s then dropCr s' else c :: dropCr s'
  end.

(** Whether a text begins with two, and with three, spaces. *)
Definition startsSpaces2 (s : jsstring) : bool :=
  match s with
  | a :: b :: _ => (N.eqb a 32 && N.eqb b 32)%bool
  | _ => false
  end.

Definition startsSpaces3 (s : jsstring) : bool :=
  match s with
  | a :: s' => (N.eqb a 32 && startsSpaces2 s')%bool
  | [] => false
  end.

(** Every run of spaces cut down to its last two. *)
Fixpoint squeeze (s : jsstring) : jsstring :=
  match s with
  | [] => []
  | c :: s' => if startsSpaces3 s then squeeze s' else c :: squeeze s'
  end.

(** [c === ' '] *)
Definition isBlank (c : char) : bool := N.eqb c 32.

(** Whether a text is white space and nothing else, and not empty. *)
Definition allSpace (s : jsstring) : bool :=
  match s with
  | [] => false
  | _ :: _ => forallb isSpace s
  end.

(** A text without the white space at its end. *)
Fixpoint trimEnd (s : jsstring) : jsstring :=
  match s with
  | [] => []
  | c :: s' => if allSpace s then [] else c :: trimEnd s'
  end.

(** The length of the run of code units that satisfy [p] at the head of a
    text. *)
Fixpoint spanLength (p : char -> bool) (s : jsstring) : nat :=
  match s with
  | c :: s' => if p c then S (spanLength p s') else 0
  | [] => 0
  end.

(** Whether a text ends in white space. *)
Definition endsInSpace (s : jsstring) : bool :=
  match rev s with
  | c :: _ => isSpace c
  | [] => false
  end.

(** Whether three spaces in a row occur in a text. *)
Fixpoint hasSpaces3 (s : jsstring) : bool :=
  match s with
  | [] => false
  | _ :: s' => (startsSpaces3 s || hasSpaces3 s')%bool
  end.

(** A tidy text: no carriage return and no tab, no line that ends in white
    space, and no three spaces in a row. *)
Definition tidy (t : jsstring) : bool :=
  (negb (existsb (fun c => N.eqb c 13 || N.eqb c 9) t)
   && forallb (fun l => negb (endsInSpace l)) (splitLines t)
   && negb (hasSpaces3 t))%bool.

(** The code units of a text that are not white space, in order. *)
Definition inked (t : jsstring) : jsstring := filter (fun c => negb (isSpace c)) t.

(* ------------------------------------------------------------------------- *)
(** ** The page script: [escapeHtml] *)

(** The class of the pattern: the ampersand, the angle brackets and the two
    quotes. *)
Definition isMarkup (c : char) : bool :=
  (N.eqb c 38 || N.eqb c 60 || N.eqb c 62 || N.eqb c 34 || N.eqb c 39)%bool.

(** The object literal of the callback, read at [c]; a key it does not have
    gives [undefined], which [replace] writes out. *)
Definition entityOf (c : jsstring) : jsstring :=
  if str_eqb c (str "&") then str "&amp;"
  else if str_eqb c (str "<") then str "&lt;"
  else if str_eqb c (str ">") then str "&gt;"
  else if str_eqb c [34%N] then str "&quot;"
  else if str_eqb c (str "'") then str "&#39;"
  else str "undefined".

(** [escapeHtml(s)], for a string [s]. *)
Definition escapeHtml (s : jsstring) : jsstring :=
  replaceAllWith (Char isMarkup) entityOf s.

(** The same, one code unit at a time. *)
Definition escapeChar (c : char) : jsstring :=
  if isMarkup c then entityOf [c] else [c].

(* ------------------------------------------------------------------------- *)
(** ** Reading a PDF: [isPdfBuffer] and [extractTextFromPdf] *)

(** A [Buffer], as its bytes. *)
Definition buffer := list N.

(** [buf.toString('ascii')]: the decoding drops the highest bit of every
    byte. *)
Definition asciiString (bytes : buffer) : jsstring := map (fun b => N.land b 127) bytes.

(** [isPdfBuffer(buf)], for a [Buffer], which is what both callers pass. *)
Definition isPdfBuffer (buf : buffer) : bool :=
  if length buf <? 5 then false
  else startsWith (str "%PDF-") (asciiString (slice buf 0 5)).

(** A promise of the libraries, awaited: its value, or the error it rejects
    with, as the code reads it, [String(err.message || '')]. *)
Inductive awaited (A : Type) : Type :=
| Resolved (a : A)
| Rejected (message : jsstring).
Arguments Resolved {A} a.
Arguments Rejected {A} message.

(** What a call of this program does: it returns, or throws an [Error] with
    a message and, possibly, a [code]. *)
Inductive outcome (A : Type) : Type :=
| Returned (a : A)
| Threw (message : jsstring) (code : option jsstring).
Arguments Returned {A} a.
Arguments Threw {A} message code.

(** [isPasswordError(msg)], and the test of the branch without a password,
    [String(err.message || '').toLowerCase().includes('password')]. *)
Definition isPasswordError (msg : jsstring) : bool :=
  let s := toLowerCase msg in
  (includes s (str "password") || includes s (str "encrypted")
   || includes s (str "need password"))%bool.

Definition mentionsPassword (msg : jsstring) : bool :=
  includes (toLowerCase msg) (str "password").

(** The error with [code = 'PASSWORD'], and the two without a code. *)
Definition passwordError {A : Type} : outcome A :=
  Threw (str "Invalid or missing password") (Some (str "PASSWORD")).
Definition invalidFileType {A : Type} : outcome A := Threw (str "Invalid file type") None.
Definition failedToParse {A : Type} : outcome A := Threw (str "Failed to parse PDF") None.

Section ExtractText.

(** The libraries: [PDFDocument.load(buffer, { password })] (without the
    options when there is no password), [pdfDoc.save()] and [pdfParse(bytes)],
    whose value is read at [text]; [None] is a [text] that is [undefined]. *)
Variable pdfDoc : Type.
Variable load : buffer -> option jsstring -> awaited pdfDoc.
Variable save : pdfDoc -> awaited buffer.
Variable pdfParse : buffer -> awaited (option jsstring).

(** [data.text || ''] *)
Definition textOf (text : option jsstring) : jsstring :=
  match text with
  | Some t => orStr t []
  | None => []
  end.

(** [normalizeText((await pdfParse(bytes)).text || '')] *)
Definition parsedText (bytes : buffer) : awaited jsstring :=
  match pdfParse bytes with
  | Resolved text => Resolved (normalizeText (textOf text))
  | Rejected e => Rejected e
  end.

(** The body of the two outer [try] blocks: load, save, parse. *)
Definition throughPdfLib (buf : buffer) (password : option jsstring) : awaited jsstring :=
  match load buf password with
  | Rejected e => Rejected e
  | Resolved doc =>
      match save doc with
      | Rejected e => Rejected e
      | Resolved bytes => parsedText bytes
      end
  end.

(** [extractTextFromPdf(buffer, password)], for a string [password]. *)
Definition extractTextFromPdf (buf : buffer) (password : jsstring) : outcome jsstring :=
  if negb (isPdfBuffer buf) then invalidFileType
  else if (truthy password && truthy (trim password))%bool then
    match throughPdfLib buf (Some (trim password)) with
    | Resolved t => Returned t
    | Rejected e =>
        if isPasswordError e then passwordError
        else
          match parsedText buf with
          | Resolved t => Returned t
          | Rejected _ => failedToParse
          end
    end
  else
    match throughPdfLib buf None with
    | Resolved t => Returned t
    | Rejected e =>
        if mentionsPassword e then passwordError
        else
          match parsedText buf with
          | Resolved t => Returned t
          | Rejected e2 => if mentionsPassword e2 then passwordError else failedToParse
          end
    end.

End ExtractText.

(* ------------------------------------------------------------------------- *)
(** ** [POST /upload] *)

Module Upload.


(** What [res.status(...).json(...)] sends: [{ error }],
    [{ error, parsingSummary }] or the analytics. *)
Inductive body : Type :=
| Error (error : jsstring)
| ErrorAndSummary (error : jsstring) (parsingSummary : ParsingSummary)
| Analytics (analytics : Report.t ParsingSummary).




Section Handler.

(** The environment of a call: [fsp.readFile], the PDF libraries, what
    [uuid()] and [new Date().toISOString()] return, [localeCompare], whether
    [transactionsCol] is set, whether [insertMany] resolves, and the test on
    the client in the [catch] clause, [None] when reading
    [mongoClient.topology.s.state] throws. *)
Variable readFile : jsstring -> awaited buffer.
Variable pdfDoc : Type.
Variable load : buffer -> option jsstring -> awaited pdfDoc.
Variable save : pdfDoc -> awaited buffer.
Variable pdfParse : buffer -> awaited (option jsstring).
Variable uuid : jsstring.
Variable clock : nat -> jsstring.
Variable localeCompare : jsstring -> jsstring -> comparison.
Variable transactionsCol : bool.
Variable insertMany : list Transaction -> awaited unit.
Variable notConnected : option bool.






End Handler.

End Upload.

(* ------------------------------------------------------------------------- *)
(** ** Written dates *)

(** A text of [lo] to [hi] decimal digits. *)
Definition digitsOf (lo hi : nat) (t : jsstring) : bool :=
  (forallb isDigit t && (lo <=? length t) && (length t <=? hi))%bool.

(** The class of [dateSep]. *)
Definition isDateSep (c : char) : bool := (N.eqb c 47 || N.eqb c 46 || N.eqb c 45)%bool.

(** A text with every digit replaced by [0], and every letter by [a]. *)
Definition blankChar (c : char) : char :=
  if isDigit c then 48%N else if isAlpha c then 97%N else c.
Definition blanked (s : jsstring) : jsstring := map blankChar s.

(** A pattern that tells no digit from another and no letter from another. *)
Definition blind (r : regex) : bool :=
  forallb (fun p => forallb (fun c => Bool.eqb (p c) (p (blankChar c)))
                      (map N.of_nat (seq 48 10 ++ seq 65 26 ++ seq 97 26)))
          (charTests r).

(** A lower-case letter other than [k]: what the names of [monthMap] are
    made of. *)
Definition isMonthLetter (c : char) : bool := (isLower c && negb (N.eqb c 107))%bool.

(* ------------------------------------------------------------------------- *)
(** ** Further sample data *)

(** The transaction [t] with another [date]. *)
Definition withDate (d : option jsstring) (t : Transaction) : Transaction :=
  {| statementId := statementId t;
     date := d;
     description := description t;
     amount := amount t;
     type := type t;
     category := category t;
     confidence := confidence t;
     rawLine := rawLine t;
     createdAt := createdAt t |}.

(** Seven debits, three of them of the same amount, and a credit. *)
Definition ledger : list Transaction :=
  [sampleTransaction "debit" 30%float (Some (str "2024-02-01")) "a";
   sampleTransaction "debit" 10%float (Some (str "2024-02-02")) "b";
   sampleTransaction "credit" 90%float (Some (str "2024-02-03")) "pay";
   sampleTransaction "debit" 30%float (Some (str "2024-02-04")) "c";
   sampleTransaction "debit" 20%float (Some (str "2024-02-05")) "d";
   sampleTransaction "debit" 50%float (Some (str "2024-02-06")) "e";
   sampleTransaction "debit" 40%float (Some (str "2024-02-07")) "f";
   sampleTransaction "debit" 30%float (Some (str "2024-02-08")) "g"].

(** The entry of [top5Expenses] for a debit of [ledger]. *)
Definition ledgerEntry (amt : number) (day desc : string) : Expense.t :=
  {| Expense.amount := amt; Expense.description := str desc;
     Expense.date := Some (str day) |}.

(** A debit whose amount is [NaN], and a debit of 1. *)
Definition debitNaN : Transaction :=
  sampleTransaction "debit" PrimFloat.nan (Some (str "2024-01-05")) "n".
Definition debitOne : Transaction :=
  sampleTransaction "debit" 1%float (Some (str "2024-01-06")) "one".
(* ------------------------------------------------------------------------- *)
(** ** Progress of the matcher *)

Module RegexFacts.

Lemma iterStar_reaches (R : Type) (s : jsstring)
      (body : nat -> captures -> (nat -> captures -> option R) -> option R) :
  (forall i c k x, i <= length s -> body i c k = Some x -> reaches s 0 i k x) ->
  forall fuel k i c x,
    i <= length s -> iterStar body k fuel i c = Some x -> reaches s 0 i k x.
Proof.
  intros Hbody fuel k. induction fuel as [|fuel IH]; intros i c x Hi H; simpl in H.
  - exists i, c. repeat split; [lia | assumption | assumption].
  - destruct (body i c _) as [y|] eqn:E.
    + inversion H; subst y; clear H.
      destruct (Hbody _ _ _ _ Hi E) as (j & c' & Hj & Hl & Hk).
      destruct (j <=? i) eqn:Hji; [discriminate|].
      apply Nat.leb_gt in Hji.
      destruct (IH j c' x Hl Hk) as (j' & c'' & Hj' & Hl' & Hk').
      exists j', c''. repeat split; [lia | assumption | assumption].
    + exists i, c. repeat split; [lia | assumption | assumption].
Qed.

Lemma run_reaches (R : Type) (s : jsstring) (r : regex) :
  forall i c (k : nat -> captures -> option R) x,
    i <= length s -> run s r i c k = Some x -> reaches s (minLen r) i k x.
Proof.
  induction r as [ | p | r1 IH1 r2 IH2 | r1 IH1 r2 IH2 | r1 IH1 | n r1 IH1 | | | ];
    intros i c k x Hi H; simpl in H |- *.
  - exists i, c. repeat split; [lia | assumption | assumption].
  - destruct (nth_error s i) as [y|] eqn:E; [|discriminate].
    destruct (p y); [|discriminate].
    assert (i < length s) by (apply nth_error_Some; congruence).
    exists (S i), c. repeat split; [lia | lia | assumption].
  - destruct (IH1 _ _ _ _ Hi H) as (j & c' & Hj & Hl & Hk).
    destruct (IH2 _ _ _ _ Hl Hk) as (j' & c'' & Hj' & Hl' & Hk').
    exists j', c''. repeat split; [lia | assumption | assumption].
  - destruct (run s r1 i c k) as [y|] eqn:E.
    + inversion H; subst y.
      destruct (IH1 _ _ _ _ Hi E) as (j & c' & Hj & Hl & Hk).
      exists j, c'. repeat split; [lia | assumption | assumption].
    + destruct (IH2 _ _ _ _ Hi H) as (j & c' & Hj & Hl & Hk).
      exists j, c'. repeat split; [lia | assumption | assumption].
  - apply (@iterStar_reaches R s (run s r1)) with (fuel := length s) (c := c); auto.
    intros i0 c0 k0 x0 Hi0 H0.
    destruct (IH1 _ _ _ _ Hi0 H0) as (j & c' & Hj & Hl & Hk).
    exists j, c'. repeat split; [lia | assumption | assumption].
  - destruct (IH1 _ _ _ _ Hi H) as (j & c' & Hj & Hl & Hk).
    exists j, ((n, (i, j)) :: c'). repeat split; [lia | assumption | assumption].
  - destruct (i =? 0); [|discriminate].
    exists i, c. repeat split; [lia | assumption | assumption].
  - destruct (i =? length s); [|discriminate].
    exists i, c. repeat split; [lia | assumption | assumption].
  - destruct (xorb _ _); [|discriminate].
    exists i, c. repeat split; [lia | assumption | assumption].
Qed.

(** A match found at [i] ends inside the string, [minLen r] or more on. *)
Lemma matchAt_bounds (r : regex) (s : jsstring) (i j : nat) (c : captures) :
  i <= length s -> matchAt r s i = Some (j, c) -> i + minLen r <= j <= length s.
Proof.
  intros Hi H. unfold matchAt in H.
  destruct (run_reaches _ _ _ _ Hi H) as (j' & c' & Hj & Hl & Hk).
  inversion Hk; subst. lia.
Qed.

Lemma searchFrom_bounds (r : regex) (s : jsstring) :
  forall fuel i a b c,
    i + fuel <= length s -> searchFrom r s fuel i = Some (a, b, c) ->
    i <= a /\ a + minLen r <= b <= length s.
Proof.
  induction fuel as [|fuel IH]; intros i a b c Hi H; simpl in H.
  - destruct (matchAt r s i) as [[j c0]|] eqn:E; [|discriminate].
    inversion H; subst. apply matchAt_bounds in E; lia.
  - destruct (matchAt r s i) as [[j c0]|] eqn:E.
    + inversion H; subst. apply matchAt_bounds in E; lia.
    + apply IH in H; lia.
Qed.

(** [exec] moves [lastIndex] forward by at least [minLen r]. *)
Lemma search_bounds (r : regex) (s : jsstring) (from a b : nat) (c : captures) :
  search r s from = Some (a, b, c) -> from <= a /\ a + minLen r <= b <= length s.
Proof.
  unfold search. destruct (length s <? from) eqn:E; [discriminate|].
  apply Nat.ltb_ge in E. apply searchFrom_bounds. lia.
Qed.

End RegexFacts.

(** ** Termination and accounting of the parser *)

Lemma amtPattern_consumes : minLen amtPattern = 18.
Proof. reflexivity. Qed.

(** The [exec] loop ends: each match of [amtPattern] is non-empty, so
    [lastIndex] grows until [exec] returns [null]. *)
Lemma amountMatches_terminates (line : jsstring) :
  forall fuel lastIndex acc,
    lastIndex <= length line < lastIndex + fuel ->
    exists l, amountMatches fuel line lastIndex acc = Some l.
Proof.
  induction fuel as [|fuel IH]; intros lastIndex acc Hf; simpl.
  - lia.
  - destruct (search amtPattern line lastIndex) as [[[a b] c]|] eqn:E.
    + apply RegexFacts.search_bounds in E. rewrite amtPattern_consumes in E.
      apply IH. lia.
    + eexists; reflexivity.
Qed.

Lemma parseLine_terminates (sid now line : jsstring) :
  exists r, parseLine (S (length line)) sid now line = Some r.
Proof.
  unfold parseLine.
  destruct (matchFirst datePattern line) as [[dateStrRaw m]|]; [|eexists; reflexivity].
  destruct (parseDateStr dateStrRaw) as [dateISO|]; [|eexists; reflexivity].
  destruct (@amountMatches_terminates line (S (length line)) 0 []) as [l Hl]; [lia|].
  rewrite Hl.
  destruct (rev l) as [|amtRaw ?]; [eexists; reflexivity|].
  destruct (toNumber amtRaw) as [amt|]; [|eexists; reflexivity].
  destruct (negb (isFinite amt)); eexists; reflexivity.
Qed.

Section ParserFacts.

Variable clock : nat -> jsstring.

(** Every line adds one to exactly one of the two counts. *)
Lemma parseLines_accounts (sid : jsstring) :
  forall lines i st,
  exists st',
    parseLines clock sid i lines st = Some st'
    /\ skipped st' + length (transactions st')
       = skipped st + length (transactions st) + length lines.
Proof.
  induction lines as [|line lines IH]; intros i st; simpl.
  - exists st. split; [reflexivity | lia].
  - destruct (parseLine_terminates sid (clock i) line) as [r Hr].
    rewrite Hr. destruct r as [tx|].
    + destruct (IH (S i) (pushTransaction st tx)) as (st' & H1 & H2).
      exists st'. split; [assumption|].
      rewrite H2. simpl. rewrite length_app. simpl. lia.
    + destruct (IH (S i) (skipLine st line)) as (st' & H1 & H2).
      exists st'. split; [assumption|].
      rewrite H2. simpl. lia.
Qed.

(** C2.  For every input string, empty, garbage or however long, the parser
    returns: the fuel of the [exec] loop never runs out, and the result is a
    list of transactions together with a summary. *)
Theorem parseTransactions_returns :
  forall rawText sid : jsstring,
  exists (txs : list Transaction) (summary : ParsingSummary),
    parseTransactions clock rawText sid = Some (txs, summary).
Proof.
  intros rawText sid. unfold parseTransactions.
  destruct (parseLines_accounts sid (statementLines rawText) 0
              {| transactions := []; skipped := 0; skippedExamples := [] |})
    as (st' & H1 & _).
  rewrite H1. eexists. eexists. reflexivity.
Qed.

(** C3.  For every input string the summary counts each non-empty trimmed
    line once: [transactionsExtracted] is the number of transactions, and
    [skippedLines] plus that number is [linesScanned], the number of non-empty
    trimmed lines. *)
Theorem summary_counts_every_line_once :
  forall rawText sid : jsstring,
  exists (txs : list Transaction) (summary : ParsingSummary),
    parseTransactions clock rawText sid = Some (txs, summary)
    /\ transactionsExtracted summary = length txs
    /\ skippedLines summary + length txs = linesScanned summary
    /\ linesScanned summary = length (statementLines rawText).
Proof.
  intros rawText sid. unfold parseTransactions.
  destruct (parseLines_accounts sid (statementLines rawText) 0
              {| transactions := []; skipped := 0; skippedExamples := [] |})
    as (st' & H1 & H2).
  rewrite H1. eexists. eexists. split; [reflexivity|]. simpl in *.
  repeat split; lia.
Qed.

End ParserFacts.

(** ** Invariants of the extracted transactions *)

(** What every extracted transaction satisfies is kept by the loop. *)
Lemma parseLines_Forall (clock : nat -> jsstring) (P : Transaction -> Prop) :
  (forall fuel sid now line tx,
      parseLine fuel sid now line = Some (Extracted tx) -> P tx) ->
  forall sid lines i st st',
    Forall P (transactions st) ->
    parseLines clock sid i lines st = Some st' ->
    Forall P (transactions st').
Proof.
  intros HP sid. induction lines as [|line lines IH]; intros i st st' Hst H; simpl in H.
  - inversion H; subst; assumption.
  - destruct (parseLine _ sid (clock i) line) as [[tx|]|] eqn:E; [| |discriminate].
    + apply (IH _ _ _ (fun x => x) H) || (apply IH in H; [assumption|]).
      simpl. apply Forall_app. split; [assumption|].
      constructor; [eapply HP; eassumption | constructor].
    + apply IH in H; assumption.
Qed.

Lemma parseTransactions_Forall (clock : nat -> jsstring) (P : Transaction -> Prop) :
  (forall fuel sid now line tx,
      parseLine fuel sid now line = Some (Extracted tx) -> P tx) ->
  forall rawText sid,
  exists txs summary,
    parseTransactions clock rawText sid = Some (txs, summary) /\ Forall P txs.
Proof.
  intros HP rawText sid.
  destruct (parseLines_accounts clock sid (statementLines rawText) 0
              {| transactions := []; skipped := 0; skippedExamples := [] |})
    as (st' & H1 & _).
  unfold parseTransactions. rewrite H1. eexists. eexists. split; [reflexivity|].
  eapply parseLines_Forall; [exact HP | | exact H1]. constructor.
Qed.

(** The fields of an extracted transaction, read off the loop body. *)
Lemma parseLine_extracted (fuel : nat) (sid now line : jsstring) (tx : Transaction) :
  parseLine fuel sid now line = Some (Extracted tx) ->
  exists dateStrRaw caps dateISO amtRaw amt,
    matchFirst datePattern line = Some (dateStrRaw, caps)
    /\ parseDateStr dateStrRaw = Some dateISO
    /\ toNumber amtRaw = Some amt
    /\ isFinite amt = true
    /\ date tx = Some dateISO
    /\ amount tx = mathAbs amt
    /\ type tx = inferType line amtRaw amt
    /\ category tx = Some (categorize (orStr (describe line dateStrRaw amtRaw) line))
    /\ confidence tx
       = confidenceScore true true (truthy (type tx))
           (truthy (categorize (orStr (describe line dateStrRaw amtRaw) line))
            && negb (str_eqb (categorize (orStr (describe line dateStrRaw amtRaw) line))
                       (str "other")))
           (length (orStr (describe line dateStrRaw amtRaw) [])).
Proof.
  unfold parseLine. intros H.
  destruct (matchFirst datePattern line) as [[dateStrRaw caps]|]; [|discriminate].
  destruct (parseDateStr dateStrRaw) as [dateISO|] eqn:Ed; [|discriminate].
  destruct (amountMatches fuel line 0 []) as [l|]; [|discriminate].
  destruct (rev l) as [|amtRaw ?]; [discriminate|].
  destruct (toNumber amtRaw) as [amt|] eqn:En; [|discriminate].
  destruct (isFinite amt) eqn:Ef; simpl in H; [|discriminate].
  inversion H; subst tx; clear H. simpl.
  exists dateStrRaw, caps, dateISO, amtRaw, amt. repeat split; assumption.
Qed.

Lemma confidenceScore_bounds (hasType hasCategory : bool) (descLen : nat) :
  let c := confidenceScore true true hasType hasCategory descLen in
  PrimFloat.leb 0.7 c = true /\ PrimFloat.leb 0 c = true /\ PrimFloat.leb c 1 = true.
Proof.
  unfold confidenceScore.
  destruct hasType, hasCategory, (3 <? descLen); vm_compute; repeat split.
Qed.

(** C7.  Every transaction the parser produces has confidence at least 0.70:
    a transaction exists only once a date and an amount were found, and each
    of the two adds 0.35 to the score. *)
Theorem confidence_at_least_070 :
  forall (clock : nat -> jsstring) (rawText sid : jsstring),
  exists txs summary,
    parseTransactions clock rawText sid = Some (txs, summary)
    /\ Forall (fun tx => PrimFloat.leb 0.7 (confidence tx) = true) txs
    /\ confidenceScore true true false false 0 = 0.7%float.
Proof.
  intros clock rawText sid.
  destruct (@parseTransactions_Forall clock
              (fun tx => PrimFloat.leb 0.7 (confidence tx) = true)) with
    (rawText := rawText) (sid := sid) as (txs & sm & H1 & H2).
  - intros fuel sid0 now line tx H.
    apply parseLine_extracted in H.
    destruct H as (d & caps & iso & raw & amt & _ & _ & _ & _ & _ & _ & _ & _ & Hc).
    rewrite Hc. apply confidenceScore_bounds.
  - exists txs, sm. repeat split; try assumption.
Qed.

(* ------------------------------------------------------------------------- *)
(** ** Strings *)

Lemma str_eqb_eq (a b : jsstring) : str_eqb a b = true -> a = b.
Proof.
  revert b. induction a as [|x a IH]; intros [|y b] H; simpl in H;
    try discriminate; [reflexivity|].
  apply andb_prop in H. destruct H as [H1 H2].
  apply N.eqb_eq in H1. apply IH in H2. congruence.
Qed.

(* ------------------------------------------------------------------------- *)
(** ** The analytics loop *)

Lemma sums_fold (l : list Transaction) :
  forall st, sums (fold_left step l st) = fold_left addTransaction l (sums st).
Proof. induction l as [|t l IH]; intros st; simpl; [reflexivity | apply IH]. Qed.

Lemma byCategory_fold (l : list Transaction) :
  forall st, byCategory (fold_left step l st) = fold_left addCategory l (byCategory st).
Proof. induction l as [|t l IH]; intros st; simpl; [reflexivity | apply IH]. Qed.

Lemma byMonth_fold (l : list Transaction) :
  forall st, byMonth (fold_left step l st) = fold_left addMonth l (byMonth st).
Proof. induction l as [|t l IH]; intros st; simpl; [reflexivity | apply IH]. Qed.

Lemma expenses_fold (l : list Transaction) :
  forall st,
    expenses (fold_left step l st) = expenses st ++ map expenseOf (filter isDebit l).
Proof.
  induction l as [|t l IH]; intros st; simpl.
  - now rewrite app_nil_r.
  - rewrite IH. simpl. unfold isDebit. destruct (str_eqb (type t) (str "debit")).
    + now rewrite <- app_assoc.
    + reflexivity.
Qed.

Lemma undated_month (t : Transaction) : undated t -> truthy (monthKey t) = false.
Proof. unfold monthKey. intros [H|H]; rewrite H; reflexivity. Qed.

(** A transaction without a date leaves [byMonth] as it was. *)
Lemma addMonth_undated (t : Transaction) (m : list (jsstring * Totals)) :
  undated t -> addMonth m t = m.
Proof. intros H. unfold addMonth. now rewrite (undated_month H). Qed.

(* ------------------------------------------------------------------------- *)
(** ** Rounding to two decimals *)

Ltac qsolve :=
  change (2 ^ 52)%positive with 4503599627370496%positive in *;
  unfold Qdiv; change (/ (100 # 1))%Q with (1 # 100)%Q;
  repeat rewrite inject_Z_plus; repeat rewrite inject_Z_opp;
  change (inject_Z 1) with 1%Q; lra.

Lemma floor_unique (x : Q) (k : Z) :
  (inject_Z k <= x)%Q -> (x < inject_Z k + 1)%Q -> Qfloor x = k.
Proof.
  intros H1 H2.
  assert (Hf := Qfloor_le x). assert (Hc := Qlt_floor x).
  rewrite inject_Z_plus in Hc. change (inject_Z 1) with 1%Q in Hc.
  assert (A : (inject_Z (Qfloor x) < inject_Z (k + 1))%Q).
  { rewrite inject_Z_plus. change (inject_Z 1) with 1%Q. lra. }
  assert (B : (inject_Z k < inject_Z (Qfloor x + 1))%Q).
  { rewrite inject_Z_plus. change (inject_Z 1) with 1%Q. lra. }
  rewrite <- Zlt_Qlt in A, B. lia.
Qed.

Lemma round2Exact_unfold (v : Q) :
  (round2Exact v
   == inject_Z (Qfloor ((v + (1 # 2 ^ 52)) * (100 # 1) + (1 # 2))) / (100 # 1))%Q.
Proof. reflexivity. Qed.

(** Over the rationals [round2] gives the multiple of 0.01 nearest to
    [v + epsilon], the upper one when two are equally near. *)
Lemma round2Exact_nearest (v : Q) :
  exists k : Z,
    (round2Exact v == inject_Z k / (100 # 1))%Q
    /\ (inject_Z k / (100 # 1) - (1 # 200) <= v + (1 # 2 ^ 52))%Q
    /\ (v + (1 # 2 ^ 52) < inject_Z k / (100 # 1) + (1 # 200))%Q.
Proof.
  exists (Qfloor ((v + (1 # 2 ^ 52)) * (100 # 1) + (1 # 2))).
  split; [apply round2Exact_unfold|].
  set (x := ((v + (1 # 2 ^ 52)) * (100 # 1) + (1 # 2))%Q).
  assert (Hf := Qfloor_le x). assert (Hc := Qlt_floor x).
  rewrite inject_Z_plus in Hc. change (inject_Z 1) with 1%Q in Hc.
  subst x. split; qsolve.
Qed.

(** On a tie [round2] gives the upper neighbour, whatever the sign. *)
Lemma round2Exact_tie (v : Q) : isTie v -> (round2Exact v == v + (1 # 200))%Q.
Proof.
  intros [j Hj]. rewrite round2Exact_unfold.
  rewrite (@floor_unique _ j); qsolve.
Qed.

Lemma roundHalfAway_tie_nonneg (v : Q) :
  isTie v -> (0 <= v)%Q -> (roundHalfAwayFromZero2 v == v + (1 # 200))%Q.
Proof.
  intros [j Hj] Hv. unfold roundHalfAwayFromZero2.
  destruct (Qle_bool 0 v) eqn:E.
  - rewrite (@floor_unique _ j); qsolve.
  - apply Qle_bool_iff in Hv. congruence.
Qed.

Lemma roundHalfAway_tie_neg (v : Q) :
  isTie v -> (v < 0)%Q -> (roundHalfAwayFromZero2 v == v - (1 # 200))%Q.
Proof.
  intros [j Hj] Hv. unfold roundHalfAwayFromZero2.
  destruct (Qle_bool 0 v) eqn:E.
  - apply Qle_bool_iff in E. lra.
  - rewrite (@floor_unique _ (1 - j)); unfold Z.sub; qsolve.
Qed.

(* ------------------------------------------------------------------------- *)
(** ** The order of binary64 numbers *)

Module FloatFacts.

Local Open Scope Z_scope.

Lemma digits2_size (m : positive) : digits2_pos m = Pos.size m.
Proof. induction m; simpl; congruence. Qed.

Lemma digits_bounds (m : positive) :
  2 ^ (Zpos (digits2_pos m) - 1) <= Zpos m < 2 ^ Zpos (digits2_pos m).
Proof.
  rewrite digits2_size. split.
  - assert (H := Pos.size_le m).
    assert (Zpos (2 ^ Pos.size m) <= Zpos m~0) by (apply Pos2Z.pos_le_pos; exact H).
    rewrite Pos2Z.inj_pow in H0. change (Zpos m~0) with (2 * Zpos m) in H0.
    replace (Zpos (Pos.size m)) with (Zpos (Pos.size m) - 1 + 1) in H0 by lia.
    rewrite Z.pow_add_r in H0 by lia. change (2 ^ 1) with 2 in H0. lia.
  - assert (H := Pos.size_gt m).
    assert (Zpos m < Zpos (2 ^ Pos.size m)) by (apply Pos2Z.pos_lt_pos; exact H).
    now rewrite Pos2Z.inj_pow in H0.
Qed.

Lemma fexp_eq (k : Z) : fexp prec emax k = Z.max (k - 53) (-1074).
Proof. reflexivity. Qed.

(** validity of a finite float *)
Lemma valid_finite (s : bool) (m : positive) (e : Z) :
  valid_binary (S754_finite s m e) = true ->
  -1074 <= e <= 971 /\ Zpos m < 2 ^ 53 /\ (-1074 < e -> 2 ^ 52 <= Zpos m).
Proof.
  unfold valid_binary, bounded, canonical_mantissa. intros H.
  apply andb_prop in H. destruct H as [H1 H2].
  apply Z.eqb_eq in H1. apply Z.leb_le in H2. rewrite fexp_eq in H1.
  change (emax - prec) with 971 in H2.
  assert (Hd := digits_bounds m).
  set (d := Zpos (digits2_pos m)) in *.
  assert (d <= 53) by lia.
  split; [lia|]. split.
  - apply Z.lt_le_trans with (2 ^ d); [lia|]. apply Z.pow_le_mono_r; lia.
  - intros He. assert (d = 53) by lia. replace 52 with (d - 1) by lia. lia.
Qed.

Lemma pow2_pos (k : Z) : 0 <= k -> 0 < 2 ^ k.
Proof. intros. apply Z.pow_pos_nonneg; lia. Qed.

Lemma valSF_finite_bounds (s : bool) (m : positive) (e : Z) :
  valid_binary (S754_finite s m e) = true ->
  0 < Zpos m * 2 ^ (e + 1074) < infValue.
Proof.
  intros H. apply valid_finite in H. destruct H as (He & Hm & _).
  assert (0 < 2 ^ (e + 1074)) by (apply pow2_pos; lia).
  split; [lia|].
  apply Z.lt_le_trans with (2 ^ 53 * 2 ^ (e + 1074)).
  - apply Z.mul_lt_mono_pos_r; lia.
  - rewrite <- Z.pow_add_r by lia. unfold infValue. apply Z.pow_le_mono_r; lia.
Qed.

(** lexicographic comparison of canonical positive floats = comparison of values *)
Lemma compare_pos_finite (m1 m2 : positive) (e1 e2 : Z) :
  valid_binary (S754_finite false m1 e1) = true ->
  valid_binary (S754_finite false m2 e2) = true ->
  match e1 ?= e2 with
  | Lt => Lt
  | Gt => Gt
  | Eq => Pos.compare_cont Eq m1 m2
  end = (Zpos m1 * 2 ^ (e1 + 1074) ?= Zpos m2 * 2 ^ (e2 + 1074)).
Proof.
  intros V1 V2. apply valid_finite in V1, V2.
  destruct V1 as (He1 & Hm1 & Hn1). destruct V2 as (He2 & Hm2 & Hn2).
  destruct (Z.compare_spec e1 e2) as [E|E|E].
  - subst e2. rewrite Pos.compare_cont_spec. simpl Pos.switch_Eq.
    rewrite Pos2Z.inj_compare.
    assert (0 < 2 ^ (e1 + 1074)) by (apply pow2_pos; lia).
    destruct (Z.compare_spec (Zpos m1) (Zpos m2)); symmetry.
    + apply Z.compare_eq_iff. congruence.
    + apply Z.compare_lt_iff. nia.
    + apply Z.compare_gt_iff. nia.
  - symmetry. apply Z.compare_lt_iff.
    replace (e2 + 1074) with ((e1 + 1074) + (e2 - e1)) by lia.
    rewrite (Z.pow_add_r 2 (e1 + 1074) (e2 - e1)) by lia.
    assert (0 < 2 ^ (e1 + 1074)) by (apply pow2_pos; lia).
    assert (2 ^ 1 <= 2 ^ (e2 - e1)) by (apply Z.pow_le_mono_r; lia).
    change (2 ^ 1) with 2 in *. change (2 ^ 53) with 9007199254740992 in *.
    change (2 ^ 52) with 4503599627370496 in *.
    assert (4503599627370496 <= Zpos m2) by lia.
    generalize dependent (2 ^ (e1 + 1074)). generalize dependent (2 ^ (e2 - e1)).
    intros K HK P HP. assert (Zpos m1 < Zpos m2 * K) by nia. nia.
  - symmetry. apply Z.compare_gt_iff.
    replace (e1 + 1074) with ((e2 + 1074) + (e1 - e2)) by lia.
    rewrite (Z.pow_add_r 2 (e2 + 1074) (e1 - e2)) by lia.
    assert (0 < 2 ^ (e2 + 1074)) by (apply pow2_pos; lia).
    assert (2 ^ 1 <= 2 ^ (e1 - e2)) by (apply Z.pow_le_mono_r; lia).
    change (2 ^ 1) with 2 in *. change (2 ^ 53) with 9007199254740992 in *.
    change (2 ^ 52) with 4503599627370496 in *.
    assert (4503599627370496 <= Zpos m1) by lia.
    generalize dependent (2 ^ (e2 + 1074)). generalize dependent (2 ^ (e1 - e2)).
    intros K HK P HP. assert (Zpos m2 < Zpos m1 * K) by nia. nia.
Qed.

Lemma SFcompare_value (x y : spec_float) :
  valid_binary x = true -> valid_binary y = true ->
  x <> S754_nan -> y <> S754_nan ->
  SFcompare x y = Some (valSF x ?= valSF y).
Proof.
  intros Vx Vy Nx Ny.
  destruct x as [sx|sx| |sx mx ex]; try congruence;
  destruct y as [sy|sy| |sy my ey]; try congruence.
  all: try (assert (Bx := valSF_finite_bounds _ _ _ Vx)).
  all: try (assert (By := valSF_finite_bounds _ _ _ Vy)).
  all: assert (0 < infValue) by (unfold infValue; apply pow2_pos; lia).
  all: unfold SFcompare, valSF, cond_Zopp.
  all: try (destruct sx); try (destruct sy); f_equal.
  all: try (symmetry; apply Z.compare_eq_iff; lia).
  all: try (symmetry; apply Z.compare_lt_iff; lia).
  all: try (symmetry; apply Z.compare_gt_iff; lia).
  - rewrite Z.compare_opp.
    rewrite (Z.compare_antisym (Zpos mx * 2 ^ (ex + 1074)) (Zpos my * 2 ^ (ey + 1074))).
    rewrite <- (compare_pos_finite mx my ex ey) by assumption.
    destruct (ex ?= ey); reflexivity.
  - apply compare_pos_finite; assumption.
Qed.

Lemma iter_pos_iter (A : Type) (f : A -> A) (p : positive) :
  forall x, SpecFloat.iter_pos f p x = Pos.iter f x p.
Proof.
  induction p as [p IH|p IH|]; intros x; simpl.
  - rewrite !IH. rewrite <- !Pos.iter_swap. reflexivity.
  - rewrite !IH. reflexivity.
  - reflexivity.
Qed.

Lemma shr_1_m (r : shr_record) : 0 <= shr_m r -> shr_m (shr_1 r) = shr_m r / 2.
Proof.
  destruct r as [m r s]. unfold shr_1. cbn [shr_m]. intros H.
  destruct m as [|[p|p|]|p]; cbn [shr_m]; try reflexivity; try lia.
  - apply Z.div_unique with (r := 1); lia.
  - apply Z.div_unique with (r := 0); lia.
Qed.

Lemma shr_iter_m (p : positive) : forall r,
  0 <= shr_m r -> shr_m (SpecFloat.iter_pos shr_1 p r) = shr_m r / 2 ^ Zpos p.
Proof.
  intros r Hr. rewrite iter_pos_iter. revert r Hr.
  induction p using Pos.peano_ind; intros r Hr.
  - simpl. rewrite shr_1_m by assumption. reflexivity.
  - rewrite Pos.iter_succ. rewrite shr_1_m.
    + rewrite IHp by assumption. rewrite Pos2Z.inj_succ.
      rewrite Z.pow_succ_r by lia. rewrite Z.div_div by lia. f_equal. lia.
    + rewrite IHp by assumption. apply Z.div_pos; lia.
Qed.

Lemma shr_record_of_loc_m (m : Z) (l : location) : shr_m (shr_record_of_loc m l) = m.
Proof. destruct l as [|[| |]]; reflexivity. Qed.

(** Truncating a positive mantissa at an exponent not below [emin] keeps it
    positive. *)
Lemma shr_fexp_positive (m e : Z) (l : location) :
  0 < m -> -1074 <= e ->
  0 < shr_m (fst (shr_fexp prec emax m e l)) /\ -1074 <= snd (shr_fexp prec emax m e l).
Proof.
  intros Hm He. unfold shr_fexp, shr.
  destruct m as [|p|p]; try lia. cbn [Zdigits2].
  rewrite fexp_eq.
  assert (Hd := digits_bounds p). set (d := Zpos (digits2_pos p)) in *.
  destruct (Z.max (d + e - 53) (-1074) - e) as [|n|n] eqn:En; cbn [fst snd].
  - rewrite shr_record_of_loc_m. lia.
  - rewrite shr_iter_m by (rewrite shr_record_of_loc_m; lia).
    rewrite shr_record_of_loc_m. split; [|lia].
    assert (Zpos n = d - 53) by lia.
    apply Z.div_str_pos. split; [apply pow2_pos; lia|].
    apply Z.le_trans with (2 ^ (d - 1)); [|lia].
    apply Z.pow_le_mono_r; lia.
  - rewrite shr_record_of_loc_m. lia.
Qed.

Lemma round_nearest_even_ge (m : Z) (l : location) : m <= round_nearest_even m l.
Proof.
  unfold round_nearest_even. destruct l as [|[| |]]; try lia.
  destruct (Z.even m); lia.
Qed.

(** Rounding a positive mantissa at an exponent not below [emin] gives a
    non-zero number of the sign asked for, finite or infinite. *)
Lemma binary_round_aux_sign (s : bool) (m e : Z) (l : location) :
  0 < m -> -1074 <= e ->
  (exists m' e', binary_round_aux prec emax s m e l = S754_finite s m' e')
  \/ binary_round_aux prec emax s m e l = S754_infinity s.
Proof.
  intros Hm He. unfold binary_round_aux.
  destruct (shr_fexp_positive l Hm He) as [H1 H2].
  destruct (shr_fexp prec emax m e l) as [mrs' e']. cbn [fst snd] in H1, H2.
  assert (H3 := round_nearest_even_ge (shr_m mrs') (loc_of_shr_record mrs')).
  set (m1 := round_nearest_even (shr_m mrs') (loc_of_shr_record mrs')) in *.
  assert (Hm1 : 0 < m1) by lia.
  destruct (shr_fexp_positive loc_Exact Hm1 H2) as [H4 H5].
  destruct (shr_fexp prec emax m1 e' loc_Exact) as [mrs'' e'']. cbn [fst snd] in H4, H5.
  destruct (shr_m mrs'') as [|p|p]; try lia.
  destruct (e'' <=? emax - prec); [left; eauto | right; reflexivity].
Qed.

Lemma iter_xO (d : positive) (m : positive) :
  Zpos (Pos.iter xO m d) = Zpos m * 2 ^ Zpos d.
Proof.
  induction d using Pos.peano_ind.
  - simpl. lia.
  - rewrite Pos.iter_succ, Pos2Z.inj_succ, Z.pow_succ_r by lia.
    change (Zpos (Pos.iter xO m d)~0) with (2 * Zpos (Pos.iter xO m d)). lia.
Qed.

Lemma shl_align_fst (m : positive) (e e' : Z) :
  e' <= e -> Zpos (fst (shl_align m e e')) = Zpos m * 2 ^ (e - e').
Proof.
  intros H. unfold shl_align.
  destruct (e' - e) as [|d|d] eqn:E; cbn [fst].
  - replace (e - e') with 0 by lia. lia.
  - lia.
  - replace (e - e') with (Zpos d) by lia. apply iter_xO.
Qed.

Lemma shl_align_snd (m : positive) (e e' : Z) :
  snd (shl_align m e e') = Z.min e e'.
Proof.
  unfold shl_align. destruct (e' - e) as [|d|d] eqn:E; cbn [snd]; lia.
Qed.

Lemma binary_round_sign (s : bool) (m : positive) (e : Z) :
  -1074 <= e ->
  (exists m' e', binary_round prec emax s m e = S754_finite s m' e')
  \/ binary_round prec emax s m e = S754_infinity s.
Proof.
  intros He. unfold binary_round.
  assert (Hs := shl_align_snd m e (fexp prec emax (Zpos (digits2_pos m) + e))).
  destruct (shl_align m e (fexp prec emax (Zpos (digits2_pos m) + e))) as [mz ez].
  cbn [snd] in Hs. rewrite fexp_eq in Hs.
  apply binary_round_aux_sign; lia.
Qed.

Lemma cond_Zopp_mul (s : bool) (a b : Z) : cond_Zopp s a * b = cond_Zopp s (a * b).
Proof. destruct s; simpl; lia. Qed.

Lemma SFcompare_refl (x : spec_float) :
  valid_binary x = true -> x <> S754_nan -> SFcompare x x = Some Eq.
Proof.
  intros V N. rewrite SFcompare_value by assumption. now rewrite Z.compare_refl.
Qed.

Lemma is_nan_spec (x : float) :
  PrimFloat.is_nan x = false <-> Prim2SF x <> S754_nan.
Proof.
  unfold PrimFloat.is_nan. rewrite FloatAxioms.eqb_spec. unfold SFeqb.
  assert (V := Prim2SF_valid x).
  destruct (Prim2SF x) as [s|s| |s m e].
  - simpl. split; congruence.
  - destruct s; simpl; split; congruence.
  - simpl. split; congruence.
  - rewrite SFcompare_refl by (assumption || congruence). simpl. split; congruence.
Qed.

Lemma ltb_value (x y : float) :
  PrimFloat.is_nan x = false -> PrimFloat.is_nan y = false ->
  PrimFloat.ltb x y = (value x <? value y).
Proof.
  intros Nx Ny. apply is_nan_spec in Nx, Ny.
  rewrite FloatAxioms.ltb_spec. unfold SFltb, value.
  rewrite SFcompare_value by (try apply Prim2SF_valid; assumption).
  unfold Z.ltb. destruct (valSF (Prim2SF x) ?= valSF (Prim2SF y)); reflexivity.
Qed.

Lemma leb_value (x y : float) :
  PrimFloat.is_nan x = false -> PrimFloat.is_nan y = false ->
  PrimFloat.leb x y = (value x <=? value y).
Proof.
  intros Nx Ny. apply is_nan_spec in Nx, Ny.
  rewrite FloatAxioms.leb_spec. unfold SFleb, value.
  rewrite SFcompare_value by (try apply Prim2SF_valid; assumption).
  unfold Z.leb. destruct (valSF (Prim2SF x) ?= valSF (Prim2SF y)); reflexivity.
Qed.

Lemma eqb_value (x y : float) :
  PrimFloat.is_nan x = false -> PrimFloat.is_nan y = false ->
  PrimFloat.eqb x y = (value x =? value y).
Proof.
  intros Nx Ny. apply is_nan_spec in Nx, Ny.
  rewrite FloatAxioms.eqb_spec. unfold SFeqb, value.
  rewrite SFcompare_value by (try apply Prim2SF_valid; assumption).
  unfold Z.eqb.
  destruct (Z.compare_spec (valSF (Prim2SF x)) (valSF (Prim2SF y))) as [E|E|E].
  - rewrite E. destruct (valSF (Prim2SF y)); try reflexivity; now rewrite Pos.eqb_refl.
  - destruct (valSF (Prim2SF x)), (valSF (Prim2SF y)); try reflexivity; try lia.
    + assert (p <> p0) by lia. apply Pos.eqb_neq in H. now rewrite H.
    + assert (p <> p0) by lia. apply Pos.eqb_neq in H. now rewrite H.
  - destruct (valSF (Prim2SF x)), (valSF (Prim2SF y)); try reflexivity; try lia.
    + assert (p <> p0) by lia. apply Pos.eqb_neq in H. now rewrite H.
    + assert (p <> p0) by lia. apply Pos.eqb_neq in H. now rewrite H.
Qed.

Lemma SFltb_zero_sign (r : spec_float) (s : bool) :
  (exists m e, r = S754_finite s m e) \/ r = S754_infinity s ->
  SFltb (S754_zero false) r = negb s.
Proof. intros [(m & e & H)|H]; subst r; destruct s; reflexivity. Qed.

(** The sign of a difference is the order of its operands. *)
Lemma SFsub_positive (x y : spec_float) :
  valid_binary x = true -> valid_binary y = true ->
  x <> S754_nan -> y <> S754_nan ->
  SFltb (S754_zero false) (SFsub prec emax y x) = (valSF x <? valSF y).
Proof.
  intros Vx Vy Nx Ny.
  assert (HI : 0 < infValue) by (unfold infValue; apply pow2_pos; lia).
  destruct x as [sx|sx| |sx mx ex]; try congruence;
  destruct y as [sy|sy| |sy my ey]; try congruence.
  all: try (assert (Bx := valSF_finite_bounds _ _ _ Vx)).
  all: try (assert (By := valSF_finite_bounds _ _ _ Vy)).
  all: try (destruct sx; destruct sy; unfold SFsub, SFltb, SFcompare, valSF, cond_Zopp, negb;
            symmetry; (apply Z.ltb_lt; lia) || (apply Z.ltb_ge; lia)).
  (* both finite *)
  apply valid_finite in Vx, Vy. destruct Vx as (Hex & _). destruct Vy as (Hey & _).
  unfold SFsub.
  set (ez := Z.min ey ex).
  assert (Hy : Zpos (fst (shl_align my ey ez)) = Zpos my * 2 ^ (ey - ez))
    by (apply shl_align_fst; lia).
  assert (Hx : Zpos (fst (shl_align mx ex ez)) = Zpos mx * 2 ^ (ex - ez))
    by (apply shl_align_fst; lia).
  rewrite Hx, Hy.
  assert (P : 0 < 2 ^ (ez + 1074)) by (apply pow2_pos; lia).
  assert (Vy' : valSF (S754_finite sy my ey)
                = cond_Zopp sy (Zpos my * 2 ^ (ey - ez)) * 2 ^ (ez + 1074)).
  { rewrite cond_Zopp_mul. unfold valSF. f_equal. rewrite <- Z.mul_assoc.
    rewrite <- Z.pow_add_r by lia. do 2 f_equal. lia. }
  assert (Vx' : valSF (S754_finite sx mx ex)
                = cond_Zopp sx (Zpos mx * 2 ^ (ex - ez)) * 2 ^ (ez + 1074)).
  { rewrite cond_Zopp_mul. unfold valSF. f_equal. rewrite <- Z.mul_assoc.
    rewrite <- Z.pow_add_r by lia. do 2 f_equal. lia. }
  rewrite Vx', Vy'.
  set (X := cond_Zopp sx (Zpos mx * 2 ^ (ex - ez))).
  set (Y := cond_Zopp sy (Zpos my * 2 ^ (ey - ez))).
  unfold binary_normalize.
  destruct (Y - X) as [|p|p] eqn:D.
  - symmetry. apply Z.ltb_ge. nia.
  - rewrite (@SFltb_zero_sign _ false) by (apply binary_round_sign; lia).
    symmetry. apply Z.ltb_lt. nia.
  - rewrite (@SFltb_zero_sign _ true) by (apply binary_round_sign; lia).
    symmetry. apply Z.ltb_ge. nia.
Qed.

Lemma is_nan_false_zero : Prim2SF 0%float = S754_zero false.
Proof. reflexivity. Qed.

(** [0 < b - a] exactly when [a < b]. *)
Lemma sub_positive (a b : float) :
  PrimFloat.is_nan a = false -> PrimFloat.is_nan b = false ->
  PrimFloat.ltb 0 (b - a) = PrimFloat.ltb a b.
Proof.
  intros Na Nb. rewrite (@ltb_value a b Na Nb).
  apply is_nan_spec in Na, Nb.
  rewrite FloatAxioms.ltb_spec, FloatAxioms.sub_spec, is_nan_false_zero.
  apply SFsub_positive; try apply Prim2SF_valid; assumption.
Qed.

(** *** Rounding to nearest, and the order it keeps *)

Lemma halfEven_spec (A D : Z) :
  0 < D ->
  2 * A - D <= 2 * halfEven A D * D <= 2 * A + D
  /\ (2 * halfEven A D * D = 2 * A + D -> Z.even (halfEven A D) = true)
  /\ (2 * halfEven A D * D = 2 * A - D -> Z.even (halfEven A D) = true).
Proof.
  intros HD. unfold halfEven.
  assert (E := Z.div_mod A D ltac:(lia)).
  assert (R := Z.mod_pos_bound A D HD).
  set (q := A / D) in *. set (r := A mod D) in *.
  destruct (Z.compare_spec (2 * r) D) as [C|C|C].
  - destruct (Z.even q) eqn:Ev.
    + repeat split; try nia. intros; exact Ev.
    + repeat split; try nia. intros _.
      rewrite Z.even_add, Ev. reflexivity.
  - repeat split; nia.
  - repeat split; nia.
Qed.

Lemma halfEven_mono (A1 D1 A2 D2 : Z) :
  0 < D1 -> 0 < D2 -> A1 * D2 <= A2 * D1 -> halfEven A1 D1 <= halfEven A2 D2.
Proof.
  intros H1 H2 H.
  destruct (@halfEven_spec A1 D1 H1) as ((_ & U1) & T1 & _).
  destruct (@halfEven_spec A2 D2 H2) as ((L2 & _) & _ & T2).
  set (n1 := halfEven A1 D1) in *. set (n2 := halfEven A2 D2) in *.
  destruct (Z_le_gt_dec n1 n2) as [|G]; [assumption|exfalso].
  assert (P : 0 < D1 * D2) by nia.
  assert (U : 2 * n1 * (D1 * D2) <= 2 * (A1 * D2) + D1 * D2) by nia.
  assert (L : 2 * (A2 * D1) - D1 * D2 <= 2 * n2 * (D1 * D2)) by nia.
  assert (N : n1 = n2 + 1) by nia.
  assert (E1 : 2 * n1 * D1 = 2 * A1 + D1) by nia.
  assert (E2 : 2 * n2 * D2 = 2 * A2 - D2) by nia.
  apply T1 in E1. apply T2 in E2. rewrite N, Z.even_add, E2 in E1. discriminate.
Qed.

Lemma halfEven_exact (n D : Z) : 0 < D -> halfEven (n * D) D = n.
Proof.
  intros H. unfold halfEven. rewrite Z.mod_mul, Z.div_mul by lia.
  destruct (Z.compare_spec (2 * 0) D); lia.
Qed.

Lemma halfEven_ge (n A D : Z) : 0 < D -> n * D <= A -> n <= halfEven A D.
Proof.
  intros H L. rewrite <- (@halfEven_exact n D H). apply halfEven_mono; try assumption. nia.
Qed.

Lemma halfEven_le (n A D : Z) : 0 < D -> A <= n * D -> halfEven A D <= n.
Proof.
  intros H L. rewrite <- (@halfEven_exact n D H). apply halfEven_mono; try assumption. nia.
Qed.

Lemma halfEven_scale (c A D : Z) : 0 < c -> 0 < D -> halfEven (c * A) (c * D) = halfEven A D.
Proof.
  intros Hc HD. unfold halfEven.
  rewrite Z.div_mul_cancel_l by lia. rewrite Z.mul_mod_distr_l by lia.
  set (r := A mod D).
  destruct (Z.compare_spec (2 * r) D) as [C|C|C];
    destruct (Z.compare_spec (2 * (c * r)) (c * D)) as [C'|C'|C']; try reflexivity; nia.
Qed.

Lemma Zdigits2_nonneg (a : Z) : 0 <= Zdigits2 a.
Proof. destruct a; simpl; lia. Qed.

Lemma Zdigits2_bounds (a : Z) : 0 < a -> 2 ^ (Zdigits2 a - 1) <= a < 2 ^ Zdigits2 a.
Proof. destruct a as [|p|p]; try lia. intros _. apply digits_bounds. Qed.

Lemma Zdigits2_lt (a d : Z) : 0 <= a -> 0 <= d -> a < 2 ^ d -> Zdigits2 a <= d.
Proof.
  intros Ha Hd H. destruct (Z.eq_dec a 0) as [->|N]; [simpl; lia|].
  assert (B := @Zdigits2_bounds a ltac:(lia)).
  assert (2 ^ (Zdigits2 a - 1) < 2 ^ d) by lia.
  apply Z.pow_lt_mono_r_iff in H0; lia.
Qed.

Lemma Zdigits2_ge (a d : Z) : 0 < a -> 2 ^ (d - 1) <= a -> d <= Zdigits2 a.
Proof.
  intros Ha H. assert (B := @Zdigits2_bounds a Ha).
  assert (N := Zdigits2_nonneg a).
  destruct (Z_le_gt_dec d 0); [lia|].
  assert (2 ^ (d - 1) < 2 ^ Zdigits2 a) by lia.
  apply Z.pow_lt_mono_r_iff in H0; lia.
Qed.

Lemma Zdigits2_mono (a b : Z) : 0 <= a <= b -> Zdigits2 a <= Zdigits2 b.
Proof.
  intros [Ha Hab]. destruct (Z.eq_dec a 0) as [->|N]; [apply Zdigits2_nonneg|].
  apply Zdigits2_ge; [lia|]. assert (B := @Zdigits2_bounds a ltac:(lia)). lia.
Qed.

Lemma pow2_add (a b : Z) : 0 <= a -> 0 <= b -> 2 ^ (a + b) = 2 ^ a * 2 ^ b.
Proof. intros. apply Z.pow_add_r; assumption. Qed.

(** the digits of a quotient by, and of a product with, a power of two *)
Lemma Zdigits2_div_pow2 (a k : Z) :
  0 <= k -> 0 < a / 2 ^ k -> Zdigits2 (a / 2 ^ k) = Zdigits2 a - k.
Proof.
  intros Hk Hq.
  assert (P : 0 < 2 ^ k) by (apply pow2_pos; assumption).
  assert (Ha : 0 < a).
  { destruct (Z_lt_le_dec 0 a); [assumption|].
    assert (a / 2 ^ k <= 0) by (apply Z.div_le_upper_bound; lia). lia. }
  assert (Ba := @Zdigits2_bounds a Ha). assert (Bq := @Zdigits2_bounds _ Hq).
  assert (Na := Zdigits2_nonneg a). assert (Nq := Zdigits2_nonneg (a / 2 ^ k)).
  set (da := Zdigits2 a) in *. set (dq := Zdigits2 (a / 2 ^ k)) in *.
  assert (D := Z.div_mod a (2 ^ k) ltac:(lia)).
  assert (R := Z.mod_pos_bound a (2 ^ k) P).
  set (q := a / 2 ^ k) in *. set (r := a mod 2 ^ k) in *.
  assert (dq >= 1). { destruct (Z_le_gt_dec dq 0); [|lia]. assert (2 ^ dq <= 2 ^ 0) by (apply Z.pow_le_mono_r; lia). simpl in H. lia. }
  (* 2^(dq-1) * 2^k <= a < 2^dq * 2^k *)
  assert (L : 2 ^ (dq - 1 + k) <= a) by (rewrite pow2_add by lia; nia).
  assert (U : a < 2 ^ (dq + k)) by (rewrite pow2_add by lia; nia).
  assert (2 ^ (dq - 1 + k) < 2 ^ da) by lia.
  assert (2 ^ (da - 1) < 2 ^ (dq + k)) by lia.
  apply Z.pow_lt_mono_r_iff in H0; try lia.
  apply Z.pow_lt_mono_r_iff in H1; lia.
Qed.

Lemma Zdigits2_mul_pow2 (a k : Z) :
  0 <= k -> 0 < a -> Zdigits2 (a * 2 ^ k) = Zdigits2 a + k.
Proof.
  intros Hk Ha.
  assert (P : 0 < 2 ^ k) by (apply pow2_pos; assumption).
  assert (Q : 0 < (a * 2 ^ k) / 2 ^ k) by (rewrite Z.div_mul by lia; assumption).
  assert (H := @Zdigits2_div_pow2 (a * 2 ^ k) k Hk Q).
  rewrite Z.div_mul in H by lia. lia.
Qed.

Lemma shr_1_eq (m : Z) (r s : bool) :
  0 <= m ->
  shr_1 (Build_shr_record m r s) = Build_shr_record (m / 2) (Z.odd m) (r || s).
Proof.
  intros H. assert (E := @shr_1_m (Build_shr_record m r s) H). cbn [shr_m] in E.
  rewrite <- E. destruct m as [|[p|p|]|p]; try lia; reflexivity.
Qed.

Lemma shr_1_truncation (r : shr_record) (A D : Z) :
  0 <= A -> 0 < D -> truncationOf r A D -> truncationOf (shr_1 r) A (D * 2).
Proof.
  intros HA HD [Hm Hl]. destruct r as [m r s]. cbn [shr_m] in Hm.
  assert (M : 0 <= m) by (rewrite Hm; apply Z.div_pos; lia).
  rewrite shr_1_eq by assumption. unfold truncationOf. cbn [shr_m].
  assert (R := Z.mod_pos_bound A D HD).
  assert (R2 := Z.mod_pos_bound m 2 ltac:(lia)).
  assert (E : A mod (D * 2) = A mod D + D * (m mod 2))
    by (rewrite Hm; apply Z.rem_mul_r; lia).
  split.
  - rewrite Hm. rewrite Z.div_div by lia. reflexivity.
  - rewrite E. rewrite Zmod_odd.
    unfold locationOf in *. cbn [loc_of_shr_record] in *.
    set (r0 := A mod D) in *.
    assert (S : (r || s)%bool = negb (r0 =? 0)).
    { destruct (r0 =? 0); destruct r, s; simpl in *; congruence. }
    rewrite S.
    destruct (Z.odd m); rewrite ?Z.mul_0_r, ?Z.mul_1_r, ?Z.add_0_r.
    + destruct (Z.eqb_spec r0 0) as [Z0|Z0]; cbn [negb].
      * rewrite Z0, Z.add_0_l.
        destruct (Z.eqb_spec D 0) as [N|N]; [lia|].
        f_equal. symmetry. apply Z.compare_eq_iff. lia.
      * destruct (Z.eqb_spec (r0 + D) 0) as [N|N]; [lia|].
        f_equal. symmetry. apply Z.compare_gt_iff. lia.
    + destruct (Z.eqb_spec r0 0) as [Z0|Z0]; cbn [negb]; [reflexivity|].
      f_equal. symmetry. apply Z.compare_lt_iff. lia.
Qed.

Lemma shr_iter_truncation (p : positive) (r : shr_record) (A D : Z) :
  0 <= A -> 0 < D -> truncationOf r A D ->
  truncationOf (SpecFloat.iter_pos shr_1 p r) A (D * 2 ^ Zpos p).
Proof.
  intros HA HD H. rewrite iter_pos_iter.
  induction p using Pos.peano_ind.
  - simpl. change (2 ^ 1) with 2. apply shr_1_truncation; assumption.
  - rewrite Pos.iter_succ, Pos2Z.inj_succ, Z.pow_succ_r by lia.
    replace (D * (2 * 2 ^ Zpos p)) with (D * 2 ^ Zpos p * 2) by lia.
    apply shr_1_truncation; try assumption.
    assert (0 < 2 ^ Zpos p) by (apply pow2_pos; lia). nia.
Qed.

Lemma shr_truncation (r : shr_record) (e n A D : Z) :
  0 <= A -> 0 < D -> 0 <= n -> truncationOf r A D ->
  truncationOf (fst (shr r e n)) A (D * 2 ^ n) /\ snd (shr r e n) = e + n.
Proof.
  intros HA HD Hn H. unfold shr. destruct n as [|p|p]; try lia; cbn [fst snd].
  - rewrite Z.pow_0_r, Z.mul_1_r. split; [assumption|lia].
  - split; [|reflexivity]. apply shr_iter_truncation; assumption.
Qed.

Lemma loc_of_shr_record_of_loc (m : Z) (l : location) :
  loc_of_shr_record (shr_record_of_loc m l) = l.
Proof. destruct l as [|[| |]]; reflexivity. Qed.

Lemma truncation_rne (r : shr_record) (A D : Z) :
  0 < D -> truncationOf r A D ->
  round_nearest_even (shr_m r) (loc_of_shr_record r) = halfEven A D.
Proof.
  intros HD [Hm Hl]. rewrite Hm, Hl. unfold locationOf, halfEven, round_nearest_even.
  destruct (Z.eqb_spec (A mod D) 0) as [Z0|Z0].
  - rewrite Z0. simpl (2 * 0). destruct (Z.compare_spec 0 D); lia.
  - destruct (2 * (A mod D) ?= D); reflexivity.
Qed.

Lemma truncation_init (m : Z) (l : location) (A D : Z) :
  m = A / D -> l = locationOf (A mod D) D -> truncationOf (shr_record_of_loc m l) A D.
Proof.
  intros Hm Hl. split.
  - rewrite shr_record_of_loc_m. assumption.
  - rewrite loc_of_shr_record_of_loc. assumption.
Qed.

(** The class exponent read on a truncated mantissa. *)
Lemma classExp_of_truncation (A B m k : Z) :
  0 <= A -> 0 < B ->
  m = (A * 2 ^ Z.max (- k) 0) / (B * 2 ^ Z.max k 0) ->
  k <= Z.max (Zdigits2 m + k - 53) 0 ->
  Z.max (Zdigits2 m + k - 53) 0 = classExp A B.
Proof.
  intros HA HB Hm P1. unfold classExp.
  assert (Q : 0 <= A / B) by (apply Z.div_pos; lia).
  destruct (Z_le_gt_dec 0 k) as [K|K].
  - (* k >= 0 *)
    replace (Z.max (- k) 0) with 0 in Hm by lia.
    replace (Z.max k 0) with k in Hm by lia.
    rewrite Z.pow_0_r, Z.mul_1_r in Hm.
    rewrite <- Z.div_div in Hm by (try apply pow2_pos; lia).
    destruct (Z.eq_dec m 0) as [M0|M0].
    + rewrite M0 in *. simpl Zdigits2 in *.
      assert (k = 0) by lia. subst k.
      rewrite Z.pow_0_r, Z.div_1_r in Hm. rewrite <- Hm. reflexivity.
    + assert (M : 0 < m).
      { assert (0 <= m) by (rewrite Hm; apply Z.div_pos; try apply pow2_pos; lia). lia. }
      rewrite Hm in M. rewrite Hm. rewrite (@Zdigits2_div_pow2 _ k K M). f_equal. lia.
  - (* k < 0 *)
    replace (Z.max (- k) 0) with (- k) in Hm by lia.
    replace (Z.max k 0) with 0 in Hm by lia.
    rewrite Z.pow_0_r, Z.mul_1_r in Hm.
    assert (Pj : 0 < 2 ^ (- k)) by (apply pow2_pos; lia).
    destruct (Z.eq_dec (A / B) 0) as [Q0|Q0].
    + rewrite Q0. simpl (Zdigits2 0).
      assert (A < B).
      { destruct (Z_lt_le_dec A B); [assumption|].
        assert (1 <= A / B) by (apply Z.div_le_lower_bound; lia). lia. }
      assert (m < 2 ^ (- k)) by (rewrite Hm; apply Z.div_lt_upper_bound; nia).
      assert (0 <= m) by (rewrite Hm; apply Z.div_pos; nia).
      assert (Zdigits2 m <= - k) by (apply Zdigits2_lt; lia). lia.
    + (* A / B >= 1 : m / 2^(-k) = A / B *)
      assert (E : m / 2 ^ (- k) = A / B).
      { rewrite Hm. rewrite Z.div_div by lia. rewrite (Z.mul_comm B).
        rewrite (Z.mul_comm A). apply Z.div_mul_cancel_l; lia. }
      assert (H : 0 < m / 2 ^ (- k)) by lia.
      assert (D := @Zdigits2_div_pow2 m (- k) ltac:(lia) H). rewrite E in D. rewrite D.
      f_equal. lia.
Qed.

Lemma div_lt_inv (a b q : Z) : 0 < b -> a / b < q -> a < b * q.
Proof.
  intros Hb H. destruct (Z_lt_le_dec a (b * q)); [assumption|].
  assert (q <= a / b) by (apply Z.div_le_lower_bound; lia). lia.
Qed.

Lemma div_ge_inv (a b q : Z) : 0 < b -> q <= a / b -> b * q <= a.
Proof.
  intros Hb H. assert (M := Z.mul_div_le a b Hb). nia.
Qed.

(** The mantissa kept for a number of class exponent [E] has at most 53
    digits, and exactly 53 above the smallest class, but for a carry. *)
Lemma halfEven_class_bounds (A B : Z) :
  0 <= A -> 0 < B ->
  let E := classExp A B in
  let m1 := halfEven A (B * 2 ^ E) in
  0 <= E /\ 0 <= m1 <= 2 ^ 53 /\ (0 < E -> 2 ^ 52 <= m1).
Proof.
  intros HA HB E m1.
  assert (HE : 0 <= E) by (unfold E, classExp; lia).
  assert (PE : 0 < 2 ^ E) by (apply pow2_pos; assumption).
  assert (PD : 0 < B * 2 ^ E) by nia.
  assert (Q : 0 <= A / B) by (apply Z.div_pos; lia).
  assert (Dn := Zdigits2_nonneg (A / B)).
  split; [assumption|]. split; [split|].
  - apply halfEven_ge; [assumption|lia].
  - apply halfEven_le; [assumption|].
    assert (U : A / B < 2 ^ (E + 53)).
    { destruct (Z.eq_dec (A / B) 0) as [Z0|Z0].
      - rewrite Z0. apply pow2_pos. lia.
      - assert (Bd := @Zdigits2_bounds (A / B) ltac:(lia)).
        apply Z.lt_le_trans with (2 ^ Zdigits2 (A / B)); [lia|].
        apply Z.pow_le_mono_r; [lia|]. unfold E, classExp. lia. }
    apply div_lt_inv in U; [|assumption].
    rewrite pow2_add in U by lia. nia.
  - intros HP. apply halfEven_ge; [assumption|].
    assert (Dq : Zdigits2 (A / B) = E + 53) by (unfold E, classExp in *; lia).
    assert (Q1 : 0 < A / B).
    { destruct (Z.eq_dec (A / B) 0) as [Z0|Z0]; [|lia]. rewrite Z0 in Dq. simpl in Dq. lia. }
    assert (Bd := @Zdigits2_bounds (A / B) Q1). rewrite Dq in Bd.
    destruct Bd as [L _]. apply div_ge_inv in L; [|assumption].
    replace (E + 53 - 1) with (E + 52) in L by lia.
    rewrite pow2_add in L by lia. nia.
Qed.

Lemma binary_round_aux_nearest (s : bool) (m e : Z) (l : location) (A B : Z) :
  0 <= A -> 0 < B ->
  m = (A * 2 ^ Z.max (- (e + 1074)) 0) / (B * 2 ^ Z.max (e + 1074) 0) ->
  l = locationOf ((A * 2 ^ Z.max (- (e + 1074)) 0) mod (B * 2 ^ Z.max (e + 1074) 0))
                 (B * 2 ^ Z.max (e + 1074) 0) ->
  e <= fexp prec emax (Zdigits2 m + e) ->
  valid_binary (binary_round_aux prec emax s m e l) = true
  /\ binary_round_aux prec emax s m e l <> S754_nan
  /\ valSF (binary_round_aux prec emax s m e l) = cond_Zopp s (nearest A B).
Proof.
  intros HA HB Hm Hl P1.
  set (k := e + 1074) in *.
  assert (PA : 0 < 2 ^ Z.max (- k) 0) by (apply pow2_pos; lia).
  assert (PB : 0 < 2 ^ Z.max k 0) by (apply pow2_pos; lia).
  set (A' := A * 2 ^ Z.max (- k) 0) in *. set (B' := B * 2 ^ Z.max k 0) in *.
  assert (HA' : 0 <= A') by (unfold A'; nia).
  assert (HB' : 0 < B') by (unfold B'; nia).
  assert (R0 := @truncation_init m l A' B' Hm Hl).
  rewrite fexp_eq in P1.
  unfold binary_round_aux, shr_fexp. rewrite fexp_eq.
  set (n1 := Z.max (Zdigits2 m + e - 53) (-1074) - e) in *.
  assert (Hn1 : 0 <= n1) by lia.
  destruct (@shr_truncation _ e n1 A' B' HA' HB' Hn1 R0) as [R1 E1].
  destruct (shr (shr_record_of_loc m l) e n1) as [mrs' e']. cbn [fst snd] in R1, E1.
  assert (PN : 0 < 2 ^ n1) by (apply pow2_pos; assumption).
  rewrite (@truncation_rne _ A' (B' * 2 ^ n1) ltac:(nia) R1).
  set (E := Z.max (Zdigits2 m + k - 53) 0).
  assert (He' : e' + 1074 = E) by (unfold E, k; lia).
  assert (HC : E = classExp A B).
  { unfold E. apply classExp_of_truncation with (m := m) (k := k); try assumption. lia. }
  assert (HH : halfEven A' (B' * 2 ^ n1) = halfEven A (B * 2 ^ E)).
  { unfold A', B'. destruct (Z_le_gt_dec 0 k) as [K|K].
    - replace (Z.max (- k) 0) with 0 by lia. replace (Z.max k 0) with k by lia.
      rewrite Z.pow_0_r, Z.mul_1_r. f_equal. rewrite <- Z.mul_assoc.
      rewrite <- pow2_add by lia. do 2 f_equal. unfold E, n1, k. lia.
    - replace (Z.max (- k) 0) with (- k) by lia. replace (Z.max k 0) with 0 by lia.
      rewrite Z.pow_0_r, Z.mul_1_r.
      replace n1 with (- k + E) by (unfold E, n1, k; lia).
      rewrite pow2_add by (unfold E; lia).
      replace (B * (2 ^ (- k) * 2 ^ E)) with (2 ^ (- k) * (B * 2 ^ E)) by lia.
      rewrite (Z.mul_comm A). apply halfEven_scale; [apply pow2_pos; lia|].
      assert (0 < 2 ^ E) by (apply pow2_pos; unfold E; lia). nia. }
  rewrite HH. clear HH R1 R0.
  destruct (@halfEven_class_bounds A B HA HB) as (HE & (M0 & MU) & ML).
  unfold nearest. rewrite <- HC in *.
  set (m1 := halfEven A (B * 2 ^ E)) in *.
  assert (PE : 0 < 2 ^ E) by (apply pow2_pos; assumption).
  rewrite fexp_eq.
  destruct (Z.eq_dec m1 (2 ^ 53)) as [C|C].
  - (* a carry *)
    rewrite C. change (Zdigits2 (2 ^ 53)) with 54.
    replace (Z.max (54 + e' - 53) (-1074) - e') with 1 by lia.
    change (2 ^ 53) with 9007199254740992.
    cbn [shr SpecFloat.iter_pos shr_record_of_loc shr_1 fst snd shr_m].
    change (emax - prec) with 971.
    destruct (Z.leb_spec (e' + 1) 971) as [O|O].
    + split; [|split; [discriminate|]].
      * unfold valid_binary, bounded, canonical_mantissa. rewrite fexp_eq.
        change (emax - prec) with 971.
        apply andb_true_intro. split; [apply Z.eqb_eq|apply Z.leb_le]; simpl digits2_pos; lia.
      * unfold valSF. f_equal.
        replace (e' + 1 + 1074) with (1 + E) by lia. rewrite pow2_add by lia.
        rewrite Z.min_l; [change (2 ^ 1) with 2; lia|].
        unfold infValue. replace 2098 with (53 + E + (2098 - 53 - E)) by lia.
        rewrite !pow2_add by lia.
        assert (0 < 2 ^ (2098 - 53 - E)) by (apply pow2_pos; lia).
        change (2 ^ 53) with 9007199254740992. nia.
    + split; [reflexivity|]. split; [discriminate|].
      unfold valSF. f_equal. rewrite Z.min_r; [reflexivity|].
      unfold infValue. replace E with (2045 + (E - 2045)) by lia.
      rewrite pow2_add by lia.
      assert (0 < 2 ^ (E - 2045)) by (apply pow2_pos; lia).
      change (2 ^ 2098) with (9007199254740992 * 2 ^ 2045).
      assert (0 < 2 ^ 2045) by (apply pow2_pos; lia). nia.
  - (* no carry *)
    assert (MU' : m1 < 2 ^ 53) by lia.
    assert (D1 : Zdigits2 m1 <= 53) by (apply Zdigits2_lt; lia).
    assert (N2 : Z.max (Zdigits2 m1 + e' - 53) (-1074) - e' = 0).
    { destruct (Z.eq_dec E 0) as [E0|E0]; [lia|].
      assert (2 ^ 52 <= m1) by (apply ML; lia).
      assert (53 <= Zdigits2 m1) by (apply Zdigits2_ge; [lia|assumption]). lia. }
    rewrite N2. cbn [shr fst snd]. rewrite shr_record_of_loc_m.
    destruct m1 as [|p|p] eqn:Em1; try lia.
    + split; [reflexivity|]. split; [discriminate|].
      simpl valSF. rewrite Z.mul_0_l, Z.min_l by (unfold infValue; lia).
      destruct s; reflexivity.
    + change (emax - prec) with 971.
      destruct (Z.leb_spec e' 971) as [O|O].
      * split; [|split; [discriminate|]].
        -- unfold valid_binary, bounded, canonical_mantissa. rewrite fexp_eq.
           change (emax - prec) with 971. change (Zpos (digits2_pos p)) with (Zdigits2 (Zpos p)).
           apply andb_true_intro. split; [apply Z.eqb_eq|apply Z.leb_le]; lia.
        -- unfold valSF. f_equal. rewrite He'. rewrite Z.min_l; [reflexivity|].
           unfold infValue. replace 2098 with (53 + E + (2098 - 53 - E)) by lia.
           rewrite !pow2_add by lia.
           assert (0 < 2 ^ (2098 - 53 - E)) by (apply pow2_pos; lia). nia.
      * split; [reflexivity|]. split; [discriminate|].
        unfold valSF. f_equal. rewrite Z.min_r; [reflexivity|].
        assert (2 ^ 52 <= Zpos p) by (apply ML; lia).
        unfold infValue. replace E with (2046 + (E - 2046)) by lia.
        rewrite pow2_add by lia.
        assert (0 < 2 ^ (E - 2046)) by (apply pow2_pos; lia).
        change (2 ^ 2098) with (2 ^ 52 * 2 ^ 2046). nia.
Qed.

Lemma infValue_pos : 0 < infValue.
Proof. unfold infValue. apply pow2_pos. lia. Qed.

Lemma nearest_bounds (A B : Z) : 0 <= A -> 0 < B -> 0 <= nearest A B <= infValue.
Proof.
  intros HA HB. destruct (@halfEven_class_bounds A B HA HB) as (HE & (M0 & _) & _).
  unfold nearest. assert (I := infValue_pos).
  assert (0 < 2 ^ classExp A B) by (apply pow2_pos; assumption).
  split; [apply Z.min_glb; nia | apply Z.le_min_r].
Qed.

Lemma div_le_cross (A1 B1 A2 B2 : Z) :
  0 < B1 -> 0 < B2 -> A1 * B2 <= A2 * B1 -> A1 / B1 <= A2 / B2.
Proof.
  intros H1 H2 H. apply Z.div_le_lower_bound; [assumption|].
  assert (M := Z.mul_div_le A1 B1 H1). nia.
Qed.

(** The nearest binary64 value is monotone in the number rounded. *)
Lemma nearest_mono (A1 B1 A2 B2 : Z) :
  0 <= A1 -> 0 < B1 -> 0 < B2 -> A1 * B2 <= A2 * B1 ->
  nearest A1 B1 <= nearest A2 B2.
Proof.
  intros HA1 HB1 HB2 H.
  assert (HA2 : 0 <= A2) by nia.
  destruct (@halfEven_class_bounds A1 B1 HA1 HB1) as (HE1 & (L1 & U1) & _).
  destruct (@halfEven_class_bounds A2 B2 HA2 HB2) as (HE2 & (L2 & _) & G2).
  assert (Q : A1 / B1 <= A2 / B2) by (apply div_le_cross; assumption).
  assert (Q1 : 0 <= A1 / B1) by (apply Z.div_pos; lia).
  assert (EE : classExp A1 B1 <= classExp A2 B2).
  { unfold classExp. assert (D := @Zdigits2_mono (A1 / B1) (A2 / B2) ltac:(lia)). lia. }
  unfold nearest. apply Z.min_le_compat_r.
  set (E1 := classExp A1 B1) in *. set (E2 := classExp A2 B2) in *.
  assert (P1 : 0 < 2 ^ E1) by (apply pow2_pos; assumption).
  assert (P2 : 0 < 2 ^ E2) by (apply pow2_pos; assumption).
  destruct (Z.eq_dec E1 E2) as [EQ|NE].
  - rewrite <- EQ. apply Z.mul_le_mono_nonneg_r; [lia|].
    apply halfEven_mono; nia.
  - assert (G : 2 ^ 52 <= halfEven A2 (B2 * 2 ^ E2)) by (apply G2; lia).
    apply Z.le_trans with (2 ^ 53 * 2 ^ E1); [nia|].
    apply Z.le_trans with (2 ^ 52 * 2 ^ E2); [|nia].
    rewrite <- !pow2_add by lia. apply Z.pow_le_mono_r; lia.
Qed.

Lemma nearest_cross (A1 B1 A2 B2 : Z) :
  0 <= A1 -> 0 < B1 -> 0 < B2 -> A1 * B2 = A2 * B1 -> nearest A1 B1 = nearest A2 B2.
Proof.
  intros HA1 HB1 HB2 H. assert (0 <= A2) by nia.
  apply Z.le_antisymm; apply nearest_mono; try assumption; lia.
Qed.

Lemma nearest_zero (B : Z) : 0 < B -> nearest 0 B = 0.
Proof.
  intros HB. unfold nearest, classExp. rewrite Z.div_0_l by lia. simpl Zdigits2.
  simpl (Z.max _ _). rewrite Z.pow_0_r, !Z.mul_1_r.
  assert (X : halfEven 0 B = 0) by (apply (@halfEven_exact 0 B HB)).
  rewrite X. apply Z.min_l. assert (I := infValue_pos). lia.
Qed.

(** A number that is a multiple of the spacing of its class is its own
    nearest value. *)
Lemma nearest_representable (M K : Z) :
  0 <= M -> 0 <= K -> M * 2 ^ K < infValue -> classExp (M * 2 ^ K) 1 <= K ->
  nearest (M * 2 ^ K) 1 = M * 2 ^ K.
Proof.
  intros HM HK HI HC. unfold nearest.
  set (E := classExp (M * 2 ^ K) 1) in *.
  assert (HE : 0 <= E) by (unfold E, classExp; lia).
  assert (PE : 0 < 2 ^ E) by (apply pow2_pos; assumption).
  assert (X : M * 2 ^ K = M * 2 ^ (K - E) * (1 * 2 ^ E)).
  { rewrite Z.mul_1_l, <- Z.mul_assoc, <- pow2_add by lia. do 2 f_equal. lia. }
  assert (Hh : halfEven (M * 2 ^ K) (1 * 2 ^ E) = M * 2 ^ (K - E))
    by (rewrite X at 1; apply halfEven_exact; lia).
  rewrite Hh. rewrite Z.min_l; lia.
Qed.

Lemma nearestSigned_bounds (A B : Z) : 0 < B -> - infValue <= nearestSigned A B <= infValue.
Proof.
  intros HB. unfold nearestSigned. destruct (Z.ltb_spec A 0).
  - assert (N := @nearest_bounds (- A) B ltac:(lia) HB). lia.
  - assert (N := @nearest_bounds A B ltac:(lia) HB). lia.
Qed.

Lemma nearestSigned_mono (A1 B1 A2 B2 : Z) :
  0 < B1 -> 0 < B2 -> A1 * B2 <= A2 * B1 ->
  nearestSigned A1 B1 <= nearestSigned A2 B2.
Proof.
  intros HB1 HB2 H. unfold nearestSigned.
  destruct (Z.ltb_spec A1 0) as [N1|N1]; destruct (Z.ltb_spec A2 0) as [N2|N2].
  - assert (nearest (- A2) B2 <= nearest (- A1) B1) by (apply nearest_mono; nia). lia.
  - assert (X := @nearest_bounds (- A1) B1 ltac:(lia) HB1).
    assert (Y := @nearest_bounds A2 B2 ltac:(lia) HB2). lia.
  - nia.
  - apply nearest_mono; assumption.
Qed.

Lemma nearestSigned_cond (s : bool) (A B : Z) :
  0 <= A -> 0 < B -> cond_Zopp s (nearest A B) = nearestSigned (cond_Zopp s A) B.
Proof.
  intros HA HB. unfold nearestSigned. destruct s; cbn [cond_Zopp].
  - destruct (Z.ltb_spec (- A) 0).
    + rewrite Z.opp_involutive. reflexivity.
    + assert (A = 0) by lia. subst A. simpl. rewrite nearest_zero by assumption. reflexivity.
  - destruct (Z.ltb_spec A 0); [lia|reflexivity].
Qed.

Lemma saturating_mono (f : Z -> Z) :
  (forall a, - infValue < a < infValue -> - infValue <= f a <= infValue) ->
  (forall a b, a <= b -> f a <= f b) ->
  forall a b, a <= b -> saturating f a <= saturating f b.
Proof.
  intros B M a b H. unfold saturating. assert (I := infValue_pos).
  assert (Ba := B a). assert (Bb := B b). specialize (M a b H).
  destruct (Z.leb_spec infValue a); destruct (Z.leb_spec infValue b); try lia;
  destruct (Z.leb_spec a (- infValue)); destruct (Z.leb_spec b (- infValue)); lia.
Qed.


Lemma locationOf_exact (D : Z) : locationOf 0 D = loc_Exact.
Proof. reflexivity. Qed.

(** Rounding a mantissa that is exact. *)
Lemma binary_round_aux_exact (s : bool) (m e : Z) :
  0 <= m -> e <= fexp prec emax (Zdigits2 m + e) ->
  valid_binary (binary_round_aux prec emax s m e loc_Exact) = true
  /\ binary_round_aux prec emax s m e loc_Exact <> S754_nan
  /\ valSF (binary_round_aux prec emax s m e loc_Exact)
     = cond_Zopp s (nearest (m * 2 ^ Z.max (e + 1074) 0) (2 ^ Z.max (- (e + 1074)) 0)).
Proof.
  intros Hm P1.
  set (k := e + 1074).
  assert (PA : 0 < 2 ^ Z.max k 0) by (apply pow2_pos; lia).
  assert (PB : 0 < 2 ^ Z.max (- k) 0) by (apply pow2_pos; lia).
  assert (X : m * 2 ^ Z.max k 0 * 2 ^ Z.max (- k) 0
              = m * (2 ^ Z.max (- k) 0 * 2 ^ Z.max k 0)) by lia.
  apply binary_round_aux_nearest; try assumption; fold k.
  - nia.
  - rewrite X. rewrite Z.div_mul by lia. reflexivity.
  - rewrite X. rewrite Z.mod_mul by lia. reflexivity.
Qed.

Lemma shl_align_spec (m : positive) (e e' : Z) :
  Zpos (fst (shl_align m e e')) = Zpos m * 2 ^ (e - Z.min e e')
  /\ snd (shl_align m e e') = Z.min e e'.
Proof.
  split; [|apply shl_align_snd].
  destruct (Z_le_gt_dec e' e) as [L|G].
  - rewrite shl_align_fst by assumption. do 2 f_equal. lia.
  - unfold shl_align. destruct (e' - e) as [|d|d] eqn:E; try lia; cbn [fst];
    replace (e - Z.min e e') with 0 by lia; lia.
Qed.

Lemma binary_round_nearest (s : bool) (m : positive) (e : Z) :
  -1074 <= e ->
  valid_binary (binary_round prec emax s m e) = true
  /\ binary_round prec emax s m e <> S754_nan
  /\ valSF (binary_round prec emax s m e)
     = cond_Zopp s (nearest (Zpos m * 2 ^ (e + 1074)) 1).
Proof.
  intros He. unfold binary_round.
  destruct (shl_align_spec m e (fexp prec emax (Zpos (digits2_pos m) + e))) as [F S].
  destruct (shl_align m e (fexp prec emax (Zpos (digits2_pos m) + e))) as [mz ez].
  cbn [fst snd] in F, S. rewrite fexp_eq in F, S.
  assert (D : Zdigits2 (Zpos mz) = Zpos (digits2_pos m) + (e - ez)).
  { rewrite F, S. rewrite Zdigits2_mul_pow2 by lia. reflexivity. }
  destruct (@binary_round_aux_exact s (Zpos mz) ez ltac:(lia)) as (V & N & E).
  { rewrite D, fexp_eq. lia. }
  split; [assumption|]. split; [assumption|]. rewrite E. f_equal.
  replace (Z.max (ez + 1074) 0) with (ez + 1074) by lia.
  replace (Z.max (- (ez + 1074)) 0) with 0 by lia.
  rewrite Z.pow_0_r. f_equal. rewrite F, <- Z.mul_assoc, <- pow2_add by lia.
  do 2 f_equal. lia.
Qed.

Lemma binary_normalize_nearest (z e : Z) :
  -1074 <= e ->
  valid_binary (binary_normalize prec emax z e false) = true
  /\ binary_normalize prec emax z e false <> S754_nan
  /\ valSF (binary_normalize prec emax z e false) = nearestSigned (z * 2 ^ (e + 1074)) 1.
Proof.
  intros He. assert (P : 0 < 2 ^ (e + 1074)) by (apply pow2_pos; lia).
  destruct z as [|p|p]; cbn [binary_normalize].
  - split; [reflexivity|]. split; [discriminate|].
    simpl. unfold nearestSigned. simpl. rewrite nearest_zero; lia.
  - destruct (@binary_round_nearest false p e He) as (V & N & E).
    split; [assumption|]. split; [assumption|]. rewrite E.
    rewrite nearestSigned_cond by lia. reflexivity.
  - destruct (@binary_round_nearest true p e He) as (V & N & E).
    split; [assumption|]. split; [assumption|]. rewrite E.
    rewrite nearestSigned_cond by lia. cbn [cond_Zopp]. f_equal. lia.
Qed.

(** The sum of two finite numbers is the nearest value to the sum of their
    values. *)
Lemma SFadd_finite (sx sy : bool) (mx my : positive) (ex ey : Z) :
  valid_binary (S754_finite sx mx ex) = true ->
  valid_binary (S754_finite sy my ey) = true ->
  let r := SFadd prec emax (S754_finite sx mx ex) (S754_finite sy my ey) in
  valid_binary r = true /\ r <> S754_nan
  /\ valSF r = nearestSigned (valSF (S754_finite sx mx ex) + valSF (S754_finite sy my ey)) 1.
Proof.
  intros Vx Vy r. subst r.
  apply valid_finite in Vx, Vy. destruct Vx as (Hex & _). destruct Vy as (Hey & _).
  unfold SFadd. set (ez := Z.min ex ey).
  assert (Hx : Zpos (fst (shl_align mx ex ez)) = Zpos mx * 2 ^ (ex - ez))
    by (apply shl_align_fst; lia).
  assert (Hy : Zpos (fst (shl_align my ey ez)) = Zpos my * 2 ^ (ey - ez))
    by (apply shl_align_fst; lia).
  rewrite Hx, Hy.
  destruct (@binary_normalize_nearest
              (cond_Zopp sx (Zpos mx * 2 ^ (ex - ez)) + cond_Zopp sy (Zpos my * 2 ^ (ey - ez)))
              ez ltac:(lia)) as (V & N & E).
  split; [assumption|]. split; [assumption|]. rewrite E. f_equal.
  rewrite Z.mul_add_distr_r, !cond_Zopp_mul. unfold valSF.
  rewrite <- !Z.mul_assoc, <- !pow2_add by lia.
  replace (ex - ez + (ez + 1074)) with (ex + 1074) by lia.
  replace (ey - ez + (ez + 1074)) with (ey + 1074) by lia. reflexivity.
Qed.

Lemma finite_not_saturated (f : Z -> Z) (s : bool) (m : positive) (e : Z) :
  valid_binary (S754_finite s m e) = true ->
  saturating f (valSF (S754_finite s m e)) = f (valSF (S754_finite s m e)).
Proof.
  intros V. assert (B := valSF_finite_bounds _ _ _ V). unfold saturating, valSF.
  destruct (Z.leb_spec infValue (cond_Zopp s (Zpos m * 2 ^ (e + 1074)))) as [L|L];
    [destruct s; cbn [cond_Zopp] in L; lia|].
  destruct (Z.leb_spec (cond_Zopp s (Zpos m * 2 ^ (e + 1074))) (- infValue)) as [L'|L'];
    [destruct s; cbn [cond_Zopp] in L'; lia|].
  reflexivity.
Qed.

Lemma epsilon_bits : Prim2SF JsNumber.EPSILON = S754_finite false 4503599627370496 (-104).
Proof. reflexivity. Qed.

Lemma hundred_bits : Prim2SF 100%float = S754_finite false 7036874417766400 (-46).
Proof. reflexivity. Qed.

(** [x + Number.EPSILON] *)
Lemma add_epsilon_value (x : float) :
  PrimFloat.is_nan x = false ->
  PrimFloat.is_nan (x + JsNumber.EPSILON)%float = false
  /\ value (x + JsNumber.EPSILON)%float
     = saturating (afterAdd (value JsNumber.EPSILON)) (value x).
Proof.
  intros N. apply is_nan_spec in N. assert (V := Prim2SF_valid x).
  rewrite is_nan_spec. unfold value. rewrite add_spec, epsilon_bits. unfold SF64add.
  destruct (Prim2SF x) as [s|s| |s m e]; try congruence.
  - split; [discriminate|]. vm_compute. reflexivity.
  - split; [discriminate|]. destruct s; vm_compute; reflexivity.
  - destruct (@SFadd_finite s false m 4503599627370496 e (-104) V eq_refl) as (V' & N' & E').
    split; [assumption|]. rewrite E'. rewrite finite_not_saturated by assumption.
    reflexivity.
Qed.

(** [x * 100] *)
Lemma mul_hundred_value (x : float) :
  PrimFloat.is_nan x = false ->
  PrimFloat.is_nan (x * 100)%float = false
  /\ value (x * 100)%float = saturating (afterMul 100) (value x).
Proof.
  intros N. apply is_nan_spec in N. assert (V := Prim2SF_valid x).
  rewrite is_nan_spec. unfold value. rewrite mul_spec, hundred_bits. unfold SF64mul.
  destruct (Prim2SF x) as [s|s| |s m e]; try congruence.
  - split; [discriminate|]. vm_compute. reflexivity.
  - split; [discriminate|]. destruct s; vm_compute; reflexivity.
  - rewrite finite_not_saturated by assumption.
    apply valid_finite in V. destruct V as (He & _).
    unfold SFmul. rewrite xorb_false_r.
    assert (Hd : 53 <= Zdigits2 (Zpos (m * 7036874417766400))).
    { apply Zdigits2_ge; [lia|]. change (2 ^ (53 - 1)) with 4503599627370496. lia. }
    destruct (@binary_round_aux_exact s (Zpos (m * 7036874417766400)) (e + -46) ltac:(lia))
      as (V' & N' & E').
    { rewrite fexp_eq. lia. }
    split; [assumption|]. rewrite E'. unfold afterMul, valSF.
    set (k := e + -46 + 1074).
    assert (PA : 0 < 2 ^ Z.max k 0) by (apply pow2_pos; lia).
    assert (PB : 0 < 2 ^ Z.max (- k) 0) by (apply pow2_pos; lia).
    assert (PE : 0 < 2 ^ (e + 1074)) by (apply pow2_pos; lia).
    replace (100 * cond_Zopp s (Zpos m * 2 ^ (e + 1074)))
      with (cond_Zopp s (100 * (Zpos m * 2 ^ (e + 1074)))) by (destruct s; cbn [cond_Zopp]; lia).
    rewrite <- nearestSigned_cond by lia. f_equal.
    apply nearest_cross; try lia.
    rewrite Pos2Z.inj_mul.
    destruct (Z_le_gt_dec 0 k) as [K|K].
    + replace (Z.max k 0) with k by lia. replace (Z.max (- k) 0) with 0 by lia.
      replace (e + 1074) with (46 + k) by (unfold k; lia).
      rewrite pow2_add by lia. change (2 ^ 46) with 70368744177664.
      rewrite Z.pow_0_r. lia.
    + replace (Z.max k 0) with 0 by lia. replace (Z.max (- k) 0) with (- k) by lia.
      rewrite Z.pow_0_r.
      assert (X : 2 ^ (e + 1074) * 2 ^ (- k) = 70368744177664).
      { rewrite <- pow2_add by lia. replace (e + 1074 + - k) with 46 by (unfold k; lia).
        reflexivity. }
      rewrite <- !Z.mul_assoc, X. lia.
Qed.

Lemma nearestInteger_multiple (c : Z) : nearestInteger (c * 2 ^ 1074) = c * 2 ^ 1074.
Proof.
  unfold nearestInteger. assert (P : 0 < 2 ^ 1074) by (apply pow2_pos; lia).
  rewrite Z.div_add_l by lia.
  replace (2 ^ 1073 / 2 ^ 1074) with 0; [lia|].
  symmetry. apply Z.div_small. split; [apply Z.lt_le_incl, pow2_pos; lia|].
  apply Z.pow_lt_mono_r; lia.
Qed.

Lemma ofZ_value (n : Z) :
  - 2 ^ 53 < n < 2 ^ 53 ->
  PrimFloat.is_nan (JsNumber.ofZ n) = false /\ value (JsNumber.ofZ n) = n * 2 ^ 1074.
Proof.
  intros Hn. unfold JsNumber.ofZ, value.
  destruct (@binary_normalize_nearest n 0 ltac:(lia)) as (V & N & E).
  rewrite is_nan_spec. rewrite Prim2SF_SF2Prim by assumption.
  split; [assumption|]. rewrite E. change (0 + 1074) with 1074.
  assert (P : 0 < 2 ^ 1074) by (apply pow2_pos; lia).
  assert (R : forall M, 0 <= M < 2 ^ 53 -> nearest (M * 2 ^ 1074) 1 = M * 2 ^ 1074).
  { intros M HM. apply nearest_representable; try lia.
    - unfold infValue. change 2098 with (1024 + 1074). rewrite pow2_add by lia.
      assert (2 ^ 53 < 2 ^ 1024) by (apply Z.pow_lt_mono_r; lia). nia.
    - unfold classExp. rewrite Z.div_1_r.
      destruct (Z.eq_dec M 0) as [->|M0]; [simpl; lia|].
      rewrite Zdigits2_mul_pow2 by lia.
      assert (Zdigits2 M <= 53) by (apply Zdigits2_lt; lia). lia. }
  unfold nearestSigned. destruct (Z.ltb_spec (n * 2 ^ 1074) 0).
  - replace (- (n * 2 ^ 1074)) with (- n * 2 ^ 1074) by lia. rewrite R by nia. lia.
  - apply R. nia.
Qed.

(** [Math.round(x)] *)
Lemma round_value (x : float) :
  PrimFloat.is_nan x = false ->
  PrimFloat.is_nan (JsNumber.mathRound x) = false
  /\ value (JsNumber.mathRound x) = saturating nearestInteger (value x).
Proof.
  intros N. assert (N' := N). apply is_nan_spec in N'. assert (V := Prim2SF_valid x).
  unfold JsNumber.mathRound. unfold value at 2.
  destruct (Prim2SF x) as [s|s| |s m e] eqn:P; try congruence.
  - split; [assumption|]. unfold value. rewrite P. vm_compute. reflexivity.
  - split; [assumption|]. unfold value. rewrite P. destruct s; vm_compute; reflexivity.
  - rewrite finite_not_saturated by assumption.
    assert (V' := V). apply valid_finite in V'. destruct V' as (He & Hm & _).
    destruct (Z.leb_spec 0 e) as [E|E].
    + split; [assumption|]. unfold value. rewrite P. unfold valSF.
      replace (cond_Zopp s (Zpos m * 2 ^ (e + 1074)))
        with (cond_Zopp s (Zpos m * 2 ^ e) * 2 ^ 1074).
      * symmetry. apply nearestInteger_multiple.
      * rewrite cond_Zopp_mul. f_equal. rewrite <- Z.mul_assoc, <- pow2_add by lia.
        reflexivity.
    + set (c := cond_Zopp s (Zpos m)).
      set (n := Z.shiftr (c + 2 ^ (- e - 1)) (- e)).
      assert (Hc : - 2 ^ 53 < c < 2 ^ 53) by (unfold c; destruct s; cbn [cond_Zopp]; lia).
      assert (Ph : 0 < 2 ^ (- e - 1)) by (apply pow2_pos; lia).
      assert (Pe : 2 ^ (- e) = 2 * 2 ^ (- e - 1)).
      { replace (- e) with (1 + (- e - 1)) at 1 by lia. rewrite pow2_add by lia. reflexivity. }
      assert (Hn : n = (c + 2 ^ (- e - 1)) / 2 ^ (- e))
        by (unfold n; apply Z.shiftr_div_pow2; lia).
      assert (Bn : - 2 ^ 53 < n < 2 ^ 53).
      { assert (D := Z.div_mod (c + 2 ^ (- e - 1)) (2 ^ (- e)) ltac:(lia)).
        assert (R := Z.mod_pos_bound (c + 2 ^ (- e - 1)) (2 ^ (- e)) ltac:(lia)).
        rewrite <- Hn in D. rewrite Pe in D, R.
        set (h := 2 ^ (- e - 1)) in *. set (r := (c + h) mod (2 * h)) in *.
        change (2 ^ 53) with 9007199254740992 in *. nia. }
      assert (Hv : nearestInteger (valSF (S754_finite s m e)) = n * 2 ^ 1074).
      { unfold nearestInteger, valSF. f_equal. rewrite Hn. fold c.
        replace (cond_Zopp s (Zpos m * 2 ^ (e + 1074))) with (c * 2 ^ (e + 1074))
          by (unfold c; apply cond_Zopp_mul).
        assert (PK : 0 < 2 ^ (e + 1074)) by (apply pow2_pos; lia).
        replace (c * 2 ^ (e + 1074) + 2 ^ 1073)
          with ((c + 2 ^ (- e - 1)) * 2 ^ (e + 1074)).
        - replace (2 ^ 1074) with (2 ^ (- e) * 2 ^ (e + 1074)).
          + apply Z.div_mul_cancel_r; lia.
          + rewrite <- pow2_add by lia. f_equal. lia.
        - rewrite Z.mul_add_distr_r. f_equal. rewrite <- pow2_add by lia. f_equal. lia. }
      rewrite Hv.
      destruct (Z.eqb_spec n 0) as [Z0|Z0].
      * rewrite Z0. destruct s; split; reflexivity.
      * apply ofZ_value. assumption.
Qed.

(** Equal fractions have the same integer part and the same location. *)
Lemma div_cross (A D A' D' : Z) :
  0 < D -> 0 < D' -> A * D' = A' * D ->
  A / D = A' / D' /\ locationOf (A mod D) D = locationOf (A' mod D') D'.
Proof.
  intros HD HD' H.
  assert (E := Z.div_mod A D ltac:(lia)). assert (R := Z.mod_pos_bound A D HD).
  assert (E' := Z.div_mod A' D' ltac:(lia)). assert (R' := Z.mod_pos_bound A' D' HD').
  set (q := A / D) in *. set (r := A mod D) in *.
  set (q' := A' / D') in *. set (r' := A' mod D') in *.
  assert (P : 0 < D * D') by nia.
  assert (X : D * D' * (q - q') = r' * D - r * D') by nia.
  assert (Q : q = q') by nia.
  split; [assumption|].
  assert (Y : r' * D = r * D') by nia.
  unfold locationOf.
  destruct (Z.eqb_spec r 0) as [Z0|Z0]; destruct (Z.eqb_spec r' 0) as [Z1|Z1];
    try reflexivity; try nia.
  f_equal.
  destruct (Z.compare_spec (2 * r) D); destruct (Z.compare_spec (2 * r') D');
    try reflexivity; nia.
Qed.

Lemma div_core_hundred (m : positive) (e : Z) :
  let e' := Z.min (fexp prec emax (Zpos (digits2_pos m) + e - 7)) (e + 46) in
  let N := Zpos m * 2 ^ (e + 46 - e') in
  SFdiv_core_binary prec emax (Zpos m) e 7036874417766400 (-46)
  = (N / 7036874417766400, e', locationOf (N mod 7036874417766400) 7036874417766400).
Proof.
  intros e' N. unfold SFdiv_core_binary.
  change (Zdigits2 7036874417766400) with 53. cbn [Zdigits2].
  replace (Zpos (digits2_pos m) + e - (53 + -46)) with (Zpos (digits2_pos m) + e - 7) by lia.
  replace (e - -46) with (e + 46) by lia. fold e'.
  assert (S : 0 <= e + 46 - e') by (unfold e'; lia).
  assert (M : match e + 46 - e' with
              | 0 => Zpos m
              | Zpos _ => Z.shiftl (Zpos m) (e + 46 - e')
              | Zneg _ => 0
              end = N).
  { unfold N. destruct (e + 46 - e') as [|p|p] eqn:Es; try lia.
    apply Z.shiftl_mul_pow2. lia. }
  rewrite M. unfold Z.div, Z.modulo.
  destruct (Z.div_eucl N 7036874417766400) as [q r]. reflexivity.
Qed.

(** [x / 100] *)
Lemma div_hundred_value (x : float) :
  PrimFloat.is_nan x = false ->
  PrimFloat.is_nan (x / 100)%float = false
  /\ value (x / 100)%float = saturating (afterDiv 100) (value x).
Proof.
  intros N. apply is_nan_spec in N. assert (V := Prim2SF_valid x).
  rewrite is_nan_spec. unfold value. rewrite div_spec, hundred_bits. unfold SF64div.
  destruct (Prim2SF x) as [s|s| |s m e]; try congruence.
  - split; [discriminate|]. vm_compute. reflexivity.
  - split; [discriminate|]. destruct s; vm_compute; reflexivity.
  - rewrite finite_not_saturated by assumption.
    apply valid_finite in V. destruct V as (He & _).
    unfold SFdiv. rewrite div_core_hundred, xorb_false_r. rewrite fexp_eq.
    set (d := Zpos (digits2_pos m)).
    assert (Bd := digits_bounds m). fold d in Bd.
    assert (Hd : 1 <= d) by (unfold d; lia).
    set (e' := Z.min (Z.max (d + e - 7 - 53) (-1074)) (e + 46)).
    set (s' := e + 46 - e').
    assert (Hs : 0 <= s') by (unfold s', e'; lia).
    assert (Ps : 0 < 2 ^ s') by (apply pow2_pos; assumption).
    set (N' := Zpos m * 2 ^ s').
    set (A := Zpos m * 2 ^ (e + 1074)).
    assert (PA : 0 < 2 ^ (e + 1074)) by (apply pow2_pos; lia).
    assert (Pk : 0 < 2 ^ (e' + 1074)) by (apply pow2_pos; unfold e'; lia).
    assert (K0 : Z.max (- (e' + 1074)) 0 = 0) by (unfold e'; lia).
    assert (K1 : Z.max (e' + 1074) 0 = e' + 1074) by (unfold e'; lia).
    assert (C : N' * (100 * 2 ^ (e' + 1074)) = A * 7036874417766400).
    { unfold N', A. replace (e + 1074) with (s' + (e' + 1074) - 46) by (unfold s'; lia).
      assert (X : 2 ^ (s' + (e' + 1074)) = 2 ^ (s' + (e' + 1074) - 46) * 70368744177664).
      { change 70368744177664 with (2 ^ 46). rewrite <- pow2_add by (unfold s', e'; lia).
        f_equal. lia. }
      rewrite pow2_add in X by (unfold e'; lia). nia. }
    destruct (@div_cross N' 7036874417766400 A (100 * 2 ^ (e' + 1074))
                ltac:(lia) ltac:(lia) C) as [Cq Cl].
    destruct (@binary_round_aux_nearest s (N' / 7036874417766400) e'
                (locationOf (N' mod 7036874417766400) 7036874417766400) A 100)
      as (V' & N'' & E').
    + unfold A. lia.
    + lia.
    + rewrite K0, K1, Z.pow_0_r, Z.mul_1_r. exact Cq.
    + rewrite K0, K1, Z.pow_0_r, Z.mul_1_r. exact Cl.
    + rewrite fexp_eq.
      destruct (Z_le_gt_dec e' (-1074)) as [L|G]; [lia|].
      assert (T : e' <= d + e - 60) by (unfold e' in *; lia).
      assert (S106 : 106 - d <= s') by (unfold s'; lia).
      assert (Q : 2 ^ (d + s' - 54) <= N' / 7036874417766400).
      { apply Z.div_le_lower_bound; [lia|].
        apply Z.le_trans with (2 ^ 53 * 2 ^ (d + s' - 54)).
        - assert (0 < 2 ^ (d + s' - 54)) by (apply pow2_pos; lia).
          change (2 ^ 53) with 9007199254740992. lia.
        - rewrite <- pow2_add by lia. replace (53 + (d + s' - 54)) with (d - 1 + s') by lia.
          rewrite pow2_add by lia. unfold N'. nia. }
      assert (Q0 : 0 < N' / 7036874417766400).
      { assert (0 < 2 ^ (d + s' - 54)) by (apply pow2_pos; lia). lia. }
      assert (Dq : d + s' - 53 <= Zdigits2 (N' / 7036874417766400)).
      { apply Zdigits2_ge; [assumption|]. replace (d + s' - 53 - 1) with (d + s' - 54) by lia.
        assumption. }
      unfold s' in Dq. lia.
    + split; [assumption|]. rewrite E'. unfold afterDiv, valSF. fold A.
      rewrite nearestSigned_cond by (unfold A; lia). reflexivity.
Qed.

Lemma afterAdd_mono (c a b : Z) : a <= b -> afterAdd c a <= afterAdd c b.
Proof. intros H. apply nearestSigned_mono; lia. Qed.

Lemma afterMul_mono (c a b : Z) : 0 <= c -> a <= b -> afterMul c a <= afterMul c b.
Proof. intros Hc H. apply nearestSigned_mono; nia. Qed.

Lemma afterDiv_mono (c a b : Z) : 0 < c -> a <= b -> afterDiv c a <= afterDiv c b.
Proof. intros Hc H. apply nearestSigned_mono; nia. Qed.

Lemma nearestInteger_mono (a b : Z) : a <= b -> nearestInteger a <= nearestInteger b.
Proof.
  intros H. unfold nearestInteger.
  assert (P : 0 < 2 ^ 1074) by (apply pow2_pos; lia).
  apply Z.mul_le_mono_nonneg_r; [lia|]. apply Z.div_le_mono; lia.
Qed.

Lemma nearestInteger_bounds (a : Z) :
  - infValue < a < infValue -> - infValue <= nearestInteger a <= infValue.
Proof.
  intros H.
  assert (I : nearestInteger infValue = infValue).
  { unfold infValue. change 2098 with (1024 + 1074). rewrite pow2_add by lia.
    apply nearestInteger_multiple. }
  assert (J : nearestInteger (- infValue) = - infValue).
  { unfold infValue. change 2098 with (1024 + 1074). rewrite pow2_add by lia.
    rewrite <- Z.mul_opp_l. apply nearestInteger_multiple. }
  assert (U := @nearestInteger_mono a infValue ltac:(lia)).
  assert (L := @nearestInteger_mono (- infValue) a ltac:(lia)). lia.
Qed.

Lemma round2_value (x : float) :
  PrimFloat.is_nan x = false ->
  PrimFloat.is_nan (round2 x) = false /\ value (round2 x) = round2Value (value x).
Proof.
  intros N. unfold round2, round2In, round2Value. cbn [numAdd numMul numDiv numRound numEpsilon numHundred binary64].
  destruct (@add_epsilon_value x N) as [N1 E1].
  destruct (@mul_hundred_value _ N1) as [N2 E2].
  destruct (@round_value _ N2) as [N3 E3].
  destruct (@div_hundred_value _ N3) as [N4 E4].
  split; [assumption|]. rewrite E4, E3, E2, E1. reflexivity.
Qed.

Lemma round2Value_mono (a b : Z) : a <= b -> round2Value a <= round2Value b.
Proof.
  intros H. unfold round2Value.
  apply saturating_mono;
    [intros; apply nearestSigned_bounds; lia | intros; apply afterDiv_mono; lia|].
  apply saturating_mono; [apply nearestInteger_bounds | apply nearestInteger_mono|].
  apply saturating_mono;
    [intros; apply nearestSigned_bounds; lia | intros; apply afterMul_mono; lia|].
  apply saturating_mono;
    [intros; apply nearestSigned_bounds; lia | intros; apply afterAdd_mono; lia|].
  assumption.
Qed.

(** [round2] keeps the order of numbers. *)
Lemma round2_monotone (a b : float) :
  PrimFloat.is_nan a = false -> PrimFloat.is_nan b = false ->
  PrimFloat.leb a b = true -> PrimFloat.leb (round2 a) (round2 b) = true.
Proof.
  intros Na Nb H.
  destruct (@round2_value a Na) as [Ra Ea]. destruct (@round2_value b Nb) as [Rb Eb].
  rewrite (@leb_value _ _ Na Nb) in H. apply Z.leb_le in H.
  rewrite (@leb_value _ _ Ra Rb). apply Z.leb_le. rewrite Ea, Eb.
  apply round2Value_mono. assumption.
Qed.


(** [round2 x] is infinite or the number nearest to a multiple of 0.01. *)
Lemma round2_two_decimals (x : float) :
  PrimFloat.is_nan x = false ->
  value (round2 x) = infValue \/ value (round2 x) = - infValue
  \/ exists n : Z, value (round2 x) = nearestSigned (n * 2 ^ 1074) 100.
Proof.
  intros N. destruct (@round2_value x N) as [_ E]. rewrite E. unfold round2Value.
  set (w := saturating (afterMul 100) (saturating (afterAdd (value JsNumber.EPSILON)) (value x))).
  assert (I := infValue_pos).
  assert (Z : saturating nearestInteger w = infValue
              \/ saturating nearestInteger w = - infValue
              \/ exists n, saturating nearestInteger w = n * 2 ^ 1074).
  { unfold saturating. destruct (Z.leb_spec infValue w); [now left|].
    destruct (Z.leb_spec w (- infValue)); [right; now left|].
    right; right. eexists. reflexivity. }
  destruct Z as [Z|[Z|(n & Z)]]; rewrite Z.
  - left. unfold saturating. destruct (Z.leb_spec infValue infValue); [reflexivity|lia].
  - right; left. unfold saturating.
    destruct (Z.leb_spec infValue (- infValue)); [lia|].
    destruct (Z.leb_spec (- infValue) (- infValue)); [reflexivity|lia].
  - unfold saturating.
    destruct (Z.leb_spec infValue (n * 2 ^ 1074)); [now left|].
    destruct (Z.leb_spec (n * 2 ^ 1074) (- infValue)); [right; now left|].
    right; right. exists n. reflexivity.
Qed.

End FloatFacts.

(* ------------------------------------------------------------------------- *)
(** ** Sorting *)

Section SortFacts.

Variable A : Type.
Variable after : A -> A -> bool.

Lemma insertSorted_perm (x : A) (l : list A) :
  Permutation (insertSorted after x l) (x :: l).
Proof.
  induction l as [|y l IH]; simpl.
  - apply Permutation_refl.
  - destruct (after x y).
    + apply perm_trans with (y :: x :: l); [now apply perm_skip | apply perm_swap].
    + apply Permutation_refl.
Qed.

Lemma sort_perm (l : list A) : Permutation (sort after l) l.
Proof.
  induction l as [|x l IH]; simpl.
  - apply perm_nil.
  - apply perm_trans with (x :: sort after l);
      [apply insertSorted_perm | now apply perm_skip].
Qed.

(** Insertion moves the new element only past elements it is to come
    after, so a class of elements none of which is to come after another
    keeps its order. *)
Lemma insertSorted_filter (c : A -> bool) (x : A) (l : list A) :
  (forall y, In y l -> c x = true -> c y = true -> after x y = false) ->
  filter c (insertSorted after x l) = filter c (x :: l).
Proof.
  induction l as [|y l IH]; intros H; simpl.
  - reflexivity.
  - destruct (after x y) eqn:E.
    + simpl. rewrite IH by (intros; apply H; simpl; auto). simpl.
      destruct (c x) eqn:Cx, (c y) eqn:Cy; try reflexivity.
      rewrite H in E; simpl; auto; discriminate.
    + reflexivity.
Qed.

Lemma sort_stable (c : A -> bool) (l : list A) :
  (forall x y, In x l -> In y l -> c x = true -> c y = true -> after x y = false) ->
  filter c (sort after l) = filter c l.
Proof.
  induction l as [|x l IH]; intros H; simpl.
  - reflexivity.
  - rewrite insertSorted_filter.
    + simpl. rewrite IH by (intros; apply H; simpl; auto). reflexivity.
    + intros y Hy. apply H; simpl; auto.
      right. apply (Permutation_in _ (sort_perm l) Hy).
Qed.

Variable ok : A -> Prop.
Hypothesis after_asym :
  forall x y, ok x -> ok y -> after x y = true -> after y x = false.
Hypothesis after_trans :
  forall x y z, ok x -> ok y -> ok z ->
                after x y = false -> after y z = false -> after x z = false.

Lemma insertSorted_sorted (x : A) (l : list A) :
  ok x -> Forall ok l ->
  StronglySorted (fun a b => after a b = false) l ->
  StronglySorted (fun a b => after a b = false) (insertSorted after x l).
Proof.
  intros Hx. induction l as [|y l IH]; intros Hl Hs; simpl.
  - constructor; constructor.
  - inversion Hl as [|? ? Hy Hl']; subst. inversion Hs as [|? ? Hs' Hys]; subst.
    destruct (after x y) eqn:E.
    + constructor; [now apply IH|].
      apply Forall_forall. intros z Hz.
      apply (Permutation_in _ (insertSorted_perm x l)) in Hz.
      destruct Hz as [<-|Hz]; [now apply after_asym|].
      rewrite Forall_forall in Hys. now apply Hys.
    + constructor; [assumption|].
      constructor; [assumption|].
      apply Forall_forall. intros z Hz.
      rewrite Forall_forall in Hys, Hl'.
      apply after_trans with y; auto.
Qed.

Lemma sort_sorted (l : list A) :
  Forall ok l -> StronglySorted (fun a b => after a b = false) (sort after l).
Proof.
  induction l as [|x l IH]; intros Hl; simpl.
  - constructor.
  - inversion Hl; subst. apply insertSorted_sorted; auto.
    apply Forall_forall. intros z Hz.
    apply (Permutation_in _ (sort_perm l)) in Hz.
    rewrite Forall_forall in H2. now apply H2.
Qed.

End SortFacts.

(** Sorting through a projection is sorting the projections. *)
Lemma sort_map (A B : Type) (f : A -> B) (after : B -> B -> bool) (l : list A) :
  map f (sort (fun a b => after (f a) (f b)) l) = sort after (map f l).
Proof.
  induction l as [|x l IH]; simpl; [reflexivity|].
  rewrite <- IH. generalize (sort (fun a b => after (f a) (f b)) l). intros s.
  induction s as [|y s IHs]; simpl; [reflexivity|].
  destruct (after (f x) (f y)); simpl; [now rewrite IHs | reflexivity].
Qed.

Lemma StronglySorted_firstn (A : Type) (R : A -> A -> Prop) (n : nat) :
  forall l, StronglySorted R l -> StronglySorted R (firstn n l).
Proof.
  induction n as [|n IH]; intros l H; simpl.
  - constructor.
  - destruct l as [|x l]; [constructor|].
    inversion H; subst. constructor; [now apply IH|].
    apply Forall_forall. intros z Hz. rewrite Forall_forall in H3.
    apply H3. rewrite <- (firstn_skipn n l). apply in_or_app. now left.
Qed.

Lemma StronglySorted_weaken (A : Type) (R R' : A -> A -> Prop) (l : list A) :
  (forall x y, In x l -> In y l -> R x y -> R' x y) ->
  StronglySorted R l -> StronglySorted R' l.
Proof.
  induction l as [|x l IH]; intros H Hs.
  - constructor.
  - inversion Hs; subst. constructor.
    + apply IH; [|assumption]. intros; apply H; simpl; auto.
    + apply Forall_forall. intros z Hz. rewrite Forall_forall in H3.
      apply H; simpl; auto.
Qed.

Lemma filter_firstn_prefix (A : Type) (c : A -> bool) (n : nat) (l : list A) :
  prefixOf (filter c (firstn n l)) (filter c l).
Proof.
  exists (filter c (skipn n l)).
  rewrite <- filter_app. now rewrite firstn_skipn.
Qed.

(** ** The keys of an object *)

Lemma filter_split_perm (A : Type) (f : A -> bool) (l : list A) :
  Permutation (filter f l ++ filter (fun x => negb (f x)) l) l.
Proof.
  induction l as [|x l IH]; cbn [filter]; [constructor|].
  destruct (f x); cbn [negb app].
  - now constructor.
  - apply Permutation_sym, Permutation_cons_app, Permutation_sym, IH.
Qed.

(** [Object.keys] lists every own property once. *)
Lemma ownEntries_perm (V : Type) (o : list (jsstring * V)) : Permutation (ownEntries o) o.
Proof.
  unfold ownEntries.
  apply perm_trans with (filter (fun kv => isArrayIndex (fst kv)) o
                         ++ filter (fun kv => negb (isArrayIndex (fst kv))) o).
  - apply Permutation_app_tail, sort_perm.
  - apply (filter_split_perm (fun kv : jsstring * V => isArrayIndex (fst kv))).
Qed.

(** Array indices come first, in ascending order; [07] is not one. *)
Lemma ownEntries_order :
  map fst (ownEntries [(str "b", tt); (str "10", tt); (str "a", tt); (str "9", tt);
                       (str "07", tt)])
  = [str "9"; str "10"; str "b"; str "a"; str "07"].
Proof. vm_compute. reflexivity. Qed.

Lemma objectMapRound2_keys (o : list (jsstring * catValue)) :
  Permutation (map fst (objectMapRound2 o)) (map fst o).
Proof.
  unfold objectMapRound2. rewrite map_map. cbn [fst].
  apply Permutation_map, ownEntries_perm.
Qed.

Lemma objectMapRound2_In (o : list (jsstring * catValue)) (k : jsstring) (v : number) :
  In (k, v) (objectMapRound2 o) <-> exists c, v = round2Cat c /\ In (k, c) o.
Proof.
  unfold objectMapRound2. rewrite in_map_iff. split.
  - intros ([k' c] & E & Hin). cbn [fst snd] in E. inversion E; subst k' v.
    exists c. split; [reflexivity|].
    exact (Permutation_in _ (ownEntries_perm o) Hin).
  - intros (c & -> & Hin). exists (k, c). split; [reflexivity|].
    exact (Permutation_in _ (Permutation_sym (ownEntries_perm o)) Hin).
Qed.

(* ------------------------------------------------------------------------- *)
(** ** The five largest expenses *)

Lemma eqb_true_not_nan (x a : number) :
  PrimFloat.eqb x a = true -> isNaN x = false /\ isNaN a = false.
Proof.
  intros H. rewrite FloatAxioms.eqb_spec in H. unfold SFeqb in H.
  split; apply FloatFacts.is_nan_spec; intros N; rewrite N in H.
  - discriminate.
  - destruct (Prim2SF x); discriminate.
Qed.

Lemma expenseAfter_value (a b : Expense.t) :
  isNaN (Expense.amount a) = false -> isNaN (Expense.amount b) = false ->
  expenseAfter a b = (value (Expense.amount a) <? value (Expense.amount b))%Z.
Proof.
  intros Na Nb. unfold expenseAfter.
  rewrite FloatFacts.sub_positive by assumption.
  now apply FloatFacts.ltb_value.
Qed.

Lemma expenseAfter_notBelow (a b : Expense.t) :
  isNaN (Expense.amount a) = false -> isNaN (Expense.amount b) = false ->
  expenseAfter a b = false -> notBelow a b.
Proof.
  intros Na Nb H. rewrite expenseAfter_value in H by assumption.
  unfold notBelow. rewrite FloatFacts.leb_value by assumption.
  apply Z.ltb_ge in H. apply Z.leb_le. exact H.
Qed.

(** The comparator of the sort never puts one of two entries of equal amount
    after the other. *)
Lemma expenseAfter_tie (x y : Expense.t) (a : number) :
  PrimFloat.eqb (Expense.amount x) a = true ->
  PrimFloat.eqb (Expense.amount y) a = true ->
  expenseAfter x y = false.
Proof.
  intros Hx Hy.
  destruct (@eqb_true_not_nan _ _ Hx) as [Nx Na].
  destruct (@eqb_true_not_nan _ _ Hy) as [Ny _].
  rewrite expenseAfter_value by assumption.
  rewrite FloatFacts.eqb_value in Hx, Hy by assumption.
  apply Z.eqb_eq in Hx, Hy. apply Z.ltb_ge. lia.
Qed.

Lemma sorted_expenses_notBelow (l : list Expense.t) :
  Forall (fun e => isNaN (Expense.amount e) = false) l ->
  StronglySorted notBelow (sort expenseAfter l).
Proof.
  intros Hl.
  apply StronglySorted_weaken with (R := fun a b => expenseAfter a b = false).
  - intros x y Hx Hy. rewrite Forall_forall in Hl.
    apply expenseAfter_notBelow; apply Hl;
      eapply Permutation_in; try eassumption; apply sort_perm.
  - apply sort_sorted with (ok := fun e => isNaN (Expense.amount e) = false).
    + intros x y Nx Ny. rewrite !expenseAfter_value by assumption.
      intros H. apply Z.ltb_lt in H. apply Z.ltb_ge. lia.
    + intros x y z Nx Ny Nz. rewrite !expenseAfter_value by assumption.
      intros H1 H2. apply Z.ltb_ge in H1, H2. apply Z.ltb_ge. lia.
    + assumption.
Qed.

Lemma StronglySorted_map (A B : Type) (R : A -> A -> Prop) (R' : B -> B -> Prop)
      (f : A -> B) (l : list A) :
  (forall x y, In x l -> In y l -> R x y -> R' (f x) (f y)) ->
  StronglySorted R l -> StronglySorted R' (map f l).
Proof.
  intros H Hs. induction Hs as [|a l Hs IH Ha]; simpl.
  - constructor.
  - constructor.
    + apply IH. intros x y Hx Hy. apply H; simpl; auto.
    + apply Forall_forall. intros b Hb. apply in_map_iff in Hb.
      destruct Hb as (y & <- & Hy). rewrite Forall_forall in Ha.
      apply H; simpl; auto.
Qed.

(** Rounding the amounts keeps the entries in order. *)
Lemma roundExpense_notBelow (a b : Expense.t) :
  isNaN (Expense.amount a) = false -> isNaN (Expense.amount b) = false ->
  notBelow a b -> notBelow (roundExpense a) (roundExpense b).
Proof.
  intros Na Nb H. unfold notBelow, roundExpense. cbn [Expense.amount].
  apply FloatFacts.round2_monotone; assumption.
Qed.

Section TopExpenses.

Variable localeCompare : jsstring -> jsstring -> comparison.
Variable Summary : Type.

(** The entries [computeAnalytics] selects, before their amounts are
    rounded. *)
Lemma top5_selection (sid : jsstring) (txs : list Transaction) (summary : Summary) :
  Report.top5Expenses (computeAnalytics localeCompare sid txs summary)
  = map roundExpense
      (firstn 5 (sort expenseAfter (map expenseOf (filter isDebit txs)))).
Proof.
  unfold computeAnalytics. cbn [Report.top5Expenses].
  rewrite expenses_fold. reflexivity.
Qed.

(** C8.  For every list of transactions, their amounts being numbers,
    [top5Expenses] holds at most five entries; each is a debit of the list,
    with its amount rounded; the amounts are in non-increasing order, those
    returned and those the sort compares, before rounding; and the entries of
    any one amount stand in the order in which the list has them. *)
Theorem top5_expenses_sorted_and_stable :
  forall (sid : jsstring) (txs : list Transaction) (summary : Summary),
    Forall (fun t => isNaN (amount t) = false) txs ->
    exists top : list Expense.t,
      Report.top5Expenses (computeAnalytics localeCompare sid txs summary)
        = map roundExpense top
      /\ length top <= 5
      /\ (forall e, In e top ->
            exists t, In t txs /\ type t = str "debit" /\ e = expenseOf t)
      /\ StronglySorted notBelow
           (Report.top5Expenses (computeAnalytics localeCompare sid txs summary))
      /\ StronglySorted notBelow top
      /\ (forall a : number,
            prefixOf (withAmount a top)
                     (withAmount a (map expenseOf (filter isDebit txs)))).
Proof.
  intros sid txs summary Hn.
  set (debits := map expenseOf (filter isDebit txs)).
  exists (firstn 5 (sort expenseAfter debits)).
  assert (Hd : Forall (fun e => isNaN (Expense.amount e) = false) debits).
  { apply Forall_forall. intros e He. apply in_map_iff in He.
    destruct He as (t & <- & Ht). apply filter_In in Ht.
    rewrite Forall_forall in Hn. apply Hn. apply Ht. }
  assert (Hin : forall e, In e (firstn 5 (sort expenseAfter debits)) -> In e debits).
  { intros e He. apply (Permutation_in _ (sort_perm expenseAfter debits)).
    rewrite <- (firstn_skipn 5 (sort expenseAfter debits)).
    apply in_or_app. now left. }
  assert (Hs : StronglySorted notBelow (firstn 5 (sort expenseAfter debits)))
    by (apply StronglySorted_firstn; now apply sorted_expenses_notBelow).
  split; [apply top5_selection|].
  split; [apply firstn_le_length|].
  split; [|split; [|split]].
  - intros e He. apply Hin in He.
    apply in_map_iff in He. destruct He as (t & <- & Ht).
    apply filter_In in Ht. destruct Ht as [Ht Hdeb].
    exists t. repeat split; [assumption|]. now apply str_eqb_eq.
  - rewrite top5_selection. fold debits.
    apply StronglySorted_map with (R := notBelow); [|assumption].
    rewrite Forall_forall in Hd.
    intros x y Hx Hy. apply roundExpense_notBelow; apply Hd, Hin; assumption.
  - assumption.
  - intros a. unfold withAmount.
    rewrite <- (@sort_stable _ expenseAfter _ debits).
    + apply filter_firstn_prefix.
    + intros x y _ _. apply expenseAfter_tie.
Qed.

End TopExpenses.

(** The sort comes before the rounding: of two debits of 10.001 and 10.004,
    met in this order, the larger is listed first, and both entries show the
    amount 10. *)
Lemma top5_order_precedes_rounding :
  Report.top5Expenses (computeAnalytics codeUnitCompare [] [debitA; debitB] tt)
  = [ {| Expense.amount := 10%float; Expense.description := str "B";
         Expense.date := Some (str "2024-01-06") |};
      {| Expense.amount := 10%float; Expense.description := str "A";
         Expense.date := Some (str "2024-01-05") |} ]
  /\ description debitA = str "A"
  /\ description debitB = str "B".
Proof. repeat split; vm_compute; reflexivity. Qed.

(** An amount that is [NaN] has no place in the order: the comparator answers
    [NaN] for it, and no arrangement of such a debit and another is in
    non-increasing order. *)
Lemma nan_amount_has_no_order :
  forall l : list Expense.t,
    Permutation l (map expenseOf [debitNaN; debitOne]) -> ~ StronglySorted notBelow l.
Proof.
  intros l P S.
  assert (L := Permutation_length P). cbn [map length] in L.
  destruct l as [|x [|y [|z l]]]; try discriminate.
  inversion S as [|? ? _ F]; subst. inversion F as [|? ? N _]; subst.
  assert (X : In x (map expenseOf [debitNaN; debitOne]))
    by (apply (Permutation_in _ P); now left).
  assert (Y : In y (map expenseOf [debitNaN; debitOne]))
    by (apply (Permutation_in _ P); right; now left).
  assert (D : NoDup [x; y]).
  { apply (Permutation_NoDup (Permutation_sym P)).
    repeat constructor; cbn [In map]; [|tauto].
    intros [C|[]]. discriminate C. }
  unfold notBelow in N. cbn [map In] in X, Y.
  destruct X as [<-|[<-|[]]], Y as [<-|[<-|[]]];
    try (vm_compute in N; discriminate N);
    inversion D as [|? ? D1 _]; subst; apply D1; now left.
Qed.

(* ------------------------------------------------------------------------- *)
(** ** The fields of an extracted transaction *)

Lemma pad2_twoDigits (n : N) : (n < 100)%N -> pad2 n = twoDigits n.
Proof.
  intros H.
  assert (A : forallb (fun k => str_eqb (pad2 (N.of_nat k)) (twoDigits (N.of_nat k)))
                (seq 0 100) = true) by (vm_compute; reflexivity).
  rewrite forallb_forall in A.
  specialize (A (N.to_nat n)). rewrite N2Nat.id in A.
  apply str_eqb_eq, A, in_seq. lia.
Qed.

Lemma inRange_spec (lo hi n : N) : inRange lo hi n = true -> (lo <= n <= hi)%N.
Proof.
  unfold inRange. intros H. apply andb_prop in H. destruct H as [H1 H2].
  apply N.leb_le in H1, H2. lia.
Qed.

Lemma lookupMonth_range (key : jsstring) (n : N) :
  lookupMonth monthTable key = Some n -> (1 <= n <= 12)%N.
Proof.
  unfold monthTable. cbn [lookupMonth].
  repeat (match goal with
          | |- (if ?c then _ else _) = Some _ -> _ => destruct c
          end; [intros H; inversion H; lia|]).
  discriminate.
Qed.

(** What [parseDateStr] writes. *)
Lemma parseDateStr_written (s iso : jsstring) :
  parseDateStr s = Some iso -> writtenDate iso.
Proof.
  unfold parseDateStr. destruct (negb (truthy s)); [discriminate|].
  set (t := trim s).
  assert (Y : forall r, dateYearFirst t = Some r -> writtenDate r).
  { unfold dateYearFirst. intros r. destruct (matchFirst reYearFirst t) as [[w m]|]; [|discriminate].
    destruct (inRange 1 12 _ && inRange 1 31 _)%bool eqn:R; [|discriminate].
    apply andb_prop in R. destruct R as [R1 R2]. apply inRange_spec in R1, R2.
    intros H. inversion H; subst r; clear H.
    eexists. eexists. eexists. split; [|split; [exact R2|]].
    - unfold isoDate. rewrite (@pad2_twoDigits (digitsToN (capture t m 3))) by lia. reflexivity.
    - left. eexists. split; [apply pad2_twoDigits; lia | exact R1]. }
  assert (D : forall r, dateDayFirst t = Some r -> writtenDate r).
  { unfold dateDayFirst. intros r. destruct (matchFirst reDayFirst t) as [[w m]|]; [|discriminate].
    destruct (inRange 1 12 _ && inRange 1 31 _)%bool eqn:R; [|discriminate].
    apply andb_prop in R. destruct R as [R1 R2]. apply inRange_spec in R1, R2.
    intros H. inversion H; subst r; clear H.
    eexists. eexists. eexists. split; [|split; [exact R2|]].
    - unfold isoDate. rewrite (@pad2_twoDigits (digitsToN (capture t m 1))) by lia. reflexivity.
    - left. eexists. split; [apply pad2_twoDigits; lia | exact R1]. }
  assert (M : forall r, dateDayMonthName t = Some r -> writtenDate r).
  { unfold dateDayMonthName. intros r.
    destruct (matchFirst reDayMonthName t) as [[w m]|]; [|discriminate].
    set (key := replaceAll reTrailingDot (toLowerCase (capture t m 2)) []).
    destruct (monthTruthy (monthMap key) && inRange 1 31 _)%bool eqn:R; [|discriminate].
    apply andb_prop in R. destruct R as [R1 R2]. apply inRange_spec in R2.
    intros H. inversion H; subst r; clear H.
    eexists. eexists. eexists. split; [|split; [exact R2|]].
    - unfold isoDate. rewrite (@pad2_twoDigits (digitsToN (capture t m 1))) by lia. reflexivity.
    - unfold monthMap in *. destruct (lookupMonth monthTable key) as [n|] eqn:L.
      + apply lookupMonth_range in L. left. exists n.
        split; [apply pad2_twoDigits; lia | exact L].
      + destruct (str_eqb key (str "constructor")); [right; reflexivity|discriminate]. }
  unfold orElse.
  destruct (dateYearFirst t) as [r|] eqn:E1; [intros H; inversion H; subst; now apply Y|].
  destruct (dateDayFirst t) as [r|] eqn:E2; [intros H; inversion H; subst; now apply D|].
  intros H. now apply M.
Qed.

Lemma abs_finite (x : number) :
  isFinite x = true ->
  PrimFloat.leb 0 (mathAbs x) = true /\ isFinite (mathAbs x) = true.
Proof.
  unfold isFinite, mathAbs, PrimFloat.is_finite, PrimFloat.is_infinity, PrimFloat.is_nan.
  rewrite FloatAxioms.leb_spec, !FloatAxioms.eqb_spec, !FloatAxioms.abs_spec.
  assert (V := Prim2SF_valid x).
  change (Prim2SF 0) with (S754_zero false).
  change (Prim2SF infinity) with (S754_infinity false).
  destruct (Prim2SF x) as [s|s| |s m e]; simpl SFabs.
  - intros _. split; reflexivity.
  - destruct s; cbv; intros H; discriminate.
  - cbv; intros H; discriminate.
  - unfold SFeqb, SFleb.
    rewrite !FloatFacts.SFcompare_refl by (assumption || congruence).
    intros _. split; reflexivity.
Qed.

Lemma inferType_cases (line amtRaw : jsstring) (amt : number) :
  inferType line amtRaw amt = str "credit" \/ inferType line amtRaw amt = str "debit".
Proof.
  unfold inferType.
  destruct (test reAnyParen amtRaw || test reMinusDigit amtRaw
            || hasKeyword (toLowerCase line) debitKeywords)%bool;
    destruct (test rePlusSign amtRaw || hasKeyword (toLowerCase line) creditKeywords)%bool;
    try destruct (PrimFloat.ltb amt 0); try destruct (test reCreditWords line); auto.
Qed.

(** What the claim on the extracted transactions gets right: the amount is
    finite and not negative, the confidence lies between 0 and 1, the type is
    one of the two, and the date is made of a year, a month and a day with the
    day between 01 and 31. *)
Lemma parseLine_invariants (fuel : nat) (sid now line : jsstring) (tx : Transaction) :
  parseLine fuel sid now line = Some (Extracted tx) ->
  PrimFloat.leb 0 (amount tx) = true /\ isFinite (amount tx) = true
  /\ PrimFloat.leb 0 (confidence tx) = true /\ PrimFloat.leb (confidence tx) 1 = true
  /\ (type tx = str "credit" \/ type tx = str "debit")
  /\ (exists iso, date tx = Some iso /\ writtenDate iso).
Proof.
  intros H. apply parseLine_extracted in H.
  destruct H as (d & caps & iso & raw & amt & _ & Hp & _ & Hf & Hd & Ha & Ht & _ & Hc).
  apply parseDateStr_written in Hp.
  rewrite Ha, Hc, Ht.
  destruct (abs_finite _ Hf) as [A1 A2].
  destruct (confidenceScore_bounds (truthy (inferType line raw amt))
              (truthy (categorize (orStr (describe line d raw) line))
               && negb (str_eqb (categorize (orStr (describe line d raw) line))
                          (str "other")))
              (length (orStr (describe line d raw) []))) as (_ & C1 & C2).
  repeat split; try assumption; [apply inferType_cases|].
  exists iso. split; assumption.
Qed.

(** C4 fails on the date.  The year is written as the number it denotes, not
    on four digits, and a month name is looked up in an object that inherits
    [constructor]: the lines below, whose amounts end with the letters that
    [amtPattern] asks for, give transactions whose dates are ["123-02-01"] and
    ["2024-function Object() { [native code] }-05"].  The rest of the claim
    holds of every statement, and so does this much of the date: it is
    [y-MM-DD] with [DD] between 01 and 31 and [MM] between 01 and 12, unless
    [MM] is that text. *)
Theorem date_is_not_always_canonical :
  forall (clock : nat -> jsstring) (sid : jsstring),
    (exists tx sm,
        parseTransactions clock (str "01/02/123 PAYMENT 5.00KATEX_INLINE_CLOSE") sid
          = Some ([tx], sm)
        /\ date tx = Some (str "123-02-01"))
    /\ (exists tx sm,
          parseTransactions clock
            (str "5 constructor 2024 PAYMENT 5.00KATEX_INLINE_CLOSE") sid
            = Some ([tx], sm)
          /\ date tx = Some (str "2024-function Object() { [native code] }-05"))
    /\ (forall rawText, exists txs sm,
          parseTransactions clock rawText sid = Some (txs, sm)
          /\ Forall (fun tx =>
                       PrimFloat.leb 0 (amount tx) = true
                       /\ isFinite (amount tx) = true
                       /\ PrimFloat.leb 0 (confidence tx) = true
                       /\ PrimFloat.leb (confidence tx) 1 = true
                       /\ (type tx = str "credit" \/ type tx = str "debit")
                       /\ (exists iso, date tx = Some iso /\ writtenDate iso)) txs).
Proof.
  intros clock sid. split; [|split].
  - eexists. eexists. split; [vm_compute; reflexivity | vm_compute; reflexivity].
  - eexists. eexists. split; [vm_compute; reflexivity | vm_compute; reflexivity].
  - intros rawText. apply parseTransactions_Forall.
    intros fuel sid0 now line tx. apply parseLine_invariants.
Qed.

(* ------------------------------------------------------------------------- *)
(** ** The rounding of the monetary outputs *)

Lemma round2Exact_half_away (v : Q) :
  ~ (isTie (v + epsilonQ) /\ (v + epsilonQ < 0)%Q) ->
  (round2Exact v == roundHalfAwayFromZero2 (v + epsilonQ))%Q.
Proof.
  intros H. rewrite round2Exact_unfold. unfold roundHalfAwayFromZero2, epsilonQ in *.
  destruct (Qle_bool 0 (v + (1 # 2 ^ 52))) eqn:E; [reflexivity|].
  assert (Hneg : (v + (1 # 2 ^ 52) < 0)%Q).
  { apply Qnot_le_lt. intros C. apply Qle_bool_iff in C. congruence. }
  set (x := ((v + (1 # 2 ^ 52)) * (100 # 1) + (1 # 2))%Q).
  assert (Hf := Qfloor_le x). assert (Hc := Qlt_floor x).
  assert (Hx : ~ (x == inject_Z (Qfloor x))%Q).
  { intros C. apply H. split; [|assumption]. exists (Qfloor x). exact C. }
  assert (Hlt : (inject_Z (Qfloor x) < x)%Q).
  { apply Qle_lteq in Hf. destruct Hf as [Hf|Hf]; [assumption|].
    exfalso. apply Hx. symmetry. exact Hf. }
  rewrite (@floor_unique (- (v + (1 # 2 ^ 52)) * (100 # 1) + (1 # 2)) (- Qfloor x)).
  - rewrite inject_Z_opp. unfold Qdiv. change (/ (100 # 1))%Q with (1 # 100)%Q. lra.
  - rewrite inject_Z_plus in Hc. change (inject_Z 1) with 1%Q in Hc.
    rewrite inject_Z_opp. subst x. lra.
  - rewrite inject_Z_opp. subst x. lra.
Qed.

(* ------------------------------------------------------------------------- *)
(** ** The store of [computeAnalytics] *)

Module HeapFacts.

(** [computeAnalytics] on values, as opposed to [Heap.computeAnalytics]. *)
Local Abbreviation onValues := computeAnalytics.

Import Heap.

Section StoreFacts.

Variable localeCompare : jsstring -> jsstring -> comparison.
Variable Summary : Type.

Local Abbreviation object := (Heap.object Summary).
Local Abbreviation heap := (Heap.heap Summary).

Lemma length_update (h : heap) : forall l o, length (update h l o) = length h.
Proof. induction h as [|x h IH]; intros [|l] o; simpl; auto. Qed.

Lemma nth_error_update_eq (h : heap) :
  forall l o, l < length h -> nth_error (update h l o) l = Some o.
Proof.
  induction h as [|x h IH]; intros [|l] o H; simpl in *; try lia; auto.
  apply IH. lia.
Qed.

Lemma nth_error_update_ne (h : heap) :
  forall l l' o, l <> l' -> nth_error (update h l o) l' = nth_error h l'.
Proof.
  induction h as [|x h IH]; intros [|l] [|l'] o H; simpl; try reflexivity; try lia.
  apply IH. lia.
Qed.

Lemma nth_error_alloc_new (h : heap) (o : object) :
  nth_error (h ++ [o]) (length h) = Some o.
Proof. rewrite nth_error_app2 by lia. now rewrite Nat.sub_diag. Qed.

Lemma nth_error_alloc_old (h : heap) (o : object) (l : loc) :
  l < length h -> nth_error (h ++ [o]) l = nth_error h l.
Proof. intros H. now apply nth_error_app1. Qed.

Lemma nth_error_lt (h : heap) (l : loc) (o : object) :
  nth_error h l = Some o -> l < length h.
Proof. intros H. apply nth_error_Some. congruence. Qed.

(** Reading a location that holds what is expected. *)
Lemma readTransaction_ok (h : heap) (l : loc) (t : Transaction) :
  nth_error h l = Some (ObjTransaction Summary t) -> readTransaction l h = Some (t, h).
Proof. intros H. unfold readTransaction, bind, read. now rewrite H. Qed.

Lemma readArray_ok (h : heap) (l : loc) (items : list loc) :
  nth_error h l = Some (ObjArray Summary items) -> readArray l h = Some (items, h).
Proof. intros H. unfold readArray, bind, read. now rewrite H. Qed.

Lemma readTotals_ok (h : heap) (l : loc) (a : Totals) :
  nth_error h l = Some (ObjTotals Summary a) -> readTotals l h = Some (a, h).
Proof. intros H. unfold readTotals, bind, read. now rewrite H. Qed.

Lemma readCategories_ok (h : heap) (l : loc) (o : list (jsstring * catValue)) :
  nth_error h l = Some (ObjCategories Summary o) -> readCategories l h = Some (o, h).
Proof. intros H. unfold readCategories, bind, read. now rewrite H. Qed.

Lemma readMonths_ok (h : heap) (l : loc) (m : list (jsstring * Totals)) :
  nth_error h l = Some (ObjMonths Summary m) -> readMonths l h = Some (m, h).
Proof. intros H. unfold readMonths, bind, read. now rewrite H. Qed.

Lemma readExpense_ok (h : heap) (l : loc) (e : Expense.t) :
  nth_error h l = Some (ObjExpense Summary e) -> readExpense l h = Some (e, h).
Proof. intros H. unfold readExpense, bind, read. now rewrite H. Qed.

Lemma write_ok (h : heap) (l : loc) (o : object) :
  l < length h -> write l o h = Some (tt, update h l o).
Proof. intros H. unfold write. apply Nat.ltb_lt in H. now rewrite H. Qed.

Lemma holds_mono (h h' : heap) (items : list loc) (es : list Expense.t) :
  (forall l, In l items -> nth_error h' l = nth_error h l) ->
  holds h items es -> holds h' items es.
Proof.
  intros H Hh. induction Hh as [|l e items es Hl Hh IH]; constructor.
  - rewrite H; [assumption | now left].
  - apply IH. intros l' Hl'. apply H. now right.
Qed.

Lemma holds_length (h : heap) (items : list loc) (es : list Expense.t) :
  holds h items es -> Forall (fun l => l < length h) items.
Proof.
  intros Hh. induction Hh as [|l e items es Hl Hh IH]; constructor; auto.
  eapply nth_error_lt; eassumption.
Qed.

Ltac heap_len := rewrite ?length_update, ?length_app; simpl length; try lia.

Ltac heap_nth :=
  repeat first
    [ rewrite nth_error_update_ne by lia
    | rewrite nth_error_update_eq by heap_len
    | rewrite nth_error_alloc_new
    | rewrite nth_error_alloc_old by heap_len ].

(** One iteration of the loop on the store does what [step] does. *)
Lemma visit_ok (h0 h : heap) (st : loopState) (tRef : loc) (t : Transaction) :
  represents h0 h st ->
  nth_error h tRef = Some (ObjTransaction Summary t) ->
  exists h',
    visit (localsAt (length h0)) tRef h = Some (tt, h')
    /\ represents h0 h' (step st t).
Proof.
  intros [Hp Hl Hs Hc (items & He & Hh & Hi) Hm] Ht.
  set (n := length h0) in *.
  unfold visit, bind. cbn [localsAt sumsRef byCategoryRef expensesRef byMonthRef].
  rewrite (readTransaction_ok _ _ Ht).
  rewrite (readTotals_ok _ _ Hs).
  rewrite write_ok by lia.
  set (h1 := update h n (ObjTotals Summary (addTransaction (sums st) t))).
  assert (L1 : length h1 = length h) by apply length_update.
  rewrite (@readCategories_ok h1 (n + 1) (byCategoryOf st))
    by (unfold h1; heap_nth; exact Hc).
  rewrite write_ok by lia.
  set (h2 := update h1 (n + 1) (ObjCategories Summary (addCategory (byCategoryOf st) t))).
  assert (L2 : length h2 = length h) by (unfold h2; rewrite length_update; exact L1).
  assert (F2 : forall l, l <> n -> l <> n + 1 -> nth_error h2 l = nth_error h l).
  { intros l A B. unfold h2, h1. now heap_nth. }
  assert (Hlt := holds_length Hh).
  (* the entry of [expenses] *)
  assert (E : exists h3 items3,
             (if isDebit t
              then bind (alloc (ObjExpense Summary (expenseOf t)))
                     (fun e => bind (readArray (n + 2))
                        (fun items => write (n + 2) (ObjArray Summary (items ++ [e]))))
              else ret tt) h2 = Some (tt, h3)
             /\ length h <= length h3
             /\ (forall l, l < length h -> l <> n + 2 -> nth_error h3 l = nth_error h2 l)
             /\ nth_error h3 (n + 2) = Some (ObjArray Summary items3)
             /\ holds h3 items3 (expenses (step st t))
             /\ Forall (fun l => n + 4 <= l) items3).
  { unfold step. cbn [expenses]. fold (isDebit t). destruct (isDebit t).
    - unfold bind, alloc.
      rewrite (@readArray_ok (h2 ++ [ObjExpense Summary (expenseOf t)]) (n + 2) items)
        by (heap_nth; rewrite F2 by lia; exact He).
      rewrite write_ok by heap_len.
      eexists. exists (items ++ [length h2]). split; [reflexivity|].
      split; [heap_len|]. split; [intros l A B; now heap_nth|].
      split; [now heap_nth|]. split.
      + apply Forall2_app.
        * apply holds_mono with h; [|exact Hh].
          intros l Hin. rewrite Forall_forall in Hi, Hlt.
          specialize (Hi _ Hin). specialize (Hlt _ Hin).
          heap_nth. apply F2; lia.
        * constructor; [|constructor]. heap_nth. reflexivity.
      + apply Forall_app. split; [exact Hi|]. constructor; [lia|constructor].
    - exists h2, items. split; [reflexivity|]. split; [lia|].
      split; [reflexivity|]. split; [rewrite F2 by lia; exact He|]. split.
      + apply holds_mono with h; [|exact Hh].
        intros l Hin. rewrite Forall_forall in Hi. specialize (Hi _ Hin).
        apply F2; lia.
      + exact Hi. }
  destruct E as (h3 & items3 & E1 & L3 & F3 & E3 & H3 & I3).
  unfold bind in E1. rewrite E1.
  assert (M3 : nth_error h3 (n + 3) = Some (ObjMonths Summary (byMonth st))).
  { rewrite F3 by lia. rewrite F2 by lia. exact Hm. }
  assert (S3 : nth_error h3 n = Some (ObjTotals Summary (sums (step st t)))).
  { rewrite F3 by lia. unfold h2, h1. heap_nth. reflexivity. }
  assert (C3 : nth_error h3 (n + 1)
               = Some (ObjCategories Summary (byCategoryOf (step st t)))).
  { rewrite F3 by lia. unfold h2. heap_nth. reflexivity. }
  assert (P3 : preserves h0 h3).
  { intros l A. rewrite F3 by (fold n in A; lia). rewrite F2 by (fold n in A; lia).
    now apply Hp. }
  assert (Hlt3 := holds_length H3).
  destruct (truthy (monthKey t)) eqn:Tm.
  - rewrite (readMonths_ok _ _ M3). rewrite write_ok by lia.
    eexists. split; [reflexivity|].
    constructor.
    + intros l A. heap_nth. now apply P3.
    + heap_len.
    + heap_nth. exact S3.
    + heap_nth. exact C3.
    + exists items3. split; [heap_nth; exact E3|]. split; [|exact I3].
      apply holds_mono with h3; [|exact H3].
      intros l Hin. rewrite Forall_forall in I3. specialize (I3 _ Hin). now heap_nth.
    + heap_nth. reflexivity.
  - exists h3. split; [reflexivity|].
    constructor; try assumption; try lia.
    + exists items3. auto.
    + unfold step. cbn [byMonth]. rewrite Tm. exact M3.
Qed.

(** The loop on the store does what the fold of [step] does. *)
Lemma forEach_visit_ok (h0 : heap) (items : list loc) (txs : list Transaction) :
  refersTo h0 items txs ->
  forall h st,
    represents h0 h st ->
    exists h',
      forEach (visit (Summary:=Summary) (localsAt (length h0))) items h = Some (tt, h')
      /\ represents h0 h' (fold_left step txs st).
Proof.
  intros Hr. induction Hr as [|l t items txs Hl Hr IH]; intros h st Hrep.
  - exists h. split; [reflexivity | exact Hrep].
  - simpl. unfold bind.
    assert (Hl' : nth_error h l = Some (ObjTransaction Summary t)).
    { rewrite (rep_preserves Hrep); [exact Hl | eapply nth_error_lt; exact Hl]. }
    destruct (@visit_ok _ _ _ _ _ Hrep Hl') as (h1 & E1 & R1).
    rewrite E1. apply IH. exact R1.
Qed.

Lemma bind_ok (A B : Type) (c : M Summary A) (k : A -> M Summary B)
      (h h' : heap) (a : A) :
  c h = Some (a, h') -> bind c k h = k a h'.
Proof. intros H. unfold bind. now rewrite H. Qed.

Lemma mapM_readTransaction (h : heap) (items : list loc) (txs : list Transaction) :
  refersTo h items txs -> mapM (readTransaction (Summary:=Summary)) items h = Some (txs, h).
Proof.
  intros Hr. induction Hr as [|l t items txs Hl Hr IH]; [reflexivity|].
  cbn [mapM]. rewrite (@bind_ok _ _ _ _ _ _ _ (readTransaction_ok _ _ Hl)).
  rewrite (@bind_ok _ _ _ _ _ _ _ IH). reflexivity.
Qed.

Lemma mapM_readEntries (h : heap) (items : list loc) (es : list Expense.t) :
  holds h items es ->
  mapM (fun l => bind (readExpense (Summary:=Summary) l) (fun e => ret (l, e))) items h
  = Some (combine items es, h).
Proof.
  intros Hh. induction Hh as [|l e items es Hl Hh IH]; [reflexivity|].
  cbn [mapM combine].
  rewrite (@bind_ok _ _ _ _ h h (l, e))
    by (rewrite (@bind_ok _ _ _ _ _ _ _ (readExpense_ok _ _ Hl)); reflexivity).
  rewrite (@bind_ok _ _ _ _ _ _ _ IH). reflexivity.
Qed.

(** Allocating one object after another appends them to the store. *)
Lemma mapM_alloc (A : Type) (mk : A -> object) (xs : list A) :
  forall h : heap,
    mapM (fun x => alloc (mk x)) xs h
    = Some (seq (length h) (length xs), h ++ map mk xs).
Proof.
  induction xs as [|x xs IH]; intros h; cbn [mapM map length seq].
  - unfold ret. now rewrite app_nil_r.
  - rewrite (@bind_ok _ _ _ _ h (h ++ [mk x]) (length h)) by reflexivity.
    rewrite (@bind_ok _ _ _ _ _ _ _ (IH _)). unfold ret. rewrite length_app, <- app_assoc. simpl.
    replace (length h + 1) with (S (length h)) by lia. reflexivity.
Qed.

Lemma mapM_round (refs : list loc) (es : list Expense.t) :
  forall h : heap,
    holds h refs es ->
    mapM (fun l => bind (readExpense (Summary:=Summary) l)
                     (fun e => alloc (ObjExpense Summary (roundExpense e)))) refs h
    = Some (seq (length h) (length es),
            h ++ map (fun e => ObjExpense Summary (roundExpense e)) es).
Proof.
  intros h Hh. revert h Hh. revert refs.
  induction es as [|e es IH]; intros refs h Hh;
    inversion Hh as [|l e' refs' es' Hl Hrest]; subst; cbn [mapM map length seq].
  - unfold ret. now rewrite app_nil_r.
  - rewrite (@bind_ok _ _ _ _ h (h ++ [ObjExpense Summary (roundExpense e)]) (length h))
      by (rewrite (@bind_ok _ _ _ _ _ _ _ (readExpense_ok _ _ Hl)); reflexivity).
    assert (Hrest' : holds (h ++ [ObjExpense Summary (roundExpense e)]) refs' es).
    { apply holds_mono with h; [|assumption].
      intros l' Hin. apply nth_error_alloc_old.
      assert (F := holds_length Hrest). rewrite Forall_forall in F. now apply F. }
    rewrite (@bind_ok _ _ _ _ _ _ _ (IH _ _ Hrest')).
    unfold ret. rewrite length_app, <- app_assoc. simpl.
    replace (length h + 1) with (S (length h)) by lia. reflexivity.
Qed.

(** The objects appended to a store are at the locations that follow it. *)
Lemma appended_at (h : heap) (os : list object) :
  Forall2 (fun l o => nth_error (h ++ os) l = Some o) (seq (length h) (length os)) os.
Proof.
  revert h. induction os as [|o os IH]; intros h; simpl; constructor.
  - rewrite nth_error_app2 by lia. now rewrite Nat.sub_diag.
  - specialize (IH (h ++ [o])). rewrite length_app in IH. simpl in IH.
    replace (length h + 1) with (S (length h)) in IH by lia.
    rewrite <- app_assoc in IH. exact IH.
Qed.

Lemma Forall2_map_r (A B C : Type) (R : A -> C -> Prop) (f : B -> C)
      (l : list A) (l' : list B) :
  Forall2 (fun a b => R a (f b)) l l' -> Forall2 R l (map f l').
Proof. induction 1; simpl; constructor; auto. Qed.

Lemma Forall2_map_r_inv (A B C : Type) (R : A -> C -> Prop) (f : B -> C)
      (l : list A) (l' : list B) :
  Forall2 R l (map f l') -> Forall2 (fun a b => R a (f b)) l l'.
Proof.
  revert l. induction l' as [|b l' IH]; intros l H; inversion H; subst;
    constructor; auto.
Qed.

Lemma nth_error_extended (h tl : heap) (l : loc) :
  l < length h -> nth_error (h ++ tl) l = nth_error h l.
Proof. intros H. now apply nth_error_app1. Qed.

Lemma holds_extended (h tl : heap) (items : list loc) (es : list Expense.t) :
  holds h items es -> holds (h ++ tl) items es.
Proof.
  intros H. apply holds_mono with h; [|exact H].
  intros l Hin. apply nth_error_extended.
  assert (F := holds_length H). rewrite Forall_forall in F. now apply F.
Qed.

Lemma holds_firstn (h : heap) (n : nat) (items : list loc) (es : list Expense.t) :
  holds h items es -> holds h (firstn n items) (firstn n es).
Proof.
  unfold holds. intros H. revert n. induction H; intros [|n]; simpl; constructor; auto.
Qed.

(** The entries of a sorted array are the sorted entries. *)
Lemma holds_sorted (h : heap) (items : list loc) (es : list Expense.t) :
  holds h items es ->
  holds h (map fst (sort (fun a b => expenseAfter (snd a) (snd b)) (combine items es)))
        (sort expenseAfter es).
Proof.
  intros H.
  assert (Hs : map snd (combine items es) = es).
  { induction H; simpl; congruence. }
  rewrite <- Hs at 2. rewrite <- sort_map.
  assert (Hall : Forall (fun p => nth_error h (fst p) = Some (ObjExpense Summary (snd p)))
                        (combine items es)).
  { clear Hs. induction H; simpl; constructor; auto. }
  assert (Hall' : Forall (fun p => nth_error h (fst p) = Some (ObjExpense Summary (snd p)))
                         (sort (fun a b => expenseAfter (snd a) (snd b)) (combine items es))).
  { apply Forall_forall. intros p Hp. rewrite Forall_forall in Hall. apply Hall.
    eapply Permutation_in; [apply sort_perm | exact Hp]. }
  clear - Hall'. unfold holds. induction Hall'; simpl; constructor; auto.
Qed.

Lemma appended_objects (A : Type) (mk : A -> object) (h tl : heap) (xs : list A) :
  Forall2 (fun l x => nth_error ((h ++ map mk xs) ++ tl) l = Some (mk x))
          (seq (length h) (length xs)) xs.
Proof.
  apply Forall2_map_r_inv with (R := fun l o => nth_error ((h ++ map mk xs) ++ tl) l = Some o).
  assert (H := appended_at h (map mk xs)). rewrite length_map in H.
  eapply Forall2_impl; [|exact H].
  intros l o Hl. cbv beta in Hl. rewrite nth_error_extended; [exact Hl|].
  eapply nth_error_lt; exact Hl.
Qed.

Lemma refersTo_preserved (h h' : heap) (items : list loc) (txs : list Transaction) :
  preserves h h' -> refersTo h items txs -> refersTo h' items txs.
Proof.
  intros Hp Hr. unfold refersTo in *.
  induction Hr as [|l t items txs Hl Hr IH]; constructor; [|exact IH].
  rewrite Hp; [exact Hl | eapply nth_error_lt; exact Hl].
Qed.

Lemma represents_initial (h : heap) :
  represents h
    ((((h ++ [ObjTotals Summary zeroTotals]) ++ [ObjCategories Summary []])
        ++ [ObjArray Summary []]) ++ [ObjMonths Summary []])
    initialState.
Proof.
  constructor.
  - intros l Hl. rewrite <- !app_assoc. now apply nth_error_extended.
  - rewrite !length_app. simpl. lia.
  - rewrite <- !app_assoc. rewrite nth_error_app2 by lia. now rewrite Nat.sub_diag.
  - rewrite <- !app_assoc. rewrite nth_error_app2 by lia.
    replace (length h + 1 - length h) with 1 by lia. reflexivity.
  - exists []. split; [|split; constructor].
    rewrite <- !app_assoc. rewrite nth_error_app2 by lia.
    replace (length h + 2 - length h) with 2 by lia. reflexivity.
  - rewrite <- !app_assoc. rewrite nth_error_app2 by lia.
    replace (length h + 3 - length h) with 3 by lia. reflexivity.
Qed.

(** C10.  [computeAnalytics] returns, and leaves every object that was in
    the store when it was called as it was: the array of transactions, each
    transaction object and the summary.  What it writes, the sort of
    [expenses] included, goes to objects it has allocated itself.  The report
    it builds in the store is the one [computeAnalytics] computes on the
    transactions as values, and its summary is the reference it was given. *)
Theorem computeAnalytics_leaves_inputs_unchanged :
  forall (sid : jsstring) (h : heap) (transactions summary : loc)
         (items : list loc) (txs : list Transaction),
    nth_error h transactions = Some (ObjArray Summary items) ->
    refersTo h items txs ->
    exists (r : report) (h' : heap),
      Heap.computeAnalytics localeCompare sid transactions summary h = Some (r, h')
      /\ preserves h h'
      /\ nth_error h' transactions = Some (ObjArray Summary items)
      /\ refersTo h' items txs
      /\ parsingSummary r = summary
      /\ (let p := onValues localeCompare sid txs tt in
          statementId r = Report.statementId p
          /\ totalIncome r = Report.totalIncome p
          /\ totalExpense r = Report.totalExpense p
          /\ net r = Report.net p
          /\ transactionCount r = Report.transactionCount p
          /\ avgTransactionAmount r = Report.avgTransactionAmount p
          /\ nth_error h' (byCategory r) = Some (ObjNumbers Summary (Report.byCategory p))
          /\ (exists refs,
                nth_error h' (top5Expenses r) = Some (ObjArray Summary refs)
                /\ Forall2 (fun l e => nth_error h' l = Some (ObjExpense Summary e))
                           refs (Report.top5Expenses p))
          /\ (exists refs,
                nth_error h' (monthlyTrends r) = Some (ObjArray Summary refs)
                /\ Forall2 (fun l t => nth_error h' l = Some (ObjTrend Summary t))
                           refs (Report.monthlyTrends p))).
Proof.
  intros sid h transactions summary items txs Ht Hr.
  assert (Htl := nth_error_lt _ _ Ht).
  unfold Heap.computeAnalytics.
  do 4 (erewrite bind_ok by reflexivity).
  rewrite !length_app. cbn [length].
  set (h1 := (((h ++ [ObjTotals Summary zeroTotals]) ++ [ObjCategories Summary []])
                ++ [ObjArray Summary []]) ++ [ObjMonths Summary []]).
  assert (R1 : represents h h1 initialState) by apply represents_initial.
  replace (length h + 1 + 1 + 1) with (length h + 3) by lia.
  replace (length h + 1 + 1) with (length h + 2) by lia.
  change {| sumsRef := length h; byCategoryRef := length h + 1;
            expensesRef := length h + 2; byMonthRef := length h + 3 |}
    with (localsAt (length h)).
  set (n := length h) in *.
  (* the loop *)
  rewrite (@bind_ok _ _ _ _ h1 h1 items)
    by (apply readArray_ok; rewrite (rep_preserves R1) by lia; exact Ht).
  destruct (@forEach_visit_ok h items txs Hr h1 initialState R1) as (h2 & E2 & R2).
  rewrite (@bind_ok _ _ _ _ _ _ _ E2).
  set (st := fold_left step txs initialState) in *.
  destruct (rep_expenses R2) as (eitems & He & Hh & Hi).
  assert (L2 := rep_length R2). fold n in L2.
  (* the sort, in place *)
  set (sorted := map fst (sort (fun a b => expenseAfter (snd a) (snd b))
                            (combine eitems (expenses st)))).
  set (h3 := update h2 (n + 2) (ObjArray Summary sorted)).
  assert (E3 : sortExpenses (n + 2) h2 = Some (sorted, h3)).
  { unfold sortExpenses. rewrite (@bind_ok _ _ _ _ _ _ _ (readArray_ok _ _ He)).
    rewrite (@bind_ok _ _ _ _ _ _ _ (mapM_readEntries Hh)).
    cbv zeta. rewrite (@bind_ok _ _ _ _ h2 h3 tt) by (apply write_ok; lia). reflexivity. }
  rewrite (@bind_ok _ _ _ _ _ _ _ E3).
  assert (L3 : length h3 = length h2) by apply length_update.
  assert (F3 : forall l, l <> n + 2 -> nth_error h3 l = nth_error h2 l).
  { intros l A. unfold h3. now rewrite nth_error_update_ne by lia. }
  assert (H3 : holds h3 sorted (sort expenseAfter (expenses st))).
  { apply holds_mono with h2; [|apply holds_sorted; exact Hh].
    intros l Hin. apply F3.
    assert (In l eitems).
    { unfold sorted in Hin. apply in_map_iff in Hin. destruct Hin as ([l' e] & <- & Hin).
      apply (Permutation_in _ (sort_perm _ _)) in Hin. now apply in_combine_l in Hin. }
    rewrite Forall_forall in Hi. specialize (Hi _ H). fold n in Hi. lia. }
  assert (P3 : preserves h h3).
  { intros l A. fold n in A. rewrite F3 by lia. now apply (rep_preserves R2). }
  (* what follows only allocates *)
  set (top := firstn 5 (sort expenseAfter (expenses st))).
  set (months := sort (monthAfter localeCompare) (byMonth st)).
  erewrite bind_ok by reflexivity.
  assert (M4 : nth_error (h3 ++ [ObjArray Summary (firstn 5 sorted)]) (n + 3)
               = Some (ObjMonths Summary (byMonth st))).
  { rewrite nth_error_extended by lia. rewrite F3 by lia. apply (rep_months R2). }
  rewrite (@bind_ok _ _ _ _ _ _ _ (readMonths_ok _ _ M4)).
  fold months.
  rewrite (@bind_ok _ _ _ _ _ _ _ (mapM_alloc _ _ _)).
  erewrite bind_ok by reflexivity.
  set (h6 := ((h3 ++ [ObjArray Summary (firstn 5 sorted)])
                ++ map (fun e => ObjTrend Summary (trendOf e)) months)
               ++ [ObjArray Summary
                     (seq (length (h3 ++ [ObjArray Summary (firstn 5 sorted)]))
                          (length months))]).
  assert (X6 : forall l, l < length h3 -> nth_error h6 l = nth_error h3 l).
  { intros l A. unfold h6. rewrite <- !app_assoc. now apply nth_error_extended. }
  assert (Hr6 : refersTo h6 items txs).
  { apply refersTo_preserved with h; [|exact Hr].
    intros l A. fold n in A. rewrite X6 by lia. now apply P3. }
  rewrite (@bind_ok _ _ _ _ _ _ _ (mapM_readTransaction Hr6)).
  assert (S6 : nth_error h6 n = Some (ObjTotals Summary (sums st))).
  { rewrite X6 by lia. rewrite F3 by lia. apply (rep_sums R2). }
  assert (C6 : nth_error h6 (n + 1) = Some (ObjCategories Summary (byCategoryOf st))).
  { rewrite X6 by lia. rewrite F3 by lia. apply (rep_categories R2). }
  rewrite (@bind_ok _ _ _ _ _ _ _ (readTotals_ok _ _ S6)).
  rewrite (@bind_ok _ _ _ _ _ _ _ (readCategories_ok _ _ C6)).
  erewrite bind_ok by reflexivity.
  assert (H7 : holds (h6 ++ [ObjNumbers Summary (objectMapRound2 (byCategoryOf st))])
                     (firstn 5 sorted) top).
  { apply holds_extended. unfold h6. rewrite <- !app_assoc. apply holds_extended.
    unfold top. now apply holds_firstn. }
  rewrite (@bind_ok _ _ _ _ _ _ _ (mapM_round H7)).
  erewrite bind_ok by reflexivity.
  unfold ret. eexists. eexists. split; [reflexivity|].
  cbn [parsingSummary statementId totalIncome totalExpense net transactionCount
       avgTransactionAmount byCategory top5Expenses monthlyTrends].
  set (h7 := h6 ++ [ObjNumbers Summary (objectMapRound2 (byCategoryOf st))]).
  set (h8 := h7 ++ map (fun e => ObjExpense Summary (roundExpense e)) top).
  assert (X8 : forall l tl, l < length h3 ->
                            nth_error ((h8 ++ tl)) l = nth_error h3 l).
  { intros l tl A. unfold h8, h7. rewrite <- !app_assoc. rewrite nth_error_extended.
    - now apply X6.
    - unfold h6. rewrite !length_app. simpl. lia. }
  assert (Pf : preserves h (h8 ++ [ObjArray Summary (seq (length h7) (length top))])).
  { intros l A. rewrite X8 by (fold n in A; lia). now apply P3. }
  split; [exact Pf|].
  split; [rewrite Pf by assumption; exact Ht|].
  split.
  { now apply refersTo_preserved with h. }
  split; [reflexivity|].
  assert (Hlen : length items = length txs).
  { clear - Hr. induction Hr; simpl; congruence. }
  unfold onValues, computeAnalytics. fold st.
  cbn [Report.statementId Report.totalIncome Report.totalExpense Report.net
       Report.transactionCount Report.avgTransactionAmount Report.byCategory
       Report.top5Expenses Report.monthlyTrends].
  rewrite Hlen.
  repeat (split; [reflexivity|]).
  split; [|split].
  - unfold h8, h7. rewrite <- !app_assoc. rewrite nth_error_app2 by lia.
    rewrite Nat.sub_diag. reflexivity.
  - exists (seq (length h7) (length top)). split; [apply nth_error_alloc_new|].
    fold top. apply Forall2_map_r. unfold h8.
    apply (@appended_objects _ (fun e => ObjExpense Summary (roundExpense e))).
  - set (h4 := h3 ++ [ObjArray Summary (firstn 5 sorted)]) in *.
    exists (seq (length h4) (length months)).
    assert (Eq : h8 ++ [ObjArray Summary (seq (length h7) (length top))]
                 = (h4 ++ map (fun e => ObjTrend Summary (trendOf e)) months)
                     ++ ([ObjArray Summary (seq (length h4) (length months))]
                           ++ [ObjNumbers Summary (objectMapRound2 (byCategoryOf st))]
                           ++ map (fun e => ObjExpense Summary (roundExpense e)) top
                           ++ [ObjArray Summary (seq (length h7) (length top))])).
    { unfold h8, h7, h6. rewrite <- !app_assoc. reflexivity. }
    rewrite Eq. split.
    + rewrite nth_error_app2 by lia. rewrite Nat.sub_diag. reflexivity.
    + fold months. apply Forall2_map_r.
      apply (@appended_objects _ (fun e => ObjTrend Summary (trendOf e))).
Qed.




End StoreFacts.

End HeapFacts.
(* ------------------------------------------------------------------------- *)
(** * Further properties of the code *)

(** ** [round2] on binary64 numbers *)

Lemma nan_unique (x : number) : isNaN x = true -> x = PrimFloat.nan.
Proof.
  intros H. destruct (isNaN x) eqn:E; [|discriminate].
  assert (P : Prim2SF x = S754_nan).
  { destruct (Prim2SF x) eqn:Ex; try reflexivity; exfalso;
      assert (N : isNaN x = false)
        by (apply FloatFacts.is_nan_spec; rewrite Ex; discriminate);
      congruence. }
  rewrite <- (SF2Prim_Prim2SF x), P. reflexivity.
Qed.

(** X1.  [round2] keeps the order of numbers: of two numbers (neither is
    [NaN]) the smaller never gets the larger rounded value, and both rounded
    values are numbers. *)
Theorem round2_keeps_order :
  forall a b : number,
    isNaN a = false -> isNaN b = false -> PrimFloat.leb a b = true ->
    PrimFloat.leb (round2 a) (round2 b) = true
    /\ isNaN (round2 a) = false /\ isNaN (round2 b) = false.
Proof.
  intros a b Na Nb H. split; [|split].
  - apply FloatFacts.round2_monotone; assumption.
  - apply (FloatFacts.round2_value a Na).
  - apply (FloatFacts.round2_value b Nb).
Qed.

(** ** The selection of the largest expenses *)

Lemma StronglySorted_app_inv (A : Type) (R : A -> A -> Prop) (l1 l2 : list A) :
  StronglySorted R (l1 ++ l2) ->
  forall x y, In x l1 -> In y l2 -> R x y.
Proof.
  induction l1 as [|a l1 IH]; intros H x y Hx Hy; [contradiction|].
  simpl in H. inversion H as [|? ? Hs Hf]; subst.
  destruct Hx as [<-|Hx].
  - rewrite Forall_forall in Hf. apply Hf, in_or_app. now right.
  - now apply IH.
Qed.

Section LargestExpenses.

Variable localeCompare : jsstring -> jsstring -> comparison.
Variable Summary : Type.

(** X2.  [top5Expenses] holds the largest debits: when no amount is [NaN], it
    has five entries, or as many as there are debits when these are fewer, and
    no debit left out has an amount above that of an entry kept. *)
Theorem top5_holds_the_largest_debits :
  forall (sid : jsstring) (txs : list Transaction) (summary : Summary),
    Forall (fun t => isNaN (amount t) = false) txs ->
    exists kept left : list Expense.t,
      Report.top5Expenses (computeAnalytics localeCompare sid txs summary)
        = map roundExpense kept
      /\ Permutation (kept ++ left) (map expenseOf (filter isDebit txs))
      /\ length kept = Nat.min 5 (length (filter isDebit txs))
      /\ (forall e e', In e kept -> In e' left ->
            PrimFloat.leb (Expense.amount e') (Expense.amount e) = true).
Proof.
  intros sid txs summary Hn.
  set (debits := map expenseOf (filter isDebit txs)).
  assert (Hd : Forall (fun e => isNaN (Expense.amount e) = false) debits).
  { apply Forall_forall. intros e He. apply in_map_iff in He.
    destruct He as (t & <- & Ht). apply filter_In in Ht.
    rewrite Forall_forall in Hn. apply Hn. apply Ht. }
  exists (firstn 5 (sort expenseAfter debits)), (skipn 5 (sort expenseAfter debits)).
  split; [apply top5_selection|]. split; [|split].
  - rewrite firstn_skipn. apply sort_perm.
  - rewrite length_firstn.
    rewrite (Permutation_length (sort_perm expenseAfter debits)).
    unfold debits. rewrite length_map. reflexivity.
  - intros e e' He He'.
    apply (@StronglySorted_app_inv _ notBelow (firstn 5 (sort expenseAfter debits))
             (skipn 5 (sort expenseAfter debits))); try assumption.
    rewrite firstn_skipn. now apply sorted_expenses_notBelow.
Qed.

End LargestExpenses.

(** ** The totals *)

Lemma totals_fold (l : list Transaction) :
  forall z : Totals,
    income (fold_left addTransaction l z) = fold_left PrimFloat.add (creditAmounts l) (income z)
    /\ expense (fold_left addTransaction l z)
       = fold_left PrimFloat.add (otherAmounts l) (expense z).
Proof.
  unfold creditAmounts, otherAmounts.
  induction l as [|t l IH]; intros z; simpl; [split; reflexivity|].
  destruct (IH (addTransaction z t)) as [I E]. rewrite I, E.
  unfold addTransaction, addAmount, isCredit.
  destruct (str_eqb (type t) (str "credit")); simpl; split; reflexivity.
Qed.

Section Totals.

Variable localeCompare : jsstring -> jsstring -> comparison.
Variable Summary : Type.

Lemma totals_are_rounded_sums (sid : jsstring) (txs : list Transaction)
      (summary : Summary) :
  let r := computeAnalytics localeCompare sid txs summary in
  Report.totalIncome r = round2 (sumOf (creditAmounts txs))
  /\ Report.totalExpense r = round2 (sumOf (otherAmounts txs)).
Proof.
  intros r. subst r. unfold computeAnalytics.
  cbn [Report.totalIncome Report.totalExpense].
  rewrite sums_fold. cbn [initialState sums].
  destruct (totals_fold txs zeroTotals) as [I E]. rewrite I, E. split; reflexivity.
Qed.

(** X3.  [totalIncome] is the rounded sum of the amounts of the credits, and
    [totalExpense] the rounded sum of the amounts of all the other
    transactions, whatever their type, each sum taken in the order of the
    list; [net] is the rounded difference of the two sums, not the difference
    of the two rounded totals. *)
Theorem totals_split_credits_from_the_rest :
  forall (sid : jsstring) (txs : list Transaction) (summary : Summary),
    let r := computeAnalytics localeCompare sid txs summary in
    Report.totalIncome r = round2 (sumOf (creditAmounts txs))
    /\ Report.totalExpense r = round2 (sumOf (otherAmounts txs))
    /\ Report.net r = round2 (sumOf (creditAmounts txs) - sumOf (otherAmounts txs))%float.
Proof.
  intros sid txs summary r. subst r. unfold computeAnalytics.
  cbn [Report.totalIncome Report.totalExpense Report.net].
  rewrite sums_fold. cbn [initialState sums].
  destruct (totals_fold txs zeroTotals) as [I E]. rewrite I, E.
  repeat split.
Qed.

End Totals.

(** ** The months of the trends *)

Lemma str_eqb_refl (a : jsstring) : str_eqb a a = true.
Proof.
  induction a as [|x a IH]; simpl; [reflexivity|].
  unfold char_eqb. now rewrite N.eqb_refl, IH.
Qed.

Lemma str_eqb_neq (a b : jsstring) : str_eqb a b = false <-> a <> b.
Proof.
  split.
  - intros H E. subst b. rewrite str_eqb_refl in H. discriminate.
  - intros H. destruct (str_eqb a b) eqn:E; [|reflexivity].
    apply str_eqb_eq in E. contradiction.
Qed.

Lemma addToMonth_keys (bm : list (jsstring * Totals)) (m ty : jsstring) (amt : number) :
  map fst (addToMonth bm m ty amt)
  = if existsb (str_eqb m) (map fst bm) then map fst bm else map fst bm ++ [m].
Proof.
  induction bm as [|[m' agg] bm IH]; simpl; [reflexivity|].
  destruct (str_eqb m m') eqn:E; simpl; [reflexivity|].
  rewrite IH. destruct (existsb (str_eqb m) (map fst bm)); reflexivity.
Qed.

Lemma existsb_str_eqb (m : jsstring) (l : list jsstring) :
  existsb (str_eqb m) l = true <-> In m l.
Proof.
  rewrite existsb_exists. split.
  - intros (x & Hx & E). apply str_eqb_eq in E. now subst.
  - intros H. exists m. split; [assumption | apply str_eqb_refl].
Qed.

Lemma addToMonth_lookup (bm : list (jsstring * Totals)) (m ty : jsstring) (amt : number)
      (k : jsstring) :
  ownProperty (addToMonth bm m ty amt) k
  = if str_eqb k m
    then Some (addAmount (match ownProperty bm m with Some a => a | None => zeroTotals end)
                 ty amt)
    else ownProperty bm k.
Proof.
  induction bm as [|[m' agg] bm IH]; simpl.
  - destruct (str_eqb k m); reflexivity.
  - destruct (str_eqb m m') eqn:E; simpl.
    + apply str_eqb_eq in E. subst m'. destruct (str_eqb k m); reflexivity.
    + rewrite IH. destruct (str_eqb k m) eqn:Ek; [|reflexivity].
      apply str_eqb_eq in Ek. subst k. rewrite E. reflexivity.
Qed.

(** The aggregate of a month after the loop: that of the transactions of
    the month. *)
Lemma byMonth_lookup (m : jsstring) (txs : list Transaction) :
  forall bm,
    m <> [] ->
    ownProperty (fold_left addMonth txs bm) m
    = match filter (inMonth m) txs, ownProperty bm m with
      | [], o => o
      | l, Some a => Some (fold_left addTransaction l a)
      | l, None => Some (fold_left addTransaction l zeroTotals)
      end.
Proof.
  induction txs as [|t txs IH]; intros bm Hm; simpl.
  - destruct (ownProperty bm m); reflexivity.
  - rewrite IH by assumption. unfold addMonth, inMonth at 2.
    destruct (str_eqb (monthKey t) m) eqn:E.
    + apply str_eqb_eq in E. rewrite E.
      assert (T : truthy m = true) by (destruct m; [contradiction|reflexivity]).
      rewrite T, addToMonth_lookup, str_eqb_refl.
      destruct (filter (inMonth m) txs); destruct (ownProperty bm m); reflexivity.
    + destruct (truthy (monthKey t)); [|reflexivity].
      rewrite addToMonth_lookup.
      assert (E' : str_eqb m (monthKey t) = false).
      { apply str_eqb_neq. apply str_eqb_neq in E. congruence. }
      rewrite E'. reflexivity.
Qed.

Lemma byMonth_keys (txs : list Transaction) :
  forall bm,
    NoDup (map fst bm) -> ~ In [] (map fst bm) ->
    NoDup (map fst (fold_left addMonth txs bm))
    /\ (forall m, In m (map fst (fold_left addMonth txs bm))
                  <-> In m (map fst bm)
                      \/ (m <> [] /\ exists t, In t txs /\ monthKey t = m)).
Proof.
  induction txs as [|t txs IH]; intros bm Hn He; cbn [fold_left].
  - split; [assumption|]. intros m. split; [now left|].
    intros [H|(_ & t & [] & _)]. assumption.
  - assert (K : NoDup (map fst (addMonth bm t)) /\ ~ In [] (map fst (addMonth bm t))
                /\ forall m, In m (map fst (addMonth bm t))
                             <-> In m (map fst bm) \/ (m <> [] /\ monthKey t = m)).
    { unfold addMonth. destruct (truthy (monthKey t)) eqn:T.
      - rewrite addToMonth_keys.
        destruct (existsb _ _) eqn:X.
        + apply existsb_str_eqb in X. split; [assumption|]. split; [assumption|].
          intros m. split; [now left|]. intros [H|[_ <-]]; assumption.
        + assert (X' : ~ In (monthKey t) (map fst bm)).
          { intros C. apply existsb_str_eqb in C. exact (eq_true_false_abs _ C X). }
          split; [|split].
          * apply NoDup_app; [assumption | repeat constructor; intros [] |].
            intros x Hx [<-|[]]. contradiction.
          * intros C. apply in_app_or in C. destruct C as [C|[C|[]]]; [contradiction|].
            rewrite C in T. discriminate.
          * intros m. rewrite in_app_iff. split.
            -- intros [H|[<-|[]]]; [now left|]. right. split; [|reflexivity].
               intros C. rewrite C in T. discriminate.
            -- intros [H|[_ <-]]; [now left|]. right. now left.
      - split; [assumption|]. split; [assumption|].
        intros m. split; [now left|]. intros [H|[N <-]]; [assumption|].
        destruct (monthKey t); [contradiction|discriminate]. }
    destruct K as (K1 & K2 & K3).
    destruct (IH (addMonth bm t) K1 K2) as [I1 I2]. split; [assumption|].
    intros m. rewrite I2, K3. split.
    + intros [[H|[N E]]|(N & t' & Ht & E)].
      * now left.
      * right. split; [assumption|]. exists t. split; [now left | assumption].
      * right. split; [assumption|]. exists t'. split; [now right | assumption].
    + intros [H|(N & t' & [<-|Ht] & E)].
      * left. now left.
      * left. right. split; assumption.
      * right. split; [assumption|]. exists t'. split; assumption.
Qed.

Lemma ownProperty_In (V : Type) (o : list (jsstring * V)) (k : jsstring) (v : V) :
  NoDup (map fst o) -> In (k, v) o -> ownProperty o k = Some v.
Proof.
  induction o as [|[k' v'] o IH]; intros Hn Hi; [contradiction|].
  simpl in *. inversion Hn as [|? ? Hk Hn']; subst.
  destruct Hi as [E|Hi].
  - inversion E; subst. now rewrite str_eqb_refl.
  - destruct (str_eqb k k') eqn:E.
    + apply str_eqb_eq in E. subst k'. exfalso. apply Hk.
      apply in_map_iff. exists (k, v). split; [reflexivity | assumption].
    + now apply IH.
Qed.

Section MonthlyTrends.

Variable localeCompare : jsstring -> jsstring -> comparison.
Variable Summary : Type.

Lemma monthlyTrends_entries (sid : jsstring) (txs : list Transaction) (summary : Summary) :
  Permutation
    (Report.monthlyTrends (computeAnalytics localeCompare sid txs summary))
    (map trendOf (fold_left addMonth txs [])).
Proof.
  unfold computeAnalytics. cbn [Report.monthlyTrends].
  rewrite byMonth_fold. cbn [initialState byMonth].
  apply Permutation_map, sort_perm.
Qed.

(** The entry of a month holds the rounded sums of the month. *)
Lemma monthlyTrends_sums (sid : jsstring) (txs : list Transaction) (summary : Summary)
      (tr : Trend.t) :
  In tr (Report.monthlyTrends (computeAnalytics localeCompare sid txs summary)) ->
  Trend.income tr
    = round2 (sumOf (creditAmounts (filter (inMonth (Trend.month tr)) txs)))
  /\ Trend.expense tr
     = round2 (sumOf (otherAmounts (filter (inMonth (Trend.month tr)) txs))).
Proof.
  intros Htr. apply (Permutation_in _ (monthlyTrends_entries sid txs summary)) in Htr.
  set (bm := fold_left addMonth txs []) in *.
  destruct (@byMonth_keys txs [] (NoDup_nil _) (fun H => H)) as [Hn Hk]. fold bm in Hn, Hk.
  apply in_map_iff in Htr. destruct Htr as ([m agg] & <- & Hin).
  cbn [trendOf Trend.month Trend.income Trend.expense fst snd].
  assert (Hm : m <> []).
  { assert (H : In m (map fst bm)) by (apply in_map_iff; exists (m, agg); auto).
    apply Hk in H. destruct H as [[]|[H _]]. exact H. }
  assert (L := @ownProperty_In _ bm m agg Hn Hin).
  unfold bm in L. rewrite byMonth_lookup in L by assumption. cbn [ownProperty] in L.
  destruct (filter (inMonth m) txs) as [|t l] eqn:F; [discriminate|].
  injection L as L'. rewrite <- L'.
  change (fold_left addTransaction l (addTransaction zeroTotals t))
    with (fold_left addTransaction (t :: l) zeroTotals).
  destruct (totals_fold (t :: l) zeroTotals) as [I E]. rewrite I, E. split; reflexivity.
Qed.

(** X4.  [monthlyTrends] has one entry for each month of the list: the months
    of its entries are pairwise distinct, they are the non-empty
    seven-character prefixes of the dates, and the income and the expense of an
    entry are the rounded sums of the amounts of the credits, and of the other
    transactions, of that month. *)
Theorem monthlyTrends_one_entry_per_month :
  forall (sid : jsstring) (txs : list Transaction) (summary : Summary),
    let trends := Report.monthlyTrends (computeAnalytics localeCompare sid txs summary) in
    NoDup (map Trend.month trends)
    /\ (forall m, In m (map Trend.month trends)
                  <-> m <> [] /\ exists t, In t txs /\ monthKey t = m)
    /\ (forall tr, In tr trends ->
          Trend.income tr
            = round2 (sumOf (creditAmounts (filter (inMonth (Trend.month tr)) txs)))
          /\ Trend.expense tr
             = round2 (sumOf (otherAmounts (filter (inMonth (Trend.month tr)) txs)))).
Proof.
  intros sid txs summary trends.
  assert (P := monthlyTrends_entries sid txs summary). fold trends in P.
  set (bm := fold_left addMonth txs []) in *.
  destruct (@byMonth_keys txs [] (NoDup_nil _) (fun H => H)) as [Hn Hk]. fold bm in Hn, Hk.
  assert (M : Permutation (map Trend.month trends) (map fst bm)).
  { apply (Permutation_map Trend.month) in P. rewrite map_map in P. exact P. }
  split; [|split].
  - apply (Permutation_NoDup (Permutation_sym M)). assumption.
  - intros m. split.
    + intros H. apply (Permutation_in _ M) in H.
      apply Hk in H. destruct H as [[]|H]. exact H.
    + intros H. apply (Permutation_in _ (Permutation_sym M)).
      apply Hk. now right.
  - intros tr. apply monthlyTrends_sums.
Qed.

End MonthlyTrends.

(** ** Sums of amounts *)

Lemma notNegative_cases (x : number) :
  notNegative x ->
  (exists s, Prim2SF x = S754_zero s)
  \/ (exists m e, Prim2SF x = S754_finite false m e)
  \/ Prim2SF x = S754_infinity false.
Proof.
  intros [N L]. rewrite FloatAxioms.leb_spec in L.
  change (Prim2SF 0) with (S754_zero false) in L. unfold SFleb in L.
  destruct (Prim2SF x) as [s|s| |s m e]; simpl in L.
  - left. now exists s.
  - destruct s; [discriminate|]. right; right. reflexivity.
  - discriminate.
  - destruct s; [discriminate|]. right; left. now exists m, e.
Qed.

Lemma notNegative_intro (x : number) :
  (exists s, Prim2SF x = S754_zero s)
  \/ (exists m e, Prim2SF x = S754_finite false m e)
  \/ Prim2SF x = S754_infinity false ->
  notNegative x.
Proof.
  intros H. split.
  - apply FloatFacts.is_nan_spec. destruct H as [[s H]|[(m & e & H)|H]]; rewrite H; discriminate.
  - rewrite FloatAxioms.leb_spec. change (Prim2SF 0) with (S754_zero false).
    destruct H as [[s H]|[(m & e & H)|H]]; rewrite H; reflexivity.
Qed.

(** The sum of two numbers that are not negative is not negative, and it is
    [-0] only when both are. *)
Lemma add_notNegative (a b : number) :
  notNegative a -> notNegative b ->
  notNegative (a + b)%float
  /\ (Prim2SF (a + b)%float = S754_zero true ->
      Prim2SF a = S754_zero true /\ Prim2SF b = S754_zero true).
Proof.
  intros Ha Hb. assert (Va := Prim2SF_valid a). assert (Vb := Prim2SF_valid b).
  apply notNegative_cases in Ha, Hb.
  assert (K : ((exists s, Prim2SF (a + b)%float = S754_zero s)
               \/ (exists m e, Prim2SF (a + b)%float = S754_finite false m e)
               \/ Prim2SF (a + b)%float = S754_infinity false)
              /\ (Prim2SF (a + b)%float = S754_zero true ->
                  Prim2SF a = S754_zero true /\ Prim2SF b = S754_zero true)).
  { rewrite FloatAxioms.add_spec. unfold SF64add.
    destruct Ha as [[sa Ea]|[(ma & ea & Ea)|Ea]];
      destruct Hb as [[sb Eb]|[(mb & eb & Eb)|Eb]]; rewrite Ea, Eb in *.
    - destruct sa, sb; simpl; (split; [left; eexists; reflexivity|]);
        intros H; try discriminate; split; reflexivity.
    - simpl. split; [right; left; eauto | discriminate].
    - simpl. split; [right; right; reflexivity | discriminate].
    - simpl. split; [right; left; eauto | discriminate].
    - apply FloatFacts.valid_finite in Va, Vb.
      destruct Va as (Hea & _). destruct Vb as (Heb & _).
      unfold SFadd. cbn [cond_Zopp].
      set (ez := Z.min ea eb).
      destruct (Zpos (fst (shl_align ma ea ez)) + Zpos (fst (shl_align mb eb ez)))%Z
        as [|p|p] eqn:S; try lia.
      cbn [binary_normalize].
      destruct (@FloatFacts.binary_round_sign false p ez ltac:(lia)) as [(m' & e' & R)|R];
        rewrite R; (split; [|discriminate]); [right; left; eauto | right; right; reflexivity].
    - simpl. split; [right; right; reflexivity | discriminate].
    - simpl. split; [right; right; reflexivity | discriminate].
    - simpl. split; [right; right; reflexivity | discriminate].
    - simpl. split; [right; right; reflexivity | discriminate]. }
  destruct K as [K1 K2]. split; [now apply notNegative_intro | assumption].
Qed.

(** ** The keys and the values of [byCategory] *)

Lemma setProperty_keys (V : Type) (o : list (jsstring * V)) (k : jsstring) (v : V) :
  map fst (setProperty o k v)
  = if existsb (str_eqb k) (map fst o) then map fst o else map fst o ++ [k].
Proof.
  induction o as [|[k' v'] o IH]; simpl; [reflexivity|].
  destruct (str_eqb k k') eqn:E; simpl.
  - apply str_eqb_eq in E. now subst.
  - rewrite IH. destruct (existsb _ _); reflexivity.
Qed.

Lemma setProperty_lookup (V : Type) (o : list (jsstring * V)) (k : jsstring) (v : V)
      (k' : jsstring) :
  ownProperty (setProperty o k v) k'
  = if str_eqb k' k then Some v else ownProperty o k'.
Proof.
  induction o as [|[k0 v0] o IH]; simpl.
  - destruct (str_eqb k' k); reflexivity.
  - destruct (str_eqb k k0) eqn:E; simpl.
    + apply str_eqb_eq in E. subst k0. destruct (str_eqb k' k); reflexivity.
    + rewrite IH. destruct (str_eqb k' k) eqn:Ek; [|reflexivity].
      apply str_eqb_eq in Ek. subst k'. now rewrite E.
Qed.

Lemma byCategory_keys (txs : list Transaction) :
  forall o,
    NoDup (map fst o) -> ~ In (str "__proto__") (map fst o) ->
    NoDup (map fst (fold_left addCategory txs o))
    /\ (forall k, In k (map fst (fold_left addCategory txs o))
                  <-> In k (map fst o)
                      \/ (k <> str "__proto__" /\ exists t, In t txs /\ categoryKey t = k)).
Proof.
  induction txs as [|t txs IH]; intros o Hn He; cbn [fold_left].
  - split; [assumption|]. intros k. split; [now left|].
    intros [H|(_ & t & [] & _)]. assumption.
  - set (k0 := categoryKey t).
    assert (K : NoDup (map fst (addCategory o t))
                /\ ~ In (str "__proto__") (map fst (addCategory o t))
                /\ forall k, In k (map fst (addCategory o t))
                             <-> In k (map fst o) \/ (k <> str "__proto__" /\ k0 = k)).
    { unfold addCategory, assignCategory, isProtoKey. fold k0.
      destruct (str_eqb k0 (str "__proto__")) eqn:P.
      - apply str_eqb_eq in P. split; [assumption|]. split; [assumption|].
        intros k. split; [now left|]. intros [H|[N E]]; [assumption|]. congruence.
      - apply str_eqb_neq in P. rewrite setProperty_keys.
        destruct (existsb _ _) eqn:X.
        + apply existsb_str_eqb in X. split; [assumption|]. split; [assumption|].
          intros k. split; [now left|]. intros [H|[_ <-]]; assumption.
        + assert (X' : ~ In k0 (map fst o)).
          { intros C. apply existsb_str_eqb in C. exact (eq_true_false_abs _ C X). }
          split; [|split].
          * apply NoDup_app; [assumption | repeat constructor; intros [] |].
            intros x Hx [<-|[]]. contradiction.
          * intros C. apply in_app_or in C. destruct C as [C|[C|[]]]; [contradiction|].
            congruence.
          * intros k. rewrite in_app_iff. split.
            -- intros [H|[<-|[]]]; [now left|]. right. split; [assumption|reflexivity].
            -- intros [H|[_ <-]]; [now left|]. right. now left. }
    destruct K as (K1 & K2 & K3).
    destruct (IH (addCategory o t) K1 K2) as [I1 I2]. split; [assumption|].
    intros k. rewrite I2, K3. split.
    + intros [[H|[N E]]|(N & t' & Ht & E)].
      * now left.
      * right. split; [assumption|]. exists t. split; [now left | assumption].
      * right. split; [assumption|]. exists t'. split; [now right | assumption].
    + intros [H|(N & t' & [<-|Ht] & E)].
      * left. now left.
      * left. right. split; assumption.
      * right. split; [assumption|]. exists t'. split; assumption.
Qed.

(** A key that names a method of [Object.prototype] never holds a number. *)
Lemma byCategory_methods (k : jsstring) (txs : list Transaction) :
  inheritedMethod k = true ->
  forall o,
    (ownProperty o k = None \/ ownProperty o k = Some CatText) ->
    ownProperty (fold_left addCategory txs o) k = None
    \/ ownProperty (fold_left addCategory txs o) k = Some CatText.
Proof.
  intros Hk. induction txs as [|t txs IH]; intros o Ho; cbn [fold_left]; [assumption|].
  apply IH. unfold addCategory, assignCategory.
  destruct (isProtoKey (categoryKey t)); [assumption|].
  rewrite setProperty_lookup. destruct (str_eqb k (categoryKey t)) eqn:E; [|assumption].
  apply str_eqb_eq in E. subst k. right. f_equal. unfold bumpCategory.
  destruct Ho as [Ho|Ho]; rewrite Ho; [|reflexivity]. now rewrite Hk.
Qed.

Section Categories.

Variable localeCompare : jsstring -> jsstring -> comparison.
Variable Summary : Type.

(** X5.  [byCategory] has one property for each category of the list,
    ['other'] standing for a missing or empty one: its keys are pairwise
    distinct and are the categories of the transactions, except [__proto__],
    which never becomes a key; and under a key that names a method of
    [Object.prototype], such as [constructor] or [toString], the value is
    [NaN]. *)
Theorem byCategory_one_property_per_category :
  forall (sid : jsstring) (txs : list Transaction) (summary : Summary),
    let cats := Report.byCategory (computeAnalytics localeCompare sid txs summary) in
    NoDup (map fst cats)
    /\ (forall k, In k (map fst cats)
                  <-> k <> str "__proto__" /\ exists t, In t txs /\ categoryKey t = k)
    /\ (forall k v, In (k, v) cats -> inheritedMethod k = true -> isNaN v = true).
Proof.
  intros sid txs summary cats. subst cats. unfold computeAnalytics.
  cbn [Report.byCategory]. rewrite byCategory_fold. cbn [initialState byCategory].
  set (o := fold_left addCategory txs []).
  destruct (@byCategory_keys txs [] (NoDup_nil _) (fun H => H)) as [Hn Hk]. fold o in Hn, Hk.
  assert (M := objectMapRound2_keys o).
  split; [exact (Permutation_NoDup (Permutation_sym M) Hn)|]. split.
  - intros k. split.
    + intros H. apply (Permutation_in _ M), Hk in H. destruct H as [[]|H]. exact H.
    + intros H. apply (Permutation_in _ (Permutation_sym M)), Hk. now right.
  - intros k v Hin Hm. apply objectMapRound2_In in Hin. destruct Hin as (c & -> & Hin).
    assert (L := @ownProperty_In _ o k c Hn Hin).
    destruct (@byCategory_methods k txs Hm [] (or_introl eq_refl)) as [C|C];
      fold o in C; rewrite C in L; [discriminate|].
    inversion L. reflexivity.
Qed.

End Categories.

Lemma sumOf_snoc (l : list number) (a : number) : sumOf (l ++ [a]) = (sumOf l + a)%float.
Proof. unfold sumOf. now rewrite fold_left_app. Qed.

(** A sum of numbers that are not negative is not negative, nor [-0]. *)
Lemma sumOf_notNegative (l : list number) :
  Forall notNegative l ->
  notNegative (sumOf l) /\ Prim2SF (sumOf l) <> S754_zero true.
Proof.
  induction l as [|a l IH] using rev_ind; intros H.
  - split; [split; reflexivity | discriminate].
  - apply Forall_app in H. destruct H as [Hl Ha]. inversion Ha as [|? ? Ha' _]; subst.
    destruct (IH Hl) as [I1 I2]. rewrite sumOf_snoc.
    destruct (add_notNegative I1 Ha') as [A1 A2].
    split; [assumption|]. intros C. apply A2 in C. destruct C as [C _]. contradiction.
Qed.

(** [n || 0] is [n] for such a sum. *)
Lemma falsy_sum_is_zero (n : number) :
  notNegative n -> Prim2SF n <> S754_zero true ->
  (if truthyNum n then n else 0%float) = n.
Proof.
  intros [N L] Z. unfold truthyNum. unfold isNaN in N. rewrite N, orb_false_r.
  destruct (PrimFloat.is_zero n) eqn:E; [|reflexivity]. simpl.
  unfold PrimFloat.is_zero in E. rewrite FloatAxioms.eqb_spec in E.
  change (Prim2SF 0) with (S754_zero false) in E. unfold SFeqb in E.
  rewrite <- (SF2Prim_Prim2SF n).
  destruct (Prim2SF n) as [s|s| |s m e]; simpl in E.
  - destruct s; [contradiction Z; reflexivity | reflexivity].
  - destruct s; discriminate.
  - discriminate.
  - destruct s; discriminate.
Qed.

Lemma byCategory_value (k : jsstring) :
  inheritedMethod k = false -> isProtoKey k = false ->
  forall txs seen o,
    Forall (fun t => notNegative (amount t)) (seen ++ txs) ->
    ownProperty o k = categoryCell (filter (inCategory k) seen) ->
    ownProperty (fold_left addCategory txs o) k
    = categoryCell (filter (inCategory k) (seen ++ txs)).
Proof.
  intros Hm Hp. induction txs as [|t txs IH]; intros seen o Hn Ho; cbn [fold_left].
  - now rewrite app_nil_r.
  - replace (seen ++ t :: txs) with ((seen ++ [t]) ++ txs) in * by now rewrite <- app_assoc.
    apply IH; [assumption|].
    rewrite filter_app. cbn [filter]. unfold inCategory at 2.
    unfold addCategory, assignCategory.
    destruct (str_eqb (categoryKey t) k) eqn:E.
    + apply str_eqb_eq in E. rewrite E, Hp, setProperty_lookup, str_eqb_refl.
      unfold bumpCategory. rewrite Ho.
      assert (Hs : Forall notNegative (map amount (filter (inCategory k) seen))).
      { apply Forall_forall. intros a Ha. apply in_map_iff in Ha.
        destruct Ha as (t' & <- & Ht'). apply filter_In in Ht'.
        rewrite Forall_forall in Hn. apply Hn.
        apply in_or_app. left. apply in_or_app. left. apply Ht'. }
      destruct (filter (inCategory k) seen) as [|t0 l] eqn:F; cbn [categoryCell app].
      * rewrite Hm, Hp. reflexivity.
      * destruct (sumOf_notNegative Hs) as [S1 S2].
        do 2 f_equal.
        transitivity (sumOf (map amount (t0 :: l)) + amount t)%float.
        { f_equal. exact (falsy_sum_is_zero S1 S2). }
        change (t0 :: l ++ [t]) with ((t0 :: l) ++ [t]). rewrite map_app.
        symmetry. apply sumOf_snoc.
    + rewrite app_nil_r.
      destruct (isProtoKey (categoryKey t)); [assumption|].
      rewrite setProperty_lookup.
      assert (E' : str_eqb k (categoryKey t) = false).
      { apply str_eqb_neq. apply str_eqb_neq in E. congruence. }
      now rewrite E'.
Qed.

(** Rounding keeps a number that is not negative so. *)
Lemma round2_notNegative (x : number) : notNegative x -> notNegative (round2 x).
Proof.
  intros [N L]. split.
  - apply (FloatFacts.round2_value x N).
  - change 0%float with (round2 0%float) at 1.
    apply FloatFacts.round2_monotone; [reflexivity | assumption | assumption].
Qed.

Lemma notNegative_filter (c : Transaction -> bool) (txs : list Transaction) :
  Forall (fun t => notNegative (amount t)) txs ->
  Forall notNegative (map amount (filter c txs)).
Proof.
  intros H. apply Forall_forall. intros a Ha. apply in_map_iff in Ha.
  destruct Ha as (t & <- & Ht). apply filter_In in Ht.
  rewrite Forall_forall in H. apply H, Ht.
Qed.

Section CategoryValues.

Variable localeCompare : jsstring -> jsstring -> comparison.
Variable Summary : Type.

Lemma byCategory_entry (sid : jsstring) (txs : list Transaction) (summary : Summary)
      (k : jsstring) (v : number) :
  Forall (fun t => notNegative (amount t)) txs ->
  inheritedMethod k = false ->
  In (k, v) (Report.byCategory (computeAnalytics localeCompare sid txs summary)) ->
  v = round2 (sumOf (map amount (filter (inCategory k) txs))).
Proof.
  intros Hn Hm Hin. unfold computeAnalytics in Hin.
  cbn [Report.byCategory] in Hin. rewrite byCategory_fold in Hin.
  cbn [initialState byCategory] in Hin.
  set (o := fold_left addCategory txs []) in *.
  destruct (@byCategory_keys txs [] (NoDup_nil _) (fun H => H)) as [Hd Hk]. fold o in Hd, Hk.
  apply objectMapRound2_In in Hin. destruct Hin as (c & -> & Hin).
  assert (Hp : isProtoKey k = false).
  { assert (In k (map fst o)) by (apply in_map_iff; exists (k, c); auto).
    apply Hk in H. destruct H as [[]|[H _]]. now apply str_eqb_neq. }
  assert (L := @ownProperty_In _ o k c Hd Hin).
  unfold o in L. rewrite (@byCategory_value k Hm Hp txs [] []) in L; [|assumption|reflexivity].
  cbn [app] in L. destruct (filter (inCategory k) txs) as [|t l]; [discriminate|].
  inversion L. reflexivity.
Qed.

(** X6.  When no amount is negative or [NaN], as is the case of the amounts
    the parser stores, the value of [byCategory] under a key that names no
    method of [Object.prototype] is the rounded sum of the amounts of the
    transactions of that category, taken in the order of the list; it is not
    negative either. *)
Theorem byCategory_values_are_rounded_sums :
  forall (sid : jsstring) (txs : list Transaction) (summary : Summary)
         (k : jsstring) (v : number),
    Forall (fun t => notNegative (amount t)) txs ->
    inheritedMethod k = false ->
    In (k, v) (Report.byCategory (computeAnalytics localeCompare sid txs summary)) ->
    v = round2 (sumOf (map amount (filter (inCategory k) txs)))
    /\ notNegative v.
Proof.
  intros sid txs summary k v Hn Hm Hin.
  assert (E := @byCategory_entry sid txs summary k v Hn Hm Hin).
  split; [assumption|]. rewrite E.
  apply round2_notNegative, sumOf_notNegative. now apply notNegative_filter.
Qed.

End CategoryValues.

(** ** [categorize] *)

Lemma searchFrom_Alt_l (r1 r2 : regex) (s : jsstring) :
  forall fuel i x,
    searchFrom r1 s fuel i = Some x ->
    exists y, searchFrom (Alt r1 r2) s fuel i = Some y.
Proof.
  induction fuel as [|fuel IH]; intros i x H; cbn [searchFrom] in *;
    unfold matchAt in *; cbn [run].
  - destruct (run s r1 i [] _) as [[j c]|]; [eexists; reflexivity | discriminate].
  - destruct (run s r1 i [] _) as [[j c]|]; [eexists; reflexivity|].
    destruct (run s r2 i [] _) as [[j c]|]; [eexists; reflexivity|].
    eapply IH; eassumption.
Qed.

(** A text in which [r1] is found is one in which [r1|r2] is found. *)
Lemma test_Alt_l (r1 r2 : regex) (s : jsstring) :
  test r1 s = true -> test (Alt r1 r2) s = true.
Proof.
  unfold test, search. destruct (length s <? 0); [discriminate|].
  destruct (searchFrom r1 s (length s - 0) 0) as [x|] eqn:E; [|discriminate].
  destruct (@searchFrom_Alt_l r1 r2 s _ _ _ E) as [y Hy]. now rewrite Hy.
Qed.

Lemma firstRule_In (rules : list (regex * string)) (desc : jsstring) (c : string) :
  firstRule rules desc = Some c -> exists key, In (key, c) rules /\ test key desc = true.
Proof.
  induction rules as [|[key cat] rules IH]; simpl; [discriminate|].
  destruct (test key desc) eqn:E.
  - intros H. inversion H; subst. exists key. split; [now left | assumption].
  - intros H. destruct (IH H) as (k & Hk & Ht). exists k. split; [now right | assumption].
Qed.

Lemma firstRule_None (rules : list (regex * string)) (desc : jsstring) :
  firstRule rules desc = None -> forall key c, In (key, c) rules -> test key desc = false.
Proof.
  induction rules as [|[key cat] rules IH]; simpl; [contradiction|].
  destruct (test key desc) eqn:E; [discriminate|].
  intros H k c [Hk|Hk]; [inversion Hk; subst; assumption | eapply IH; eassumption].
Qed.

(** The test for [upi] that follows the table in [categorize] never succeeds:
    a rule of the table already looks for it. *)
Lemma categorize_table (desc : jsstring) :
  categorize desc
  = match firstRule categoryMap desc with
    | Some cat => str cat
    | None => str "other"
    end.
Proof.
  unfold categorize. destruct (firstRule categoryMap desc) eqn:F; [reflexivity|].
  destruct (test (wordi "upi") desc) eqn:U; [|reflexivity].
  exfalso.
  assert (T : test (anyWordi ["upi"; "bill"; "electricity"; "gas"; "water"; "mobile";
                              "dth"; "recharge"]%string) desc = false).
  { eapply (@firstRule_None _ _ F). right; right; right; left. reflexivity. }
  assert (T' : test (anyWordi ["upi"; "bill"; "electricity"; "gas"; "water"; "mobile";
                               "dth"; "recharge"]%string) desc = true).
  { unfold anyWordi. cbn [map alts]. apply test_Alt_l. exact U. }
  congruence.
Qed.

Lemma categorize_named (desc : jsstring) : In (categorize desc) (map str categoryNames).
Proof.
  rewrite categorize_table. destruct (firstRule categoryMap desc) as [c|] eqn:F.
  - destruct (@firstRule_In _ _ _ F) as (key & Hk & _).
    assert (Hc : In c (map snd categoryMap)) by (apply in_map_iff; exists (key, c); auto).
    apply in_map.
    cbn in Hc. unfold categoryNames.
    repeat (destruct Hc as [<-|Hc]; [simpl; tauto|]). contradiction.
  - apply in_map. unfold categoryNames. simpl. tauto.
Qed.

Lemma categoryNames_plain :
  Forall (fun c => truthy c = true /\ inheritedMethod c = false /\ isProtoKey c = false)
         (map str categoryNames).
Proof.
  unfold categoryNames. cbn [map]. repeat constructor.
Qed.

(** X7.  [categorize] returns the category of the first rule of
    [categoryMap] whose pattern is found in the description, and ['other'] when
    none is: the test for [upi] that follows the table never succeeds, since a
    rule of the table already looks for it.  The result is one of fourteen
    names, none of them empty or a name of a method of [Object.prototype]. *)
Theorem categorize_follows_the_table :
  forall desc : jsstring,
    categorize desc
    = match firstRule categoryMap desc with
      | Some cat => str cat
      | None => str "other"
      end
    /\ In (categorize desc) (map str categoryNames)
    /\ truthy (categorize desc) = true
    /\ inheritedMethod (categorize desc) = false
    /\ isProtoKey (categorize desc) = false.
Proof.
  intros desc.
  split; [apply categorize_table|]. split; [apply categorize_named|].
  pose proof categoryNames_plain as P. rewrite Forall_forall in P.
  exact (P _ (categorize_named desc)).
Qed.

(** ** From a statement to its analytics *)

Lemma In_firstn (A : Type) (n : nat) (l : list A) (x : A) : In x (firstn n l) -> In x l.
Proof.
  intros H. rewrite <- (firstn_skipn n l). apply in_or_app. now left.
Qed.

Lemma leb_zero_notNegative (x : number) : PrimFloat.leb 0 x = true -> notNegative x.
Proof.
  intros H. split; [|assumption].
  apply FloatFacts.is_nan_spec. intros N.
  rewrite FloatAxioms.leb_spec, N in H. discriminate.
Qed.

(** What the analytics need of a parsed transaction. *)
Lemma parseLine_amount_and_category (fuel : nat) (sid now line : jsstring)
      (tx : Transaction) :
  parseLine fuel sid now line = Some (Extracted tx) ->
  notNegative (amount tx) /\ inheritedMethod (categoryKey tx) = false.
Proof.
  intros H. destruct (parseLine_invariants _ _ _ _ H) as (A & _).
  apply parseLine_extracted in H.
  destruct H as (d & caps & iso & raw & amt & _ & _ & _ & _ & _ & _ & _ & Hc & _).
  split; [now apply leb_zero_notNegative|].
  unfold categoryKey. rewrite Hc.
  pose proof categoryNames_plain as P. rewrite Forall_forall in P.
  destruct (P _ (categorize_named (orStr (describe line d raw) line))) as (T & M & _).
  unfold orStr at 1. rewrite T. exact M.
Qed.

Section UploadPath.

Variable clock : nat -> jsstring.
Variable localeCompare : jsstring -> jsstring -> comparison.

(** X8.  The analytics of a parsed statement show no negative amount and no
    [NaN], whatever the text: the totals, every value of [byCategory], the
    income and the expense of every month and the amounts of [top5Expenses] are
    numbers that are not negative; [top5Expenses] is in non-increasing order;
    and [transactionCount] is the [transactionsExtracted] of the summary, which
    is passed on. *)
Theorem analytics_of_a_statement_are_not_negative :
  forall rawText sid : jsstring,
  exists (txs : list Transaction) (sm : ParsingSummary),
    parseTransactions clock rawText sid = Some (txs, sm)
    /\ let r := computeAnalytics localeCompare sid txs sm in
       notNegative (Report.totalIncome r)
       /\ notNegative (Report.totalExpense r)
       /\ Forall (fun kv => notNegative (snd kv)) (Report.byCategory r)
       /\ Forall (fun e => notNegative (Expense.amount e)) (Report.top5Expenses r)
       /\ StronglySorted notBelow (Report.top5Expenses r)
       /\ Forall (fun tr => notNegative (Trend.income tr) /\ notNegative (Trend.expense tr))
                 (Report.monthlyTrends r)
       /\ Report.transactionCount r = transactionsExtracted sm
       /\ Report.parsingSummary r = sm.
Proof.
  intros rawText sid.
  destruct (@parseTransactions_Forall clock
              (fun tx => notNegative (amount tx) /\ inheritedMethod (categoryKey tx) = false)
              parseLine_amount_and_category rawText sid) as (txs & sm & Hp & Hf).
  exists txs, sm. split; [assumption|].
  assert (Hn : Forall (fun t => notNegative (amount t)) txs)
    by (eapply Forall_impl; [|exact Hf]; intros t [H _]; exact H).
  assert (Hc : Forall (fun t => inheritedMethod (categoryKey t) = false) txs)
    by (eapply Forall_impl; [|exact Hf]; intros t [_ H]; exact H).
  assert (Hx : transactionsExtracted sm = length txs).
  { unfold parseTransactions in Hp.
    destruct (parseLines clock sid 0 (statementLines rawText) _) as [st|]; [|discriminate].
    inversion Hp; subst. reflexivity. }
  intros r.
  destruct (@totals_are_rounded_sums localeCompare ParsingSummary sid txs sm)
    as (TI & TE).
  fold r in TI, TE.
  split; [|split; [|split; [|split; [|split; [|split; [|split]]]]]].
  - rewrite TI. apply round2_notNegative, sumOf_notNegative. now apply notNegative_filter.
  - rewrite TE. apply round2_notNegative, sumOf_notNegative. now apply notNegative_filter.
  - apply Forall_forall. intros [k v] Hin. cbn [snd].
    assert (Hk : inheritedMethod k = false).
    { assert (K : In k (map fst (Report.byCategory r)))
        by (apply in_map_iff; exists (k, v); auto).
      unfold r, computeAnalytics in K. cbn [Report.byCategory] in K.
      rewrite byCategory_fold in K. cbn [initialState byCategory] in K.
      apply (Permutation_in _ (objectMapRound2_keys _)) in K.
      apply (@byCategory_keys txs [] (NoDup_nil _) (fun H => H)) in K.
      destruct K as [[]|(_ & t & Ht & <-)].
      rewrite Forall_forall in Hc. now apply Hc. }
    rewrite (@byCategory_entry localeCompare ParsingSummary sid txs sm k v Hn Hk Hin).
    apply round2_notNegative, sumOf_notNegative. now apply notNegative_filter.
  - unfold r. rewrite top5_selection. apply Forall_forall. intros e He.
    apply in_map_iff in He. destruct He as (e0 & <- & He0).
    cbn [roundExpense Expense.amount]. apply round2_notNegative.
    apply In_firstn in He0.
    apply (Permutation_in _ (sort_perm expenseAfter _)) in He0.
    apply in_map_iff in He0. destruct He0 as (t & <- & Ht). apply filter_In in Ht.
    rewrite Forall_forall in Hn. apply Hn, Ht.
  - unfold r. rewrite top5_selection.
    set (debits := map expenseOf (filter isDebit txs)).
    assert (Hd : Forall (fun e => isNaN (Expense.amount e) = false) debits).
    { apply Forall_forall. intros e He. apply in_map_iff in He.
      destruct He as (t & <- & Ht). apply filter_In in Ht.
      rewrite Forall_forall in Hn. apply Hn, Ht. }
    apply StronglySorted_map with (R := notBelow).
    + rewrite Forall_forall in Hd. intros x y Hx' Hy'.
      apply roundExpense_notBelow; apply Hd;
        apply (Permutation_in _ (sort_perm expenseAfter debits)); eapply In_firstn; eassumption.
    + apply StronglySorted_firstn. now apply sorted_expenses_notBelow.
  - apply Forall_forall. intros tr Htr.
    destruct (@monthlyTrends_sums localeCompare ParsingSummary sid txs sm tr Htr) as [I E].
    rewrite I, E. unfold creditAmounts, otherAmounts.
    split; apply round2_notNegative, sumOf_notNegative, notNegative_filter;
      (apply Forall_forall; intros t Ht; apply filter_In in Ht;
       rewrite Forall_forall in Hn; apply Hn, Ht).
  - rewrite Hx. reflexivity.
  - reflexivity.
Qed.

End UploadPath.

(** ** The parser, line by line *)

(** Only two fields of a transaction depend on the statement id and on the
    clock. *)
Lemma parseLine_stamp (fuel : nat) (sid now line : jsstring) :
  parseLine fuel sid now line
  = match parseLine fuel [] [] line with
    | Some (Extracted tx) =>
        Some (Extracted {| statementId := sid; date := date tx;
                           description := description tx; amount := amount tx;
                           type := type tx; category := category tx;
                           confidence := confidence tx; rawLine := rawLine tx;
                           createdAt := now |})
    | Some Skipped => Some Skipped
    | None => None
    end.
Proof.
  unfold parseLine.
  destruct (matchFirst datePattern line) as [[dateStrRaw caps]|]; [|reflexivity].
  destruct (parseDateStr dateStrRaw) as [dateISO|]; [|reflexivity].
  destruct (amountMatches fuel line 0 []) as [l|]; [|reflexivity].
  destruct (rev l) as [|amtRaw ?]; [reflexivity|].
  destruct (toNumber amtRaw) as [amt|]; [|reflexivity].
  destruct (negb (isFinite amt)); reflexivity.
Qed.

Lemma parseLine_rawLine (fuel : nat) (sid now line : jsstring) (tx : Transaction) :
  parseLine fuel sid now line = Some (Extracted tx) ->
  rawLine tx = line /\ statementId tx = sid /\ createdAt tx = now
  /\ description tx <> [] /\ (exists d, date tx = Some d) /\ (exists c, category tx = Some c).
Proof.
  unfold parseLine. intros H.
  destruct (matchFirst datePattern line) as [[dateStrRaw caps]|]; [|discriminate].
  destruct (parseDateStr dateStrRaw) as [dateISO|]; [|discriminate].
  destruct (amountMatches fuel line 0 []) as [l|]; [|discriminate].
  destruct (rev l) as [|amtRaw ?]; [discriminate|].
  destruct (toNumber amtRaw) as [amt|]; [|discriminate].
  destruct (negb (isFinite amt)); [discriminate|].
  inversion H; subst tx; clear H.
  cbn [rawLine statementId createdAt description date category].
  split; [reflexivity|]. split; [reflexivity|]. split; [reflexivity|].
  split; [|split; eexists; reflexivity].
  unfold orStr. destruct (describe line dateStrRaw amtRaw); cbn [truthy]; discriminate.
Qed.

Lemma extracts_spec (sid now line : jsstring) :
  extracts line = true
  <-> exists tx, parseLine (S (length line)) sid now line = Some (Extracted tx).
Proof.
  unfold extracts. rewrite (parseLine_stamp (S (length line)) sid now line).
  destruct (parseLine (S (length line)) [] [] line) as [[tx|]|]; split;
    try discriminate; try (intros [? H]; discriminate); eauto.
Qed.

Section LineByLine.

Variable clock : nat -> jsstring.

(** The state of the loop after a list of lines. *)
Lemma parseLines_closed (sid : jsstring) :
  forall lines i st,
    length (skippedExamples st) <= 5 ->
    parseLines clock sid i lines st
    = Some {| transactions := transactions st ++ extractedFrom clock sid i lines;
              skipped := skipped st + length (filter (fun l => negb (extracts l)) lines);
              skippedExamples :=
                firstn 5 (skippedExamples st ++ filter (fun l => negb (extracts l)) lines) |}.
Proof.
  induction lines as [|line lines IH]; intros i st Hst; cbn [parseLines extractedFrom filter].
  - rewrite !app_nil_r, Nat.add_0_r. rewrite firstn_all2 by assumption.
    destruct st; reflexivity.
  - destruct (parseLine (S (length line)) sid (clock i) line) as [[tx|]|] eqn:E.
    + assert (X : extracts line = true) by (apply (extracts_spec sid (clock i)); eauto).
      rewrite X. cbn [negb]. rewrite IH by assumption.
      cbn [pushTransaction transactions skipped skippedExamples].
      now rewrite <- app_assoc.
    + assert (X : extracts line = false).
      { destruct (extracts line) eqn:X; [|reflexivity].
        apply (extracts_spec sid (clock i)) in X. destruct X as [tx X]. congruence. }
      rewrite X. cbn [negb length].
      rewrite IH.
      * cbn [skipLine transactions skipped skippedExamples]. f_equal. f_equal; [lia|].
        destruct (length (skippedExamples st) <? 5) eqn:L.
        -- now rewrite <- app_assoc.
        -- apply Nat.ltb_ge in L.
           rewrite !firstn_app.
           replace (5 - length (skippedExamples st)) with 0 by lia. reflexivity.
      * cbn [skipLine skippedExamples].
        destruct (length (skippedExamples st) <? 5) eqn:L; [|assumption].
        apply Nat.ltb_lt in L. rewrite length_app. simpl. lia.
    + destruct (parseLine_terminates sid (clock i) line) as [r Hr]. congruence.
Qed.

Lemma extractedFrom_rawLine (sid : jsstring) :
  forall lines i,
    map rawLine (extractedFrom clock sid i lines) = filter extracts lines
    /\ Forall (fun tx => statementId tx = sid /\ description tx <> []
                         /\ date tx <> None /\ category tx <> None
                         /\ In (rawLine tx) lines)
              (extractedFrom clock sid i lines).
Proof.
  induction lines as [|line lines IH]; intros i; cbn [extractedFrom filter map].
  - split; constructor.
  - destruct (IH (S i)) as [I1 I2].
    assert (I3 : Forall (fun tx => statementId tx = sid /\ description tx <> []
                                   /\ date tx <> None /\ category tx <> None
                                   /\ In (rawLine tx) (line :: lines))
                        (extractedFrom clock sid (S i) lines)).
    { eapply Forall_impl; [|exact I2]. intros tx (A & B & C & D & E).
      repeat split; try assumption. now right. }
    destruct (parseLine (S (length line)) sid (clock i) line) as [[tx|]|] eqn:E.
    + assert (X : extracts line = true) by (apply (extracts_spec sid (clock i)); eauto).
      rewrite X. apply parseLine_rawLine in E.
      destruct E as (R & S' & _ & D & (d & Hd) & (c & Hc)).
      split.
      * cbn [map]. now rewrite R, I1.
      * constructor; [|assumption].
        repeat split; try assumption; try congruence. left. now symmetry.
    + assert (X : extracts line = false).
      { destruct (extracts line) eqn:X; [|reflexivity].
        apply (extracts_spec sid (clock i)) in X. destruct X as [tx X]. congruence. }
      rewrite X. split; assumption.
    + destruct (parseLine_terminates sid (clock i) line) as [r Hr]. congruence.
Qed.

Lemma parseTransactions_closed (rawText sid : jsstring) :
  parseTransactions clock rawText sid
  = Some (extractedFrom clock sid 0 (statementLines rawText),
          {| linesScanned := length (statementLines rawText);
             transactionsExtracted :=
               length (extractedFrom clock sid 0 (statementLines rawText));
             skippedLines :=
               length (filter (fun l => negb (extracts l)) (statementLines rawText));
             examplesOfSkipped :=
               firstn 5 (filter (fun l => negb (extracts l)) (statementLines rawText)) |}).
Proof.
  unfold parseTransactions. rewrite parseLines_closed by (simpl; lia). reflexivity.
Qed.

(** X9.  The transactions come in the order of the lines they were read
    from: their [rawLine] fields are, in order, the lines from which a
    transaction can be extracted, each one a non-empty trimmed line of the
    text; every transaction carries the statement id, a date, a category and a
    description that is not empty; and [examplesOfSkipped] holds the first five
    of the other lines, or all of them when they are fewer. *)
Theorem transactions_follow_the_lines :
  forall rawText sid : jsstring,
  exists (txs : list Transaction) (sm : ParsingSummary),
    parseTransactions clock rawText sid = Some (txs, sm)
    /\ map rawLine txs = filter extracts (statementLines rawText)
    /\ Forall (fun tx => statementId tx = sid /\ description tx <> []
                         /\ date tx <> None /\ category tx <> None
                         /\ rawLine tx <> []
                         /\ exists l, In l (splitLines rawText) /\ rawLine tx = trim l) txs
    /\ examplesOfSkipped sm
       = firstn 5 (filter (fun l => negb (extracts l)) (statementLines rawText))
    /\ skippedLines sm
       = length (filter (fun l => negb (extracts l)) (statementLines rawText)).
Proof.
  intros rawText sid. rewrite parseTransactions_closed.
  eexists. eexists. split; [reflexivity|].
  destruct (extractedFrom_rawLine sid (statementLines rawText) 0) as [R F].
  split; [assumption|]. split; [|split; reflexivity].
  eapply Forall_impl; [|exact F]. intros tx (A & B & C & D & E).
  repeat split; try assumption.
  - unfold statementLines in E. apply filter_In in E. destruct E as [_ E].
    destruct (rawLine tx); [discriminate | discriminate].
  - unfold statementLines in E. apply filter_In in E. destruct E as [E _].
    apply in_map_iff in E. destruct E as (l & E & Hl). exists l. split; [assumption|].
    now symmetry.
Qed.

Lemma splitLines_nonempty (s : jsstring) : splitLines s <> [].
Proof.
  destruct s as [|c s]; cbn [splitLines]; [discriminate|].
  destruct (N.eqb c 10); [discriminate|]. destruct (splitLines s); discriminate.
Qed.

(** Splitting at line feeds distributes over a line feed. *)
Lemma splitLines_app (a b : jsstring) :
  splitLines (a ++ 10%N :: b) = splitLines a ++ splitLines b.
Proof.
  induction a as [|c a IH]; cbn [app splitLines].
  - reflexivity.
  - rewrite IH. destruct (N.eqb c 10); [reflexivity|].
    destruct (splitLines a) as [|l ls] eqn:E; [now apply splitLines_nonempty in E|].
    reflexivity.
Qed.

Lemma statementLines_app (a b : jsstring) :
  statementLines (a ++ 10%N :: b) = statementLines a ++ statementLines b.
Proof.
  unfold statementLines. now rewrite splitLines_app, map_app, filter_app.
Qed.

Lemma extractedFrom_app (sid : jsstring) (l2 : list jsstring) :
  forall l1 i,
    extractedFrom clock sid i (l1 ++ l2)
    = extractedFrom clock sid i l1 ++ extractedFrom clock sid (length l1 + i) l2.
Proof.
  induction l1 as [|line l1 IH]; intros i; cbn [app extractedFrom length].
  - reflexivity.
  - rewrite IH. replace (length l1 + S i) with (S (length l1 + i)) by lia.
    destruct (parseLine _ sid (clock i) line) as [[tx|]|]; reflexivity.
Qed.

Lemma extractedFrom_shift (sid : jsstring) (k : nat) :
  forall lines i,
    extractedFrom clock sid (k + i) lines
    = extractedFrom (fun j => clock (k + j)) sid i lines.
Proof.
  induction lines as [|line lines IH]; intros i; cbn [extractedFrom]; [reflexivity|].
  replace (S (k + i)) with (k + S i) by lia. rewrite IH. reflexivity.
Qed.

End LineByLine.

(** X10.  Lines are parsed independently of each other: the transactions of
    two texts joined by a line feed are the transactions of the first followed
    by those of the second (read by a clock that starts where the first text
    ends), the counts of the summary add up, and the examples of skipped lines
    are the first five of both lists of examples. *)
Theorem parsing_is_line_by_line :
  forall (clock : nat -> jsstring) (a b sid : jsstring),
  exists ta sa tb sb sab,
    parseTransactions clock a sid = Some (ta, sa)
    /\ parseTransactions (fun j => clock (linesScanned sa + j)) b sid = Some (tb, sb)
    /\ parseTransactions clock (a ++ 10%N :: b) sid = Some (ta ++ tb, sab)
    /\ linesScanned sab = linesScanned sa + linesScanned sb
    /\ transactionsExtracted sab = transactionsExtracted sa + transactionsExtracted sb
    /\ skippedLines sab = skippedLines sa + skippedLines sb
    /\ examplesOfSkipped sab
       = firstn 5 (examplesOfSkipped sa ++ examplesOfSkipped sb).
Proof.
  intros clock a b sid.
  eexists. eexists. eexists. eexists. eexists.
  split; [apply parseTransactions_closed|].
  cbn [linesScanned].
  split; [apply parseTransactions_closed|].
  rewrite parseTransactions_closed.
  cbn [linesScanned transactionsExtracted skippedLines examplesOfSkipped].
  rewrite statementLines_app, extractedFrom_app, filter_app.
  rewrite <- (extractedFrom_shift clock sid (length (statementLines a)) (statementLines b) 0).
  rewrite Nat.add_0_r.
  split; [reflexivity|]. rewrite !length_app. repeat split.
  set (x := filter (fun l => negb (extracts l)) (statementLines a)).
  set (y := filter (fun l => negb (extracts l)) (statementLines b)).
  rewrite !firstn_app, firstn_firstn, length_firstn.
  cbn [examplesOfSkipped]. rewrite firstn_firstn.
  f_equal; f_equal; lia.
Qed.

(** ** Strings a pattern cannot tell apart *)

Lemma alike_nth (p : char -> bool) (s s' : jsstring) (i : nat) :
  map p s = map p s' ->
  match nth_error s i, nth_error s' i with
  | Some x, Some y => p x = p y
  | None, None => True
  | _, _ => False
  end.
Proof.
  intros H. assert (E : nth_error (map p s) i = nth_error (map p s') i) by now rewrite H.
  rewrite !nth_error_map in E.
  destruct (nth_error s i), (nth_error s' i); simpl in E; congruence || exact I.
Qed.

Lemma iterStar_alike (R : Type)
      (body body' : nat -> captures -> (nat -> captures -> option R) -> option R) :
  (forall i c k k', (forall j c', k j c' = k' j c') -> body i c k = body' i c k') ->
  forall fuel k k' i c,
    (forall j c', k j c' = k' j c') ->
    iterStar body k fuel i c = iterStar body' k' fuel i c.
Proof.
  intros Hb. induction fuel as [|fuel IH]; intros k k' i c Hk; cbn [iterStar]; [apply Hk|].
  rewrite (Hb i c _ (fun j c' => if j <=? i then None else iterStar body' k' fuel j c')).
  - rewrite Hk. reflexivity.
  - intros j c'. destruct (j <=? i); [reflexivity|]. now apply IH.
Qed.

(** The matcher runs alike on strings the pattern cannot tell apart. *)
Lemma run_alike (R : Type) (s s' : jsstring) (r : regex) :
  alike r s s' ->
  forall i c (k k' : nat -> captures -> option R),
    (forall j c', k j c' = k' j c') -> run s r i c k = run s' r i c k'.
Proof.
  induction r as [ | p | r1 IH1 r2 IH2 | r1 IH1 r2 IH2 | r1 IH1 | n r1 IH1 | | | ];
    intros [Hl Hp] i c k k' Hk; cbn [run].
  - apply Hk.
  - assert (A := @alike_nth p s s' i (Hp p (or_introl eq_refl))).
    destruct (nth_error s i), (nth_error s' i); try contradiction; [|reflexivity].
    rewrite A. destruct (p c1); [apply Hk | reflexivity].
  - apply IH1.
    + split; [assumption|]. intros p Hin. apply Hp. cbn. apply in_or_app. now left.
    + intros j c'. apply IH2; [|assumption].
      split; [assumption|]. intros p Hin. apply Hp. cbn. apply in_or_app. now right.
  - rewrite (IH1 (conj Hl (fun p Hin => Hp p (in_or_app _ _ _ (or_introl Hin)))) i c k k' Hk).
    rewrite (IH2 (conj Hl (fun p Hin => Hp p (in_or_app _ _ _ (or_intror Hin)))) i c k k' Hk).
    reflexivity.
  - rewrite Hl. apply iterStar_alike; [|assumption].
    intros i0 c0 k0 k0' Hk0. apply IH1; [|assumption]. split; assumption.
  - apply IH1; [split; assumption|]. intros j c'. apply Hk.
  - destruct (i =? 0); [apply Hk | reflexivity].
  - rewrite Hl. destruct (i =? length s'); [apply Hk | reflexivity].
  - assert (W : forall j, wordAt s j = wordAt s' j).
    { intros j. unfold wordAt.
      assert (A := @alike_nth isWordChar s s' j (Hp _ (or_introl eq_refl))).
      destruct (nth_error s j), (nth_error s' j); try contradiction; [assumption|reflexivity]. }
    unfold wordBefore. destruct i as [|i]; rewrite ?W; destruct (xorb _ _);
      try reflexivity; apply Hk.
Qed.

Lemma search_alike (r : regex) (s s' : jsstring) (from : nat) :
  alike r s s' -> search r s from = search r s' from.
Proof.
  intros H. unfold search. destruct H as [Hl Hp]. rewrite Hl.
  destruct (length s' <? from); [reflexivity|].
  generalize (length s' - from). intros fuel. revert from.
  induction fuel as [|fuel IH]; intros from; cbn [searchFrom]; unfold matchAt;
    rewrite (@run_alike _ s s' r (conj Hl Hp) from [] _ (fun j c => Some (j, c)))
      by reflexivity.
  - reflexivity.
  - destruct (run s' r from [] _) as [[j c]|]; [reflexivity | apply IH].
Qed.

(** ** Dates in the three forms [parseDateStr] reads *)

Lemma digit_cases (x : char) : isDigit x = true -> In x decimalDigits.
Proof.
  unfold isDigit. intros H. apply andb_prop in H. destruct H as [H1 H2].
  apply N.leb_le in H1, H2. unfold decimalDigits.
  assert (C : (x = 48 \/ x = 49 \/ x = 50 \/ x = 51 \/ x = 52 \/ x = 53 \/ x = 54
               \/ x = 55 \/ x = 56 \/ x = 57)%N) by lia.
  simpl. intuition.
Qed.

Lemma year_digits (y : N) :
  (1000 <= y <= 9999)%N ->
  exists a b c d,
    numToString y = [a; b; c; d]
    /\ isDigit a = true /\ isDigit b = true /\ isDigit c = true /\ isDigit d = true
    /\ digitsToN [a; b; c; d] = y.
Proof.
  intros H.
  assert (A : forallb (fun k => fourDigitYear (N.of_nat k)) (seq 1000 (3000 + 3000 + 3000)) = true)
    by (vm_compute; reflexivity).
  rewrite forallb_forall in A. specialize (A (N.to_nat y)). rewrite N2Nat.id in A.
  assert (Hy : fourDigitYear y = true) by (apply A, in_seq; lia).
  unfold fourDigitYear in Hy.
  destruct (numToString y) as [|a [|b [|c [|d [|? ?]]]]]; try discriminate.
  apply andb_prop in Hy. destruct Hy as [D E]. apply N.eqb_eq in E.
  cbn [forallb] in D. rewrite !andb_true_iff in D.
  destruct D as (Da & Db & Dc & Dd & _). exists a, b, c, d. repeat split; assumption.
Qed.

Lemma pad2_digits (n : N) :
  (n < 100)%N ->
  exists a b,
    pad2 n = [a; b] /\ isDigit a = true /\ isDigit b = true /\ digitsToN [a; b] = n.
Proof.
  intros H.
  assert (A : forallb (fun k => twoDigitNumber (N.of_nat k)) (seq 0 100) = true)
    by (vm_compute; reflexivity).
  rewrite forallb_forall in A. specialize (A (N.to_nat n)). rewrite N2Nat.id in A.
  assert (Hn : twoDigitNumber n = true) by (apply A, in_seq; lia).
  unfold twoDigitNumber in Hn. rewrite (@pad2_twoDigits n H). unfold twoDigits in *.
  apply andb_prop in Hn. destruct Hn as [D E]. apply N.eqb_eq in E.
  cbn [forallb] in D. rewrite !andb_true_iff in D. destruct D as (Da & Db & _).
  eexists. eexists. repeat split; eassumption.
Qed.

(** The patterns of [parseDateStr] cannot tell one digit from another. *)
Lemma digits_alike (r : regex) (x : char) :
  Forall (fun p => Forall (fun d => p d = p 48%N) decimalDigits) (charTests r) ->
  isDigit x = true ->
  forall p, In p (charTests r) -> p x = p 48%N.
Proof.
  intros H Hx p Hp. rewrite Forall_forall in H. specialize (H p Hp).
  rewrite Forall_forall in H. apply H. now apply digit_cases.
Qed.

Lemma alike_pointwise (r : regex) (s s' : jsstring) :
  Forall2 (fun x y => forall p, In p (charTests r) -> p x = p y) s s' -> alike r s s'.
Proof.
  intros H. split.
  - eapply Forall2_length; eassumption.
  - intros p Hp. induction H as [|x y s s' Hxy _ IH]; cbn [map]; [reflexivity|].
    now rewrite (Hxy p Hp), IH.
Qed.

Lemma digit_not_space (x : char) : isDigit x = true -> isSpace x = false.
Proof.
  intros H. apply digit_cases in H. unfold decimalDigits in H. simpl in H.
  repeat (destruct H as [<-|H]; [reflexivity|]). contradiction.
Qed.

Lemma inRange_intro (lo hi n : N) : (lo <= n <= hi)%N -> inRange lo hi n = true.
Proof.
  intros [H1 H2]. unfold inRange. apply andb_true_intro.
  split; apply N.leb_le; assumption.
Qed.

Lemma trim_between_digits (x z : char) (mid : jsstring) :
  isDigit x = true -> isDigit z = true -> trim (x :: mid ++ [z]) = x :: mid ++ [z].
Proof.
  intros Hx Hz. unfold trim. cbn [dropSpaces]. rewrite (@digit_not_space x Hx).
  change (x :: mid ++ [z]) with ((x :: mid) ++ [z]).
  rewrite rev_app_distr. cbn [rev app dropSpaces]. rewrite (@digit_not_space z Hz).
  change (z :: rev mid ++ [x]) with ([z] ++ rev (x :: mid)).
  rewrite rev_app_distr, rev_involutive. reflexivity.
Qed.

(** X11.  [parseDateStr] keeps a canonical date as it is: for a year from
    1000 to 9999, a month from 1 to 12 and a day from 1 to 31, the text
    [YYYY-MM-DD] is read as itself. *)
Theorem canonical_date_is_read_as_itself :
  forall y mo d : N,
    (1000 <= y <= 9999)%N -> (1 <= mo <= 12)%N -> (1 <= d <= 31)%N ->
    parseDateStr (canonicalDate y mo d) = Some (canonicalDate y mo d).
Proof.
  intros y mo d Hy Hmo Hd.
  destruct (@year_digits y Hy) as (a & b & c & e & Ey & Da & Db & Dc & De & Vy).
  destruct (@pad2_digits mo ltac:(lia)) as (m1 & m2 & Em & Dm1 & Dm2 & Vm).
  destruct (@pad2_digits d ltac:(lia)) as (d1 & d2 & Ed & Dd1 & Dd2 & Vd).
  unfold canonicalDate, isoDate. rewrite Ey, Em, Ed.
  change (str "-") with [45%N]. cbn [app].
  match goal with |- parseDateStr ?l = _ => set (s := l) end.
  assert (T : trim s = s)
    by (apply (@trim_between_digits a d2 [b; c; e; 45%N; m1; m2; 45%N; d1]); assumption).
  assert (A : alike reYearFirst s (str "0000-00-00")).
  { assert (K : Forall (fun p => Forall (fun x => p x = p 48%N) decimalDigits)
                       (charTests reYearFirst)) by (vm_compute; repeat constructor).
    apply alike_pointwise. unfold s.
    repeat (constructor; [first [ now apply (@digits_alike reYearFirst _ K) | reflexivity ] |]).
    constructor. }
  unfold parseDateStr. change (truthy s) with true. cbn [negb].
  rewrite T.
  assert (Y : dateYearFirst s = Some s).
  { unfold dateYearFirst, matchFirst. rewrite (@search_alike _ _ _ 0 A).
    replace (search reYearFirst (str "0000-00-00") 0)
      with (Some (0, 10, [(3, (8, 10)); (2, (5, 7)); (1, (0, 4))]))
      by (vm_compute; reflexivity).
    unfold s. cbn [capture Nat.eqb slice firstn skipn Nat.sub].
    rewrite Vy, Vm, Vd, (@inRange_intro 1 12 mo Hmo), (@inRange_intro 1 31 d Hd). cbn [andb].
    unfold isoDate. rewrite Ey, Em, Ed. reflexivity. }
  rewrite Y. reflexivity.
Qed.

(* ------------------------------------------------------------------------- *)
(** ** The scan of [replace] *)

Lemma searchFrom_spec (r : regex) (s : jsstring) :
  forall fuel i,
    match searchFrom r s fuel i with
    | Some (a, b, c) =>
        i <= a <= i + fuel /\ matchAt r s a = Some (b, c)
        /\ forall j, i <= j < a -> matchAt r s j = None
    | None => forall j, i <= j <= i + fuel -> matchAt r s j = None
    end.
Proof.
  induction fuel as [|fuel IH]; intros i; simpl.
  - destruct (matchAt r s i) as [[b c]|] eqn:E.
    + split; [lia|]. split; [assumption|]. intros j Hj. lia.
    + intros j Hj. replace j with i by lia. assumption.
  - destruct (matchAt r s i) as [[b c]|] eqn:E.
    + split; [lia|]. split; [assumption|]. intros j Hj. lia.
    + specialize (IH (S i)). destruct (searchFrom r s fuel (S i)) as [[[a b] c]|].
      * destruct IH as (Ha & Hm & Hn). split; [lia|]. split; [assumption|].
        intros j Hj. destruct (Nat.eq_dec j i) as [->|N]; [assumption|]. apply Hn. lia.
      * intros j Hj. destruct (Nat.eq_dec j i) as [->|N]; [assumption|]. apply IH. lia.
Qed.

Lemma search_found (r : regex) (s : jsstring) (i a b : nat) (c : captures) :
  search r s i = Some (a, b, c) ->
  i <= a <= length s /\ matchAt r s a = Some (b, c)
  /\ forall j, i <= j < a -> matchAt r s j = None.
Proof.
  unfold search. destruct (length s <? i) eqn:L; [discriminate|].
  apply Nat.ltb_ge in L. intros H.
  pose proof (searchFrom_spec r s (length s - i) i) as S. rewrite H in S.
  destruct S as (Ha & Hm & Hn). split; [lia|]. split; assumption.
Qed.

Lemma search_nowhere (r : regex) (s : jsstring) (i : nat) :
  search r s i = None -> forall j, i <= j <= length s -> matchAt r s j = None.
Proof.
  unfold search. destruct (length s <? i) eqn:L.
  - apply Nat.ltb_lt in L. intros _ j Hj. lia.
  - apply Nat.ltb_ge in L. intros H j Hj.
    pose proof (searchFrom_spec r s (length s - i) i) as S. rewrite H in S.
    apply S. lia.
Qed.

Lemma search_absent (r : regex) (s : jsstring) (i : nat) :
  (forall j, j <= length s -> matchAt r s j = None) -> search r s i = None.
Proof.
  intros H. destruct (search r s i) as [[[a b] c]|] eqn:E; [|reflexivity].
  destruct (search_found _ _ _ E) as (Ha & Hm & _).
  rewrite H in Hm by lia. discriminate.
Qed.

Lemma replaceFrom_With (r : regex) (rep s : jsstring) :
  forall fuel i, replaceFrom r rep s fuel i = replaceFromWith r (fun _ => rep) s fuel i.
Proof.
  induction fuel as [|fuel IH]; intros i; simpl; [reflexivity|].
  destruct (search r s i) as [[[a b] c]|]; [|reflexivity].
  rewrite !IH. reflexivity.
Qed.

(** The scan, when every match is not empty: it rewrites the text from [i]
    on as any function does that copies up to the next match, writes the
    replacement and goes on after the match. *)
Lemma replaceFromWith_scan (r : regex) (f : jsstring -> jsstring) (s : jsstring)
      (F : jsstring -> jsstring) :
  (forall i, i <= length s -> search r s i = None -> F (skipn i s) = skipn i s) ->
  (forall i a b c, i <= length s -> search r s i = Some (a, b, c) ->
     a < b /\ F (skipn i s) = slice s i a ++ f (slice s a b) ++ F (skipn b s)) ->
  forall fuel i, i <= length s -> length s - i < fuel ->
    replaceFromWith r f s fuel i = F (skipn i s).
Proof.
  intros Hnone Hsome. induction fuel as [|fuel IH]; intros i Hi Hf; [lia|].
  simpl. destruct (search r s i) as [[[a b] c]|] eqn:E.
  - destruct (Hsome _ _ _ _ Hi E) as (Hab & HF).
    destruct (RegexFacts.search_bounds _ _ _ E) as (Hia & Hb).
    replace (b <=? a) with false by (symmetry; apply Nat.leb_gt; assumption).
    rewrite IH by lia. symmetry. exact HF.
  - symmetry. now apply Hnone.
Qed.

Lemma skipn_head (A : Type) (s : list A) (j : nat) (x : A) :
  nth_error s j = Some x -> skipn j s = x :: skipn (S j) s.
Proof.
  revert j. induction s as [|y s IH]; intros [|j] H; simpl in H; try discriminate.
  - inversion H. reflexivity.
  - apply IH in H. exact H.
Qed.

Lemma skipn_past (A : Type) (s : list A) (j : nat) :
  nth_error s j = None -> skipn j s = [].
Proof.
  intros H. apply nth_error_None in H. now apply skipn_all2.
Qed.

Lemma skipn_slice (A : Type) (s : list A) (i a : nat) :
  i <= a -> skipn i s = firstn (a - i) (skipn i s) ++ skipn a s.
Proof.
  intros H. rewrite <- (firstn_skipn (a - i) (skipn i s)) at 1.
  rewrite skipn_skipn. replace (a - i + i) with a by lia. reflexivity.
Qed.

(** A function that copies a code unit wherever [Q] fails copies a whole
    stretch in which [Q] fails at every index. *)
Lemma keep_prefix (G : jsstring -> jsstring) (Q : jsstring -> bool) :
  (forall c t, Q (c :: t) = false -> G (c :: t) = c :: G t) ->
  forall u w, (forall k, k < length u -> Q (skipn k (u ++ w)) = false) ->
              G (u ++ w) = u ++ G w.
Proof.
  intros Hkeep. induction u as [|c u IH]; intros w H; [reflexivity|].
  simpl. rewrite Hkeep by (apply (H 0); simpl; lia).
  f_equal. apply IH. intros k Hk. apply (H (S k)). simpl. lia.
Qed.

(** The scan of a pattern that matches at [j] whenever [Q] holds of the text
    from [j] on, and then takes [E] code units of it. *)
Lemma replaceAllWith_by_suffix (r : regex) (f : jsstring -> jsstring) (s : jsstring)
      (G : jsstring -> jsstring) (Q : jsstring -> bool) (E : jsstring -> nat) :
  (forall c t, Q (c :: t) = false -> G (c :: t) = c :: G t) ->
  G [] = [] ->
  (forall j, j <= length s ->
     matchAt r s j = if Q (skipn j s) then Some (j + E (skipn j s), []) else None) ->
  (forall t, Q t = true ->
     0 < E t /\ G t = f (firstn (E t) t) ++ G (skipn (E t) t)) ->
  replaceAllWith r f s = G s.
Proof.
  intros Hkeep Hnil Hmatch Hhit. unfold replaceAllWith.
  rewrite (@replaceFromWith_scan r f s G); [reflexivity| | |lia|lia].
  - intros i Hi Hs.
    rewrite <- (app_nil_r (skipn i s)) at 1.
    rewrite (@keep_prefix G Q Hkeep); [now rewrite Hnil, app_nil_r|].
    intros k Hk. rewrite app_nil_r, skipn_skipn.
    rewrite length_skipn in Hk.
    pose proof (@search_nowhere _ _ _ Hs (k + i) ltac:(lia)) as M.
    rewrite Hmatch in M by lia.
    destruct (Q (skipn (k + i) s)); [discriminate | reflexivity].
  - intros i a b c Hi Hs.
    destruct (search_found _ _ _ Hs) as (Ha & Hm & Hn).
    rewrite Hmatch in Hm by lia.
    destruct (Q (skipn a s)) eqn:HQ; [|discriminate].
    inversion Hm; subst b c. clear Hm.
    destruct (Hhit _ HQ) as (HE & HG).
    split; [lia|].
    rewrite (@skipn_slice _ s i a) at 1 by lia.
    rewrite (@keep_prefix G Q Hkeep).
    + unfold slice. f_equal. rewrite HG.
      replace (a + E (skipn a s) - a) with (E (skipn a s)) by lia.
      rewrite skipn_skipn. replace (E (skipn a s) + a) with (a + E (skipn a s)) by lia.
      reflexivity.
    + intros k Hk. rewrite <- (@skipn_slice _ s i a) by lia. rewrite skipn_skipn.
      rewrite length_firstn, length_skipn in Hk.
      pose proof (Hn (k + i) ltac:(lia)) as M.
      rewrite Hmatch in M by lia.
      destruct (Q (skipn (k + i) s)); [discriminate | reflexivity].
Qed.

Lemma replaceAll_by_suffix (r : regex) (rep s : jsstring)
      (G : jsstring -> jsstring) (Q : jsstring -> bool) (E : jsstring -> nat) :
  (forall c t, Q (c :: t) = false -> G (c :: t) = c :: G t) ->
  G [] = [] ->
  (forall j, j <= length s ->
     matchAt r s j = if Q (skipn j s) then Some (j + E (skipn j s), []) else None) ->
  (forall t, Q t = true -> 0 < E t /\ G t = rep ++ G (skipn (E t) t)) ->
  replaceAll r s rep = G s.
Proof.
  intros Hkeep Hnil Hmatch Hhit. unfold replaceAll. rewrite replaceFrom_With.
  apply (@replaceAllWith_by_suffix r (fun _ => rep) s G Q E); assumption.
Qed.

(** *** The patterns of [normalizeText] and [escapeHtml] *)

Lemma matchAt_Char (p : char -> bool) (s : jsstring) (j : nat) :
  matchAt (Char p) s j = if headIs p (skipn j s) then Some (j + 1, []) else None.
Proof.
  unfold matchAt. simpl. destruct (nth_error s j) as [x|] eqn:E.
  - rewrite (skipn_head _ _ E). simpl. replace (j + 1) with (S j) by lia. reflexivity.
  - rewrite (skipn_past _ _ E). reflexivity.
Qed.

Lemma replaceAll_lit (c : char) (s rep : jsstring) :
  replaceAll (lit c) s rep = replaceChar c rep s.
Proof.
  apply (@replaceAll_by_suffix (lit c) rep s (replaceChar c rep)
           (headIs (fun x => N.eqb x c)) (fun _ => 1)).
  - intros x t H. simpl in H. unfold replaceChar. simpl. rewrite H. reflexivity.
  - reflexivity.
  - intros j _. apply matchAt_Char.
  - intros [|x t] H; [discriminate|]. simpl in H. split; [lia|].
    unfold replaceChar. simpl. rewrite H. reflexivity.
Qed.

Lemma escapeHtml_chars (s : jsstring) : escapeHtml s = flat_map escapeChar s.
Proof.
  apply (@replaceAllWith_by_suffix (Char isMarkup) entityOf s (flat_map escapeChar)
           (headIs isMarkup) (fun _ => 1)).
  - intros x t H. simpl in H. simpl. unfold escapeChar at 1. rewrite H. reflexivity.
  - reflexivity.
  - intros j _. apply matchAt_Char.
  - intros [|x t] H; [discriminate|]. simpl in H. split; [lia|].
    simpl. unfold escapeChar at 1. rewrite H. reflexivity.
Qed.

Lemma matchAt_reCrLf (s : jsstring) (j : nat) :
  matchAt reCrLf s j = if startsCrLf (skipn j s) then Some (j + 2, []) else None.
Proof.
  unfold matchAt, reCrLf, lit. cbn [run]. destruct (nth_error s j) as [x|] eqn:E.
  - rewrite (skipn_head _ _ E). destruct (nth_error s (S j)) as [y|] eqn:E'.
    + rewrite (skipn_head _ _ E'). cbn [startsCrLf].
      destruct (N.eqb x 13); [|reflexivity]. cbn [andb].
      destruct (N.eqb y 10); [|reflexivity].
      replace (j + 2) with (S (S j)) by lia. reflexivity.
    + rewrite (skipn_past _ _ E'). cbn [startsCrLf]. destruct (N.eqb x 13); reflexivity.
  - rewrite (skipn_past _ _ E). reflexivity.
Qed.

Lemma replaceAll_reCrLf (s : jsstring) : replaceAll reCrLf s [10%N] = dropCr s.
Proof.
  apply (@replaceAll_by_suffix reCrLf [10%N] s dropCr startsCrLf (fun _ => 2)).
  - intros x t H. simpl. simpl in H. rewrite H. reflexivity.
  - reflexivity.
  - intros j _. apply matchAt_reCrLf.
  - intros [|x [|y t]] H; try discriminate. split; [lia|].
    simpl in H. apply andb_prop in H. destruct H as (Hx & Hy).
    apply N.eqb_eq in Hx, Hy. subst x y.
    change (dropCr (13%N :: 10%N :: t)) with (dropCr (10%N :: t)).
    simpl dropCr at 1. destruct t as [|z t]; reflexivity.
Qed.

(** The greedy iteration of a test on one code unit, when the rest of the
    pattern accepts any end: it takes the whole run. *)
Lemma iterStar_span (s : jsstring) (p : char -> bool) :
  forall fuel i c, length s - i <= fuel ->
    iterStar (run s (Char p)) (fun j c' => Some (j, c')) fuel i c
    = Some (i + spanLength p (skipn i s), c).
Proof.
  induction fuel as [|fuel IH]; intros i c Hf; cbn [iterStar run].
  - rewrite skipn_all2 by lia. cbn [spanLength]. now rewrite Nat.add_0_r.
  - destruct (nth_error s i) as [x|] eqn:E.
    + rewrite (skipn_head _ _ E). cbn [spanLength]. destruct (p x).
      * replace (S i <=? i) with false by (symmetry; apply Nat.leb_gt; lia).
        assert (i < length s) by (apply nth_error_Some; congruence).
        rewrite IH by lia. rewrite <- plus_n_Sm. reflexivity.
      * now rewrite Nat.add_0_r.
    + rewrite (skipn_past _ _ E). cbn [spanLength]. now rewrite Nat.add_0_r.
Qed.

(** The same iteration before [$]: it succeeds when the run goes to the end
    of the text. *)
Lemma iterStar_to_end (s : jsstring) (p : char -> bool) :
  forall fuel i c, i <= length s -> length s - i <= fuel ->
    iterStar (run s (Char p))
             (fun j c' => if j =? length s then Some (j, c') else None) fuel i c
    = if forallb p (skipn i s) then Some (length s, c) else None.
Proof.
  induction fuel as [|fuel IH]; intros i c Hi Hf; cbn [iterStar run].
  - rewrite skipn_all2 by lia. cbn [forallb].
    replace (i =? length s) with true by (symmetry; apply Nat.eqb_eq; lia).
    replace i with (length s) by lia. reflexivity.
  - destruct (nth_error s i) as [x|] eqn:E.
    + assert (i < length s) by (apply nth_error_Some; congruence).
      rewrite (skipn_head _ _ E). cbn [forallb]. destruct (p x); cbn [andb].
      * replace (S i <=? i) with false by (symmetry; apply Nat.leb_gt; lia).
        rewrite IH by lia.
        destruct (forallb p (skipn (S i) s)); [reflexivity|].
        replace (i =? length s) with false by (symmetry; apply Nat.eqb_neq; lia).
        reflexivity.
      * replace (i =? length s) with false by (symmetry; apply Nat.eqb_neq; lia).
        reflexivity.
    + assert (length s <= i) by (apply nth_error_None; assumption).
      rewrite (skipn_past _ _ E). cbn [forallb].
      replace (i =? length s) with true by (symmetry; apply Nat.eqb_eq; lia).
      replace i with (length s) by lia. reflexivity.
Qed.

Lemma matchAt_reSpaces3 (s : jsstring) (j : nat) :
  matchAt reSpaces3 s j
  = if startsSpaces3 (skipn j s)
    then Some (j + spanLength isBlank (skipn j s), [])
    else None.
Proof.
  unfold matchAt, reSpaces3, atLeast, lit. cbn [times run].
  destruct (nth_error s j) as [x|] eqn:E;
    [rewrite (skipn_head _ _ E) | rewrite (skipn_past _ _ E); reflexivity].
  cbn [startsSpaces3 spanLength]. unfold isBlank at 1.
  destruct (N.eqb x 32); [cbn [andb] | reflexivity].
  destruct (nth_error s (S j)) as [y|] eqn:E';
    [rewrite (skipn_head _ _ E') | rewrite (skipn_past _ _ E'); reflexivity].
  destruct (nth_error s (S (S j))) as [z|] eqn:E'';
    [rewrite (skipn_head _ _ E'')
    | rewrite (skipn_past _ _ E''); cbn [startsSpaces2]; destruct (N.eqb y 32); reflexivity].
  cbn [startsSpaces2 spanLength]. unfold isBlank at 1 2.
  destruct (N.eqb y 32); [cbn [andb] | reflexivity].
  destruct (N.eqb z 32); [|reflexivity].
  etransitivity;
    [exact (@iterStar_span s isBlank (length s) (S (S (S j))) [] ltac:(lia))|].
  rewrite <- !plus_n_Sm. reflexivity.
Qed.

Lemma not_blank_head (t : jsstring) :
  headIs isBlank t = false -> startsSpaces2 t = false /\ spanLength isBlank t = 0.
Proof.
  destruct t as [|d t]; [split; reflexivity|]. cbn [headIs]. intros H.
  cbn [spanLength]. rewrite H. split; [|reflexivity].
  destruct t as [|e t]; [reflexivity|]. cbn [startsSpaces2].
  unfold isBlank in H. now rewrite H.
Qed.

Lemma squeeze_run (t : jsstring) :
  startsSpaces3 t = true ->
  squeeze t = 32%N :: 32%N :: squeeze (skipn (spanLength isBlank t) t).
Proof.
  induction t as [|c t IH]; [discriminate|]. intros H.
  cbn [squeeze]. rewrite H.
  cbn [startsSpaces3] in H. apply andb_prop in H. destruct H as (Hc & H2).
  cbn [spanLength]. unfold isBlank at 1. rewrite Hc. cbn [skipn].
  destruct (startsSpaces3 t) eqn:H3; [now apply IH|].
  destruct t as [|a [|b t]]; try discriminate.
  cbn [startsSpaces2] in H2. apply andb_prop in H2. destruct H2 as (Ha & Hb).
  apply N.eqb_eq in Ha, Hb. subst a b.
  assert (Hd : headIs isBlank t = false).
  { destruct t as [|d t]; [reflexivity|]. exact H3. }
  destruct (not_blank_head _ Hd) as (S2 & S0).
  assert (S3 : startsSpaces3 (32%N :: t) = false) by exact S2.
  change (squeeze (32%N :: 32%N :: t))
    with (if startsSpaces3 (32%N :: 32%N :: t)
          then squeeze (32%N :: t)
          else 32%N :: (if startsSpaces3 (32%N :: t) then squeeze t else 32%N :: squeeze t)).
  unfold jsstring, char in *. rewrite H3, S3.
  change (spanLength isBlank (32%N :: 32%N :: t)) with (S (S (spanLength isBlank t))).
  rewrite S0. reflexivity.
Qed.

Lemma replaceAll_reSpaces3 (s : jsstring) :
  replaceAll reSpaces3 s [32%N; 32%N] = squeeze s.
Proof.
  apply (@replaceAll_by_suffix reSpaces3 [32%N; 32%N] s squeeze startsSpaces3
           (spanLength isBlank)).
  - intros c t H. cbn [squeeze]. rewrite H. reflexivity.
  - reflexivity.
  - intros j _. apply matchAt_reSpaces3.
  - intros t H. split.
    + destruct t as [|c t]; [discriminate|].
      cbn [startsSpaces3] in H. apply andb_prop in H. destruct H as (Hc & _).
      cbn [spanLength]. unfold isBlank. rewrite Hc. lia.
    + now apply squeeze_run.
Qed.

Lemma matchAt_reTrailingSpaces (s : jsstring) (j : nat) :
  j <= length s ->
  matchAt reTrailingSpaces s j
  = if allSpace (skipn j s) then Some (j + length (skipn j s), []) else None.
Proof.
  intros Hj. unfold matchAt, reTrailingSpaces, plus, space. cbn [run].
  destruct (nth_error s j) as [x|] eqn:E;
    [rewrite (skipn_head _ _ E) | rewrite (skipn_past _ _ E); reflexivity].
  assert (j < length s) by (apply nth_error_Some; congruence).
  cbn [allSpace forallb]. destruct (isSpace x); [cbn [andb] | reflexivity].
  etransitivity;
    [exact (@iterStar_to_end s isSpace (length s) (S j) [] ltac:(lia) ltac:(lia))|].
  destruct (forallb isSpace (skipn (S j) s)); [|reflexivity].
  rewrite <- (skipn_head _ _ E), length_skipn.
  replace (j + (length s - j)) with (length s) by lia. reflexivity.
Qed.

Lemma replaceAll_reTrailingSpaces (s : jsstring) :
  replaceAll reTrailingSpaces s [] = trimEnd s.
Proof.
  apply (@replaceAll_by_suffix reTrailingSpaces [] s trimEnd allSpace (@length char)).
  - intros c t H. cbn [trimEnd]. rewrite H. reflexivity.
  - reflexivity.
  - intros j Hj. now apply matchAt_reTrailingSpaces.
  - intros [|c t] H; [discriminate|]. split; [simpl; lia|].
    cbn [trimEnd]. rewrite H. rewrite skipn_all. reflexivity.
Qed.

(** [normalizeText], on lists. *)
Lemma normalizeText_steps (txt : jsstring) :
  normalizeText txt
  = squeeze (joinLines (map trimEnd
      (splitLines (replaceChar 9%N [32%N] (replaceChar 13%N [10%N] (dropCr txt)))))).
Proof.
  unfold normalizeText. destruct txt as [|c txt]; [reflexivity|].
  cbn [truthy negb].
  rewrite replaceAll_reSpaces3, replaceAll_reCrLf, !replaceAll_lit.
  do 2 f_equal. apply map_ext. intros l. apply replaceAll_reTrailingSpaces.
Qed.

(** *** Lists of lines *)

Lemma joinLines_cons (l : jsstring) (ls : list jsstring) :
  ls <> [] -> joinLines (l :: ls) = l ++ 10%N :: joinLines ls.
Proof.
  destruct ls; [congruence | reflexivity].
Qed.

Lemma joinLines_splitLines (t : jsstring) : joinLines (splitLines t) = t.
Proof.
  induction t as [|c t IH]; [reflexivity|]. cbn [splitLines].
  destruct (N.eqb c 10) eqn:E.
  - apply N.eqb_eq in E. subst c.
    rewrite joinLines_cons by apply splitLines_nonempty. now rewrite IH.
  - destruct (splitLines t) as [|l ls] eqn:S; [now destruct (splitLines_nonempty t)|].
    destruct ls as [|l' ls].
    + cbn [joinLines] in IH |- *. now rewrite IH.
    + rewrite joinLines_cons in IH |- * by discriminate.
      cbn [app]. now rewrite IH.
Qed.

Lemma splitLines_line (l rest : jsstring) :
  ~ In 10%N l -> splitLines (l ++ 10%N :: rest) = l :: splitLines rest.
Proof.
  induction l as [|c l IH]; intros H.
  - reflexivity.
  - cbn [app splitLines].
    replace (N.eqb c 10) with false
      by (symmetry; apply N.eqb_neq; intros ->; apply H; now left).
    rewrite IH by (intros X; apply H; now right). reflexivity.
Qed.

Lemma splitLines_single (l : jsstring) : ~ In 10%N l -> splitLines l = [l].
Proof.
  induction l as [|c l IH]; intros H; [reflexivity|].
  cbn [splitLines].
  replace (N.eqb c 10) with false
    by (symmetry; apply N.eqb_neq; intros ->; apply H; now left).
  rewrite IH by (intros X; apply H; now right). reflexivity.
Qed.

Lemma splitLines_joinLines (ls : list jsstring) :
  ls <> [] -> Forall (fun l => ~ In 10%N l) ls -> splitLines (joinLines ls) = ls.
Proof.
  induction ls as [|l ls IH]; [congruence|]. intros _ H.
  inversion H as [|? ? Hl Hls]; subst.
  destruct ls as [|l' ls]; [now apply splitLines_single|].
  rewrite joinLines_cons by discriminate.
  rewrite splitLines_line by assumption.
  rewrite IH by (assumption || discriminate). reflexivity.
Qed.

Lemma splitLines_no_break (t : jsstring) : Forall (fun l => ~ In 10%N l) (splitLines t).
Proof.
  induction t as [|c t IH]; [constructor; [intros []|constructor]|].
  cbn [splitLines]. destruct (N.eqb c 10) eqn:E.
  - constructor; [intros []|assumption].
  - destruct (splitLines t) as [|l ls]; [repeat constructor; intros [->|[]]; discriminate|].
    inversion IH; subst. constructor; [|assumption].
    intros [->|X]; [discriminate | contradiction].
Qed.

Lemma splitLines_chars (t l : jsstring) (c : char) :
  In l (splitLines t) -> In c l -> In c t.
Proof.
  revert l. induction t as [|x t IH]; intros l Hl Hc.
  - destruct Hl as [<-|[]]. contradiction.
  - cbn [splitLines] in Hl. destruct (N.eqb x 10).
    + destruct Hl as [<-|Hl]; [contradiction|]. right. eapply IH; eassumption.
    + destruct (splitLines t) as [|l0 ls].
      * destruct Hl as [<-|[]]. destruct Hc as [<-|[]]. now left.
      * destruct Hl as [<-|Hl].
        -- destruct Hc as [<-|Hc]; [now left|]. right. apply (IH l0); [now left|assumption].
        -- right. apply (IH l); [now right|assumption].
Qed.

Lemma joinLines_chars (ls : list jsstring) (c : char) :
  In c (joinLines ls) -> c = 10%N \/ exists l, In l ls /\ In c l.
Proof.
  induction ls as [|l ls IH]; [intros []|].
  destruct ls as [|l' ls].
  - intros H. right. exists l. split; [now left|assumption].
  - rewrite joinLines_cons by discriminate. intros H.
    apply in_app_or in H. destruct H as [H|[<-|H]].
    + right. exists l. split; [now left|assumption].
    + now left.
    + destruct (IH H) as [->|(m & Hm & Hc)]; [now left|].
      right. exists m. split; [now right|assumption].
Qed.

(** *** The steps of [normalizeText], one by one *)

Lemma dropCr_chars (t : jsstring) (c : char) : In c (dropCr t) -> In c t.
Proof.
  induction t as [|x t IH]; [intros []|]. cbn [dropCr].
  destruct (startsCrLf (x :: t)).
  - intros H. right. now apply IH.
  - intros [<-|H]; [now left | right; now apply IH].
Qed.

Lemma dropCr_absent (t : jsstring) : ~ In 13%N t -> dropCr t = t.
Proof.
  induction t as [|x t IH]; intros H; [reflexivity|]. cbn [dropCr].
  replace (startsCrLf (x :: t)) with false.
  - rewrite IH by (intros X; apply H; now right). reflexivity.
  - symmetry. destruct t as [|y t]; [reflexivity|]. cbn [startsCrLf].
    replace (N.eqb x 13) with false; [reflexivity|].
    symmetry. apply N.eqb_neq. intros ->. apply H. now left.
Qed.

Lemma replaceChar_chars (a : char) (rep t : jsstring) (c : char) :
  In c (replaceChar a rep t) -> (In c t /\ c <> a) \/ In c rep.
Proof.
  unfold replaceChar. induction t as [|x t IH]; [intros []|]. cbn [flat_map].
  intros H. apply in_app_or in H. destruct H as [H|H].
  - destruct (N.eqb x a) eqn:E; [now right|].
    destruct H as [<-|[]]. left. split; [now left|]. now apply N.eqb_neq.
  - destruct (IH H) as [(Hc & Hn)|Hr]; [left; split; [now right|assumption] | now right].
Qed.

Lemma replaceChar_absent (a : char) (rep t : jsstring) :
  ~ In a t -> replaceChar a rep t = t.
Proof.
  unfold replaceChar. induction t as [|x t IH]; intros H; [reflexivity|]. cbn [flat_map].
  replace (N.eqb x a) with false
    by (symmetry; apply N.eqb_neq; intros ->; apply H; now left).
  rewrite IH by (intros X; apply H; now right). reflexivity.
Qed.

Lemma trimEnd_chars (l : jsstring) (c : char) : In c (trimEnd l) -> In c l.
Proof.
  induction l as [|x l IH]; [intros []|]. cbn [trimEnd].
  destruct (allSpace (x :: l)); [intros []|].
  intros [<-|H]; [now left | right; now apply IH].
Qed.

Lemma endsInSpace_cons (x : char) (l : jsstring) :
  l <> [] -> endsInSpace (x :: l) = endsInSpace l.
Proof.
  intros H. unfold endsInSpace. cbn [rev].
  destruct (rev l) as [|y r] eqn:E; [|reflexivity].
  apply (f_equal (@rev char)) in E. rewrite rev_involutive in E. contradiction.
Qed.

Lemma allSpace_ends (l : jsstring) : allSpace l = true -> endsInSpace l = true.
Proof.
  induction l as [|x l IH]; [discriminate|]. intros H.
  cbn [allSpace forallb] in H. apply andb_prop in H. destruct H as (Hx & Hl).
  destruct l as [|y l]; [exact Hx|].
  rewrite endsInSpace_cons by discriminate. apply IH. exact Hl.
Qed.

Lemma trimEnd_tidy (l : jsstring) : endsInSpace (trimEnd l) = false.
Proof.
  induction l as [|x l IH]; [reflexivity|]. cbn [trimEnd].
  destruct (allSpace (x :: l)) eqn:A; [reflexivity|].
  destruct (trimEnd l) as [|y r] eqn:T.
  - unfold endsInSpace. cbn [rev app].
    destruct l as [|y l].
    + cbn [allSpace forallb] in A. now rewrite andb_true_r in A.
    + cbn [trimEnd] in T. destruct (allSpace (y :: l)) eqn:A'; [|discriminate].
      cbn [allSpace forallb] in A, A'. rewrite A', andb_true_r in A. exact A.
  - rewrite endsInSpace_cons by discriminate. exact IH.
Qed.

Lemma trimEnd_kept (l : jsstring) : endsInSpace l = false -> trimEnd l = l.
Proof.
  induction l as [|x l IH]; intros H; [reflexivity|]. cbn [trimEnd].
  destruct (allSpace (x :: l)) eqn:A.
  - apply allSpace_ends in A. congruence.
  - f_equal. destruct l as [|y l]; [reflexivity|].
    apply IH. now rewrite endsInSpace_cons in H by discriminate.
Qed.

Lemma trimEnd_inked (l : jsstring) : inked (trimEnd l) = inked l.
Proof.
  unfold inked. induction l as [|x l IH]; [reflexivity|]. cbn [trimEnd].
  destruct (allSpace (x :: l)) eqn:A.
  - cbn [allSpace] in A. symmetry. clear IH.
    induction (x :: l) as [|y m IHm]; [reflexivity|].
    cbn [forallb] in A. apply andb_prop in A. destruct A as (Hy & Hm).
    cbn [filter]. rewrite Hy. cbn [negb]. now apply IHm.
  - cbn [filter]. rewrite IH. reflexivity.
Qed.

Lemma squeeze_chars (t : jsstring) (c : char) : In c (squeeze t) -> In c t.
Proof.
  induction t as [|x t IH]; [intros []|]. cbn [squeeze].
  destruct (startsSpaces3 (x :: t)).
  - intros H. right. now apply IH.
  - intros [<-|H]; [now left | right; now apply IH].
Qed.

Lemma squeeze_kept (t : jsstring) : hasSpaces3 t = false -> squeeze t = t.
Proof.
  induction t as [|x t IH]; intros H; [reflexivity|].
  cbn [hasSpaces3] in H. apply orb_false_elim in H. destruct H as (H1 & H2).
  cbn [squeeze]. rewrite H1. f_equal. now apply IH.
Qed.

Lemma startsSpaces2_head (a : char) (u : jsstring) :
  startsSpaces2 (a :: u) = (N.eqb a 32 && headIs isBlank u)%bool.
Proof.
  destruct u as [|b u]; [now rewrite andb_false_r | reflexivity].
Qed.

Lemma squeeze_head (t : jsstring) :
  headIs isBlank t = false -> headIs isBlank (squeeze t) = false.
Proof.
  destruct t as [|b t]; [reflexivity|]. cbn [headIs]. intros H.
  cbn [squeeze startsSpaces3]. unfold isBlank in H. rewrite H. exact H.
Qed.

Lemma startsSpaces3_two (t : jsstring) :
  startsSpaces2 t = false -> startsSpaces3 t = false.
Proof.
  destruct t as [|a [|b [|c t]]]; cbn [startsSpaces3 startsSpaces2]; intros H;
    rewrite ?andb_false_r; try reflexivity.
  destruct (N.eqb a 32); [|reflexivity]. cbn [andb] in H |- *.
  rewrite H. reflexivity.
Qed.

Lemma squeeze_two (t : jsstring) :
  startsSpaces2 t = false -> startsSpaces2 (squeeze t) = false.
Proof.
  destruct t as [|a t]; [reflexivity|]. intros H.
  cbn [squeeze]. rewrite (startsSpaces3_two _ H).
  rewrite startsSpaces2_head in H |- *.
  destruct (N.eqb a 32); [|reflexivity]. cbn [andb] in H |- *.
  now apply squeeze_head.
Qed.

Lemma squeeze_tidy (t : jsstring) : hasSpaces3 (squeeze t) = false.
Proof.
  induction t as [|x t IH]; [reflexivity|]. cbn [squeeze].
  destruct (startsSpaces3 (x :: t)) eqn:H3; [exact IH|].
  cbn [hasSpaces3]. rewrite IH, orb_false_r.
  cbn [startsSpaces3] in H3 |- *.
  destruct (N.eqb x 32); [|reflexivity]. cbn [andb] in H3 |- *.
  now apply squeeze_two.
Qed.

Lemma squeeze_inked (t : jsstring) : inked (squeeze t) = inked t.
Proof.
  unfold inked. induction t as [|x t IH]; [reflexivity|]. cbn [squeeze].
  destruct (startsSpaces3 (x :: t)) eqn:H3.
  - cbn [startsSpaces3] in H3. apply andb_prop in H3. destruct H3 as (Hx & _).
    apply N.eqb_eq in Hx. subst x. cbn [filter]. exact IH.
  - cbn [filter]. now rewrite IH.
Qed.

(** [squeeze] works line by line. *)
Lemma startsSpaces3_line (l rest : jsstring) :
  startsSpaces3 (l ++ 10%N :: rest) = startsSpaces3 l.
Proof.
  destruct l as [|a [|b [|c l]]]; cbn [app startsSpaces3 startsSpaces2];
    try reflexivity.
  - destruct rest; reflexivity.
  - change (N.eqb 10 32) with false. now rewrite !andb_false_r.
Qed.

Lemma squeeze_line (l rest : jsstring) :
  squeeze (l ++ 10%N :: rest) = squeeze l ++ 10%N :: squeeze rest.
Proof.
  induction l as [|x l IH].
  - cbn [app squeeze startsSpaces3 N.eqb andb]. reflexivity.
  - change ((x :: l) ++ 10%N :: rest) with (x :: (l ++ 10%N :: rest)).
    cbn [squeeze].
    change (x :: (l ++ 10%N :: rest)) with ((x :: l) ++ 10%N :: rest).
    rewrite startsSpaces3_line, IH.
    destruct (startsSpaces3 (x :: l)); reflexivity.
Qed.

Lemma squeeze_joinLines (ls : list jsstring) :
  squeeze (joinLines ls) = joinLines (map squeeze ls).
Proof.
  induction ls as [|l ls IH]; [reflexivity|].
  destruct ls as [|l' ls]; [reflexivity|].
  rewrite joinLines_cons by discriminate.
  change (map squeeze (l :: l' :: ls)) with (squeeze l :: squeeze l' :: map squeeze ls).
  rewrite (@joinLines_cons (squeeze l) (squeeze l' :: map squeeze ls)) by discriminate.
  change (squeeze l' :: map squeeze ls) with (map squeeze (l' :: ls)).
  rewrite squeeze_line, IH. reflexivity.
Qed.

Lemma squeeze_end (l : jsstring) : endsInSpace l = false -> endsInSpace (squeeze l) = false.
Proof.
  induction l as [|x l IH]; intros H; [reflexivity|].
  destruct l as [|y l].
  - cbn [squeeze startsSpaces3 startsSpaces2]. rewrite andb_false_r. exact H.
  - rewrite endsInSpace_cons in H by discriminate. specialize (IH H).
    change (squeeze (x :: y :: l))
      with (if startsSpaces3 (x :: y :: l) then squeeze (y :: l) else x :: squeeze (y :: l)).
    destruct (startsSpaces3 (x :: y :: l)); [exact IH|].
    destruct (squeeze (y :: l)) as [|z r] eqn:S.
    + exfalso. destruct (startsSpaces3 (y :: l)) eqn:H3.
      * pose proof (@squeeze_run _ H3) as R. rewrite S in R. discriminate.
      * cbn [squeeze] in S. rewrite H3 in S. discriminate.
    + rewrite endsInSpace_cons by discriminate. exact IH.
Qed.

Lemma inked_app (a b : jsstring) : inked (a ++ b) = inked a ++ inked b.
Proof.
  apply filter_app.
Qed.

Lemma dropCr_inked (t : jsstring) : inked (dropCr t) = inked t.
Proof.
  unfold inked. induction t as [|x t IH]; [reflexivity|]. cbn [dropCr].
  destruct (startsCrLf (x :: t)) eqn:H.
  - destruct t as [|y t]; [discriminate|]. cbn [startsCrLf] in H.
    apply andb_prop in H. destruct H as (Hx & _). apply N.eqb_eq in Hx. subst x.
    cbn [filter] in IH |- *. exact IH.
  - cbn [filter]. now rewrite IH.
Qed.

Lemma replaceChar_inked (a : char) (rep t : jsstring) :
  isSpace a = true -> inked rep = [] -> inked (replaceChar a rep t) = inked t.
Proof.
  intros Ha Hr. unfold replaceChar. induction t as [|x t IH]; [reflexivity|].
  cbn [flat_map]. rewrite inked_app, IH.
  destruct (N.eqb x a) eqn:E.
  - apply N.eqb_eq in E. subst x. rewrite Hr. unfold inked. cbn [filter].
    rewrite Ha. reflexivity.
  - unfold inked. cbn [filter]. destruct (negb (isSpace x)); reflexivity.
Qed.

Lemma joinLines_trimEnd_inked (ls : list jsstring) :
  inked (joinLines (map trimEnd ls)) = inked (joinLines ls).
Proof.
  induction ls as [|l ls IH]; [reflexivity|].
  destruct ls as [|l' ls]; [apply trimEnd_inked|].
  change (map trimEnd (l :: l' :: ls)) with (trimEnd l :: trimEnd l' :: map trimEnd ls).
  rewrite (@joinLines_cons (trimEnd l) (trimEnd l' :: map trimEnd ls)) by discriminate.
  rewrite (@joinLines_cons l (l' :: ls)) by discriminate.
  change (trimEnd l' :: map trimEnd ls) with (map trimEnd (l' :: ls)).
  rewrite !inked_app, trimEnd_inked.
  change (10%N :: joinLines (map trimEnd (l' :: ls)))
    with ([10%N] ++ joinLines (map trimEnd (l' :: ls))).
  change (10%N :: joinLines (l' :: ls)) with ([10%N] ++ joinLines (l' :: ls)).
  rewrite !inked_app, IH. reflexivity.
Qed.

Lemma normalizeText_inked (txt : jsstring) : inked (normalizeText txt) = inked txt.
Proof.
  rewrite normalizeText_steps, squeeze_inked, joinLines_trimEnd_inked, joinLines_splitLines.
  rewrite !replaceChar_inked by reflexivity. apply dropCr_inked.
Qed.

Lemma existsb_none (A : Type) (p : A -> bool) (l : list A) :
  (forall x, In x l -> p x = false) -> existsb p l = false.
Proof.
  intros H. destruct (existsb p l) eqn:E; [|reflexivity].
  apply existsb_exists in E. destruct E as (x & Hx & Hp).
  rewrite (H _ Hx) in Hp. discriminate.
Qed.

Lemma normalizeText_lines (txt : jsstring) :
  splitLines (normalizeText txt)
  = map (fun l => squeeze (trimEnd l))
        (splitLines (replaceChar 9%N [32%N] (replaceChar 13%N [10%N] (dropCr txt)))).
Proof.
  rewrite normalizeText_steps, squeeze_joinLines, map_map.
  apply splitLines_joinLines.
  - intros H. apply map_eq_nil in H. now apply splitLines_nonempty in H.
  - apply Forall_forall. intros m Hm. apply in_map_iff in Hm.
    destruct Hm as (l & <- & Hl). intros X.
    apply squeeze_chars, trimEnd_chars in X.
    pose proof (splitLines_no_break
                  (replaceChar 9%N [32%N] (replaceChar 13%N [10%N] (dropCr txt)))) as B.
    rewrite Forall_forall in B. exact (B _ Hl X).
Qed.

Lemma normalizeText_tidy (txt : jsstring) : tidy (normalizeText txt) = true.
Proof.
  unfold tidy. apply andb_true_intro. split; [apply andb_true_intro; split|].
  - apply negb_true_iff. apply existsb_none. intros c Hc.
    rewrite normalizeText_steps in Hc.
    apply squeeze_chars, joinLines_chars in Hc.
    destruct Hc as [->|(m & Hm & Hc)]; [reflexivity|].
    apply in_map_iff in Hm. destruct Hm as (l & <- & Hl).
    apply trimEnd_chars in Hc.
    pose proof (splitLines_chars _ _ _ Hl Hc) as U.
    apply replaceChar_chars in U. destruct U as [(U & N9)|[<-|[]]]; [|reflexivity].
    apply replaceChar_chars in U. destruct U as [(U & N13)|[<-|[]]]; [|reflexivity].
    apply N.eqb_neq in N9, N13. now rewrite N9, N13.
  - rewrite normalizeText_lines. apply forallb_forall. intros m Hm.
    apply in_map_iff in Hm. destruct Hm as (l & <- & Hl).
    apply negb_true_iff. apply squeeze_end, trimEnd_tidy.
  - apply negb_true_iff. rewrite normalizeText_steps. apply squeeze_tidy.
Qed.

Lemma normalizeText_kept (txt : jsstring) : tidy txt = true -> normalizeText txt = txt.
Proof.
  unfold tidy. intros H.
  apply andb_prop in H. destruct H as (H & H3).
  apply andb_prop in H. destruct H as (Hc & HL).
  apply negb_true_iff in Hc, H3.
  assert (N13 : ~ In 13%N txt).
  { intros X. assert (E : existsb (fun c => (N.eqb c 13 || N.eqb c 9)%bool) txt = true)
      by (apply existsb_exists; exists 13%N; split; [assumption | reflexivity]).
    congruence. }
  assert (N9 : ~ In 9%N txt).
  { intros X. assert (E : existsb (fun c => (N.eqb c 13 || N.eqb c 9)%bool) txt = true)
      by (apply existsb_exists; exists 9%N; split; [assumption | reflexivity]).
    congruence. }
  rewrite normalizeText_steps.
  rewrite (@dropCr_absent _ N13), (@replaceChar_absent _ _ _ N13),
    (@replaceChar_absent _ _ _ N9).
  assert (M : map trimEnd (splitLines txt) = splitLines txt).
  { rewrite <- (map_id (splitLines txt)) at 2. apply map_ext_in. intros l Hl.
    apply trimEnd_kept. apply negb_true_iff.
    exact (proj1 (forallb_forall _ _) HL _ Hl). }
  rewrite M, joinLines_splitLines. now apply squeeze_kept.
Qed.

(** X12.  [normalizeText] returns a tidy text: no carriage return and no
    tab is left, no line ends in white space and no three spaces stand in a
    row.  It alters white space only: the code units that are not white space
    come out as they went in, in the same order. *)
Theorem normalizeText_tidies_white_space_only :
  forall txt : jsstring,
    tidy (normalizeText txt) = true
    /\ inked (normalizeText txt) = inked txt.
Proof.
  intros txt. split; [apply normalizeText_tidy | apply normalizeText_inked].
Qed.

(** X13.  The texts that [normalizeText] returns unchanged are the tidy
    ones, so that normalising twice is normalising once. *)
Theorem normalizeText_fixed_points :
  forall txt : jsstring,
    (normalizeText txt = txt <-> tidy txt = true)
    /\ normalizeText (normalizeText txt) = normalizeText txt.
Proof.
  intros txt. split; [split|].
  - intros E. rewrite <- E. apply normalizeText_tidy.
  - apply normalizeText_kept.
  - apply normalizeText_kept, normalizeText_tidy.
Qed.

(* ------------------------------------------------------------------------- *)
(** ** [escapeHtml] *)

Lemma isMarkup_cases (c : char) :
  isMarkup c = true -> c = 38%N \/ c = 60%N \/ c = 62%N \/ c = 34%N \/ c = 39%N.
Proof.
  unfold isMarkup. intros H.
  repeat (apply orb_prop in H; destruct H as [H|H]);
    apply N.eqb_eq in H; subst c; tauto.
Qed.

Lemma escapeChar_plain (c : char) : isMarkup c = false -> escapeChar c = [c].
Proof.
  intros H. unfold escapeChar. now rewrite H.
Qed.

Lemma escapeHtml_app (a b : jsstring) : escapeHtml (a ++ b) = escapeHtml a ++ escapeHtml b.
Proof.
  rewrite !escapeHtml_chars. apply flat_map_app.
Qed.

Lemma escapeChar_inert (c x : char) :
  In x (escapeChar c) -> In x [60%N; 62%N; 34%N; 39%N] -> False.
Proof.
  destruct (isMarkup c) eqn:M.
  - destruct (isMarkup_cases _ M) as [-> | [-> | [-> | [-> | -> ]]]]; intros H K;
      repeat (destruct H as [<-|H];
              [repeat (destruct K as [K|K]; [discriminate|]); contradiction|]);
      contradiction.
  - rewrite (escapeChar_plain _ M). intros [<-|[]] K.
    unfold isMarkup in M.
    repeat (destruct K as [<-|K]; [discriminate|]). contradiction.
Qed.

Lemma escapeChar_injective (x y : char) (r r' : jsstring) :
  escapeChar x ++ r = escapeChar y ++ r' -> x = y /\ r = r'.
Proof.
  destruct (isMarkup x) eqn:Mx; destruct (isMarkup y) eqn:My.
  - destruct (isMarkup_cases _ Mx) as [-> | [-> | [-> | [-> | -> ]]]];
      destruct (isMarkup_cases _ My) as [-> | [-> | [-> | [-> | -> ]]]];
      intros H; try discriminate; split; try reflexivity;
      cbn in H; inversion H; reflexivity.
  - rewrite (escapeChar_plain _ My).
    destruct (isMarkup_cases _ Mx) as [-> | [-> | [-> | [-> | -> ]]]];
      intros H; cbn in H; inversion H; subst y; discriminate.
  - rewrite (escapeChar_plain _ Mx).
    destruct (isMarkup_cases _ My) as [-> | [-> | [-> | [-> | -> ]]]];
      intros H; cbn in H; inversion H; subst x; discriminate.
  - rewrite (escapeChar_plain _ Mx), (escapeChar_plain _ My).
    intros H. inversion H. split; reflexivity.
Qed.

Lemma escapeHtml_injective (a b : jsstring) : escapeHtml a = escapeHtml b -> a = b.
Proof.
  rewrite !escapeHtml_chars. revert b.
  induction a as [|x a IH]; intros [|y b] H.
  - reflexivity.
  - exfalso. cbn [flat_map] in H. unfold escapeChar in H.
    destruct (isMarkup y) eqn:M; [|discriminate].
    destruct (isMarkup_cases _ M) as [-> | [-> | [-> | [-> | -> ]]]]; discriminate.
  - exfalso. cbn [flat_map] in H. unfold escapeChar in H.
    destruct (isMarkup x) eqn:M; [|discriminate].
    destruct (isMarkup_cases _ M) as [-> | [-> | [-> | [-> | -> ]]]]; discriminate.
  - cbn [flat_map] in H. apply escapeChar_injective in H.
    destruct H as (-> & H). f_equal. now apply IH.
Qed.

(** X14.  What [escapeHtml] writes holds no angle bracket and no quote, and
    every ampersand in it begins one of the five entities: the text is the
    concatenation of the escapes of its code units, [&amp;], [&lt;], [&gt;],
    [&quot;] and [&#39;] for the five and the code unit itself for any other.
    Escaping distributes over concatenation, leaves a text without the five
    characters as it is, and tells any two texts apart. *)
Theorem escapeHtml_writes_inert_text :
  forall s : jsstring,
    escapeHtml s = flat_map escapeChar s
    /\ (forall x, In x (escapeHtml s) -> ~ In x [60%N; 62%N; 34%N; 39%N])
    /\ (forall t, escapeHtml (s ++ t) = escapeHtml s ++ escapeHtml t)
    /\ (existsb isMarkup s = false -> escapeHtml s = s)
    /\ (forall t, escapeHtml s = escapeHtml t -> s = t).
Proof.
  intros s. split; [apply escapeHtml_chars|]. split; [|split; [|split]].
  - intros x Hx K. rewrite escapeHtml_chars in Hx. apply in_flat_map in Hx.
    destruct Hx as (c & _ & Hc). exact (@escapeChar_inert c x Hc K).
  - intros t. apply escapeHtml_app.
  - intros H. rewrite escapeHtml_chars.
    induction s as [|c s IH]; [reflexivity|].
    cbn [existsb] in H. apply orb_false_elim in H. destruct H as (Hc & Hs).
    cbn [flat_map]. rewrite (escapeChar_plain _ Hc), IH by assumption. reflexivity.
  - intros t. apply escapeHtml_injective.
Qed.

(* ------------------------------------------------------------------------- *)
(** ** [extractTextFromPdf] *)

Lemma startsWith_prefix (p s : jsstring) :
  startsWith p s = true <-> exists b, s = p ++ b.
Proof.
  revert s. induction p as [|x p IH]; intros s.
  - split; [intros _; now exists s | reflexivity].
  - destruct s as [|y s]; cbn [startsWith].
    + split; [discriminate | intros (b & H); discriminate].
    + split.
      * intros H. apply andb_prop in H. destruct H as (Hx & Hp).
        apply N.eqb_eq in Hx. subst y. apply IH in Hp. destruct Hp as (b & ->).
        now exists b.
      * intros (b & H). inversion H; subst. apply andb_true_intro. split.
        -- apply N.eqb_refl.
        -- apply IH. now exists b.
Qed.

Lemma includes_infix (s p : jsstring) :
  includes s p = true <-> exists a b, s = a ++ p ++ b.
Proof.
  unfold includes, indexOf. generalize 0 as i. induction s as [|y s IH]; intros i.
  - cbn [indexOfFrom]. destruct (startsWith p []) eqn:E.
    + split; [|reflexivity]. intros _. apply startsWith_prefix in E.
      destruct E as (b & E). exists [], b. exact E.
    + split; [discriminate|]. intros (a & b & H).
      assert (X : startsWith p [] = true).
      { apply startsWith_prefix. destruct a; [|discriminate]. now exists b. }
      congruence.
  - cbn [indexOfFrom]. destruct (startsWith p (y :: s)) eqn:E.
    + split; [|reflexivity]. intros _. apply startsWith_prefix in E.
      destruct E as (b & E). exists [], b. exact E.
    + rewrite IH. split.
      * intros (a & b & ->). now exists (y :: a), b.
      * intros (a & b & H). destruct a as [|z a].
        -- assert (X : startsWith p (y :: s) = true)
             by (apply startsWith_prefix; now exists b).
           congruence.
        -- inversion H; subst. now exists a, b.
Qed.

Lemma includes_longer (s q p : jsstring) :
  includes s (q ++ p) = true -> includes s p = true.
Proof.
  intros H. apply includes_infix in H. destruct H as (a & b & ->).
  apply includes_infix. exists (a ++ q), b. now rewrite <- !app_assoc.
Qed.

Lemma isPasswordError_two (msg : jsstring) :
  isPasswordError msg
  = (mentionsPassword msg || includes (toLowerCase msg) (str "encrypted"))%bool.
Proof.
  unfold isPasswordError, mentionsPassword. cbv zeta.
  destruct (includes (toLowerCase msg) (str "need password")) eqn:E.
  - apply (@includes_longer _ (str "need ") (str "password")) in E. rewrite E. reflexivity.
  - now rewrite orb_false_r.
Qed.

Lemma dropSpaces_head (s : jsstring) : headIs isSpace (dropSpaces s) = false.
Proof.
  induction s as [|c s IH]; [reflexivity|]. cbn [dropSpaces].
  destruct (isSpace c) eqn:E; [exact IH | exact E].
Qed.

Lemma dropSpaces_kept (s : jsstring) : headIs isSpace s = false -> dropSpaces s = s.
Proof.
  destruct s as [|c s]; [reflexivity|]. cbn [headIs dropSpaces]. now intros ->.
Qed.

Lemma dropSpaces_suffix (s : jsstring) : exists p, s = p ++ dropSpaces s.
Proof.
  induction s as [|c s (p & IH)]; [now exists []|]. cbn [dropSpaces].
  destruct (isSpace c).
  - exists (c :: p). cbn [app]. now rewrite <- IH.
  - now exists [].
Qed.

Lemma trim_trim (s : jsstring) : trim (trim s) = trim s.
Proof.
  unfold trim. set (u := dropSpaces s). set (w := dropSpaces (rev u)).
  assert (Hw : headIs isSpace w = false) by apply dropSpaces_head.
  assert (Hv : dropSpaces (rev w) = rev w).
  { apply dropSpaces_kept. destruct (rev w) as [|x v] eqn:V; [reflexivity|].
    destruct (dropSpaces_suffix (rev u)) as (p & Hp). fold w in Hp.
    apply (f_equal (@rev char)) in Hp. rewrite rev_involutive, rev_app_distr, V in Hp.
    pose proof (dropSpaces_head s) as Hu. fold u in Hu. rewrite Hp in Hu. exact Hu. }
  rewrite Hv, rev_involutive, (dropSpaces_kept _ Hw). reflexivity.
Qed.

Section ExtractTextFacts.

Variable pdfDoc : Type.
Variable load : buffer -> option jsstring -> awaited pdfDoc.
Variable save : pdfDoc -> awaited buffer.
Variable pdfParse : buffer -> awaited (option jsstring).

Lemma parsedText_tidy (bytes : buffer) (t : jsstring) :
  parsedText pdfParse bytes = Resolved t ->
  exists text, pdfParse bytes = Resolved text /\ t = normalizeText (textOf text).
Proof.
  unfold parsedText. destruct (pdfParse bytes) as [text|e]; [|discriminate].
  intros H. inversion H. now exists text.
Qed.

Lemma throughPdfLib_tidy (buf : buffer) (pw : option jsstring) (t : jsstring) :
  throughPdfLib load save pdfParse buf pw = Resolved t ->
  exists bytes text, pdfParse bytes = Resolved text /\ t = normalizeText (textOf text).
Proof.
  unfold throughPdfLib. destruct (load buf pw) as [doc|e]; [|discriminate].
  destruct (save doc) as [bytes|e]; [|discriminate].
  intros H. exists bytes. now apply parsedText_tidy.
Qed.


(** X15.  [extractTextFromPdf] ends in one of five ways.  It returns a text
    only for a buffer with the PDF header, and the text is what
    [normalizeText] made of a text that [pdfParse] gave, so it is tidy.  It
    throws ['Invalid file type'] exactly for a buffer without the header;
    ['Invalid or missing password'], with the code ['PASSWORD'], only when a
    library failed with a message that [isPasswordError] accepts; and
    ['Failed to parse PDF'] only when [pdfParse] failed on the buffer itself.
    No error of the libraries gets out. *)
Theorem extractTextFromPdf_outcomes :
  forall (buf : buffer) (password : jsstring),
    match extractTextFromPdf load save pdfParse buf password with
    | Returned t =>
        isPdfBuffer buf = true /\ tidy t = true
        /\ exists bytes text,
             pdfParse bytes = Resolved text /\ t = normalizeText (textOf text)
    | Threw m c =>
        (isPdfBuffer buf = false /\ Threw m c = @invalidFileType jsstring)
        \/ (isPdfBuffer buf = true /\ Threw m c = @passwordError jsstring
            /\ exists e, isPasswordError e = true
                         /\ (parsedText pdfParse buf = Rejected e
                             \/ exists pw, throughPdfLib load save pdfParse buf pw
                                           = Rejected e))
        \/ (isPdfBuffer buf = true /\ Threw m c = @failedToParse jsstring
            /\ exists e, pdfParse buf = Rejected e)
    end.
Proof.
  intros buf password.
  assert (R : forall t, (exists bytes text,
                 pdfParse bytes = Resolved text /\ t = normalizeText (textOf text)) ->
              isPdfBuffer buf = true ->
              isPdfBuffer buf = true /\ tidy t = true
              /\ exists bytes text,
                   pdfParse bytes = Resolved text /\ t = normalizeText (textOf text)).
  { intros t (bytes & text & Hp & ->) Hb. split; [assumption|].
    split; [apply normalizeText_tidy|]. now exists bytes, text. }
  assert (F : forall e, parsedText pdfParse buf = Rejected e -> pdfParse buf = Rejected e).
  { unfold parsedText. intros e. destruct (pdfParse buf); [discriminate|].
    intros H. inversion H. reflexivity. }
  unfold extractTextFromPdf. destruct (isPdfBuffer buf) eqn:B; cbn [negb].
  2: { left. split; reflexivity. }
  destruct (truthy password && truthy (trim password))%bool.
  - destruct (throughPdfLib load save pdfParse buf (Some (trim password))) as [t|e] eqn:T.
    + apply R; [|reflexivity]. exact (throughPdfLib_tidy _ _ T).
    + destruct (isPasswordError e) eqn:P.
      * right. left. split; [reflexivity|]. split; [reflexivity|].
        exists e. split; [assumption|]. right. now exists (Some (trim password)).
      * destruct (parsedText pdfParse buf) as [t|e2] eqn:D.
        -- apply R; [|reflexivity]. destruct (parsedText_tidy _ D) as (text & H1 & H2).
           now exists buf, text.
        -- right. right. split; [reflexivity|]. split; [reflexivity|].
           exists e2. now apply F.
  - destruct (throughPdfLib load save pdfParse buf None) as [t|e] eqn:T.
    + apply R; [|reflexivity]. exact (throughPdfLib_tidy _ _ T).
    + destruct (mentionsPassword e) eqn:P.
      * right. left. split; [reflexivity|]. split; [reflexivity|].
        exists e. split; [rewrite isPasswordError_two, P; reflexivity|].
        right. now exists None.
      * destruct (parsedText pdfParse buf) as [t|e2] eqn:D.
        -- apply R; [|reflexivity]. destruct (parsedText_tidy _ D) as (text & H1 & H2).
           now exists buf, text.
        -- destruct (mentionsPassword e2) eqn:P2.
           ++ right. left. split; [reflexivity|]. split; [reflexivity|].
              exists e2. split; [rewrite isPasswordError_two, P2; reflexivity|].
              now left.
           ++ right. right. split; [reflexivity|]. split; [reflexivity|].
              exists e2. now apply F.
Qed.

(** X16.  The password counts without the white space around it:
    [extractTextFromPdf] does with a password what it does with the trimmed
    one, and a password of white space only is no password.  Of the three
    words [isPasswordError] looks for, the third never decides: a message with
    [need password] in it has [password] in it. *)
Theorem password_is_trimmed :
  forall (buf : buffer) (password : jsstring),
    extractTextFromPdf load save pdfParse buf password
    = extractTextFromPdf load save pdfParse buf (trim password)
    /\ (truthy (trim password) = false ->
        extractTextFromPdf load save pdfParse buf password
        = extractTextFromPdf load save pdfParse buf [])
    /\ forall msg,
         isPasswordError msg
         = (includes (toLowerCase msg) (str "password")
            || includes (toLowerCase msg) (str "encrypted"))%bool.
Proof.
  intros buf password.
  assert (T : (truthy password && truthy (trim password))%bool = truthy (trim password)).
  { destruct password as [|c p]; [reflexivity|]. reflexivity. }
  split; [|split].
  - unfold extractTextFromPdf. rewrite T, trim_trim, andb_diag. reflexivity.
  - intros H. unfold extractTextFromPdf. rewrite T, H. reflexivity.
  - intros msg. apply isPasswordError_two.
Qed.

End ExtractTextFacts.

(* ------------------------------------------------------------------------- *)
(** ** [POST /upload] *)


Section UploadFacts.

Variable readFile : jsstring -> awaited buffer.
Variable pdfDoc : Type.
Variable load : buffer -> option jsstring -> awaited pdfDoc.
Variable save : pdfDoc -> awaited buffer.
Variable pdfParse : buffer -> awaited (option jsstring).
Variable uuid : jsstring.
Variable clock : nat -> jsstring.
Variable localeCompare : jsstring -> jsstring -> comparison.
Variable transactionsCol : bool.
Variable insertMany : list Transaction -> awaited unit.
Variable notConnected : option bool.



End UploadFacts.

(* ------------------------------------------------------------------------- *)
(** ** Written dates *)

Lemma blankChar_cases (c : char) :
  blankChar c = c \/ In c (map N.of_nat (seq 48 10 ++ seq 65 26 ++ seq 97 26)).
Proof.
  unfold blankChar. destruct (isDigit c) eqn:D.
  - right. unfold isDigit in D. apply andb_prop in D. destruct D as (D1 & D2).
    apply N.leb_le in D1, D2. apply in_map_iff. exists (N.to_nat c).
    split; [apply N2Nat.id|]. apply in_or_app. left. apply in_seq. lia.
  - destruct (isAlpha c) eqn:A; [|now left]. right.
    apply in_map_iff. exists (N.to_nat c). split; [apply N2Nat.id|].
    unfold isAlpha, isUpper, isLower in A. apply orb_prop in A.
    apply in_or_app. right. apply in_or_app.
    destruct A as [A|A]; apply andb_prop in A; destruct A as (A1 & A2);
      apply N.leb_le in A1, A2; [left | right]; apply in_seq; lia.
Qed.

Lemma alike_blanked (r : regex) (s : jsstring) : blind r = true -> alike r s (blanked s).
Proof.
  intros B. apply alike_pointwise. unfold blanked.
  induction s as [|c s IH]; cbn [map]; constructor; [|exact IH].
  intros p Hp. destruct (blankChar_cases c) as [E|E]; [now rewrite E|].
  unfold blind in B. rewrite forallb_forall in B. specialize (B p Hp).
  rewrite forallb_forall in B. specialize (B c E). now apply Bool.eqb_prop.
Qed.

Lemma search_blanked (r : regex) (s : jsstring) :
  blind r = true -> search r s 0 = search r (blanked s) 0.
Proof.
  intros B. apply search_alike. now apply alike_blanked.
Qed.

Lemma blankChar_digit (c : char) : isDigit c = true -> blankChar c = 48%N.
Proof.
  intros H. unfold blankChar. now rewrite H.
Qed.

Lemma blind_reYearFirst : blind reYearFirst = true.
Proof. vm_compute. reflexivity. Qed.

Lemma blind_reDayFirst : blind reDayFirst = true.
Proof. vm_compute. reflexivity. Qed.

Lemma blind_reDayMonthName : blind reDayMonthName = true.
Proof. vm_compute. reflexivity. Qed.

Lemma digitsOf_spec (lo hi : nat) (t : jsstring) :
  digitsOf lo hi t = true -> forallb isDigit t = true /\ lo <= length t <= hi.
Proof.
  unfold digitsOf. intros H. apply andb_prop in H. destruct H as (H & H3).
  apply andb_prop in H. destruct H as (H1 & H2).
  apply Nat.leb_le in H2, H3. split; [assumption | lia].
Qed.

Lemma trim_kept (s : jsstring) :
  headIs isSpace s = false -> headIs isSpace (rev s) = false -> trim s = s.
Proof.
  intros H1 H2. unfold trim. rewrite (dropSpaces_kept _ H1), (dropSpaces_kept _ H2).
  apply rev_involutive.
Qed.

Lemma isDateSep_cases (c : char) : isDateSep c = true -> c = 47%N \/ c = 46%N \/ c = 45%N.
Proof.
  unfold isDateSep. intros H.
  repeat (apply orb_prop in H; destruct H as [H|H]); apply N.eqb_eq in H; tauto.
Qed.

Lemma blankChar_letter (c : char) : isAlpha c = true -> blankChar c = 97%N.
Proof.
  intros H. unfold blankChar. rewrite H.
  replace (isDigit c) with false; [reflexivity|].
  symmetry. unfold isAlpha, isUpper, isLower in H. unfold isDigit.
  apply orb_prop in H. apply andb_false_iff.
  destruct H as [H|H]; apply andb_prop in H; destruct H as (A1 & A2);
    apply N.leb_le in A1, A2; right; apply N.leb_gt; lia.
Qed.

Ltac split_conjunctions :=
  repeat match goal with
         | H : (_ && _)%bool = true |- _ => apply andb_prop in H; destruct H
         end.

Ltac blank_out :=
  cbv [blanked map];
  repeat match goal with
         | H : isDigit ?x = true |- _ => rewrite (@blankChar_digit x H)
         | H : isAlpha ?x = true |- _ => rewrite (@blankChar_letter x H)
         end.

Ltac run_search :=
  repeat match goal with
         | |- context [search ?r ?l 0] =>
             let v := eval vm_compute in (search r l 0) in
             replace (search r l 0) with v by (vm_compute; reflexivity)
         end.

(** The three patterns of [parseDateStr] on a text that begins and ends
    with a digit: they are run on the text with its digits and letters
    blanked, and the captures are read off the text itself. *)
Ltac read_date :=
  match goal with
  | |- parseDateStr ?l = _ =>
      let T := fresh "T" in
      assert (T : trim l = l)
        by (apply trim_kept; cbn [rev app headIs]; apply digit_not_space; assumption);
      unfold parseDateStr; change (truthy l) with true; cbn [negb]; rewrite T;
      unfold dateYearFirst, dateDayFirst, dateDayMonthName, matchFirst;
      rewrite (@search_blanked reYearFirst l blind_reYearFirst),
              (@search_blanked reDayFirst l blind_reDayFirst),
              (@search_blanked reDayMonthName l blind_reDayMonthName);
      blank_out; run_search;
      cbn [capture Nat.eqb slice firstn skipn Nat.sub]
  end.

Ltac in_or_out :=
  match goal with
  | |- context [if ?b then Some _ else None] => destruct b; reflexivity
  end.

(** X18.  The dates written in figures.  A text of four digits, a
    separator, one or two digits, a separator and one or two digits is read as
    year, month and day; a text of one or two digits, a separator, one or two
    digits, a separator and two to four digits is read as day, month and year,
    a year below 100 being counted from 2000.  Either is a date when the month
    is from 1 to 12 and the day from 1 to 31, whatever the month, and is
    refused otherwise; the separators, each of [/], [.] and [-], need not be
    the same. *)
Theorem dates_in_figures :
  forall (a b c : jsstring) (s1 s2 : char),
    isDateSep s1 = true -> isDateSep s2 = true ->
    (digitsOf 4 4 a = true -> digitsOf 1 2 b = true -> digitsOf 1 2 c = true ->
     parseDateStr (a ++ s1 :: b ++ s2 :: c)
     = if (inRange 1 12 (digitsToN b) && inRange 1 31 (digitsToN c))%bool
       then Some (isoDate (digitsToN a) (pad2 (digitsToN b)) (pad2 (digitsToN c)))
       else None)
    /\ (digitsOf 1 2 a = true -> digitsOf 1 2 b = true -> digitsOf 2 4 c = true ->
        parseDateStr (a ++ s1 :: b ++ s2 :: c)
        = if (inRange 1 12 (digitsToN b) && inRange 1 31 (digitsToN a))%bool
          then Some (isoDate (fullYear (digitsToN c))
                             (pad2 (digitsToN b)) (pad2 (digitsToN a)))
          else None).
Proof.
  intros a b c s1 s2 H1 H2. split; intros Ha Hb Hc;
    apply digitsOf_spec in Ha, Hb, Hc;
    destruct Ha as (Da & La), Hb as (Db & Lb), Hc as (Dc & Lc).
  - destruct a as [|a1 [|a2 [|a3 [|a4 [|a5 a]]]]]; cbn [length] in La; try lia.
    destruct b as [|b1 [|b2 [|b3 b]]]; cbn [length] in Lb; try lia;
      destruct c as [|c1 [|c2 [|c3 c]]]; cbn [length] in Lc; try lia;
      cbn [forallb] in Da, Db, Dc; split_conjunctions;
      destruct (isDateSep_cases _ H1) as [-> | [-> | ->]];
      destruct (isDateSep_cases _ H2) as [-> | [-> | ->]];
      cbn [app]; read_date; in_or_out.
  - destruct a as [|a1 [|a2 [|a3 a]]]; cbn [length] in La; try lia;
      destruct b as [|b1 [|b2 [|b3 b]]]; cbn [length] in Lb; try lia;
      destruct c as [|c1 [|c2 [|c3 [|c4 [|c5 c]]]]]; cbn [length] in Lc; try lia;
      cbn [forallb] in Da, Db, Dc; split_conjunctions;
      destruct (isDateSep_cases _ H1) as [-> | [-> | ->]];
      destruct (isDateSep_cases _ H2) as [-> | [-> | ->]];
      cbn [app]; read_date; in_or_out.
Qed.

Lemma lookupMonth_In (t : list (string * N)) (key : jsstring) (n : N) :
  lookupMonth t key = Some n -> exists k, In (k, n) t /\ key = str k.
Proof.
  induction t as [|[k v] t IH]; cbn [lookupMonth]; [discriminate|].
  destruct (str_eqb key (str k)) eqn:E.
  - intros H. inversion H; subst. exists k. split; [now left|]. now apply str_eqb_eq.
  - intros H. destruct (IH H) as (k' & Hk & ->). exists k'. split; [now right | reflexivity].
Qed.

Lemma monthTable_letters :
  Forall (fun kv => forallb isMonthLetter (str (fst kv)) = true) monthTable.
Proof.
  unfold monthTable. repeat constructor.
Qed.

(** A text whose lower case is made of lower-case letters other than [k] is
    made of letters, as many. *)
Lemma toLowerCase_letters (w : jsstring) :
  forallb isMonthLetter (toLowerCase w) = true ->
  forallb isAlpha w = true /\ length (toLowerCase w) = length w.
Proof.
  unfold toLowerCase. induction w as [|c w IH]; [split; reflexivity|].
  cbn [flat_map]. rewrite forallb_app, length_app. intros H.
  apply andb_prop in H. destruct H as (Hc & Hw). destruct (IH Hw) as (IH1 & IH2).
  cbn [forallb length]. rewrite IH1, IH2, andb_true_r.
  unfold lowerChar in Hc |- *. unfold isAlpha.
  destruct (isUpper c) eqn:U; [split; reflexivity|].
  destruct (N.eqb c 0x212a) eqn:K.
  { cbn in Hc. discriminate. }
  destruct (N.eqb c 0x130) eqn:I.
  { cbn in Hc. discriminate. }
  cbn [forallb] in Hc. rewrite andb_true_r in Hc. unfold isMonthLetter in Hc.
  apply andb_prop in Hc. destruct Hc as (L & _). rewrite L. split; reflexivity.
Qed.

Ltac name_month :=
  match goal with
  | E : toLowerCase ?w = _ |- context [toLowerCase ?w] => rewrite E
  end;
  match goal with
  | |- context [monthMap ?x] =>
      let v := eval vm_compute in (monthMap x) in
      replace (monthMap x) with v by (vm_compute; reflexivity)
  end;
  cbn [monthTruthy pad2Month negb N.eqb andb].

(** X19.  The dates written with the name of the month.  One or two
    digits, a space, a name, a space and two to four digits are read as day,
    month and year when the name, in lower case, is one of the thirteen of
    [monthMap], each of three letters but for [sept]: the date is that of the
    month of the name when the day is from 1 to 31, whatever the month, and is
    refused otherwise.  Capital and small letters are the same, and a year
    below 100 is counted from 2000. *)
Theorem dates_with_the_name_of_the_month :
  forall (d w y : jsstring) (mo : N),
    digitsOf 1 2 d = true ->
    lookupMonth monthTable (toLowerCase w) = Some mo ->
    digitsOf 2 4 y = true ->
    parseDateStr (d ++ 32%N :: w ++ 32%N :: y)
    = if inRange 1 31 (digitsToN d)
      then Some (isoDate (fullYear (digitsToN y)) (pad2 mo) (pad2 (digitsToN d)))
      else None.
Proof.
  intros d w y mo Hd Hw Hy.
  apply digitsOf_spec in Hd, Hy.
  destruct Hd as (Dd & Ld), Hy as (Dy & Ly).
  destruct (lookupMonth_In _ _ Hw) as (k & Hk & E).
  assert (L : forallb isMonthLetter (toLowerCase w) = true).
  { rewrite E. pose proof monthTable_letters as M. rewrite Forall_forall in M.
    exact (M _ Hk). }
  destruct (toLowerCase_letters _ L) as (A & Len). rewrite E in Len.
  clear Hw L.
  unfold monthTable in Hk. cbn [In] in Hk.
  repeat (destruct Hk as [Hk|Hk];
          [inversion Hk; subst k mo; clear Hk;
           (destruct w as [|w1 [|w2 [|w3 [|w4 [|w5 w]]]]]; try discriminate Len);
           cbn [forallb] in A; split_conjunctions;
           (destruct d as [|d1 [|d2 [|d3 d]]]; cbn [length] in Ld; try lia);
           (destruct y as [|y1 [|y2 [|y3 [|y4 [|y5 y]]]]]; cbn [length] in Ly; try lia);
           cbn [forallb] in Dd, Dy; split_conjunctions;
           cbn [app]; read_date; name_month; in_or_out
          |]).
  contradiction.
Qed.

(* ------------------------------------------------------------------------- *)
(** ** The type of a transaction *)

(** A sequence of tests on single code units matches at [i] only where the
    text has code units that pass them, one after the other. *)
Lemma run_chars (s : jsstring) (R : Type) (ps : list (char -> bool)) :
  forall i c (k : nat -> captures -> option R) x,
    run s (seqs (map Char ps)) i c k = Some x ->
    exists seg rest, skipn i s = seg ++ rest /\ Forall2 (fun p y => p y = true) ps seg.
Proof.
  induction ps as [|p ps IH]; intros i c k x H.
  - exists [], (skipn i s). split; [reflexivity | constructor].
  - assert (H' : run s (Seq (Char p) (seqs (map Char ps))) i c k = Some x).
    { destruct ps as [|q ps]; [|exact H]. cbn [map seqs run] in H |- *.
      destruct (nth_error s i) as [y|]; [|discriminate].
      destruct (p y); [exact H | discriminate]. }
    clear H. cbn [run] in H'.
    destruct (nth_error s i) as [y|] eqn:E; [|discriminate].
    destruct (p y) eqn:P; [|discriminate].
    destruct (IH _ _ _ _ H') as (seg & rest & Hs & Hf).
    exists (y :: seg), rest. split.
    + rewrite (skipn_head _ _ E), Hs. reflexivity.
    + constructor; assumption.
Qed.

Lemma lowerChar_of_letter (c y : char) :
  isLower c = true -> N.eqb (canon y) (canon c) = true -> lowerChar y = [c].
Proof.
  intros Hc H. apply N.eqb_eq in H. unfold canon in H. rewrite Hc in H.
  unfold isLower in Hc. apply andb_prop in Hc. destruct Hc as (C1 & C2).
  apply N.leb_le in C1, C2.
  unfold lowerChar. destruct (isLower y) eqn:Ly.
  - unfold isLower in Ly. apply andb_prop in Ly. destruct Ly as (L1 & L2).
    apply N.leb_le in L1, L2. assert (y = c) by lia. subst y.
    replace (isUpper c) with false
      by (symmetry; unfold isUpper; apply andb_false_iff; right; apply N.leb_gt; lia).
    replace (N.eqb c 8490) with false by (symmetry; apply N.eqb_neq; lia).
    replace (N.eqb c 304) with false by (symmetry; apply N.eqb_neq; lia).
    reflexivity.
  - subst y.
    replace (isUpper (c - 32)%N) with true
      by (symmetry; unfold isUpper; apply andb_true_intro; split; apply N.leb_le; lia).
    f_equal. lia.
Qed.

Lemma toLowerCase_of_match (cs seg : jsstring) :
  Forall2 (fun (p : char -> bool) y => p y = true)
          (map (fun c x => N.eqb (canon x) (canon c)) cs) seg ->
  forallb isLower cs = true -> toLowerCase seg = cs.
Proof.
  revert seg. induction cs as [|c cs IH]; intros seg Hf Hl.
  - inversion Hf. reflexivity.
  - cbn [map] in Hf. inversion Hf as [|p y ps seg' Hy Hf' E1 E2]; subst.
    cbn [forallb] in Hl. apply andb_prop in Hl. destruct Hl as (Hc & Hl).
    unfold toLowerCase. cbn [flat_map]. fold (toLowerCase seg').
    rewrite (lowerChar_of_letter c y Hc Hy), (IH _ Hf' Hl). reflexivity.
Qed.

(** A word found without regard to case is found in the lower-case text. *)
Lemma wordi_includes (w : string) (s : jsstring) :
  forallb isLower (str w) = true ->
  test (wordi w) s = true -> includes (toLowerCase s) (str w) = true.
Proof.
  intros Hw H. unfold test in H.
  destruct (search (wordi w) s 0) as [[[a b] c]|] eqn:E; [|discriminate].
  destruct (search_found _ _ _ E) as (_ & M & _).
  unfold matchAt, wordi, liti in M. rewrite <- map_map in M.
  destruct (run_chars _ _ _ _ _ M) as (seg & rest & Hs & Hf).
  assert (L : toLowerCase seg = str w) by (now apply toLowerCase_of_match).
  apply includes_infix. exists (toLowerCase (firstn a s)), (toLowerCase rest).
  rewrite <- L. unfold toLowerCase. rewrite <- !flat_map_app. f_equal.
  rewrite <- Hs. symmetry. apply firstn_skipn.
Qed.

Lemma matchAt_test (r : regex) (s : jsstring) (a : nat) (x : nat * captures) :
  a <= length s -> matchAt r s a = Some x -> test r s = true.
Proof.
  intros Ha M. unfold test. destruct (search r s 0) as [y|] eqn:E; [reflexivity|].
  rewrite (@search_nowhere _ _ _ E a) in M by lia. discriminate.
Qed.

Lemma test_Alt_inv (r1 r2 : regex) (s : jsstring) :
  test (Alt r1 r2) s = true -> test r1 s = true \/ test r2 s = true.
Proof.
  unfold test at 1. destruct (search (Alt r1 r2) s 0) as [[[a b] c]|] eqn:E; [|discriminate].
  intros _. destruct (search_found _ _ _ E) as (Ha & M & _).
  unfold matchAt in M. cbn [run] in M.
  destruct (run s r1 a [] (fun j c0 => Some (j, c0))) as [x|] eqn:R1.
  - left. apply (@matchAt_test r1 s a x); [lia | exact R1].
  - right. apply (@matchAt_test r2 s a (b, c)); [lia | exact M].
Qed.

Lemma includes_shorter (s p q : jsstring) :
  includes s (p ++ q) = true -> includes s p = true.
Proof.
  intros H. apply includes_infix in H. destruct H as (a & b & ->).
  apply includes_infix. exists a, (q ++ b). now rewrite <- !app_assoc.
Qed.

(** The words of the last test of the type inference are credit keywords,
    or contain one. *)
Lemma credit_words_are_keywords (line : jsstring) :
  test reCreditWords line = true ->
  hasKeyword (toLowerCase line) creditKeywords = true.
Proof.
  intros H. unfold reCreditWords, anyWordi in H. cbn [map alts] in H.
  unfold hasKeyword. apply existsb_exists.
  apply test_Alt_inv in H. destruct H as [H|H].
  { exists "refund"%string. split; [simpl; tauto|]. now apply wordi_includes. }
  apply test_Alt_inv in H. destruct H as [H|H].
  { exists "reversal"%string. split; [simpl; tauto|]. now apply wordi_includes. }
  apply test_Alt_inv in H. destruct H as [H|H].
  { exists "interest"%string. split; [simpl; tauto|]. now apply wordi_includes. }
  apply test_Alt_inv in H. destruct H as [H|H].
  { exists "salary"%string. split; [simpl; tauto|]. now apply wordi_includes. }
  exists "credit"%string. split; [simpl; tauto|].
  apply (@includes_shorter _ (str "credit") (str "ed")).
  now apply (@wordi_includes "credited").
Qed.

(** X20.  The type of a transaction follows from the signs of the amount
    and the keywords of the line alone.  It is [credit] when the amount has a
    [+] or the line a credit keyword, unless the amount is negative and there
    is a sign of a debit as well, parentheses, a minus or a debit keyword; it
    is [debit] in every other case.  The last test of the inference, for
    [refund], [reversal], [interest], [salary] and [credited], never makes a
    credit: a line with one of these words has a credit keyword. *)
Theorem type_follows_signs_and_keywords :
  forall (line amtRaw : jsstring) (amt : number),
    let lower := toLowerCase line in
    let debitSign :=
      (test reAnyParen amtRaw || test reMinusDigit amtRaw
       || hasKeyword lower debitKeywords)%bool in
    let creditSign := (test rePlusSign amtRaw || hasKeyword lower creditKeywords)%bool in
    inferType line amtRaw amt
    = if creditSign
      then if (debitSign && PrimFloat.ltb amt 0)%bool then str "debit" else str "credit"
      else str "debit".
Proof.
  intros line amtRaw amt lower debitSign creditSign.
  unfold inferType. fold lower. fold debitSign. fold creditSign.
  destruct creditSign eqn:C.
  - destruct debitSign; [|reflexivity]. cbn [andb].
    destruct (PrimFloat.ltb amt 0); reflexivity.
  - destruct debitSign; [reflexivity|].
    destruct (test reCreditWords line) eqn:T; [|reflexivity].
    apply credit_words_are_keywords in T. fold lower in T.
    unfold creditSign in C. rewrite T, orb_true_r in C. discriminate.
Qed.

(* ------------------------------------------------------------------------- *)
(** ** The confidence of a transaction *)

Lemma confidenceScore_values (hasCategory : bool) (descLen : nat) :
  confidenceScore true true true hasCategory descLen
  = if hasCategory
    then if 3 <? descLen then 1%float else 0.95%float
    else if 3 <? descLen then 0.9%float else 0.85%float.
Proof.
  unfold confidenceScore. destruct hasCategory, (3 <? descLen); vm_compute; reflexivity.
Qed.

Lemma parseLine_confidence (fuel : nat) (sid now line : jsstring) (tx : Transaction) :
  parseLine fuel sid now line = Some (Extracted tx) ->
  exists cat descLen,
    category tx = Some cat
    /\ confidence tx
       = if str_eqb cat (str "other")
         then if 3 <? descLen then 0.9%float else 0.85%float
         else if 3 <? descLen then 1%float else 0.95%float.
Proof.
  intros H. apply parseLine_extracted in H.
  destruct H as (d & caps & iso & raw & amt & _ & _ & _ & _ & _ & _ & Ht & Hcat & Hc).
  exists (categorize (orStr (describe line d raw) line)),
         (length (orStr (describe line d raw) [])).
  split; [assumption|]. rewrite Hc, Ht.
  replace (truthy (inferType line raw amt)) with true
    by (destruct (inferType_cases line raw amt) as [-> | ->]; reflexivity).
  pose proof categoryNames_plain as P. rewrite Forall_forall in P.
  destruct (P _ (categorize_named (orStr (describe line d raw) line))) as (T & _).
  rewrite T. cbn [andb]. rewrite confidenceScore_values.
  destruct (str_eqb (categorize (orStr (describe line d raw) line)) (str "other"));
    reflexivity.
Qed.

(** X21.  The confidence of a transaction takes four values only, and is
    never below 0.85: a type is always inferred, so the score is 0.85 for the
    date, the amount and the type, and 0.1 more when the category is not
    ['other'], and 0.05 more when the description found is longer than three
    code units.  With the category ['other'] it is 0.85 or 0.9, with any other
    category 0.95 or 1. *)
Theorem confidence_takes_four_values :
  forall (clock : nat -> jsstring) (rawText sid : jsstring),
  exists txs summary,
    parseTransactions clock rawText sid = Some (txs, summary)
    /\ Forall (fun tx =>
                 PrimFloat.leb 0.85 (confidence tx) = true
                 /\ (category tx = Some (str "other") ->
                     In (confidence tx) [0.85; 0.9]%float)
                 /\ (category tx <> Some (str "other") ->
                     In (confidence tx) [0.95; 1]%float)) txs.
Proof.
  intros clock rawText sid.
  apply parseTransactions_Forall.
  intros fuel sid0 now line tx H.
  destruct (parseLine_confidence _ _ _ _ H) as (cat & n & Hcat & Hc).
  rewrite Hc, Hcat.
  destruct (str_eqb cat (str "other")) eqn:E.
  - apply str_eqb_eq in E. subst cat.
    destruct (3 <? n); (split; [reflexivity|]); split; intros X;
      try (simpl; tauto); now destruct X.
  - apply str_eqb_neq in E.
    destruct (3 <? n); (split; [reflexivity|]); split; intros X;
      try (simpl; tauto); inversion X; contradiction.
Qed.

(* ------------------------------------------------------------------------- *)
(** ** The words stored in the amount pattern *)

(** Two code units that a pattern with the flag [i] takes for one another
    have the same lower case. *)
Lemma lowerChar_canon (c y : char) : canon y = canon c -> lowerChar y = lowerChar c.
Proof.
  unfold canon, lowerChar, isLower, isUpper.
  destruct (N.leb_spec 97 y), (N.leb_spec y 122), (N.leb_spec 97 c), (N.leb_spec c 122);
    cbn [andb]; intros Hcanon;
    destruct (N.leb_spec 65 y), (N.leb_spec y 90), (N.leb_spec 65 c), (N.leb_spec c 90);
    cbn [andb]; try lia;
    destruct (N.eqb_spec y 8490), (N.eqb_spec y 304), (N.eqb_spec c 8490),
             (N.eqb_spec c 304); try lia;
    try (f_equal; lia); try (subst; reflexivity).
Qed.

Lemma toLowerCase_canon (cs seg : jsstring) :
  Forall2 (fun (p : char -> bool) y => p y = true)
          (map (fun c x => N.eqb (canon x) (canon c)) cs) seg ->
  toLowerCase seg = toLowerCase cs.
Proof.
  revert seg. induction cs as [|c cs IH]; intros seg Hf.
  - inversion Hf. reflexivity.
  - cbn [map] in Hf. inversion Hf as [|p y ps seg' Hy Hf' E1 E2]; subst.
    unfold toLowerCase. cbn [flat_map]. fold (toLowerCase seg') (toLowerCase cs).
    apply N.eqb_eq in Hy. rewrite (@lowerChar_canon _ _ Hy), (IH _ Hf'). reflexivity.
Qed.

(** What follows the first part of a sequence is matched further on. *)
Lemma run_Seq_tail (R : Type) (s : jsstring) (r1 r2 : regex) (i : nat) (c : captures)
      (k : nat -> captures -> option R) (x : R) :
  i <= length s -> run s (Seq r1 r2) i c k = Some x ->
  exists j c', j <= length s /\ run s r2 j c' k = Some x.
Proof.
  intros Hi H. cbn [run] in H.
  destruct (@RegexFacts.run_reaches _ _ _ _ _ _ _ Hi H) as (j & c' & _ & Hj & Hk).
  exists j, c'. split; assumption.
Qed.

(** A word of a pattern with the flag [i], found at [i], is in the lower case
    of the string. *)
Lemma run_wordi_includes (R : Type) (w : string) (s : jsstring) (i : nat) (c : captures)
      (k : nat -> captures -> option R) (x : R) :
  run s (wordi w) i c k = Some x ->
  includes (toLowerCase s) (toLowerCase (str w)) = true.
Proof.
  intros M. unfold wordi, liti in M. rewrite <- map_map in M.
  destruct (@run_chars _ _ _ _ _ _ _ M) as (seg & rest & Hs & Hf).
  assert (L := @toLowerCase_canon _ _ Hf).
  apply includes_infix. exists (toLowerCase (firstn i s)), (toLowerCase rest).
  rewrite <- L. unfold toLowerCase. rewrite <- !flat_map_app. f_equal.
  rewrite <- Hs. symmetry. apply firstn_skipn.
Qed.

(** Every match of [amtPattern] holds the letters [KATEX_INLINE_CLOS], in
    either case. *)
Lemma amtPattern_needs_the_letters (s : jsstring) (i a b : nat) (c : captures) :
  search amtPattern s i = Some (a, b, c) ->
  includes (toLowerCase s) (str "katex_inline_clos") = true.
Proof.
  intros H. destruct (search_found _ _ _ H) as (Ha & M & _).
  unfold matchAt, amtPattern in M. cbn [seqs] in M.
  assert (H0 : a <= length s) by lia.
  destruct (@run_Seq_tail _ _ _ _ _ _ _ _ H0 M) as (j1 & c1 & H1 & M1).
  destruct (@run_Seq_tail _ _ _ _ _ _ _ _ H1 M1) as (j2 & c2 & H2 & M2).
  destruct (@run_Seq_tail _ _ _ _ _ _ _ _ H2 M2) as (j3 & c3 & H3 & M3).
  destruct (@run_Seq_tail _ _ _ _ _ _ _ _ H3 M3) as (j4 & c4 & H4 & M4).
  cbn [run] in M4.
  exact (@run_wordi_includes _ _ _ _ _ _ _ M4).
Qed.

Lemma amountMatches_without_a_match (line : jsstring) :
  (forall i, search amtPattern line i = None) ->
  forall fuel i acc l, amountMatches fuel line i acc = Some l -> l = acc.
Proof.
  intros H fuel i acc l. destruct fuel as [|fuel]; cbn [amountMatches]; [discriminate|].
  rewrite H. congruence.
Qed.

(** A line without the letters has no amount, and is skipped. *)
Lemma parseLine_needs_the_letters (fuel : nat) (sid now line : jsstring) (tx : Transaction) :
  parseLine fuel sid now line = Some (Extracted tx) ->
  includes (toLowerCase line) (str "katex_inline_clos") = true.
Proof.
  intros H. destruct (includes (toLowerCase line) (str "katex_inline_clos")) eqn:E;
    [reflexivity|exfalso].
  assert (N : forall i, search amtPattern line i = None).
  { intros i. destruct (search amtPattern line i) as [[[a b] c]|] eqn:S; [|reflexivity].
    apply amtPattern_needs_the_letters in S. congruence. }
  unfold parseLine in H.
  destruct (matchFirst datePattern line) as [[dateStrRaw caps]|]; [|discriminate].
  destruct (parseDateStr dateStrRaw) as [dateISO|]; [|discriminate].
  destruct (amountMatches fuel line 0 []) as [l|] eqn:A; [|discriminate].
  apply (@amountMatches_without_a_match _ N) in A. subst l. discriminate.
Qed.

Lemma search_without_the_letters (line : jsstring) :
  includes (toLowerCase line) (str "katex_inline_clos") = false ->
  forall i, search amtPattern line i = None.
Proof.
  intros E i. destruct (search amtPattern line i) as [[[a b] c]|] eqn:S; [|reflexivity].
  apply amtPattern_needs_the_letters in S. congruence.
Qed.

(* ------------------------------------------------------------------------- *)
(** ** The scenarios of the specification *)

(** C1 (scenario A) fails.  [amtPattern] holds the words [KATEX_INLINE_OPEN]
    and [KATEX_INLINE_CLOSE] where an opening and a closing parenthesis were
    meant, and every match of it ends with the letters [KATEX_INLINE_CLOS]: the
    line ["12/01/2024 SALARY CREDIT 50,000.00"] has a date, read as
    ["2024-01-12"], but no amount, and is skipped.  No statement gives a
    transaction from a line without these letters.  With the letters before
    and after the amount the line gives the transaction of the scenario; with
    the closing word only, the amount is read from [000.00] and is 0. *)
Theorem scenario_A_line_is_skipped :
  forall (clock : nat -> jsstring) (sid : jsstring),
    let line := str "12/01/2024 SALARY CREDIT 50,000.00" in
    parseTransactions clock line sid
      = Some ([], {| linesScanned := 1; transactionsExtracted := 0;
                     skippedLines := 1; examplesOfSkipped := [line] |})
    /\ (exists caps, matchFirst datePattern line = Some (str "12/01/2024", caps))
    /\ parseDateStr (str "12/01/2024") = Some (str "2024-01-12")
    /\ (forall i, search amtPattern line i = None)
    /\ (forall rawText, exists txs sm,
          parseTransactions clock rawText sid = Some (txs, sm)
          /\ Forall (fun tx => includes (toLowerCase (rawLine tx))
                                        (str "katex_inline_clos") = true) txs)
    /\ (exists tx sm,
          parseTransactions clock
            (str "12/01/2024 SALARY CREDIT KATEX_INLINE_OPE50,000.00KATEX_INLINE_CLOS") sid
            = Some ([tx], sm)
          /\ date tx = Some (str "2024-01-12")
          /\ type tx = str "credit"
          /\ category tx = Some (str "salary")
          /\ amount tx = 50000%float)
    /\ (exists tx sm,
          parseTransactions clock
            (str "12/01/2024 SALARY CREDIT 50,000.00KATEX_INLINE_CLOSE") sid
            = Some ([tx], sm)
          /\ date tx = Some (str "2024-01-12")
          /\ type tx = str "credit"
          /\ category tx = Some (str "salary")
          /\ amount tx = 0%float).
Proof.
  intros clock sid line.
  split; [vm_compute; reflexivity|].
  split; [eexists; vm_compute; reflexivity|].
  split; [vm_compute; reflexivity|].
  split; [apply search_without_the_letters; vm_compute; reflexivity|].
  split.
  - intros rawText. apply parseTransactions_Forall.
    intros fuel sid0 now line0 tx H.
    destruct (@parseLine_rawLine _ _ _ _ _ H) as (E & _). rewrite E.
    exact (@parseLine_needs_the_letters _ _ _ _ _ H).
  - split; eexists; eexists; (split; [vm_compute; reflexivity|]);
      repeat split; vm_compute; reflexivity.
Qed.

(** C6 (scenario B) fails.  The line
    ["2024-03-05 ATM WITHDRAWAL (2,500.00)"] has no amount for [amtPattern],
    which asks for the letters [KATEX_INLINE_CLOS], and is skipped.  Nor do
    parentheses make an amount negative: [toNumber] looks for the word
    [KATEX_INLINE_OPEN] and reads [(2,500.00)] as 2500; it is the word that
    gives -2500.  With the two words for the parentheses the line gives the
    transaction of the scenario.  The sign decides the type where the key
    words disagree: [ATM REFUND] is a debit when the amount opens with the
    word and a credit when it does not; in both cases the absolute value is
    stored. *)
Theorem scenario_B_line_is_skipped :
  forall (clock : nat -> jsstring) (sid : jsstring),
    let line := str "2024-03-05 ATM WITHDRAWAL (2,500.00)" in
    parseTransactions clock line sid
      = Some ([], {| linesScanned := 1; transactionsExtracted := 0;
                     skippedLines := 1; examplesOfSkipped := [line] |})
    /\ (exists caps, matchFirst datePattern line = Some (str "2024-03-05", caps))
    /\ parseDateStr (str "2024-03-05") = Some (str "2024-03-05")
    /\ (forall i, search amtPattern line i = None)
    /\ toNumber (str " (2,500.00)") = Some 2500%float
    /\ toNumber (str " KATEX_INLINE_OPEN2,500.00KATEX_INLINE_CLOSE") = Some (-2500)%float
    /\ (exists tx sm,
          parseTransactions clock
            (str "2024-03-05 ATM WITHDRAWAL KATEX_INLINE_OPEN2,500.00KATEX_INLINE_CLOSE")
            sid
            = Some ([tx], sm)
          /\ date tx = Some (str "2024-03-05")
          /\ type tx = str "debit"
          /\ category tx = Some (str "atm-withdrawal")
          /\ amount tx = 2500%float)
    /\ (exists tx sm,
          parseTransactions clock
            (str "2024-03-05 ATM REFUND KATEX_INLINE_OPEN2,500.00KATEX_INLINE_CLOSE") sid
            = Some ([tx], sm)
          /\ type tx = str "debit"
          /\ amount tx = 2500%float)
    /\ (exists tx sm,
          parseTransactions clock
            (str "2024-03-05 ATM REFUND KATEX_INLINE_OPE2,500.00KATEX_INLINE_CLOSE") sid
            = Some ([tx], sm)
          /\ type tx = str "credit"
          /\ amount tx = 2500%float).
Proof.
  intros clock sid line.
  split; [vm_compute; reflexivity|].
  split; [eexists; vm_compute; reflexivity|].
  split; [vm_compute; reflexivity|].
  split; [apply search_without_the_letters; vm_compute; reflexivity|].
  split; [vm_compute; reflexivity|].
  split; [vm_compute; reflexivity|].
  split; [|split]; eexists; eexists; (split; [vm_compute; reflexivity|]);
    repeat split; vm_compute; reflexivity.
Qed.

(* ------------------------------------------------------------------------- *)
(** ** The months and the categories of a report *)

Lemma monthlyTrends_months (localeCompare : jsstring -> jsstring -> comparison)
      (Summary : Type) (sid : jsstring) (txs : list Transaction) (summary : Summary)
      (m : jsstring) :
  In m (map Trend.month
          (Report.monthlyTrends (computeAnalytics localeCompare sid txs summary)))
  <-> m <> [] /\ exists t, In t txs /\ monthKey t = m.
Proof.
  assert (P := @monthlyTrends_entries localeCompare Summary sid txs summary).
  apply (Permutation_map Trend.month) in P. rewrite map_map in P.
  change (map (fun x : jsstring * Totals => Trend.month (trendOf x)))
    with (map (@fst jsstring Totals)) in P.
  destruct (@byMonth_keys txs [] (NoDup_nil _) (fun H => H)) as [_ Hk].
  split.
  - intros H. apply (Permutation_in _ P), Hk in H. destruct H as [[]|H]. exact H.
  - intros H. apply (Permutation_in _ (Permutation_sym P)), Hk. now right.
Qed.

Lemma byCategory_categories (localeCompare : jsstring -> jsstring -> comparison)
      (Summary : Type) (sid : jsstring) (txs : list Transaction) (summary : Summary)
      (k : jsstring) :
  In k (map fst (Report.byCategory (computeAnalytics localeCompare sid txs summary)))
  <-> k <> str "__proto__" /\ exists t, In t txs /\ categoryKey t = k.
Proof.
  unfold computeAnalytics. cbn [Report.byCategory]. rewrite byCategory_fold.
  cbn [initialState byCategory].
  assert (M := objectMapRound2_keys (fold_left addCategory txs [])).
  destruct (@byCategory_keys txs [] (NoDup_nil _) (fun H => H)) as [_ Hk].
  split.
  - intros H. apply (Permutation_in _ M), Hk in H. destruct H as [[]|H]. exact H.
  - intros H. apply (Permutation_in _ (Permutation_sym M)), Hk. now right.
Qed.

(* ------------------------------------------------------------------------- *)
(** ** A transaction without a date *)

Lemma sumAmounts_sumOf (txs : list Transaction) : sumAmounts txs = sumOf (map amount txs).
Proof.
  unfold sumAmounts, sumOf. generalize 0%float.
  induction txs as [|t txs IH]; intros z; cbn [fold_left map]; [reflexivity | apply IH].
Qed.

Lemma creditAmounts_split (before after : list Transaction) (t : Transaction) :
  creditAmounts (before ++ t :: after)
  = creditAmounts before ++ (if isCredit t then [amount t] else []) ++ creditAmounts after.
Proof.
  unfold creditAmounts. rewrite filter_app, map_app. cbn [filter].
  destruct (isCredit t); reflexivity.
Qed.

Lemma otherAmounts_split (before after : list Transaction) (t : Transaction) :
  otherAmounts (before ++ t :: after)
  = otherAmounts before ++ (if isCredit t then [] else [amount t]) ++ otherAmounts after.
Proof.
  unfold otherAmounts. rewrite filter_app, map_app. cbn [filter].
  destruct (isCredit t); reflexivity.
Qed.

(** The loop reads the date for [byMonth] and for the entries of [expenses]
    only. *)
Lemma fold_withDate (A : Type) (f : A -> Transaction -> A) (d : option jsstring)
      (t : Transaction) (before after : list Transaction) (z : A) :
  (forall a, f a (withDate d t) = f a t) ->
  fold_left f (before ++ withDate d t :: after) z = fold_left f (before ++ t :: after) z.
Proof. intros H. rewrite !fold_left_app. cbn [fold_left]. now rewrite H. Qed.

Section Undated.

Variable localeCompare : jsstring -> jsstring -> comparison.
Variable Summary : Type.

(** C9.  A transaction whose date is absent or empty is counted everywhere
    but in the monthly trends.  Its amount is a term of the sum that
    [totalIncome] or [totalExpense] rounds, according to its type, of the sum
    that [avgTransactionAmount] divides by the number of transactions, itself
    counted, and of the sum under its category in [byCategory]; these outputs
    are what they would be had it any date.  The monthly trends are those of
    the list without it: they have one entry for each month of the other
    transactions, none for its own, and the sums of every entry are taken over
    the other transactions. *)
Theorem undated_transaction_only_misses_trends :
  forall (sid : jsstring) (summary : Summary) (before after : list Transaction)
         (t : Transaction),
    undated t ->
    let all := before ++ t :: after in
    let r := computeAnalytics localeCompare sid all summary in
    Report.monthlyTrends r
      = Report.monthlyTrends
          (computeAnalytics localeCompare sid (before ++ after) summary)
    /\ Report.totalIncome r
       = round2 (income (fold_left addTransaction all zeroTotals))
    /\ Report.totalExpense r
       = round2 (expense (fold_left addTransaction all zeroTotals))
    /\ Report.byCategory r = objectMapRound2 (fold_left addCategory all [])
    /\ Report.transactionCount r = S (length before + length after)
    /\ Report.avgTransactionAmount r
       = round2 (sumAmounts all / ofZ (Z.of_nat (length all)))%float
    /\ In t all
    /\ Report.totalIncome r
       = round2 (sumOf (creditAmounts before
                        ++ (if isCredit t then [amount t] else [])
                        ++ creditAmounts after))
    /\ Report.totalExpense r
       = round2 (sumOf (otherAmounts before
                        ++ (if isCredit t then [] else [amount t])
                        ++ otherAmounts after))
    /\ Report.avgTransactionAmount r
       = round2 (sumOf (map amount before ++ amount t :: map amount after)
                 / ofZ (Z.of_nat (S (length before + length after))))%float
    /\ (categoryKey t <> str "__proto__" ->
        exists v,
          In (categoryKey t, v) (Report.byCategory r)
          /\ (Forall (fun t' => notNegative (amount t')) all ->
              inheritedMethod (categoryKey t) = false ->
              v = round2 (sumOf (map amount (filter (inCategory (categoryKey t)) before)
                                 ++ amount t
                                    :: map amount
                                         (filter (inCategory (categoryKey t)) after)))))
    /\ (forall d : option jsstring,
          let r' := computeAnalytics localeCompare sid
                      (before ++ withDate d t :: after) summary in
          Report.totalIncome r' = Report.totalIncome r
          /\ Report.totalExpense r' = Report.totalExpense r
          /\ Report.net r' = Report.net r
          /\ Report.byCategory r' = Report.byCategory r
          /\ Report.transactionCount r' = Report.transactionCount r
          /\ Report.avgTransactionAmount r' = Report.avgTransactionAmount r)
    /\ Forall (fun tr =>
                 Trend.month tr <> monthKey t
                 /\ Trend.income tr
                    = round2 (sumOf (creditAmounts
                                       (filter (inMonth (Trend.month tr)) (before ++ after))))
                 /\ Trend.expense tr
                    = round2 (sumOf (otherAmounts
                                       (filter (inMonth (Trend.month tr)) (before ++ after)))))
              (Report.monthlyTrends r)
    /\ (forall m, In m (map Trend.month (Report.monthlyTrends r))
                  <-> m <> [] /\ exists t', In t' (before ++ after) /\ monthKey t' = m).
Proof.
  intros sid summary before after t Hu all r.
  assert (Hm : Report.monthlyTrends r
               = Report.monthlyTrends
                   (computeAnalytics localeCompare sid (before ++ after) summary)).
  { subst r all. unfold computeAnalytics. cbn [Report.monthlyTrends].
    rewrite !byMonth_fold. cbn [initialState byMonth].
    rewrite !fold_left_app. cbn [fold_left]. now rewrite (addMonth_undated _ Hu). }
  assert (Hc : Report.transactionCount r = S (length before + length after)).
  { subst r all. unfold computeAnalytics. cbn [Report.transactionCount].
    rewrite length_app. cbn [length]. lia. }
  assert (Hl : length all = S (length before + length after)).
  { subst all. rewrite length_app. cbn [length]. lia. }
  assert (Ha : Report.avgTransactionAmount r
               = round2 (sumAmounts all / ofZ (Z.of_nat (length all)))%float).
  { subst r. unfold computeAnalytics. cbn [Report.avgTransactionAmount Report.transactionCount].
    rewrite Hl. reflexivity. }
  destruct (@totals_are_rounded_sums localeCompare Summary sid all summary) as [TI TE].
  fold r in TI, TE.
  assert (Hb : Report.byCategory r = objectMapRound2 (fold_left addCategory all [])).
  { subst r. unfold computeAnalytics. cbn [Report.byCategory].
    rewrite byCategory_fold. reflexivity. }
  split; [exact Hm|].
  split; [subst r; unfold computeAnalytics; cbn [Report.totalIncome];
          rewrite sums_fold; reflexivity|].
  split; [subst r; unfold computeAnalytics; cbn [Report.totalExpense];
          rewrite sums_fold; reflexivity|].
  split; [exact Hb|].
  split; [exact Hc|].
  split; [exact Ha|].
  split; [subst all; apply in_or_app; right; now left|].
  split; [rewrite TI; unfold all; now rewrite creditAmounts_split|].
  split; [rewrite TE; unfold all; now rewrite otherAmounts_split|].
  split.
  { rewrite Ha, sumAmounts_sumOf, Hl. unfold all. rewrite map_app. reflexivity. }
  split.
  { intros Hp.
    assert (K : In (categoryKey t) (map fst (Report.byCategory r))).
    { apply byCategory_categories. split; [assumption|]. exists t. split; [|reflexivity].
      subst all. apply in_or_app. right. now left. }
    apply in_map_iff in K. destruct K as ([k v] & E & K). cbn [fst] in E. subst k.
    exists v. split; [exact K|]. intros Hn Hi.
    rewrite (@byCategory_entry localeCompare Summary sid all summary _ _ Hn Hi K).
    unfold all. rewrite filter_app, map_app. cbn [filter]. unfold inCategory at 2.
    rewrite str_eqb_refl. reflexivity. }
  split.
  { intros d r'. subst r r' all. unfold computeAnalytics.
    cbn [Report.totalIncome Report.totalExpense Report.net Report.byCategory
         Report.transactionCount Report.avgTransactionAmount].
    rewrite !sums_fold, !byCategory_fold. cbn [initialState sums byCategory].
    rewrite (@fold_withDate _ addTransaction d t before after zeroTotals (fun a => eq_refl)).
    rewrite (@fold_withDate _ addCategory d t before after [] (fun a => eq_refl)).
    assert (S : sumAmounts (before ++ withDate d t :: after) = sumAmounts (before ++ t :: after)).
    { unfold sumAmounts. apply fold_withDate. reflexivity. }
    rewrite S, !length_app. cbn [length]. repeat split. }
  rewrite Hm. split; [apply Forall_forall; intros tr Htr|].
  2: { intros m. apply monthlyTrends_months. }
  destruct (@monthlyTrends_sums localeCompare Summary sid (before ++ after) summary tr Htr)
    as [I E].
  split; [|split; assumption].
  apply (Permutation_in _ (@monthlyTrends_entries localeCompare Summary sid
                             (before ++ after) summary)) in Htr.
  apply in_map_iff in Htr. destruct Htr as ([m agg] & <- & Hin). cbn [trendOf Trend.month fst].
  assert (M : In m (map fst (fold_left addMonth (before ++ after) [])))
    by (apply in_map_iff; exists (m, agg); auto).
  apply (@byMonth_keys (before ++ after) [] (NoDup_nil _) (fun H => H)) in M.
  destruct M as [[]|[M _]].
  intros C. apply M. rewrite C.
  assert (T := undated_month Hu). unfold truthy in T.
  destruct (monthKey t); [reflexivity | discriminate T].
Qed.

End Undated.

(* ------------------------------------------------------------------------- *)
(** ** The rounding of the monetary outputs *)

(** [Math.round] takes a number half-way between two integers to the upper
    one. *)
Lemma nearestInteger_half (k : Z) :
  nearestInteger ((2 * k + 1) * 2 ^ 1073) = ((k + 1) * 2 ^ 1074)%Z.
Proof.
  unfold nearestInteger. f_equal.
  replace ((2 * k + 1) * 2 ^ 1073 + 2 ^ 1073)%Z with ((k + 1) * 2 ^ 1074)%Z.
  - apply Z.div_mul. apply Z.pow_nonzero; lia.
  - change (2 ^ 1074)%Z with (2 * 2 ^ 1073)%Z. lia.
Qed.

Section RoundedOutputs.

Variable localeCompare : jsstring -> jsstring -> comparison.
Variable Summary : Type.

(** C5, as amended.  Every monetary output of [computeAnalytics] is [round2]
    of the value accumulated for it: the totals are the rounded sums of the
    amounts of the credits and of the other transactions, [net] the rounded
    difference of the two sums, a value of [byCategory] the rounded sum of its
    category, with one key for each category, the amount of an entry of
    [top5Expenses] the rounded amount of a debit, the sums of a month the
    rounded sums of the month, with one entry for each month, and the average
    the rounded quotient of the sum of all amounts by their number, or the
    literal 0 for the empty list.  Over the reals [round2 v] is the multiple of
    0.01 nearest to [v + epsilon], the upper one of two equally near: it is
    round-half-away-from-zero of [v + epsilon] unless that is a negative tie,
    and a tie [v] itself goes up, away from zero when [v >= 0] and towards zero
    when [v < 0].  In binary64 [round2] of a number is a number, whose value is
    that of the four operations in turn, [Math.round] taking a half to the
    upper integer; it is infinite or the nearest number to [n / 100] for an
    integer [n]; [round2 0.125 = 0.13], [round2 (-0.125) = -0.12],
    [round2 (-0.125 - epsilon) = -0.12] through the tie -12.5, and
    [round2 1.005 = 1.01] although the number written 1.005 lies below the
    tie. *)
Theorem monetary_outputs_round_half_up :
  forall (sid : jsstring) (txs : list Transaction) (summary : Summary),
    let st := fold_left step txs initialState in
    let r := computeAnalytics localeCompare sid txs summary in
    (Report.totalIncome r = round2 (income (sums st))
     /\ Report.totalExpense r = round2 (expense (sums st))
     /\ Report.net r = round2 (income (sums st) - expense (sums st))%float
     /\ Report.byCategory r
        = map (fun kv => (fst kv, round2Cat (snd kv))) (ownEntries (byCategory st))
     /\ Forall (fun e => exists e0, In e0 (expenses st)
                         /\ Expense.amount e = round2 (Expense.amount e0))
               (Report.top5Expenses r)
     /\ Forall (fun tr => exists agg, In (Trend.month tr, agg) (byMonth st)
                          /\ Trend.income tr = round2 (income agg)
                          /\ Trend.expense tr = round2 (expense agg))
               (Report.monthlyTrends r)
     /\ Report.avgTransactionAmount r
        = match txs with
          | [] => 0%float
          | _ :: _ => round2 (sumAmounts txs / ofZ (Z.of_nat (length txs)))%float
          end)
    /\ (Report.totalIncome r = round2 (sumOf (creditAmounts txs))
        /\ Report.totalExpense r = round2 (sumOf (otherAmounts txs))
        /\ Report.net r
           = round2 (sumOf (creditAmounts txs) - sumOf (otherAmounts txs))%float
        /\ (forall k, In k (map fst (Report.byCategory r))
                      <-> k <> str "__proto__" /\ exists t, In t txs /\ categoryKey t = k)
        /\ (forall m, In m (map Trend.month (Report.monthlyTrends r))
                      <-> m <> [] /\ exists t, In t txs /\ monthKey t = m)
        /\ (forall k v, In (k, v) (Report.byCategory r) ->
              exists c, In (k, c) (byCategory st) /\ v = round2Cat c)
        /\ (forall k v, In (k, v) (Report.byCategory r) ->
              Forall (fun t => notNegative (amount t)) txs ->
              inheritedMethod k = false ->
              v = round2 (sumOf (map amount (filter (inCategory k) txs))))
        /\ Report.top5Expenses r
           = map roundExpense
               (firstn 5 (sort expenseAfter (map expenseOf (filter isDebit txs))))
        /\ Forall (fun e => exists t, In t txs /\ type t = str "debit"
                            /\ Expense.amount e = round2 (amount t))
                  (Report.top5Expenses r)
        /\ Forall (fun tr =>
                     Trend.income tr
                     = round2 (sumOf (creditAmounts (filter (inMonth (Trend.month tr)) txs)))
                     /\ Trend.expense tr
                        = round2 (sumOf (otherAmounts
                                           (filter (inMonth (Trend.month tr)) txs))))
                  (Report.monthlyTrends r)
        /\ Report.avgTransactionAmount r
           = match txs with
             | [] => 0%float
             | _ :: _ => round2 (sumOf (map amount txs) / ofZ (Z.of_nat (length txs)))%float
             end)
    /\ (forall v : Q, exists k : Z,
          (round2Exact v == inject_Z k / (100 # 1))%Q
          /\ (inject_Z k / (100 # 1) - (1 # 200) <= v + epsilonQ)%Q
          /\ (v + epsilonQ < inject_Z k / (100 # 1) + (1 # 200))%Q)
    /\ (forall v : Q,
          ~ (isTie (v + epsilonQ) /\ (v + epsilonQ < 0)%Q) ->
          (round2Exact v == roundHalfAwayFromZero2 (v + epsilonQ))%Q)
    /\ (forall v : Q, isTie v -> (round2Exact v == v + (1 # 200))%Q)
    /\ (forall v : Q, isTie v -> (0 <= v)%Q ->
                      (round2Exact v == roundHalfAwayFromZero2 v)%Q)
    /\ (forall v : Q, isTie v -> (v < 0)%Q ->
                      (round2Exact v == roundHalfAwayFromZero2 v + (1 # 100))%Q)
    /\ (forall x : number, isNaN x = false ->
          isNaN (round2 x) = false
          /\ (value (round2 x) = infValue \/ value (round2 x) = (- infValue)%Z
              \/ exists n : Z, value (round2 x) = nearestSigned (n * 2 ^ 1074) 100))
    /\ (forall x : number, isNaN x = false ->
          value (round2 x) = round2Value (value x)
          /\ value (mathRound x) = saturating nearestInteger (value x))
    /\ (forall k : Z, nearestInteger ((2 * k + 1) * 2 ^ 1073) = ((k + 1) * 2 ^ 1074)%Z)
    /\ (round2 0.125%float = 0.13%float
        /\ round2 (-0.125)%float = (-0.12)%float
        /\ round2 1.005%float = 1.01%float)
    /\ (((-0.125 - EPSILON + EPSILON) * 100)%float = (-12.5)%float
        /\ mathRound (-12.5)%float = (-12)%float
        /\ mathRound 12.5%float = 13%float
        /\ mathRound (-0.5)%float = (-0)%float
        /\ mathRound 0.5%float = 1%float
        /\ round2 (-0.125 - EPSILON)%float = (-0.12)%float
        /\ round2 (0.125 - EPSILON)%float = 0.13%float).
Proof.
  intros sid txs summary st r.
  assert (Havg : Report.avgTransactionAmount r
                 = match txs with
                   | [] => 0%float
                   | _ :: _ => round2 (sumAmounts txs / ofZ (Z.of_nat (length txs)))%float
                   end).
  { subst r. unfold computeAnalytics.
    cbn [Report.avgTransactionAmount Report.transactionCount].
    destruct txs; reflexivity. }
  destruct (@totals_are_rounded_sums localeCompare Summary sid txs summary) as [TI TE].
  fold r in TI, TE.
  split; [|split; [|split; [|split; [|split; [|split; [|split; [|split; [|split;
    [|split; [|split]]]]]]]]]].
  - subst r st. unfold computeAnalytics.
    cbn [Report.totalIncome Report.totalExpense Report.net Report.byCategory
         Report.top5Expenses Report.monthlyTrends].
    split; [reflexivity|]. split; [reflexivity|]. split; [reflexivity|].
    split; [reflexivity|]. split; [|split; [|exact Havg]].
    + apply Forall_forall. intros e He. apply in_map_iff in He.
      destruct He as (e0 & <- & He0). exists e0. split; [|reflexivity].
      apply (Permutation_in _ (sort_perm expenseAfter _)).
      rewrite <- (firstn_skipn 5 (sort expenseAfter _)). apply in_or_app. now left.
    + apply Forall_forall. intros tr Htr. apply in_map_iff in Htr.
      destruct Htr as ([m agg] & <- & Hin). exists agg. split; [|split; reflexivity].
      apply (Permutation_in _ (sort_perm (monthAfter localeCompare) _)). exact Hin.
  - split; [exact TI|]. split; [exact TE|].
    split.
    { subst r. unfold computeAnalytics. cbn [Report.net]. rewrite sums_fold.
      cbn [initialState sums].
      destruct (totals_fold txs zeroTotals) as [I E]. rewrite I, E. reflexivity. }
    split; [intros k; apply byCategory_categories|].
    split; [intros m; apply monthlyTrends_months|].
    split.
    { intros k v Hin. subst r st. unfold computeAnalytics in Hin.
      cbn [Report.byCategory] in Hin. apply objectMapRound2_In in Hin.
      destruct Hin as (c & -> & Hin). exists c. split; [assumption|reflexivity]. }
    split.
    { intros k v Hin Hn Hm.
      exact (@byCategory_entry localeCompare Summary sid txs summary k v Hn Hm Hin). }
    split; [apply top5_selection|].
    split.
    { subst r. rewrite top5_selection. apply Forall_forall. intros e He.
      apply in_map_iff in He. destruct He as (e0 & <- & He0).
      apply In_firstn in He0.
      apply (Permutation_in _ (sort_perm expenseAfter _)) in He0.
      apply in_map_iff in He0. destruct He0 as (t & <- & Ht). apply filter_In in Ht.
      destruct Ht as [Ht Hd]. exists t. split; [assumption|].
      split; [now apply str_eqb_eq | reflexivity]. }
    split.
    { apply Forall_forall. intros tr Htr.
      exact (@monthlyTrends_sums localeCompare Summary sid txs summary tr Htr). }
    rewrite Havg. destruct txs; [reflexivity|]. now rewrite sumAmounts_sumOf.
  - exact round2Exact_nearest.
  - exact round2Exact_half_away.
  - exact round2Exact_tie.
  - intros v Ht Hv. rewrite round2Exact_tie, roundHalfAway_tie_nonneg by assumption.
    reflexivity.
  - intros v Ht Hv. rewrite round2Exact_tie, roundHalfAway_tie_neg by assumption. lra.
  - intros x Hx. split.
    + apply (FloatFacts.round2_value x Hx).
    + apply FloatFacts.round2_two_decimals. exact Hx.
  - intros x Hx. split.
    + apply (FloatFacts.round2_value x Hx).
    + apply (FloatFacts.round_value x Hx).
  - exact nearestInteger_half.
  - repeat split; vm_compute; reflexivity.
  - repeat split; vm_compute; reflexivity.
Qed.

End RoundedOutputs.

(** C5, as stated, fails.  -0.125 lies half-way between -0.13 and -0.12;
    rounding half away from zero gives -0.13, and [round2] gives -0.12, over
    the rationals and in binary64; it is what [net] shows for a single debit of
    0.125.  Adding [epsilon] first does not help: at [-0.125 - epsilon] the
    sum is the tie, and [round2] again gives -0.12, in binary64 too, where the
    sum is -0.125 and its product by 100 is -12.5, which [Math.round] takes to
    -12. *)
Lemma round2_negative_tie_counterexample :
  isTie (-1 # 8)
  /\ (roundHalfAwayFromZero2 (-1 # 8) == -13 # 100)%Q
  /\ (round2Exact (-1 # 8) == -12 # 100)%Q
  /\ round2 (-0.125)%float = (-0.12)%float
  /\ Report.net (computeAnalytics codeUnitCompare [] [debitEighth] tt) = (-0.12)%float
  /\ (roundHalfAwayFromZero2 ((-1 # 8) - epsilonQ + epsilonQ) == -13 # 100)%Q
  /\ (round2Exact ((-1 # 8) - epsilonQ) == -12 # 100)%Q
  /\ (-0.125 - EPSILON + EPSILON)%float = (-0.125)%float
  /\ ((-0.125 - EPSILON + EPSILON) * 100)%float = (-12.5)%float
  /\ mathRound (-12.5)%float = (-12)%float
  /\ round2 (-0.125 - EPSILON)%float = (-0.12)%float.
Proof.
  split; [exists (-12)%Z; reflexivity|].
  repeat split; vm_compute; reflexivity.
Qed.

(* ------------------------------------------------------------------------- *)
(** ** The theorems at work *)

(** [undated_transaction_only_misses_trends] on a credit of 100 of January
    followed by a debit of 40 without a date: the debit is in the expense, in
    the category, in the count and in the average, and the trends have the
    entry of January only, with the credit. *)
Lemma undated_transaction_witness :
  undated undatedDebit
  /\ (let all := [datedCredit] ++ undatedDebit :: [] in
      let r := computeAnalytics codeUnitCompare [] all tt in
      Report.monthlyTrends r
        = Report.monthlyTrends (computeAnalytics codeUnitCompare [] ([datedCredit] ++ []) tt)
      /\ Report.totalIncome r
         = round2 (income (fold_left addTransaction all zeroTotals))
      /\ Report.totalExpense r
         = round2 (expense (fold_left addTransaction all zeroTotals))
      /\ Report.byCategory r = objectMapRound2 (fold_left addCategory all [])
      /\ Report.transactionCount r = S (length [datedCredit] + length (@nil Transaction))
      /\ Report.avgTransactionAmount r
         = round2 (sumAmounts all / ofZ (Z.of_nat (length all)))%float
      /\ In undatedDebit all
      /\ Report.totalIncome r
         = round2 (sumOf (creditAmounts [datedCredit]
                          ++ (if isCredit undatedDebit then [amount undatedDebit] else [])
                          ++ creditAmounts []))
      /\ Report.totalExpense r
         = round2 (sumOf (otherAmounts [datedCredit]
                          ++ (if isCredit undatedDebit then [] else [amount undatedDebit])
                          ++ otherAmounts []))
      /\ Report.avgTransactionAmount r
         = round2 (sumOf (map amount [datedCredit] ++ amount undatedDebit :: map amount [])
                   / ofZ (Z.of_nat (S (length [datedCredit] + length (@nil Transaction)))))%float
      /\ (categoryKey undatedDebit <> str "__proto__" ->
          exists v,
            In (categoryKey undatedDebit, v) (Report.byCategory r)
            /\ (Forall (fun t' => notNegative (amount t')) all ->
                inheritedMethod (categoryKey undatedDebit) = false ->
                v = round2 (sumOf (map amount
                                     (filter (inCategory (categoryKey undatedDebit))
                                             [datedCredit])
                                   ++ amount undatedDebit
                                      :: map amount
                                           (filter (inCategory (categoryKey undatedDebit))
                                                   [])))))
      /\ (forall d : option jsstring,
            let r' := computeAnalytics codeUnitCompare []
                        ([datedCredit] ++ withDate d undatedDebit :: []) tt in
            Report.totalIncome r' = Report.totalIncome r
            /\ Report.totalExpense r' = Report.totalExpense r
            /\ Report.net r' = Report.net r
            /\ Report.byCategory r' = Report.byCategory r
            /\ Report.transactionCount r' = Report.transactionCount r
            /\ Report.avgTransactionAmount r' = Report.avgTransactionAmount r)
      /\ Forall (fun tr =>
                   Trend.month tr <> monthKey undatedDebit
                   /\ Trend.income tr
                      = round2 (sumOf (creditAmounts
                                         (filter (inMonth (Trend.month tr))
                                                 ([datedCredit] ++ []))))
                   /\ Trend.expense tr
                      = round2 (sumOf (otherAmounts
                                         (filter (inMonth (Trend.month tr))
                                                 ([datedCredit] ++ [])))))
                (Report.monthlyTrends r)
      /\ (forall m, In m (map Trend.month (Report.monthlyTrends r))
                    <-> m <> []
                        /\ exists t', In t' ([datedCredit] ++ []) /\ monthKey t' = m))
  /\ (let r := computeAnalytics codeUnitCompare [] [datedCredit; undatedDebit] tt in
      Report.totalIncome r = 100%float
      /\ Report.totalExpense r = 40%float
      /\ Report.net r = 60%float
      /\ Report.byCategory r = [(str "other", 140%float)]
      /\ Report.transactionCount r = 2
      /\ Report.avgTransactionAmount r = 70%float
      /\ Report.monthlyTrends r
         = [ {| Trend.month := str "2024-01"; Trend.income := 100%float;
                Trend.expense := 0%float |} ]).
Proof.
  split; [left; reflexivity|]. split.
  - exact (@undated_transaction_only_misses_trends codeUnitCompare unit [] tt
             [datedCredit] [] undatedDebit (or_introl eq_refl)).
  - repeat split; vm_compute; reflexivity.
Defined.

(** [top5_expenses_sorted_and_stable] on the seven debits and the credit of
    [ledger]: the five largest debits are returned, the debits of 20 and of 10
    and the credit are not, and the three debits of 30 stand in the order of
    the list. *)
Lemma top5_expenses_witness :
  Forall (fun t => isNaN (amount t) = false) ledger
  /\ (exists top : list Expense.t,
        Report.top5Expenses (computeAnalytics codeUnitCompare [] ledger tt)
          = map roundExpense top
        /\ length top <= 5
        /\ (forall e, In e top ->
              exists t, In t ledger /\ type t = str "debit" /\ e = expenseOf t)
        /\ StronglySorted notBelow
             (Report.top5Expenses (computeAnalytics codeUnitCompare [] ledger tt))
        /\ StronglySorted notBelow top
        /\ (forall a : number,
              prefixOf (withAmount a top)
                       (withAmount a (map expenseOf (filter isDebit ledger)))))
  /\ Report.top5Expenses (computeAnalytics codeUnitCompare [] ledger tt)
     = [ledgerEntry 50%float "2024-02-06" "e"; ledgerEntry 40%float "2024-02-07" "f";
        ledgerEntry 30%float "2024-02-01" "a"; ledgerEntry 30%float "2024-02-04" "c";
        ledgerEntry 30%float "2024-02-08" "g"]
  /\ length (filter isDebit ledger) = 7.
Proof.
  split; [repeat constructor|]. split.
  - apply (@top5_expenses_sorted_and_stable codeUnitCompare unit [] ledger tt).
    repeat constructor.
  - split; vm_compute; reflexivity.
Defined.

(** [computeAnalytics_leaves_inputs_unchanged] on the sample store. *)
Lemma computeAnalytics_frame_witness :
  nth_error sampleHeap 2 = Some (Heap.ObjArray unit [0; 1])
  /\ Heap.refersTo sampleHeap [0; 1] [debitA; debitB]
  /\ exists r h',
      Heap.computeAnalytics codeUnitCompare [] 2 3 sampleHeap = Some (r, h')
      /\ Heap.preserves sampleHeap h'.
Proof.
  split; [reflexivity|]. split; [repeat constructor|].
  destruct (@HeapFacts.computeAnalytics_leaves_inputs_unchanged codeUnitCompare unit []
              sampleHeap 2 3 [0; 1] [debitA; debitB] eq_refl
              (Forall2_cons 0 debitA eq_refl (Forall2_cons 1 debitB eq_refl (Forall2_nil _))))
    as (r & h' & E & P & _).
  exists r, h'. split; assumption.
Defined.
(* ------------------------------------------------------------------------- *)
(** ** The further properties at work *)

(** [round2_keeps_order] on 1.005 and 2.675. *)
Lemma round2_keeps_order_witness :
  isNaN 1.005%float = false /\ isNaN 2.675%float = false
  /\ PrimFloat.leb 1.005 2.675 = true
  /\ PrimFloat.leb (round2 1.005%float) (round2 2.675%float) = true.
Proof.
  split; [reflexivity|]. split; [reflexivity|]. split; [reflexivity|].
  exact (proj1 (@round2_keeps_order 1.005%float 2.675%float eq_refl eq_refl eq_refl)).
Defined.

(** [top5_holds_the_largest_debits] on the two debits of 10.001 and 10.004. *)
Lemma top5_largest_witness :
  Forall (fun t => isNaN (amount t) = false) [debitA; debitB]
  /\ exists kept left : list Expense.t,
      Report.top5Expenses (computeAnalytics codeUnitCompare [] [debitA; debitB] tt)
        = map roundExpense kept
      /\ length kept = Nat.min 5 (length (filter isDebit [debitA; debitB])).
Proof.
  split; [repeat constructor|].
  destruct (@top5_holds_the_largest_debits codeUnitCompare unit [] [debitA; debitB] tt)
    as (kept & left & H1 & _ & H3 & _); [repeat constructor|].
  exists kept, left. split; assumption.
Defined.

(** [byCategory_values_are_rounded_sums] on the two debits of 10.001 and
    10.004, both of the category [other]. *)
Lemma byCategory_values_witness :
  Forall (fun t => notNegative (amount t)) [debitA; debitB]
  /\ inheritedMethod (str "other") = false
  /\ In (str "other", round2 (sumOf [10.001; 10.004]%float))
        (Report.byCategory (computeAnalytics codeUnitCompare [] [debitA; debitB] tt))
  /\ notNegative (round2 (sumOf [10.001; 10.004]%float)).
Proof.
  assert (Hn : Forall (fun t => notNegative (amount t)) [debitA; debitB])
    by (repeat constructor).
  assert (Hin : In (str "other", round2 (sumOf [10.001; 10.004]%float))
                   (Report.byCategory
                      (computeAnalytics codeUnitCompare [] [debitA; debitB] tt)))
    by (left; vm_compute; reflexivity).
  split; [exact Hn|]. split; [reflexivity|]. split; [exact Hin|].
  exact (proj2 (@byCategory_values_are_rounded_sums codeUnitCompare unit []
                  [debitA; debitB] tt (str "other") _ Hn eq_refl Hin)).
Defined.

(** [canonical_date_is_read_as_itself] on the fifth of March 2024. *)
Lemma canonical_date_witness :
  (1000 <= 2024 <= 9999)%N /\ (1 <= 3 <= 12)%N /\ (1 <= 5 <= 31)%N
  /\ parseDateStr (str "2024-03-05") = Some (str "2024-03-05").
Proof.
  split; [lia|]. split; [lia|]. split; [lia|].
  exact (@canonical_date_is_read_as_itself 2024 3 5 ltac:(lia) ltac:(lia) ltac:(lia)).
Defined.

(** [dates_in_figures] on the same day, written day first and year first. *)
Lemma dates_in_figures_witness :
  isDateSep 47%N = true /\ isDateSep 46%N = true
  /\ parseDateStr (str "2024/3.05") = Some (str "2024-03-05")
  /\ parseDateStr (str "05/03.24") = Some (str "2024-03-05").
Proof.
  split; [reflexivity|]. split; [reflexivity|]. split.
  - exact (proj1 (@dates_in_figures (str "2024") (str "3") (str "05") 47%N 46%N
                    eq_refl eq_refl) eq_refl eq_refl eq_refl).
  - exact (proj2 (@dates_in_figures (str "05") (str "03") (str "24") 47%N 46%N
                    eq_refl eq_refl) eq_refl eq_refl eq_refl).
Defined.

(** [dates_with_the_name_of_the_month] on the same day. *)
Lemma dates_with_a_name_witness :
  digitsOf 1 2 (str "5") = true
  /\ lookupMonth monthTable (toLowerCase (str "Mar")) = Some 3%N
  /\ digitsOf 2 4 (str "2024") = true
  /\ parseDateStr (str "5 Mar 2024") = Some (str "2024-03-05").
Proof.
  split; [reflexivity|]. split; [reflexivity|]. split; [reflexivity|].
  exact (@dates_with_the_name_of_the_month (str "5") (str "Mar") (str "2024") 3%N
           eq_refl eq_refl eq_refl).
Defined.
